(** * The You six-circle hkl calculator ([diffcalc/hkl/you/calcyou.py])

    A shallow embedding of [calcyou.py] and the properties of its
    forward kinematics, virtual angles, solution enumeration and
    degenerate-position cleanup.

    Number model.  Python floats are modelled by the real numbers [R]
    of the Standard Library: [sin], [cos], [tan], [asin], [acos],
    [atan], [sqrt] and [PI] are the mathematical functions, and no
    rounding takes place.  [R] has neither infinities nor NaN: the one
    NaN the code produces on purpose ([psi] in
    [_anglesToVirtualAngles]) is an [option R]; a division whose
    divisor is zero raises [ZeroDivisionError] in the model.

    Singular points.  The model and the floats part ways only where a
    real number is exactly singular.  Dividing by a numpy float that is
    zero ([1 / norm(...)] in [_calc_N]) gives an infinity in the code
    and then NaN, where the model raises [ZeroDivisionError].  The
    matrix inverse raises [LinAlgError] in the model whenever the
    determinant is zero; numpy raises it only when its factorisation
    meets a pivot that is exactly zero in floating point.  [tan] is the
    quotient of [sin] and [cos], so [tan (PI / 2)] is [0] in the model,
    while no float is [PI / 2] and the tangent of the nearest one is
    about 1.6e16.  The properties below that concern such points state
    them as hypotheses ([norm Q <> 0], [det UB <> 0], theta other than
    45 degrees) or are conditional on a returning call.

    Control model.  Python exceptions are an error monad [result],
    the [for] loops are structural recursions over lists, generators
    are the lists of the values they yield, and the diagnostic [print]
    and [logger] calls, which never change a value, are left out. *)

From Stdlib Require Import Reals Lra Psatz List String Bool ZArith QArith Qreals Qround.
Import ListNotations.
Local Open Scope string_scope.
Local Open Scope R_scope.

(** ** Comparisons on floats, as booleans *)

Definition Rltb (x y : R) : bool := if Rlt_dec x y then true else false.
Definition Rleb (x y : R) : bool := if Rle_dec x y then true else false.
Definition Req_bool (x y : R) : bool := if Req_dec_T x y then true else false.

(** ** Exceptions *)

Inductive exn : Type :=
| DiffcalcException (msg : string)
| NoSolutionException (msg : string)
| Exception (msg : string)
| ValueError (msg : string)
| AssertionError (msg : string)
| RuntimeError (msg : string)
| TypeError
| KeyError
| UnboundLocalError
| ZeroDivisionError
| LinAlgError.

Inductive result (A : Type) : Type :=
| Return (a : A)
| Raise (e : exn).
Arguments Return {A} a.
Arguments Raise {A} e.

Definition bind {A B : Type} (m : result A) (f : A -> result B) : result B :=
  match m with
  | Return a => f a
  | Raise e => Raise e
  end.

Notation "x <- m ;; k" := (bind m (fun x => k))
  (at level 61, m at next level, right associativity).
Notation "' pat <- m ;; k" := (bind m (fun x => match x with pat => k end))
  (at level 61, pat pattern, m at next level, right associativity).

(** ** The [math] module *)

(** A float division: [ZeroDivisionError] on a zero divisor. *)
Definition py_div (a b : R) : result R :=
  if Req_bool b 0 then Raise ZeroDivisionError else Return (a / b).

(** [math.asin] and [math.acos] raise [ValueError] outside [-1, 1]. *)
Definition py_asin (x : R) : result R :=
  if Rleb (Rabs x) 1 then Return (asin x)
  else Raise (ValueError "math domain error").

Definition py_acos (x : R) : result R :=
  if Rleb (Rabs x) 1 then Return (acos x)
  else Raise (ValueError "math domain error").

(** [math.atan2 y x]: the angle of the point [(x, y)], in [(-pi, pi]]. *)
Definition atan2 (y x : R) : R :=
  if Rltb 0 x then atan (y / x)
  else if Rltb x 0 then
         if Rleb 0 y then atan (y / x) + PI else atan (y / x) - PI
  else if Rltb 0 y then PI / 2
  else if Rltb y 0 then - (PI / 2)
  else 0.

(** ** [numpy]: 3x1 and 3x3 matrices *)

Record vector : Type := Vector { v0 : R; v1 : R; v2 : R }.

Record matrix : Type := Matrix {
  m00 : R; m01 : R; m02 : R;
  m10 : R; m11 : R; m12 : R;
  m20 : R; m21 : R; m22 : R }.

Definition I : matrix := Matrix 1 0 0  0 1 0  0 0 1.

Definition mmul (a b : matrix) : matrix :=
  Matrix
    (m00 a * m00 b + m01 a * m10 b + m02 a * m20 b)
    (m00 a * m01 b + m01 a * m11 b + m02 a * m21 b)
    (m00 a * m02 b + m01 a * m12 b + m02 a * m22 b)
    (m10 a * m00 b + m11 a * m10 b + m12 a * m20 b)
    (m10 a * m01 b + m11 a * m11 b + m12 a * m21 b)
    (m10 a * m02 b + m11 a * m12 b + m12 a * m22 b)
    (m20 a * m00 b + m21 a * m10 b + m22 a * m20 b)
    (m20 a * m01 b + m21 a * m11 b + m22 a * m21 b)
    (m20 a * m02 b + m21 a * m12 b + m22 a * m22 b).

Definition mvec (a : matrix) (v : vector) : vector :=
  Vector
    (m00 a * v0 v + m01 a * v1 v + m02 a * v2 v)
    (m10 a * v0 v + m11 a * v1 v + m12 a * v2 v)
    (m20 a * v0 v + m21 a * v1 v + m22 a * v2 v).

Definition msub (a b : matrix) : matrix :=
  Matrix
    (m00 a - m00 b) (m01 a - m01 b) (m02 a - m02 b)
    (m10 a - m10 b) (m11 a - m11 b) (m12 a - m12 b)
    (m20 a - m20 b) (m21 a - m21 b) (m22 a - m22 b).

Definition mscale (a : matrix) (s : R) : matrix :=
  Matrix
    (m00 a * s) (m01 a * s) (m02 a * s)
    (m10 a * s) (m11 a * s) (m12 a * s)
    (m20 a * s) (m21 a * s) (m22 a * s).

Definition vscale (v : vector) (s : R) : vector :=
  Vector (v0 v * s) (v1 v * s) (v2 v * s).

(** [a.T] *)
Definition transpose (a : matrix) : matrix :=
  Matrix
    (m00 a) (m10 a) (m20 a)
    (m01 a) (m11 a) (m21 a)
    (m02 a) (m12 a) (m22 a).

Definition det (a : matrix) : R :=
  m00 a * (m11 a * m22 a - m12 a * m21 a)
  - m01 a * (m10 a * m22 a - m12 a * m20 a)
  + m02 a * (m10 a * m21 a - m11 a * m20 a).

Definition adjugate (a : matrix) : matrix :=
  Matrix
    (m11 a * m22 a - m12 a * m21 a)
    (m02 a * m21 a - m01 a * m22 a)
    (m01 a * m12 a - m02 a * m11 a)
    (m12 a * m20 a - m10 a * m22 a)
    (m00 a * m22 a - m02 a * m20 a)
    (m02 a * m10 a - m00 a * m12 a)
    (m10 a * m21 a - m11 a * m20 a)
    (m01 a * m20 a - m00 a * m21 a)
    (m00 a * m11 a - m01 a * m10 a).

(** [a.I]: [LinAlgError] on a singular matrix. *)
Definition inverse (a : matrix) : result matrix :=
  if Req_bool (det a) 0 then Raise LinAlgError
  else Return (mscale (adjugate a) (/ det a)).

(** [numpy.linalg.norm] of a 3x1 matrix. *)
Definition norm (v : vector) : R :=
  sqrt (v0 v * v0 v + v1 v * v1 v + v2 v * v2 v).

(** ** Collaborators of [calcyou.py] that live in other modules *)

(** Modelled from the spec: [diffcalc.utils.x_rotation],
    [y_rotation] and [z_rotation] are not under src/.  They are the
    right-handed rotations about the three lab axes; the spec calls
    their products "the per-axis rotation matrices (one per
    mechanical circle)". *)
Definition x_rotation (th : R) : matrix :=
  Matrix 1 0 0
         0 (cos th) (- sin th)
         0 (sin th) (cos th).

Definition y_rotation (th : R) : matrix :=
  Matrix (cos th) 0 (sin th)
         0 1 0
         (- sin th) 0 (cos th).

Definition z_rotation (th : R) : matrix :=
  Matrix (cos th) (- sin th) 0
         (sin th) (cos th) 0
         0 0 1.

(** Modelled from the spec: [diffcalc.hkl.you.matrices] is not under
    src/.  "RotationMatrixFactory: given six angles, returns the
    per-axis rotation matrices (one per mechanical circle)"; the axes
    and senses are those of the six-circle geometry whose equations
    (12) and (18)-(20) [calcyou.py] cites: mu and nu turn about x,
    delta, eta and phi about -z, chi about y.  The four fixtures of
    [test_calcyou_against_i16.py] hold for these matrices. *)
Definition calcNU (nu : R) : matrix := x_rotation nu.
Definition calcDELTA (delta : R) : matrix := z_rotation (- delta).
Definition calcMU (mu : R) : matrix := x_rotation mu.
Definition calcETA (eta : R) : matrix := z_rotation (- eta).
Definition calcCHI (chi : R) : matrix := y_rotation chi.
Definition calcPHI (phi : R) : matrix := z_rotation (- phi).

Definition createYouMatrices (mu delta nu eta chi phi : R)
  : matrix * matrix * matrix * matrix * matrix * matrix :=
  (calcMU mu, calcDELTA delta, calcNU nu, calcETA eta, calcCHI chi, calcPHI phi).

(** Modelled from the spec: [diffcalc.utils.bound] is not under src/.
    It moves its argument into [-1, 1] ("every asin/acos argument is
    clamped to [-1, 1] by bound"). *)
Definition bound (x : R) : R :=
  if Rltb 1 x then 1 else if Rltb x (-1) then -1 else x.

(** Modelled from the spec: [diffcalc.utils.cross3] and [dot3] are not
    under src/; the cross and dot products of two 3x1 matrices. *)
Definition cross3 (a b : vector) : vector :=
  Vector (v1 a * v2 b - v2 a * v1 b)
         (v2 a * v0 b - v0 a * v2 b)
         (v0 a * v1 b - v1 a * v0 b).

Definition dot3 (a b : vector) : R :=
  v0 a * v0 b + v1 a * v1 b + v2 a * v2 b.

(** Modelled from the spec: [diffcalc.utils.angle_between_vectors] is
    not under src/; "tau (angle between target scattering vector and
    reference direction)": the arc cosine of the dot product of the
    two normalised vectors. *)
Definition angle_between_vectors (a b : vector) : result R :=
  ia <- py_div 1 (norm a) ;;
  ib <- py_div 1 (norm b) ;;
  py_acos (bound (dot3 (vscale a ia) (vscale b ib))).

(** Modelled from the spec: [diffcalc.hkl.you.position.YouPosition] is
    not under src/; "PositionVector: six scalar angles (mu, delta,
    nu, eta, chi, phi), radians". *)
Module YouPosition.
Record t : Type := make {
  mu : R; delta : R; nu : R; eta : R; chi : R; phi : R }.
Definition totuple (pos : t) : R * R * R * R * R * R :=
  (mu pos, delta pos, nu pos, eta pos, chi pos, phi pos).
End YouPosition.

(** A Python [dict] from names to floats, in [items()] order. *)
Definition dict : Type := list (string * R).

Definition dict_in (k : string) (d : dict) : bool :=
  existsb (fun kv => String.eqb (fst kv) k) d.

Fixpoint dict_get (d : dict) (k : string) : result R :=
  match d with
  | [] => Raise KeyError
  | (k', v) :: d' => if String.eqb k' k then Return v else dict_get d' k
  end.

Definition dict_keys (d : dict) : list string := map fst d.

(** Truth value of a dict: non-empty. *)
Definition dict_truth (d : dict) : bool :=
  match d with [] => false | _ :: _ => true end.

Definition name_in (k : string) (names : list string) : bool :=
  existsb (String.eqb k) names.

(** The constraint manager, as [calcyou.py] reads it: four dicts.  The
    value stored under ['a_eq_b'] is never read. *)
Module YouConstraintManager.
Record t : Type := make {
  reference : dict;
  detector : dict;
  naz : dict;
  sample : dict }.
End YouConstraintManager.

(** The hardware collaborator, as [calcyou.py] calls it. *)
Module Hardware.
Record t : Type := make {
  isAxisValueWithinLimits : string -> R -> bool;
  cutAngle : string -> R -> R }.
End Hardware.

(** ** [calcyou.py]: module-level definitions *)

Definition SMALL : R := 1e-8.
Definition TORAD : R := PI / 180.
Definition TODEG : R := 180 / PI.

Definition is_small (x : R) : bool := Rltb (Rabs x) SMALL.

Definition ne (a b : R) : bool := is_small (a - b).

Fixpoint sequence_ne (a_seq b_seq : list R) : bool :=
  match a_seq, b_seq with
  | a :: a_seq', b :: b_seq' => if negb (ne a b) then false else sequence_ne a_seq' b_seq'
  | _, _ => true
  end.

Definition sign (x : R) : R := if Rltb 0 x then 1 else -1.

Definition cut_at_minus_pi (value : R) : R :=
  if Rltb value (- PI - SMALL) then value + 2 * PI
  else if Rleb (PI + SMALL) value then value - 2 * PI
  else value.

(** Equation 31.  The second line divides [n] by the norm of the
    already normalised [Q], as the source does. *)
Definition _calc_N (Q n : vector) : result matrix :=
  iQ <- py_div 1 (norm Q) ;;
  let Q := vscale Q iQ in
  iQ' <- py_div 1 (norm Q) ;;
  let n := vscale n iQ' in
  a <- angle_between_vectors Q n ;;
  if is_small a then
    Raise (ValueError "Q and n are parallel and cannot be used to create an orthonormal matrix")
  else
    let Qxn := cross3 Q n in
    let QxnxQ := cross3 Qxn Q in
    i1 <- py_div 1 (norm QxnxQ) ;;
    let QxnxQ := vscale QxnxQ i1 in
    i2 <- py_div 1 (norm Qxn) ;;
    let Qxn := vscale Qxn i2 in
    Return (Matrix (v0 Q) (v0 QxnxQ) (v0 Qxn)
                   (v1 Q) (v1 QxnxQ) (v1 Qxn)
                   (v2 Q) (v2 QxnxQ) (v2 Qxn)).

(** Equation 30. *)
Definition _calc_angle_between_naz_and_qaz (theta alpha tau : R) : result R :=
  let top := cos tau - sin alpha * sin theta in
  let bottom := cos alpha * cos theta in
  if is_small bottom then Raise (ValueError "cos(alpha) or cos(theta) are too small")
  else q <- py_div top bottom ;; py_acos (bound q).

(** Miller indices from a position in radians. *)
Definition youAnglesToHkl (pos : YouPosition.t) (wavelength : R) (UBmatrix : matrix)
  : result (R * R * R) :=
  let '(mu, delta, nu, eta, chi, phi) := YouPosition.totuple pos in
  let '(MU, DELTA, NU, ETA, CHI, PHI) := createYouMatrices mu delta nu eta chi phi in
  k <- py_div (2 * PI) wavelength ;;
  let q_lab := mvec (msub (mmul NU DELTA) I) (Vector 0 k 0) in
  UBi <- inverse UBmatrix ;;
  PHIi <- inverse PHI ;;
  CHIi <- inverse CHI ;;
  ETAi <- inverse ETA ;;
  MUi <- inverse MU ;;
  let hkl := mvec (mmul (mmul (mmul (mmul UBi PHIi) CHIi) ETAi) MUi) q_lab in
  Return (v0 hkl, v1 hkl, v2 hkl).

Definition _tidy_degenerate_solutions (pos : YouPosition.t) (constraints : YouConstraintManager.t)
  : YouPosition.t :=
  let detector_like_constraint :=
    dict_truth (YouConstraintManager.detector constraints)
    || dict_truth (YouConstraintManager.naz constraints) in
  let nu_constrained_to_0 := is_small (YouPosition.nu pos) && detector_like_constraint in
  let mu_constrained_to_0 :=
    is_small (YouPosition.mu pos) && dict_in "mu" (YouConstraintManager.sample constraints) in
  let delta_constrained_to_0 := is_small (YouPosition.delta pos) && detector_like_constraint in
  let eta_constrained_to_0 :=
    is_small (YouPosition.eta pos) && dict_in "eta" (YouConstraintManager.sample constraints) in
  if nu_constrained_to_0 && mu_constrained_to_0 then
    if is_small (YouPosition.chi pos) then
      let desired_eta := YouPosition.delta pos / 2 in
      let eta_diff := desired_eta - YouPosition.eta pos in
      YouPosition.make (YouPosition.mu pos) (YouPosition.delta pos) (YouPosition.nu pos)
                       (YouPosition.eta pos + eta_diff) (YouPosition.chi pos)
                       (YouPosition.phi pos - eta_diff)
    else pos
  else if delta_constrained_to_0 && eta_constrained_to_0 then
    if is_small (YouPosition.chi pos - PI / 2) then
      let desired_mu := YouPosition.nu pos / 2 in
      let mu_diff := desired_mu - YouPosition.mu pos in
      YouPosition.make (YouPosition.mu pos + mu_diff) (YouPosition.delta pos) (YouPosition.nu pos)
                       (YouPosition.eta pos) (YouPosition.chi pos)
                       (YouPosition.phi pos + mu_diff)
    else pos
  else pos.

(** Equation 19. *)
Definition _theta_and_qaz_from_detector_angles (delta nu : R) : result (R * R) :=
  let cos_2theta := cos delta * cos nu in
  a <- py_acos (bound cos_2theta) ;;
  let theta := a / 2 in
  let qaz := atan2 (tan delta) (sin nu) in
  Return (theta, qaz).

(** [for delta, nu in ...]: unpacking a tuple of the wrong length is a
    [ValueError]. *)
Definition unpack2 (t : list R) : result (R * R) :=
  match t with
  | [a; b] => Return (a, b)
  | _ => Raise (ValueError "unpack")
  end.

Definition unpack4 (t : list R) : result (R * R * R * R) :=
  match t with
  | [a; b; c; d] => Return (a, b, c, d)
  | _ => Raise (ValueError "unpack")
  end.

Fixpoint _filter_detector_solutions_by_theta_and_qaz
  (possible_delta_nu_pairs : list (list R)) (required_theta required_qaz : R)
  : result (list (R * R)) :=
  match possible_delta_nu_pairs with
  | [] => Return []
  | delta_nu :: rest =>
      '(delta, nu) <- unpack2 delta_nu ;;
      '(theta, qaz) <- _theta_and_qaz_from_detector_angles delta nu ;;
      delta_nu_pairs <- _filter_detector_solutions_by_theta_and_qaz rest required_theta required_qaz ;;
      if ne theta required_theta && ne qaz required_qaz
      then Return ((delta, nu) :: delta_nu_pairs)
      else Return delta_nu_pairs
  end.

(** The generator, as the list of the values it yields. *)
Definition _generate_transformed_values (value : R) (constrained : bool) : list R :=
  if constrained then [value]
  else if is_small value then [0; PI]
  else if is_small (value - PI / 2) || is_small (value + PI / 2) then [PI / 2; - (PI / 2)]
  else [value; - value; PI + value; PI - value].

(** ** [class YouHklCalculator] *)

(** The dictionary of virtual angles [_anglesToVirtualAngles] returns.
    [psi] is the one float that can be NaN: [None]. *)
Module VirtualAngles.
Record t : Type := make {
  theta : R; qaz : R; alpha : R; naz : R; tau : R; psi : option R; beta : R }.

(** [virtual_angles[name]] *)
Definition get (va : t) (name : string) : result (option R) :=
  if String.eqb name "theta" then Return (Some (theta va))
  else if String.eqb name "qaz" then Return (Some (qaz va))
  else if String.eqb name "alpha" then Return (Some (alpha va))
  else if String.eqb name "naz" then Return (Some (naz va))
  else if String.eqb name "tau" then Return (Some (tau va))
  else if String.eqb name "psi" then Return (psi va)
  else if String.eqb name "beta" then Return (Some (beta va))
  else Raise KeyError.
End VirtualAngles.

(** [ne a b] where [b] may be NaN: every comparison with NaN is false. *)
Definition ne_nan (a : R) (b : option R) : bool :=
  match b with
  | Some b => ne a b
  | None => false
  end.

(** The attributes of [self] the methods read. *)
Module YouHklCalculator.
Record t : Type := make {
  _getUBMatrix : matrix;
  _hardware : Hardware.t;
  constraints : YouConstraintManager.t;
  n_phi : vector }.

(** [__init__] *)
Definition init (ubmatrix : matrix) (hardware : Hardware.t)
           (constraints : YouConstraintManager.t) : t :=
  make ubmatrix hardware constraints (Vector 0 0 1).
End YouHklCalculator.

Definition _anglesToHkl (self : YouHklCalculator.t) (pos : YouPosition.t) (wavelength : R)
  : result (R * R * R) :=
  youAnglesToHkl pos wavelength (YouHklCalculator._getUBMatrix self).

(** Pseudo-angles in radians from a position in radians. *)
Definition _anglesToVirtualAngles (self : YouHklCalculator.t) (pos : YouPosition.t)
           (_wavelength : R) : result VirtualAngles.t :=
  let '(mu, delta, nu, eta, chi, phi) := YouPosition.totuple pos in
  '(theta, qaz) <- _theta_and_qaz_from_detector_angles delta nu ;;
  let '(MU, _, _, ETA, CHI, PHI) := createYouMatrices mu delta nu eta chi phi in
  let Z := mmul (mmul (mmul MU ETA) CHI) PHI in
  let n_lab := mvec Z (YouHklCalculator.n_phi self) in
  alpha <- py_asin (bound (- v1 n_lab)) ;;
  let naz := atan2 (v0 n_lab) (v2 n_lab) in
  let cos_tau := cos alpha * cos theta * cos (naz - qaz) + sin alpha * sin theta in
  tau <- py_acos (bound cos_tau) ;;
  let sin_beta := 2 * sin theta * cos tau - sin alpha in
  beta <- py_asin (bound sin_beta) ;;
  let sin_tau := sin tau in
  let cos_theta := cos theta in
  psi <- (if Req_bool sin_tau 0 then Return None
          else if Req_bool cos_theta 0 then Return None
          else
            cos_psi <- py_div (cos tau * sin theta - sin alpha) (sin_tau * cos_theta) ;;
            psi <- py_acos (bound cos_psi) ;;
            Return (Some psi)) ;;
  Return (VirtualAngles.make theta qaz alpha naz tau psi beta).

(** Equation 1. *)
Definition _calc_theta (self : YouHklCalculator.t) (h_phi : vector) (wavelength : R)
  : result R :=
  let q_length := norm h_phi in
  if Req_bool q_length 0 then
    Raise (DiffcalcException "Reflection is unreachable as |Q| is 0")
  else
    wavevector <- py_div (2 * PI) wavelength ;;
    match (q <- py_div q_length (2 * wavevector) ;; py_asin q) with
    | Return theta => Return theta
    | Raise (ValueError _) =>
        Raise (DiffcalcException "Reflection is unreachable as |Q| is too long")
    | Raise e => Raise e
    end.

(** psi, alpha and beta given one of a_eq_b, alpha, beta or psi. *)
Definition _calc_remaining_reference_angles (self : YouHklCalculator.t)
           (name : string) (value theta tau : R) : result (R * R * R) :=
  if Req_bool (sin tau) 0 then
    Raise (DiffcalcException
      "The constraint %s could not be used to determine a unique azimuth (psi) as the scattering vector (Q) and the reference vector (n) are parallel")
  else if Req_bool (cos theta) 0 then
    Raise (DiffcalcException
      "The constraint %s could not be used to determine a unique azimuth (psi) as the scattering vector (Q) and xray beam are are parallel and don't form a unique'reference plane")
  else
    '(psi_given, alpha, beta) <-
      (if String.eqb name "psi" then
         let psi := value in
         (* Equation 26 for alpha *)
         let sin_alpha := cos tau * sin theta - cos theta * sin tau * cos psi in
         if Rltb (1 + SMALL) (Rabs sin_alpha) then
           Raise (DiffcalcException "No reflection can be reached where psi = %.4f.")
         else
           alpha <- py_asin (bound sin_alpha) ;;
           (* Equation 27 for beta *)
           let sin_beta := cos tau * sin theta + cos theta * sin tau * cos psi in
           if Rltb (1 + SMALL) (Rabs sin_beta) then
             Raise (DiffcalcException "No reflection can be reached where psi = %.4f.")
           else
             beta <- py_asin (bound sin_beta) ;;
             Return (Some psi, alpha, beta)
       else if String.eqb name "a_eq_b" then
         alpha <- py_asin (bound (cos tau * sin theta)) ;;
         Return (None, alpha, alpha)
       else if String.eqb name "alpha" then
         let alpha := value in
         let sin_beta := 2 * sin theta * cos tau - sin alpha in
         beta <- py_asin sin_beta ;;
         Return (None, alpha, beta)
       else if String.eqb name "beta" then
         let beta := value in
         let sin_alpha := 2 * sin theta * cos tau - sin beta in
         if Rltb (1 + SMALL) (Rabs sin_alpha) then
           Raise (DiffcalcException "No reflection can be reached where beta = %.4f.")
         else
           alpha <- py_asin sin_alpha ;;
           Return (None, alpha, beta)
       else Raise UnboundLocalError) ;;
    match psi_given with
    | Some psi => Return (psi, alpha, beta)
    | None =>
        cos_psi <- py_div (cos tau * sin theta - sin alpha) (sin tau * cos theta) ;;
        psi <- py_acos (bound cos_psi) ;;
        Return (psi, alpha, beta)
    end.

(** delta, nu and qaz given one detector angle (section 5.1).  In the
    two [is_small(sin_2theta)] branches the message is built as
    [('...' % theta) * TODEG], a string times a float: that
    [TypeError] is what the [raise] statement produces. *)
Definition _calc_remaining_detector_angles (self : YouHklCalculator.t)
           (constraint_name : string) (constraint_value theta : R) : result (R * R * R) :=
  '(delta_given, nu_given, qaz) <-
    (if String.eqb constraint_name "delta" then
       let delta := constraint_value in
       let sin_2theta := sin (2 * theta) in
       if is_small sin_2theta then Raise TypeError
       else
         q <- py_div (sin delta) sin_2theta ;;
         qaz <- py_asin (bound q) ;;
         Return (Some delta, None, qaz)
     else if String.eqb constraint_name "nu" then
       let nu := constraint_value in
       let sin_2theta := sin (2 * theta) in
       if is_small sin_2theta then Raise TypeError
       else
         cos_qaz <- py_div (tan nu) (tan (2 * theta)) ;;
         if Rltb (1 + SMALL) (Rabs cos_qaz) then
           Raise (DiffcalcException "The specified nu=%.4f is greater than the 2theta (%.4f)")
         else
           qaz <- py_acos (bound cos_qaz) ;;
           Return (None, Some nu, qaz)
     else if String.eqb constraint_name "qaz" then
       Return (None, None, constraint_value)
     else
       Raise (ValueError " is not an explicit detector angle (naz cannot be handled here)")) ;;
  let nu :=
    match nu_given with
    | Some nu => nu
    | None => atan2 (sin (2 * theta) * cos qaz) (cos (2 * theta))
    end in
  delta <-
    match delta_given with
    | Some delta => Return delta
    | None =>
        let cos_qaz := cos qaz in
        if negb (is_small cos_qaz) then
          Return (atan2 (sin qaz * sin nu) cos_qaz)
        else
          (* qaz is close to 90 (a common place for it) *)
          q <- py_div (cos (2 * theta)) (cos nu) ;;
          a <- py_acos (bound q) ;;
          Return (sign qaz * a)
    end ;;
  Return (delta, nu, qaz).

(** phi, chi, eta and mu, given one of these (section 5.3). *)
Definition _calc_remaining_sample_angles (self : YouHklCalculator.t)
           (constraint_name : string) (constraint_value : R)
           (q_lab n_lab q_phi n_phi : vector) : result (R * R * R * R) :=
  N_lab <- _calc_N q_lab n_lab ;;
  N_phi <- _calc_N q_phi n_phi ;;
  if String.eqb constraint_name "mu" then                                  (* (35) *)
    let mu := constraint_value in
    MUi <- inverse (calcMU mu) ;;
    let V := mmul (mmul MUi N_lab) (transpose N_phi) in
    let phi := atan2 (m21 V) (m20 V) in
    let eta := atan2 (- m12 V) (m02 V) in
    let chi := atan2 (sqrt (m20 V ^ 2 + m21 V ^ 2)) (m22 V) in
    if is_small (sin chi) then
      (* chi ~= 0 or 180 and therefore phi || eta: choose eta = 0 *)
      let eta := 0 in
      let phi := atan2 (m01 V) (m00 V) in
      Return (phi, chi, eta, mu)
    else Return (phi, chi, eta, mu)
  else if String.eqb constraint_name "phi" then                            (* (37) *)
    let phi := constraint_value in
    N_phi_I <- inverse N_phi ;;
    let V := mmul (mmul N_lab N_phi_I) (transpose (calcPHI phi)) in
    let eta := atan2 (m01 V) (sqrt (m11 V ^ 2 + m21 V ^ 2)) in
    let mu := atan2 (m21 V) (m11 V) in
    let chi := atan2 (m02 V) (m00 V) in
    if is_small (cos eta) then
      Raise (ValueError "Chi and mu cannot be chosen uniquely with eta so close to +-90.")
    else Return (phi, chi, eta, mu)
  else if name_in constraint_name ["eta"; "chi"] then
    let V := mmul N_lab (transpose N_phi) in
    '(eta, chi) <-
      (if String.eqb constraint_name "eta" then                            (* (39) *)
         let eta := constraint_value in
         let cos_eta := cos eta in
         if is_small cos_eta then
           Raise (ValueError
             "Chi and mu cannot be chosen uniquely with eta constrained so close to +-90.")
         else
           q <- py_div (m02 V) cos_eta ;;
           chi <- py_asin q ;;
           Return (eta, chi)
       else                                                                (* (40) *)
         let chi := constraint_value in
         let sin_chi := sin chi in
         if is_small sin_chi then
           Raise (ValueError
             "Eta and phi cannot be chosen uniquely with chi constrained so close to 0. (Please contact developer if this case is useful for you)")
         else
           q <- py_div (m02 V) sin_chi ;;
           eta <- py_acos q ;;
           Return (eta, chi)) ;;
    let top_for_mu := m22 V * sin eta * sin chi + m12 V * cos chi in
    let bot_for_mu := - m22 V * cos chi + m12 V * sin eta * sin chi in
    let mu := atan2 (- top_for_mu) (- bot_for_mu) in                       (* (41) *)
    let top_for_phi := m01 V * cos eta * cos chi - m00 V * sin eta in
    let bot_for_phi := m01 V * sin eta + m00 V * cos eta * cos chi in
    let phi := atan2 top_for_phi bot_for_phi in                            (* (42) *)
    Return (phi, chi, eta, mu)
  else Raise (ValueError "Given angle must be one of phi, chi, eta or mu").

(** [for chi in ...: if pi / 2 <= chi < pi: break]: the first value in
    that range, or else the last value of the loop. *)
Fixpoint for_chi_break (values : list R) (chi : R) : R :=
  match values with
  | [] => chi
  | c :: rest => if Rleb (PI / 2) c && Rltb c PI then c else for_chi_break rest c
  end.

Definition _calc_angles_given_two_sample_and_reference (self : YouHklCalculator.t)
           (samp_constraints : dict) (psi theta : R) (q_phi n_phi : vector)
  : result (R * R * R * R * R * R) :=
  N_phi <- _calc_N q_phi n_phi ;;
  let THETA := z_rotation (- theta) in
  let PSI := x_rotation psi in
  if dict_in "chi" samp_constraints && dict_in "phi" samp_constraints then
    chi <- dict_get samp_constraints "chi" ;;
    phi <- dict_get samp_constraints "phi" ;;
    let CHI := calcCHI chi in
    let PHI := calcPHI phi in
    let V := mmul (mmul (mmul (mmul CHI PHI) N_phi) (transpose PSI)) (transpose THETA) in  (* (56) *)
    let xi := atan2 (- m20 V) (m22 V) in
    let eta := atan2 (- m01 V) (m11 V) in
    let mu := atan2 (- m21 V) (sqrt (m22 V ^ 2 + m20 V ^ 2)) in
    Return (xi, psi, mu, eta, chi, phi)
  else if dict_in "mu" samp_constraints && dict_in "eta" samp_constraints then
    mu <- dict_get samp_constraints "mu" ;;
    eta <- dict_get samp_constraints "eta" ;;
    let V := mmul (mmul N_phi (transpose PSI)) (transpose THETA) in       (* (49) *)
    let bot := sqrt (sin eta ^ 2 * cos mu ^ 2 + sin mu ^ 2) in
    q <- py_div (- m21 V) bot ;;
    a <- py_asin q ;;
    let chi_orig := a - atan2 (sin mu) (sin eta * cos mu) in              (* (52) *)
    let chi :=
      if is_small eta && is_small (mu + PI / 2)
      then for_chi_break (_generate_transformed_values chi_orig false) chi_orig
      else chi_orig in
    let a := sin chi * cos eta in
    let b := sin chi * sin eta * sin mu - cos chi * cos mu in
    let xi := atan2 (m22 V * a + m20 V * b) (m20 V * a - m22 V * b) in    (* (54) *)
    let a := sin chi * sin mu - cos mu * cos chi * sin eta in
    let b := cos mu * cos eta in
    let phi := atan2 (m11 V * a - m01 V * b) (m01 V * a + m11 V * b) in   (* (55) *)
    Return (xi, psi, mu, eta, chi, phi)
  else if dict_in "chi" samp_constraints && dict_in "mu" samp_constraints then
    chi <- dict_get samp_constraints "chi" ;;
    mu <- dict_get samp_constraints "mu" ;;
    if negb (is_small mu) && negb (is_small (chi - PI / 2)) then
      Raise (Exception
        "The fixed chi, mu, psi/alpha/beta modes only  currently work with chi=90 and mu=0")
    else
      let V := mmul (mmul N_phi (transpose PSI)) (transpose THETA) in
      eta <- py_asin (- m21 V) ;;
      let xi := atan2 (m22 V) (m20 V) in
      let phi := - atan2 (m01 V) (m11 V) in
      Return (xi, psi, mu, eta, chi, phi)
  else
    Raise (DiffcalcException
      "No code yet to handle this combination of 2 sample constraints and one reference!:").

(** The nested [expand] and the [reduce] over the per-axis lists.  A
    tuple is the list of its components. *)
Definition expand (tuples_so_far : list (list R)) (b : list R) : list (list R) :=
  flat_map (fun tuple_so_far => map (fun bb => (tuple_so_far ++ [bb])%list) b) tuples_so_far.

Definition reduce_expand (transformed_values : list (list R)) : result (list (list R)) :=
  match transformed_values with
  | [] => Raise TypeError
  | first :: rest => Return (fold_left expand rest (map (fun x => [x]) first))
  end.

Definition _generate_possible_solutions (self : YouHklCalculator.t)
           (values : list R) (names : list string) (constrained_names : list string)
  : result (list (list R)) :=
  let hardware := YouHklCalculator._hardware self in
  let transformed_values :=
    map (fun value_name : R * string =>
           let (value, name) := value_name in
           let value_constrained := name_in name constrained_names in
           map cut_at_minus_pi
             (filter (fun transformed_value =>
                        Hardware.isAxisValueWithinLimits hardware name
                          (Hardware.cutAngle hardware name (transformed_value * TODEG)))
                     (_generate_transformed_values value value_constrained)))
        (combine values names) in
  reduce_expand transformed_values.

Definition _choose_detector_angles (self : YouHklCalculator.t)
           (delta_nu_pairs : list (R * R)) : result (R * R) :=
  if Nat.ltb 1 (List.length delta_nu_pairs) then
    Raise (Exception
      "Multiple detector solutions were found: delta, nu = %s, please constrain detector limits")
  else
    match delta_nu_pairs with
    | [] => Raise (NoSolutionException
                     "No detector solutions were found,please unconstrain detector limits")
    | first :: _ => Return first
    end.

(** [min] keeps the first of several least elements. *)
Fixpoint py_min_from (best : R) (l : list R) : R :=
  match l with
  | [] => best
  | x :: l' => py_min_from (if Rltb x best then x else best) l'
  end.

Definition py_min (l : list R) : result R :=
  match l with
  | [] => Raise (ValueError "min() arg is an empty sequence")
  | x :: l' => Return (py_min_from x l')
  end.

(** [l.index(x)]: the first position holding [x]. *)
Fixpoint py_index (l : list R) (x : R) : result nat :=
  match l with
  | [] => Raise (ValueError "is not in list")
  | y :: l' => if Req_bool y x then Return O else i <- py_index l' x ;; Return (S i)
  end.

(** [l[i]] *)
Definition py_getitem {A : Type} (l : list A) (i : nat) : result A :=
  match nth_error l i with
  | Some a => Return a
  | None => Raise (ValueError "list index out of range")
  end.

Definition abs_sum (solution : R * R * R * R) : R :=
  let '(mu, eta, chi, phi) := solution in
  0 + Rabs mu + Rabs eta + Rabs chi + Rabs phi.

Definition _choose_sample_angles (self : YouHklCalculator.t)
           (mu_eta_chi_phi_tuples : list (R * R * R * R)) : result (R * R * R * R) :=
  match mu_eta_chi_phi_tuples with
  | [] => Raise (NoSolutionException
                   "No sample solutions were found,please un-constrain sample limits")
  | [only] => Return only
  | _ =>
      (* there are multiple solutions *)
      let absolute_distances := map abs_sum mu_eta_chi_phi_tuples in
      shortest <- py_min absolute_distances ;;
      shortest_solution_index <- py_index absolute_distances shortest ;;
      py_getitem mu_eta_chi_phi_tuples shortest_solution_index
  end.

Definition tuple3 (t : R * R * R) : list R :=
  let '(a, b, c) := t in [a; b; c].

Fixpoint _filter_valid_sample_solutions (self : YouHklCalculator.t) (delta nu : R)
         (possible_mu_eta_chi_phi_tuples : list (list R)) (wavelength : R)
         (hkl : R * R * R) (ref_constraint_name : string) (ref_constraint_value : R)
  : result (list (R * R * R * R)) :=
  match possible_mu_eta_chi_phi_tuples with
  | [] => Return []
  | t :: rest =>
      '(mu, eta, chi, phi) <- unpack4 t ;;
      let pos := YouPosition.make mu delta nu eta chi phi in
      hkl_actual <- _anglesToHkl self pos wavelength ;;
      let hkl_okay := sequence_ne (tuple3 hkl) (tuple3 hkl_actual) in
      virtual_okay <-
        (if hkl_okay then
           virtual_angles <- _anglesToVirtualAngles self pos wavelength ;;
           if String.eqb ref_constraint_name "a_eq_b" then
             Return (ne (VirtualAngles.alpha virtual_angles)
                        (VirtualAngles.beta virtual_angles))
           else
             v <- VirtualAngles.get virtual_angles ref_constraint_name ;;
             Return (ne_nan ref_constraint_value v)
         else Return false) ;;
      mu_eta_chi_phi_tuples <-
        _filter_valid_sample_solutions self delta nu rest wavelength hkl
          ref_constraint_name ref_constraint_value ;;
      if hkl_okay && virtual_okay
      then Return ((mu, eta, chi, phi) :: mu_eta_chi_phi_tuples)
      else Return mu_eta_chi_phi_tuples
  end.

Definition _generate_final_sample_angles (self : YouHklCalculator.t)
           (mu_ eta_ chi_ phi_ : R) (sample_constraint_names : list string)
           (delta nu wavelength : R) (hkl : R * R * R)
           (ref_constraint_name : string) (ref_constraint_value : R)
  : result (R * R * R * R) :=
  possible_tuples <-
    _generate_possible_solutions self [mu_; eta_; chi_; phi_]
      ["mu"; "eta"; "chi"; "phi"] sample_constraint_names ;;
  mu_eta_chi_phi_tuples <-
    _filter_valid_sample_solutions self delta nu possible_tuples wavelength hkl
      ref_constraint_name ref_constraint_value ;;
  _choose_sample_angles self mu_eta_chi_phi_tuples.

(** [min(enumerate(th_errs), key=lambda x: x[1])[0]]: the first index
    of a least error. *)
Fixpoint min_index_from (best_i : nat) (best : R) (i : nat) (l : list R) : nat :=
  match l with
  | [] => best_i
  | x :: l' =>
      if Rltb x best then min_index_from i x (S i) l'
      else min_index_from best_i best (S i) l'
  end.

Definition min_index (l : list R) : result nat :=
  match l with
  | [] => Raise (ValueError "min() arg is an empty sequence")
  | x :: l' => Return (min_index_from O x 1%nat l')
  end.

Fixpoint thetas_of (pairs : list (R * R)) : result (list R) :=
  match pairs with
  | [] => Return []
  | (delta_, nu_) :: rest =>
      '(theta_, _) <- _theta_and_qaz_from_detector_angles delta_ nu_ ;;
      thetas_ <- thetas_of rest ;;
      Return (theta_ :: thetas_)
  end.

(** [abs(delta_ - pi / 2) < .01 and abs(delta_ - pi / 2)] *)
Definition close_to_90 (delta_nu : R * R) : bool :=
  let (delta_, nu_) := delta_nu in
  Rltb (Rabs (delta_ - PI / 2)) 0.01 && negb (Req_bool (Rabs (delta_ - PI / 2)) 0).

Definition _generate_final_detector_angles (self : YouHklCalculator.t)
           (initial_delta initial_nu qaz theta : R) (det_constraint_name : string)
  : result (R * R) :=
  if ne initial_delta (PI / 2)
     && negb (dict_in "nu" (YouConstraintManager.detector (YouHklCalculator.constraints self)))
  then
    (* DEGENERATE: with delta=90, nu is degenerate: choosing nu = 0 *)
    Return (initial_delta, 0)
  else
    possible_delta_nu_pairs <-
      _generate_possible_solutions self [initial_delta; initial_nu] ["delta"; "nu"]
        [det_constraint_name] ;;
    delta_nu_pairs <-
      _filter_detector_solutions_by_theta_and_qaz possible_delta_nu_pairs theta qaz ;;
    delta_nu_pairs <-
      (if Nat.ltb 1 (List.length delta_nu_pairs) then
         let (pairs_close_to_90, other_pairs) := partition close_to_90 delta_nu_pairs in
         match pairs_close_to_90 with
         | [] => Return delta_nu_pairs
         | _ :: _ =>
             thetas_ <- thetas_of pairs_close_to_90 ;;
             let th_errs := map (fun t => Rabs (t - theta)) thetas_ in
             closest_index <- min_index th_errs ;;
             closest <- py_getitem pairs_close_to_90 closest_index ;;
             Return (other_pairs ++ [closest])%list
         end
       else Return delta_nu_pairs) ;;
    _choose_detector_angles self delta_nu_pairs.

(** The loop of the two-sample-constraint branch over the transformed
    values of xi.  [NoSolutionException] moves on to the next xi; the
    sample angles are only rebound by a successful iteration. *)
Fixpoint try_each_xi (self : YouHklCalculator.t) (xis : list R) (theta : R)
         (mu eta chi phi : R) (sample_constraint_names : list string)
         (wavelength : R) (hkl : R * R * R)
         (ref_constraint_name : string) (ref_constraint_value : R)
  : result (R * R * (R * R * R * R)) :=
  match xis with
  | [] => Raise (Exception
                   "No solutions were found, please unconstrain detector or sample limits")
  | xi :: rest =>
      let next :=
        try_each_xi self rest theta mu eta chi phi sample_constraint_names wavelength hkl
          ref_constraint_name ref_constraint_value in
      let qaz := xi + PI / 2 in
      let qaz := if Rltb (2 * PI) qaz then qaz - 2 * PI else qaz in
      '(delta, nu, qaz) <- _calc_remaining_detector_angles self "qaz" qaz theta ;;
      match _generate_final_detector_angles self delta nu qaz theta "qaz" with
      | Raise (NoSolutionException _) => next
      | Raise e => Raise e
      | Return (delta, nu) =>
          match _generate_final_sample_angles self mu eta chi phi sample_constraint_names
                  delta nu wavelength hkl ref_constraint_name ref_constraint_value with
          | Raise (NoSolutionException _) => next
          | Raise e => Raise e
          | Return mu_eta_chi_phi => Return (delta, nu, mu_eta_chi_phi)
          end
      end
  end.

(** [(pos, virtualAngles) = hklToAngles(h, k, l, wavelength)] *)
Definition _hklToAngles (self : YouHklCalculator.t) (h k l wavelength : R)
  : result (YouPosition.t * VirtualAngles.t) :=
  let constraints := YouHklCalculator.constraints self in
  let n_phi := YouHklCalculator.n_phi self in
  let h_phi := mvec (YouHklCalculator._getUBMatrix self) (Vector h k l) in
  theta <- _calc_theta self h_phi wavelength ;;
  tau <- angle_between_vectors h_phi n_phi ;;

  (* Reference constraint column *)
  match YouConstraintManager.reference constraints with
  | [] => Raise (RuntimeError "No code yet to handle the absence of a reference constraint!")
  | (ref_constraint_name, ref_constraint_value) :: _ =>
  '(psi, alpha, _) <-
    _calc_remaining_reference_angles self ref_constraint_name ref_constraint_value theta tau ;;

  (* Detector constraint column *)
  let det_constraint := YouConstraintManager.detector constraints in
  let naz_constraint := YouConstraintManager.naz constraints in
  if dict_truth det_constraint && dict_truth naz_constraint then
    Raise (AssertionError "Two 'detector' constraints given")
  else
  (* the detector-stage variables, when bound:
     det_constraint_name, delta, nu, qaz, naz, and the truth of
     [det_constraint or naz_constraint] after the stage rebinds
     [det_constraint] to the value of the constraint *)
  detector_stage <-
    match det_constraint with
    | (det_constraint_name, det_constraint) :: _ =>
        (* One of the detector angles is given (Section 5.1) *)
        '(delta, nu, qaz) <-
          _calc_remaining_detector_angles self det_constraint_name det_constraint theta ;;
        naz_qaz_angle <- _calc_angle_between_naz_and_qaz theta alpha tau ;;
        let naz := qaz - naz_qaz_angle in
        Return (Some (det_constraint_name, delta, nu, qaz, naz,
                      negb (Req_bool det_constraint 0) || dict_truth naz_constraint))
    | [] =>
        match naz_constraint with
        | (naz_name, naz) :: _ =>
            (* The 'detector' angle naz is given *)
            if negb (String.eqb naz_name "naz") then Raise (AssertionError "")
            else
              naz_qaz_angle <- _calc_angle_between_naz_and_qaz theta alpha tau ;;
              let qaz := naz - naz_qaz_angle in
              let nu := atan2 (sin (2 * theta) * cos qaz) (cos (2 * theta)) in
              let delta := atan2 (sin qaz * sin nu) (cos qaz) in
              Return (Some (naz_name, delta, nu, qaz, naz, true))
        | [] => Return None
        end
    end ;;
  detector_stage <-
    match detector_stage with
    | Some (det_constraint_name, delta, nu, qaz, naz, true) =>
        '(delta, nu) <-
          _generate_final_detector_angles self delta nu qaz theta det_constraint_name ;;
        Return (Some (delta, nu, qaz, naz))
    | Some (_, delta, nu, qaz, naz, false) => Return (Some (delta, nu, qaz, naz))
    | None => Return None
    end ;;

  (* Sample constraint column *)
  let samp_constraints := YouConstraintManager.sample constraints in
  '(mu, delta, nu, eta, chi, phi) <-
    match samp_constraints with
    | [(sample_constraint_name, sample_value)] =>
        (* JUST ONE SAMPLE ANGLE GIVEN *)
        match detector_stage with
        | None => Raise UnboundLocalError
        | Some (delta, nu, qaz, naz) =>
            let q_lab := Vector (cos theta * sin qaz) (- sin theta) (cos theta * cos qaz) in  (* (18) *)
            let n_lab := Vector (cos alpha * sin naz) (- sin alpha) (cos alpha * cos naz) in  (* (20) *)
            '(phi, chi, eta, mu) <-
              _calc_remaining_sample_angles self sample_constraint_name sample_value
                q_lab n_lab h_phi n_phi ;;
            '(mu, eta, chi, phi) <-
              _generate_final_sample_angles self mu eta chi phi [sample_constraint_name]
                delta nu wavelength (h, k, l) ref_constraint_name ref_constraint_value ;;
            Return (mu, delta, nu, eta, chi, phi)
        end
    | [_; _] =>
        angles <-
          _calc_angles_given_two_sample_and_reference self samp_constraints psi theta
            h_phi n_phi ;;
        let '(xi_initial, psi, mu, eta, chi, phi) := angles in
        (* Try to find a solution for each possible transformed xi *)
        '(delta, nu, (mu, eta, chi, phi)) <-
          try_each_xi self (_generate_transformed_values xi_initial false) theta
            mu eta chi phi (dict_keys samp_constraints) wavelength (h, k, l)
            ref_constraint_name ref_constraint_value ;;
        Return (mu, delta, nu, eta, chi, phi)
    | [_; _; _] => Raise (DiffcalcException "No code yet to handle 3 sample constraints!")
    | _ => Raise (AssertionError "1,2 or 3 sample constraints expected, not: ")
    end ;;

  (* Create position *)
  let position := YouPosition.make mu delta nu eta chi phi in
  let position := _tidy_degenerate_solutions position constraints in
  let position :=
    if Rleb (YouPosition.phi position) (- PI + SMALL) then
      YouPosition.make (YouPosition.mu position) (YouPosition.delta position)
        (YouPosition.nu position) (YouPosition.eta position) (YouPosition.chi position)
        (YouPosition.phi position + 2 * PI)
    else position in
  pseudo_angles <- _anglesToVirtualAngles self position wavelength ;;
  Return (position, pseudo_angles)
  end.

(** * Vocabulary of the properties *)

(** The image of the reference vector in the lab frame. *)
Definition n_lab_of (self : YouHklCalculator.t) (pos : YouPosition.t) : vector :=
  mvec (mmul (mmul (mmul (calcMU (YouPosition.mu pos)) (calcETA (YouPosition.eta pos)))
                   (calcCHI (YouPosition.chi pos)))
             (calcPHI (YouPosition.phi pos)))
       (YouHklCalculator.n_phi self).

(** A calculator with the identity for UB, no hardware limits and the
    constraints given. *)
Definition unlimited : Hardware.t := Hardware.make (fun _ _ => true) (fun _ v => v).

Definition self_id (constraints : YouConstraintManager.t) : YouHklCalculator.t :=
  YouHklCalculator.init I unlimited constraints.

Definition a_eq_b_only : YouConstraintManager.t :=
  YouConstraintManager.make [("a_eq_b", 0)] [] [] [].

(** A position one nano-radian short of back-scattering: the
    scattering vector is all but parallel to the beam. *)
Definition grazing_pos : YouPosition.t := YouPosition.make 0 (PI - 1e-9) 0 0 0 0.

Definition grazing_va : VirtualAngles.t :=
  VirtualAngles.make ((PI - 1e-9) / 2) (- (PI / 2)) 0 0 (PI / 2) (Some (PI / 2)) 0.

(** The spherical-trig identity (28) for [cos(psi)]. *)
Definition cos_psi_of (va : VirtualAngles.t) : R :=
  (cos (VirtualAngles.tau va) * sin (VirtualAngles.theta va) - sin (VirtualAngles.alpha va))
  / (sin (VirtualAngles.tau va) * cos (VirtualAngles.theta va)).

(** [x] is zero to within the tolerance of the module. *)
Definition approx0 (x : R) : Prop := Rabs x < SMALL.

(** A detector pair reproduces the required theta and qaz. *)
Definition reproduces_theta_qaz (required_theta required_qaz delta nu : R) : Prop :=
  exists theta qaz,
    _theta_and_qaz_from_detector_angles delta nu = Return (theta, qaz)
    /\ approx0 (theta - required_theta) /\ approx0 (qaz - required_qaz).

(** The two degenerate cases [_tidy_degenerate_solutions] names. *)
Definition detector_like (constraints : YouConstraintManager.t) : Prop :=
  YouConstraintManager.detector constraints <> []
  \/ YouConstraintManager.naz constraints <> [].

Definition vertical_degenerate (pos : YouPosition.t) (constraints : YouConstraintManager.t)
  : Prop :=
  approx0 (YouPosition.nu pos) /\ detector_like constraints
  /\ approx0 (YouPosition.mu pos)
  /\ dict_in "mu" (YouConstraintManager.sample constraints) = true
  /\ approx0 (YouPosition.chi pos).

Definition horizontal_degenerate (pos : YouPosition.t) (constraints : YouConstraintManager.t)
  : Prop :=
  approx0 (YouPosition.delta pos) /\ detector_like constraints
  /\ approx0 (YouPosition.eta pos)
  /\ dict_in "eta" (YouConstraintManager.sample constraints) = true
  /\ approx0 (YouPosition.chi pos - PI / 2).

(** Vertical four-circle constraints: a_eq_b, qaz = 90 degrees, mu = 0. *)
Definition vertical_constraints : YouConstraintManager.t :=
  YouConstraintManager.make [("a_eq_b", 0)] [("qaz", PI / 2)] [] [("mu", 0)].

(** The solution for the (1 0 0) reflection at theta = 30 degrees with
    all of the sample rotation on phi, and a generic position. *)
Definition phi_30_pos : YouPosition.t := YouPosition.make 0 (PI / 3) 0 0 0 (PI / 6).

Definition generic_pos : YouPosition.t := YouPosition.make 0 (PI / 3) 0 (PI / 6) 1 0.

(** The sines [_calc_remaining_reference_angles] derives from its
    constraint: equations (26) and (27) for a psi constraint, equation
    (24) for an alpha or a beta constraint. *)
Definition sin_alpha_of_psi (theta tau psi : R) : R :=
  cos tau * sin theta - cos theta * sin tau * cos psi.

Definition sin_beta_of_psi (theta tau psi : R) : R :=
  cos tau * sin theta + cos theta * sin tau * cos psi.

Definition sin_of_other (theta tau given : R) : R :=
  2 * sin theta * cos tau - sin given.

(** psi from alpha, as the last lines of the function compute it. *)
Definition psi_of_alpha (theta tau alpha : R) : R :=
  acos (bound ((cos tau * sin theta - sin alpha) / (sin tau * cos theta))).

(** A sample tuple round-trips through the forward kinematics to the
    target hkl, within the tolerance. *)
Definition round_trips (self : YouHklCalculator.t) (delta nu wavelength : R)
           (hkl : R * R * R) (t : R * R * R * R) : Prop :=
  let '(mu, eta, chi, phi) := t in
  exists hkl_actual,
    _anglesToHkl self (YouPosition.make mu delta nu eta chi phi) wavelength = Return hkl_actual
    /\ let '(h, k, l) := hkl in
       let '(h', k', l') := hkl_actual in
       approx0 (h - h') /\ approx0 (k - k') /\ approx0 (l - l').

(** The virtual angles of a sample tuple reproduce the reference
    constraint: alpha is beta for a_eq_b, and the constrained angle
    has its value otherwise. *)
Definition reproduces_reference (self : YouHklCalculator.t) (delta nu wavelength : R)
           (ref_constraint_name : string) (ref_constraint_value : R)
           (t : R * R * R * R) : Prop :=
  let '(mu, eta, chi, phi) := t in
  exists va,
    _anglesToVirtualAngles self (YouPosition.make mu delta nu eta chi phi) wavelength = Return va
    /\ if String.eqb ref_constraint_name "a_eq_b"
       then approx0 (VirtualAngles.alpha va - VirtualAngles.beta va)
       else exists v,
           VirtualAngles.get va ref_constraint_name = Return (Some v)
           /\ approx0 (ref_constraint_value - v).

(** The sum of the absolute angles of a sample tuple. *)
Definition angle_magnitude (t : R * R * R * R) : R :=
  let '(mu, eta, chi, phi) := t in Rabs mu + Rabs eta + Rabs chi + Rabs phi.

Definition tuple4 (t : R * R * R * R) : list R :=
  let '(a, b, c, d) := t in [a; b; c; d].

(** [l1] is [l2] with some elements left out, the order kept. *)
Inductive subsequence {A : Type} : list A -> list A -> Prop :=
| subsequence_nil : subsequence [] []
| subsequence_skip (x : A) (l1 l2 : list A) :
    subsequence l1 l2 -> subsequence l1 (x :: l2)
| subsequence_keep (x : A) (l1 l2 : list A) :
    subsequence l1 l2 -> subsequence (x :: l1) (x :: l2).

(** Miller indices of a position in closed form: the inverse of a
    rotation is its transpose, and that of UB its adjugate over its
    determinant. *)
Definition hkl_vector_of (pos : YouPosition.t) (wavelength : R) (UBmatrix : matrix) : vector :=
  let q_lab :=
    mvec (msub (mmul (calcNU (YouPosition.nu pos)) (calcDELTA (YouPosition.delta pos))) I)
         (Vector 0 (2 * PI / wavelength) 0) in
  mvec (mmul (mmul (mmul (mmul (mscale (adjugate UBmatrix) (/ det UBmatrix))
                               (transpose (calcPHI (YouPosition.phi pos))))
                         (transpose (calcCHI (YouPosition.chi pos))))
                   (transpose (calcETA (YouPosition.eta pos))))
             (transpose (calcMU (YouPosition.mu pos))))
       q_lab.

Definition hkl_of (pos : YouPosition.t) (wavelength : R) (UBmatrix : matrix) : R * R * R :=
  let hkl := hkl_vector_of pos wavelength UBmatrix in
  (v0 hkl, v1 hkl, v2 hkl).

(** A cubic crystal of unit cell 1 aligned with the phi frame, a
    diffractometer whose axes all run from -1 to 90 degrees, and the
    constraints a_eq_b, qaz = 90 degrees, phi = 0. *)
Definition UB_cubic : matrix :=
  Matrix (2 * PI) 0 0
         0 (2 * PI) 0
         0 0 (2 * PI).

Definition limited : Hardware.t :=
  Hardware.make (fun _ v => Rleb (-1) v && Rleb v 90) (fun _ v => v).

Definition phi_constraints : YouConstraintManager.t :=
  YouConstraintManager.make [("a_eq_b", 0)] [("qaz", PI / 2)] [] [("phi", 0)].

Definition self_100 : YouHklCalculator.t :=
  YouHklCalculator.init UB_cubic limited phi_constraints.

(** The position that solves (1 0 0) at wavelength 1 under these
    constraints, and its virtual angles. *)
Definition pos_100 : YouPosition.t := YouPosition.make 0 (PI / 3) 0 (PI / 6) 0 0.

Definition va_100 : VirtualAngles.t :=
  VirtualAngles.make (PI / 6) (PI / 2) 0 0 (PI / 2) (Some (PI / 2)) 0.

(** The hardware accepts the angle [v] (radians) on the axis [name]:
    the test [_generate_possible_solutions] makes. *)
Definition within_limits (hardware : Hardware.t) (name : string) (v : R) : Prop :=
  Hardware.isAxisValueWithinLimits hardware name
    (Hardware.cutAngle hardware name (v * TODEG)) = true.

(** The degenerate case [_generate_final_detector_angles] answers
    before it looks at any limit: delta within tolerance of 90
    degrees and no nu constraint. *)
Definition delta_90_shortcut (self : YouHklCalculator.t) (initial_delta : R) : Prop :=
  approx0 (initial_delta - PI / 2)
  /\ dict_in "nu" (YouConstraintManager.detector (YouHklCalculator.constraints self)) = false.

(** A diffractometer whose axes all run from -1 to 60 degrees. *)
Definition narrow : Hardware.t :=
  Hardware.make (fun _ v => Rleb (-1) v && Rleb v 60) (fun _ v => v).

Definition self_narrow : YouHklCalculator.t :=
  YouHklCalculator.init UB_cubic narrow vertical_constraints.

(** A diffractometer whose axes all run from 100 to 250 degrees. *)
Definition wide : Hardware.t :=
  Hardware.make (fun _ v => Rleb 100 v && Rleb v 250) (fun _ v => v).

Definition self_wide : YouHklCalculator.t :=
  YouHklCalculator.init UB_cubic wide vertical_constraints.

(** ** Rational intervals, for the numeric fixtures *)

(** A closed interval with rational end points; [contains i x] reads
    "the real number [x] lies in [i]". *)
Record itv : Type := Itv { lo : Q; hi : Q }.

Definition contains (i : itv) (x : R) : Prop := Q2R (lo i) <= x <= Q2R (hi i).

(** End points are kept on a grid of 2^-64, rounded outwards.  A
    rational whose denominator is a power of two, as every number of
    the grid and every sum and product of two of them has, is rounded
    by shifting its numerator. *)
Definition grid_bits : Z := 64.
Definition grid : positive := (2 ^ 64)%positive.

Fixpoint pow2_exponent (p : positive) : option N :=
  match p with
  | xH => Some 0%N
  | xO p' => option_map N.succ (pow2_exponent p')
  | xI _ => None
  end.

Definition floor_grid (q : Q) : Z :=
  match pow2_exponent (Qden q) with
  | Some k => Z.shiftr (Z.shiftl (Qnum q) grid_bits) (Z.of_N k)
  | None => Qfloor (q * inject_Z (Zpos grid))
  end.

Definition ceiling_grid (q : Q) : Z := (- floor_grid (- q))%Z.

Definition round_down (q : Q) : Q := Qmake (floor_grid q) grid.
Definition round_up (q : Q) : Q := Qmake (ceiling_grid q) grid.

(** [x <= y]; two rationals of one denominator are compared by their
    numerators. *)
Definition qleb (x y : Q) : bool :=
  if Pos.eqb (Qden x) (Qden y) then Z.leb (Qnum x) (Qnum y) else Qle_bool x y.

Definition qltb (x y : Q) : bool := negb (qleb y x).
Definition qmin (x y : Q) : Q := if qleb x y then x else y.
Definition qmax (x y : Q) : Q := if qleb x y then y else x.

Definition point (q : Q) : itv := Itv q q.

Definition iadd (a b : itv) : itv :=
  Itv (round_down (lo a + lo b)) (round_up (hi a + hi b)).

Definition isub (a b : itv) : itv :=
  Itv (round_down (lo a - hi b)) (round_up (hi a - lo b)).

Definition iopp (a : itv) : itv := Itv (- hi a) (- lo a).

Definition imul (a b : itv) : itv :=
  let p1 := (lo a * lo b)%Q in
  let p2 := (lo a * hi b)%Q in
  let p3 := (hi a * lo b)%Q in
  let p4 := (hi a * hi b)%Q in
  Itv (round_down (qmin (qmin p1 p2) (qmin p3 p4)))
      (round_up (qmax (qmax p1 p2) (qmax p3 p4))).

(** The inverse of an interval of positive numbers. *)
Definition iinv (a : itv) : itv := Itv (round_down (/ hi a)) (round_up (/ lo a)).

Definition positive_itv (a : itv) : bool := qltb 0 (lo a).

(** The terms of the sine and cosine series at a rational [a >= 0],
    from below and from above: the power is rounded at each
    multiplication, downwards for a bound from below of a positive
    term and upwards for one of a negative term. *)
Fixpoint pow_down (a : Q) (n : nat) : Q :=
  match n with
  | O => 1
  | S n' => round_down (a * pow_down a n')
  end.

Fixpoint pow_up (a : Q) (n : nat) : Q :=
  match n with
  | O => 1
  | S n' => round_up (a * pow_up a n')
  end.

Fixpoint zfact (n : nat) : Z :=
  match n with
  | O => 1
  | S n' => Z.of_nat (S n') * zfact n'
  end.

Definition term_down (a : Q) (i k : nat) : Q :=
  if Nat.even i then pow_down a k / inject_Z (zfact k)
  else - (pow_up a k / inject_Z (zfact k)).

Definition term_up (a : Q) (i k : nat) : Q :=
  if Nat.even i then pow_up a k / inject_Z (zfact k)
  else - (pow_down a k / inject_Z (zfact k)).

Definition sin_term_down (a : Q) (i : nat) : Q := term_down a i (2 * i + 1).
Definition sin_term_up (a : Q) (i : nat) : Q := term_up a i (2 * i + 1).
Definition cos_term_down (a : Q) (i : nat) : Q := term_down a i (2 * i).
Definition cos_term_up (a : Q) (i : nat) : Q := term_up a i (2 * i).

(** Partial sums with every term rounded down, or up, to the grid. *)
Fixpoint sum_floor (f : nat -> Q) (n : nat) : Z :=
  match n with
  | O => floor_grid (f O)
  | S i => (sum_floor f i + floor_grid (f (S i)))%Z
  end.

Fixpoint sum_ceiling (f : nat -> Q) (n : nat) : Z :=
  match n with
  | O => ceiling_grid (f O)
  | S i => (sum_ceiling f i + ceiling_grid (f (S i)))%Z
  end.

Definition sin_lower (n : nat) (a : Q) : Q :=
  Qmake (sum_floor (sin_term_down a) (2 * n + 1)) grid.
Definition sin_upper (n : nat) (a : Q) : Q :=
  Qmake (sum_ceiling (sin_term_up a) (2 * (n + 1))) grid.
Definition cos_lower (n : nat) (a : Q) : Q :=
  Qmake (sum_floor (cos_term_down a) (2 * n + 1)) grid.
Definition cos_upper (n : nat) (a : Q) : Q :=
  Qmake (sum_ceiling (cos_term_up a) (2 * (n + 1))) grid.

(** Terms kept for angles within [0, 3/2]: a remainder below 1e-16. *)
Definition order : nat := 4.

(** Sine and cosine of an interval of angles within [0, 3/2]. *)
Definition first_quadrant (a : itv) : bool :=
  Qle_bool 0 (lo a) && Qle_bool (lo a) (hi a) && Qle_bool (hi a) (3 # 2).

Definition isin (a : itv) : itv := Itv (sin_lower order (lo a)) (sin_upper order (hi a)).

Definition icos (a : itv) : itv := Itv (cos_lower order (hi a)) (cos_upper order (lo a)).

(** pi, to fifteen decimals, on the grid. *)
Definition pi_lo : Q := round_down 3.141592653589793.
Definition pi_hi : Q := round_up 3.141592653589794.
Definition ipi : itv := Itv pi_lo pi_hi.

(** [iwithin i c tol]: every point of [i] is within [tol] of [c];
    [ibeyond i c tol]: every point of [i] is further than [tol] from
    [c]. *)
Definition iwithin (i : itv) (c tol : Q) : bool :=
  qltb (c - tol) (lo i) && qltb (hi i) (c + tol).

Definition ibeyond (i : itv) (c tol : Q) : bool :=
  qltb (c + tol) (lo i) || qltb (hi i) (c - tol).

(** Matrices and vectors of intervals, and the operations of the
    forward kinematics on them. *)
Record ivector : Type := IVector { iv0 : itv; iv1 : itv; iv2 : itv }.

Definition vwithin (iv : ivector) (c0 c1 c2 tol : Q) : bool :=
  iwithin (iv0 iv) c0 tol && iwithin (iv1 iv) c1 tol && iwithin (iv2 iv) c2 tol.

Record imatrix : Type := IMatrix {
  i00 : itv; i01 : itv; i02 : itv;
  i10 : itv; i11 : itv; i12 : itv;
  i20 : itv; i21 : itv; i22 : itv }.

Definition vcontains (iv : ivector) (v : vector) : Prop :=
  contains (iv0 iv) (v0 v) /\ contains (iv1 iv) (v1 v) /\ contains (iv2 iv) (v2 v).

Definition mcontains (im : imatrix) (m : matrix) : Prop :=
  contains (i00 im) (m00 m) /\ contains (i01 im) (m01 m) /\ contains (i02 im) (m02 m)
  /\ contains (i10 im) (m10 m) /\ contains (i11 im) (m11 m) /\ contains (i12 im) (m12 m)
  /\ contains (i20 im) (m20 m) /\ contains (i21 im) (m21 m) /\ contains (i22 im) (m22 m).

Definition idot3 (a1 a2 a3 b1 b2 b3 : itv) : itv :=
  iadd (iadd (imul a1 b1) (imul a2 b2)) (imul a3 b3).

Definition immul (a b : imatrix) : imatrix :=
  IMatrix
    (idot3 (i00 a) (i01 a) (i02 a) (i00 b) (i10 b) (i20 b))
    (idot3 (i00 a) (i01 a) (i02 a) (i01 b) (i11 b) (i21 b))
    (idot3 (i00 a) (i01 a) (i02 a) (i02 b) (i12 b) (i22 b))
    (idot3 (i10 a) (i11 a) (i12 a) (i00 b) (i10 b) (i20 b))
    (idot3 (i10 a) (i11 a) (i12 a) (i01 b) (i11 b) (i21 b))
    (idot3 (i10 a) (i11 a) (i12 a) (i02 b) (i12 b) (i22 b))
    (idot3 (i20 a) (i21 a) (i22 a) (i00 b) (i10 b) (i20 b))
    (idot3 (i20 a) (i21 a) (i22 a) (i01 b) (i11 b) (i21 b))
    (idot3 (i20 a) (i21 a) (i22 a) (i02 b) (i12 b) (i22 b)).

Definition imvec (a : imatrix) (v : ivector) : ivector :=
  IVector
    (idot3 (i00 a) (i01 a) (i02 a) (iv0 v) (iv1 v) (iv2 v))
    (idot3 (i10 a) (i11 a) (i12 a) (iv0 v) (iv1 v) (iv2 v))
    (idot3 (i20 a) (i21 a) (i22 a) (iv0 v) (iv1 v) (iv2 v)).

Definition imsub (a b : imatrix) : imatrix :=
  IMatrix
    (isub (i00 a) (i00 b)) (isub (i01 a) (i01 b)) (isub (i02 a) (i02 b))
    (isub (i10 a) (i10 b)) (isub (i11 a) (i11 b)) (isub (i12 a) (i12 b))
    (isub (i20 a) (i20 b)) (isub (i21 a) (i21 b)) (isub (i22 a) (i22 b)).

Definition imscale (a : imatrix) (s : itv) : imatrix :=
  IMatrix
    (imul (i00 a) s) (imul (i01 a) s) (imul (i02 a) s)
    (imul (i10 a) s) (imul (i11 a) s) (imul (i12 a) s)
    (imul (i20 a) s) (imul (i21 a) s) (imul (i22 a) s).

Definition itranspose (a : imatrix) : imatrix :=
  IMatrix
    (i00 a) (i10 a) (i20 a)
    (i01 a) (i11 a) (i21 a)
    (i02 a) (i12 a) (i22 a).

Definition idet (a : imatrix) : itv :=
  iadd (isub (imul (i00 a) (isub (imul (i11 a) (i22 a)) (imul (i12 a) (i21 a))))
             (imul (i01 a) (isub (imul (i10 a) (i22 a)) (imul (i12 a) (i20 a)))))
       (imul (i02 a) (isub (imul (i10 a) (i21 a)) (imul (i11 a) (i20 a)))).

Definition iadjugate (a : imatrix) : imatrix :=
  IMatrix
    (isub (imul (i11 a) (i22 a)) (imul (i12 a) (i21 a)))
    (isub (imul (i02 a) (i21 a)) (imul (i01 a) (i22 a)))
    (isub (imul (i01 a) (i12 a)) (imul (i02 a) (i11 a)))
    (isub (imul (i12 a) (i20 a)) (imul (i10 a) (i22 a)))
    (isub (imul (i00 a) (i22 a)) (imul (i02 a) (i20 a)))
    (isub (imul (i02 a) (i10 a)) (imul (i00 a) (i12 a)))
    (isub (imul (i10 a) (i21 a)) (imul (i11 a) (i20 a)))
    (isub (imul (i01 a) (i20 a)) (imul (i00 a) (i21 a)))
    (isub (imul (i00 a) (i11 a)) (imul (i01 a) (i10 a))).

Definition iI : imatrix :=
  IMatrix (point 1) (point 0) (point 0)
          (point 0) (point 1) (point 0)
          (point 0) (point 0) (point 1).

(** The rotations, from an interval of angles within [0, 3/2]. *)
Definition ix_rotation (th : itv) : imatrix :=
  let c := icos th in
  let s := isin th in
  IMatrix (point 1) (point 0) (point 0)
          (point 0) c (iopp s)
          (point 0) s c.

Definition iy_rotation (th : itv) : imatrix :=
  let c := icos th in
  let s := isin th in
  IMatrix c (point 0) s
          (point 0) (point 1) (point 0)
          (iopp s) (point 0) c.

Definition iz_rotation (th : itv) : imatrix :=
  let c := icos th in
  let s := isin th in
  IMatrix c (iopp s) (point 0)
          s c (point 0)
          (point 0) (point 0) (point 1).

(** [hkl_of] on intervals: the six angles, 2 pi / wavelength and UB
    are given as intervals. *)
Definition ihkl_of (mu delta nu eta chi phi : itv) (k : itv) (IUB : imatrix) : ivector :=
  let q_lab :=
    imvec (imsub (immul (ix_rotation nu) (itranspose (iz_rotation delta))) iI)
          (IVector (point 0) k (point 0)) in
  imvec (immul (immul (immul (immul (imscale (iadjugate IUB) (iinv (idet IUB)))
                                    (iz_rotation phi))
                             (itranspose (iy_rotation chi)))
                      (iz_rotation eta))
               (itranspose (ix_rotation mu)))
        q_lab.

(** ** The I16 fixture *)

(** The fixture of test_calcyou_against_i16.py: a crystal of unit cell
    1, turned by about one degree, and a wavelength of 1 Angstrom. *)
Definition UB1 : matrix :=
  mscale (Matrix 0.9996954135095477 (-0.01745240643728364) (-0.017449748351250637)
                 0.01744974835125045 0.9998476951563913 (-0.0003045864904520898)
                 0.017452406437283505 (-1.1135499981271473e-16) 0.9998476951563912)
         (2 * PI).

Definition WL1 : R := 1.

(** Modelled from the spec: VliegPosition is not among the sources.  A
    position holds six angles in the order (mu, delta, gamma, eta, chi,
    phi), which youAnglesToHkl reads back through totuple, and
    inRadians multiplies each of them by TORAD. *)
Definition inRadians (pos : YouPosition.t) : YouPosition.t :=
  YouPosition.make (YouPosition.mu pos * TORAD) (YouPosition.delta pos * TORAD)
                   (YouPosition.nu pos * TORAD) (YouPosition.eta pos * TORAD)
                   (YouPosition.chi pos * TORAD) (YouPosition.phi pos * TORAD).

Definition posFromI16sEuler (phi chi eta mu delta gamma : R) : YouPosition.t :=
  YouPosition.make mu delta gamma eta chi phi.

(** A call returns Miller indices each within [tol] of the expected
    ones. *)
Definition returns_hkl_within (tol : R) (r : result (R * R * R)) (expected : R * R * R)
  : Prop :=
  let '(eh, ek, el) := expected in
  exists h k l,
    r = Return (h, k, l)
    /\ Rabs (h - eh) < tol /\ Rabs (k - ek) < tol /\ Rabs (l - el) < tol.

(** The same fixture on intervals. *)
Definition iUB1 : imatrix :=
  imscale (IMatrix (point 0.9996954135095477) (point (-0.01745240643728364))
                   (point (-0.017449748351250637))
                   (point 0.01744974835125045) (point 0.9998476951563913)
                   (point (-0.0003045864904520898))
                   (point 0.017452406437283505)
                   (point (-11135499981271473 # 100000000000000000000000000000000))
                   (point 0.9998476951563912))
          (imul (point 2) ipi).

Definition iTORAD : itv := imul ipi (point (1 # 180)).

Definition iradians (degrees : Q) : itv := imul (point degrees) iTORAD.

Definition ik1 : itv := imul (point 2) ipi.

Definition ihkl_arbitrary (phi : Q) : ivector :=
  ihkl_of (iradians 0.9) (iradians 60.9) (iradians 2.9) (iradians 30.9)
          (iradians 2.9) (iradians phi) ik1 iUB1.

(** ** Vocabulary of the further properties *)

(** [youAnglesToHkl] with the inverses of the four sample rotations
    written as transposes. *)
Definition sample_rotation_inverse (mu eta chi phi : R) : matrix :=
  mmul (mmul (mmul (transpose (calcPHI phi)) (transpose (calcCHI chi)))
             (transpose (calcETA eta)))
       (transpose (calcMU mu)).


(** Horizontal four-circle constraints: a_eq_b, qaz = 0, eta = 0; a
    position in their degenerate case; and constraints and a position
    that meet the vertical test as well. *)
Definition horizontal_constraints : YouConstraintManager.t :=
  YouConstraintManager.make [("a_eq_b", 0)] [("qaz", 0)] [] [("eta", 0)].

Definition horizontal_pos : YouPosition.t := YouPosition.make 0 0 (PI / 3) 0 (PI / 2) (PI / 6).

Definition mu_eta_constraints : YouConstraintManager.t :=
  YouConstraintManager.make [("a_eq_b", 0)] [("qaz", 0)] [] [("mu", 0); ("eta", 0)].

Definition upright_pos : YouPosition.t := YouPosition.make 0 0 0 0 (PI / 2) (PI / 6).

(** A candidate of one axis, as [_generate_possible_solutions] makes
    them: a transformed value of the axis that the hardware accepts,
    cut at -pi. *)
Definition axis_candidate (hardware : Hardware.t) (constrained_names : list string)
           (c : R) (value_name : R * string) : Prop :=
  exists tv,
    In tv (_generate_transformed_values (fst value_name)
             (name_in (snd value_name) constrained_names))
    /\ within_limits hardware (snd value_name) tv
    /\ c = cut_at_minus_pi tv.

(** * Properties *)

(** ** Reflection of the float comparisons *)

Lemma Rltb_true (x y : R) : x < y -> Rltb x y = true.
Proof. intros H. unfold Rltb. destruct (Rlt_dec x y); [reflexivity | contradiction]. Qed.

Lemma Rltb_false (x y : R) : ~ x < y -> Rltb x y = false.
Proof. intros H. unfold Rltb. destruct (Rlt_dec x y); [contradiction | reflexivity]. Qed.

Lemma Rltb_lt (x y : R) : Rltb x y = true <-> x < y.
Proof.
  unfold Rltb. destruct (Rlt_dec x y); split; intros H; try assumption; try reflexivity.
  discriminate. contradiction.
Qed.

Lemma Rleb_true (x y : R) : x <= y -> Rleb x y = true.
Proof. intros H. unfold Rleb. destruct (Rle_dec x y); [reflexivity | contradiction]. Qed.

Lemma Rleb_false (x y : R) : ~ x <= y -> Rleb x y = false.
Proof. intros H. unfold Rleb. destruct (Rle_dec x y); [contradiction | reflexivity]. Qed.

Lemma Rleb_le (x y : R) : Rleb x y = true <-> x <= y.
Proof.
  unfold Rleb. destruct (Rle_dec x y); split; intros H; try assumption; try reflexivity.
  discriminate. contradiction.
Qed.

Lemma Req_bool_true (x y : R) : x = y -> Req_bool x y = true.
Proof. intros H. unfold Req_bool. destruct (Req_dec_T x y); [reflexivity | contradiction]. Qed.

Lemma Req_bool_false (x y : R) : x <> y -> Req_bool x y = false.
Proof. intros H. unfold Req_bool. destruct (Req_dec_T x y); [contradiction | reflexivity]. Qed.

Lemma Req_bool_eq (x y : R) : Req_bool x y = true <-> x = y.
Proof.
  unfold Req_bool. destruct (Req_dec_T x y); split; intros H; try assumption; try reflexivity.
  discriminate. contradiction.
Qed.

Lemma SMALL_pos : 0 < SMALL.
Proof. unfold SMALL. lra. Qed.

Lemma SMALL_lt_1 : SMALL < 1.
Proof. unfold SMALL. lra. Qed.

Lemma is_small_true (x : R) : Rabs x < SMALL -> is_small x = true.
Proof. apply Rltb_true. Qed.

Lemma is_small_false (x : R) : ~ Rabs x < SMALL -> is_small x = false.
Proof. apply Rltb_false. Qed.

Lemma is_small_lt (x : R) : is_small x = true <-> Rabs x < SMALL.
Proof. apply Rltb_lt. Qed.

Lemma is_small_0 : is_small 0 = true.
Proof. apply is_small_true. rewrite Rabs_R0. exact SMALL_pos. Qed.

(** ** [bound], [asin], [acos] and the guarded divisions *)

Lemma bound_range (x : R) : -1 <= bound x <= 1.
Proof.
  unfold bound, Rltb.
  destruct (Rlt_dec 1 x); [lra |].
  destruct (Rlt_dec x (-1)); lra.
Qed.

Lemma bound_id (x : R) : -1 <= x <= 1 -> bound x = x.
Proof.
  intros H. unfold bound. rewrite Rltb_false by lra. rewrite Rltb_false by lra. reflexivity.
Qed.

Lemma py_asin_in (x : R) : -1 <= x <= 1 -> py_asin x = Return (asin x).
Proof.
  intros H. unfold py_asin. rewrite Rleb_true; [reflexivity |].
  apply Rabs_le. lra.
Qed.

Lemma py_acos_in (x : R) : -1 <= x <= 1 -> py_acos x = Return (acos x).
Proof.
  intros H. unfold py_acos. rewrite Rleb_true; [reflexivity |].
  apply Rabs_le. lra.
Qed.

Lemma py_asin_bound (x : R) : py_asin (bound x) = Return (asin (bound x)).
Proof. apply py_asin_in, bound_range. Qed.

Lemma py_acos_bound (x : R) : py_acos (bound x) = Return (acos (bound x)).
Proof. apply py_acos_in, bound_range. Qed.

Lemma py_div_nonzero (a b : R) : b <> 0 -> py_div a b = Return (a / b).
Proof. intros H. unfold py_div. rewrite Req_bool_false by assumption. reflexivity. Qed.

Lemma py_div_zero (a : R) : py_div a 0 = Raise ZeroDivisionError.
Proof. unfold py_div. rewrite Req_bool_true by reflexivity. reflexivity. Qed.

Lemma theta_and_qaz_total (delta nu : R) :
  _theta_and_qaz_from_detector_angles delta nu
  = Return (acos (bound (cos delta * cos nu)) / 2, atan2 (tan delta) (sin nu)).
Proof.
  unfold _theta_and_qaz_from_detector_angles. rewrite py_acos_bound. reflexivity.
Qed.

(** ** Virtual angles *)

(** What [_anglesToVirtualAngles] computes before [psi]. *)
Lemma anglesToVirtualAngles_unfold self pos wavelength :
  let theta := acos (bound (cos (YouPosition.delta pos) * cos (YouPosition.nu pos))) / 2 in
  let qaz := atan2 (tan (YouPosition.delta pos)) (sin (YouPosition.nu pos)) in
  let n_lab := n_lab_of self pos in
  let alpha := asin (bound (- v1 n_lab)) in
  let naz := atan2 (v0 n_lab) (v2 n_lab) in
  let tau := acos (bound (cos alpha * cos theta * cos (naz - qaz) + sin alpha * sin theta)) in
  let beta := asin (bound (2 * sin theta * cos tau - sin alpha)) in
  _anglesToVirtualAngles self pos wavelength =
  Return (VirtualAngles.make theta qaz alpha naz tau
            (if Req_bool (sin tau) 0 then None
             else if Req_bool (cos theta) 0 then None
             else Some (acos (bound ((cos tau * sin theta - sin alpha) / (sin tau * cos theta)))))
            beta).
Proof.
  destruct pos as [mu delta nu eta chi phi]. cbn zeta. unfold n_lab_of. cbn [YouPosition.mu
    YouPosition.delta YouPosition.nu YouPosition.eta YouPosition.chi YouPosition.phi].
  unfold _anglesToVirtualAngles, YouPosition.totuple, createYouMatrices.
  cbn [YouPosition.mu YouPosition.delta YouPosition.nu YouPosition.eta YouPosition.chi
       YouPosition.phi].
  rewrite theta_and_qaz_total. cbn [bind].
  rewrite py_asin_bound. cbn [bind].
  rewrite py_acos_bound. cbn [bind].
  rewrite py_asin_bound. cbn [bind].
  match goal with |- context [Req_bool (sin ?t) 0] => destruct (Req_bool (sin t) 0) eqn:Et end;
    [reflexivity |].
  match goal with |- context [Req_bool (cos ?t) 0] => destruct (Req_bool (cos t) 0) eqn:Ec end;
    [reflexivity |].
  rewrite py_div_nonzero.
  - cbn [bind]. rewrite py_acos_bound. reflexivity.
  - apply Rmult_integral_contrapositive. split.
    + intros H. apply Req_bool_true in H. congruence.
    + intros H. apply Req_bool_true in H. congruence.
Qed.

(** C10: [_anglesToVirtualAngles] returns its mapping of the seven
    virtual angles for every position and wavelength, and never raises:
    each [asin] and [acos] argument goes through [bound], and the
    division for psi is only reached when [sin(tau)] and [cos(theta)]
    are both non-zero. *)
Theorem anglesToVirtualAngles_total
        (self : YouHklCalculator.t) (pos : YouPosition.t) (wavelength : R) :
  exists theta qaz alpha naz tau psi beta,
    _anglesToVirtualAngles self pos wavelength
    = Return (VirtualAngles.make theta qaz alpha naz tau psi beta).
Proof.
  pose proof (anglesToVirtualAngles_unfold self pos wavelength) as H. cbn zeta in H.
  rewrite H. do 7 eexists. reflexivity.
Qed.

(** C10 also in the form used below: the result is a function of the
    position. *)
Lemma anglesToVirtualAngles_psi_cases self pos wavelength va :
  _anglesToVirtualAngles self pos wavelength = Return va ->
  VirtualAngles.psi va =
  if Req_bool (sin (VirtualAngles.tau va)) 0 then None
  else if Req_bool (cos (VirtualAngles.theta va)) 0 then None
  else Some (acos (bound (cos_psi_of va))).
Proof.
  pose proof (anglesToVirtualAngles_unfold self pos wavelength) as H. cbn zeta in H.
  rewrite H. intros E. injection E as <-. reflexivity.
Qed.

(** C7, as the code has it: psi is NaN exactly when [sin(tau)] or
    [cos(theta)] is equal to zero (an exact comparison, not a test
    against the tolerance [SMALL]); in every other case psi is the arc
    cosine of the spherical-trig quotient (28), moved into [-1, 1] by
    [bound]. *)
Theorem anglesToVirtualAngles_psi_nan
        (self : YouHklCalculator.t) (pos : YouPosition.t) (wavelength : R)
        (va : VirtualAngles.t) :
  _anglesToVirtualAngles self pos wavelength = Return va ->
  (VirtualAngles.psi va = None
   <-> sin (VirtualAngles.tau va) = 0 \/ cos (VirtualAngles.theta va) = 0)
  /\ (sin (VirtualAngles.tau va) <> 0 -> cos (VirtualAngles.theta va) <> 0 ->
      VirtualAngles.psi va = Some (acos (bound (cos_psi_of va)))).
Proof.
  intros H. apply anglesToVirtualAngles_psi_cases in H. rewrite H. clear H.
  destruct (Req_bool (sin (VirtualAngles.tau va)) 0) eqn:Et.
  - apply Req_bool_eq in Et. split; [| contradiction]. split; auto.
  - assert (sin (VirtualAngles.tau va) <> 0)
      by (intros E; apply Req_bool_true in E; congruence).
    destruct (Req_bool (cos (VirtualAngles.theta va)) 0) eqn:Ec.
    + apply Req_bool_eq in Ec. split; [| contradiction]. split; auto.
    + assert (cos (VirtualAngles.theta va) <> 0)
        by (intros E; apply Req_bool_true in E; congruence).
      split; [| reflexivity]. split; [discriminate |]. intros [E | E]; contradiction.
Qed.

(** ** [atan2] at the points the examples need *)

Lemma atan2_x_pos (y x : R) : 0 < x -> atan2 y x = atan (y / x).
Proof. intros H. unfold atan2. rewrite Rltb_true by assumption. reflexivity. Qed.

Lemma atan2_0_x_pos (x : R) : 0 < x -> atan2 0 x = 0.
Proof.
  intros H. rewrite atan2_x_pos by assumption.
  unfold Rdiv. rewrite Rmult_0_l. apply atan_0.
Qed.

Lemma atan2_y_pos_0 (y : R) : 0 < y -> atan2 y 0 = PI / 2.
Proof.
  intros H. unfold atan2.
  rewrite (Rltb_false 0 0) by lra. rewrite (Rltb_true 0 y) by assumption. reflexivity.
Qed.

Lemma atan2_y_neg_0 (y : R) : y < 0 -> atan2 y 0 = - (PI / 2).
Proof.
  intros H. unfold atan2.
  rewrite (Rltb_false 0 0) by lra. rewrite (Rltb_false 0 y) by lra.
  rewrite (Rltb_true y 0) by assumption. reflexivity.
Qed.

Lemma atan2_0_0 : atan2 0 0 = 0.
Proof. unfold atan2. rewrite !(Rltb_false 0 0) by lra. reflexivity. Qed.

Lemma PI_gt_3 : 3 < PI.
Proof. pose proof PI2_3_2. lra. Qed.

Lemma PI_lt_4 : PI <= 4.
Proof. exact PI_4. Qed.

(** ** Matrix products, one factor at a time *)

Lemma mvec_mmul (a b : matrix) (v : vector) : mvec (mmul a b) v = mvec a (mvec b v).
Proof. destruct a, b, v. unfold mvec, mmul. cbn. f_equal; ring. Qed.

Lemma mvec_I (v : vector) : mvec I v = v.
Proof. destruct v. unfold mvec, I. cbn. f_equal; ring. Qed.

Lemma x_rotation_0 : x_rotation 0 = I.
Proof. unfold x_rotation, I. rewrite cos_0, sin_0, Ropp_0. reflexivity. Qed.

Lemma y_rotation_0 : y_rotation 0 = I.
Proof. unfold y_rotation, I. rewrite cos_0, sin_0, Ropp_0. reflexivity. Qed.

Lemma z_rotation_0 : z_rotation 0 = I.
Proof. unfold z_rotation, I. rewrite cos_0, sin_0, Ropp_0. reflexivity. Qed.

Lemma mvec_z_rotation_z (th : R) : mvec (z_rotation th) (Vector 0 0 1) = Vector 0 0 1.
Proof. unfold mvec, z_rotation. cbn. f_equal; ring. Qed.

(** With the sample circles mu and chi at zero the reference vector
    stays along z. *)
Lemma n_lab_of_mu_chi_0 self delta nu eta phi :
  YouHklCalculator.n_phi self = Vector 0 0 1 ->
  n_lab_of self (YouPosition.make 0 delta nu eta 0 phi) = Vector 0 0 1.
Proof.
  intros H. unfold n_lab_of. cbn [YouPosition.mu YouPosition.eta YouPosition.chi YouPosition.phi].
  rewrite H, !mvec_mmul. unfold calcPHI, calcCHI, calcETA, calcMU.
  rewrite mvec_z_rotation_z, y_rotation_0, mvec_I, mvec_z_rotation_z, x_rotation_0, mvec_I.
  reflexivity.
Qed.

(** ** The position one nano-radian short of back-scattering *)

Lemma n_lab_of_grazing : n_lab_of (self_id a_eq_b_only) grazing_pos = Vector 0 0 1.
Proof. apply n_lab_of_mu_chi_0. reflexivity. Qed.

Lemma tan_near_PI_neg : tan (PI - 1e-9) < 0.
Proof.
  pose proof PI_gt_3 as HPI.
  unfold tan. rewrite sin_PI_x, Rtrigo_facts.cos_pi_minus.
  assert (0 < sin 1e-9) by (apply sin_gt_0; lra).
  assert (0 < cos 1e-9) by (apply cos_gt_0; lra).
  replace (sin 1e-9 / - cos 1e-9) with (- (sin 1e-9 / cos 1e-9)) by (field; lra).
  assert (0 < sin 1e-9 / cos 1e-9) by (apply Rdiv_lt_0_compat; assumption). lra.
Qed.

Lemma grazing_virtual_angles :
  _anglesToVirtualAngles (self_id a_eq_b_only) grazing_pos 1 = Return grazing_va.
Proof.
  pose proof PI_gt_3 as HPI.
  pose proof (anglesToVirtualAngles_unfold (self_id a_eq_b_only) grazing_pos 1) as H.
  cbn zeta in H. rewrite H. clear H. rewrite n_lab_of_grazing.
  cbn [v0 v1 v2 YouPosition.delta YouPosition.nu grazing_pos].
  rewrite cos_0, sin_0, Rmult_1_r, Ropp_0.
  rewrite (bound_id (cos (PI - 1e-9))) by (pose proof (COS_bound (PI - 1e-9)); lra).
  rewrite acos_cos by lra.
  rewrite (bound_id 0) by lra. rewrite asin_0, cos_0, sin_0.
  rewrite atan2_0_x_pos by lra.
  rewrite atan2_y_neg_0 by exact tan_near_PI_neg.
  replace (0 - - (PI / 2)) with (PI / 2) by ring.
  rewrite cos_PI2.
  replace (1 * cos ((PI - 1e-9) / 2) * 0 + 0 * sin ((PI - 1e-9) / 2)) with 0 by ring.
  rewrite (bound_id 0) by lra. rewrite acos_0, cos_PI2, sin_PI2.
  replace (2 * sin ((PI - 1e-9) / 2) * 0 - 0) with 0 by ring.
  rewrite (bound_id 0) by lra. rewrite asin_0.
  rewrite (Req_bool_false 1 0) by lra.
  assert (Hc : 0 < cos ((PI - 1e-9) / 2)) by (apply cos_gt_0; lra).
  rewrite Req_bool_false by lra.
  replace ((0 * sin ((PI - 1e-9) / 2) - 0) / (1 * cos ((PI - 1e-9) / 2))) with 0
    by (field; lra).
  rewrite (bound_id 0) by lra. rewrite acos_0. reflexivity.
Qed.

Lemma grazing_cos_theta_small : Rabs (cos ((PI - 1e-9) / 2)) < SMALL.
Proof.
  replace ((PI - 1e-9) / 2) with (PI / 2 - 1e-9 / 2) by field.
  rewrite cos_shift.
  assert (0 < sin (1e-9 / 2)) by (apply sin_gt_0; pose proof PI_gt_3; lra).
  assert (sin (1e-9 / 2) < 1e-9 / 2) by (apply sin_lt_x; lra).
  rewrite Rabs_pos_eq by lra. unfold SMALL. lra.
Qed.

Lemma grazing_cos_theta_nonzero : cos ((PI - 1e-9) / 2) <> 0.
Proof.
  assert (0 < cos ((PI - 1e-9) / 2)) by (apply cos_gt_0; pose proof PI_gt_3; lra). lra.
Qed.

(** C7 as stated fails: at this position [cos(theta)] is within the
    tolerance of zero (and not zero), and psi is the number pi/2. *)
Lemma psi_is_a_number_near_back_scattering :
  _anglesToVirtualAngles (self_id a_eq_b_only) grazing_pos 1 = Return grazing_va
  /\ ~ (VirtualAngles.psi grazing_va = None
        <-> Rabs (sin (VirtualAngles.tau grazing_va)) < SMALL
            \/ Rabs (cos (VirtualAngles.theta grazing_va)) < SMALL).
Proof.
  split; [exact grazing_virtual_angles |].
  intros [_ H]. cbn in H.
  assert (E : Some (PI / 2) = None) by (apply H; right; exact grazing_cos_theta_small).
  discriminate E.
Qed.

Lemma anglesToVirtualAngles_psi_nan_witness :
  VirtualAngles.psi grazing_va = Some (acos (bound (cos_psi_of grazing_va))).
Proof.
  apply (anglesToVirtualAngles_psi_nan (self_id a_eq_b_only) grazing_pos 1 grazing_va
           grazing_virtual_angles).
  - cbn. rewrite sin_PI2. lra.
  - cbn. exact grazing_cos_theta_nonzero.
Defined.

(** ** Enumeration of the equivalent angles *)

Lemma expand_length (tuples : list (list R)) (b : list R) :
  List.length (expand tuples b) = (List.length tuples * List.length b)%nat.
Proof.
  unfold expand. induction tuples as [| t tuples IH]; [reflexivity |].
  cbn [flat_map]. rewrite length_app, length_map, IH. reflexivity.
Qed.

Lemma fold_expand_length (rest : list (list R)) (init : list (list R)) :
  Forall (fun b => (List.length b <= 4)%nat) rest ->
  (List.length (fold_left expand rest init) <= List.length init * 4 ^ List.length rest)%nat.
Proof.
  revert init. induction rest as [| b rest IH]; intros init H.
  - cbn. lia.
  - inversion H as [| ? ? Hb Hrest]; subst. cbn [fold_left List.length].
    specialize (IH (expand init b) Hrest). rewrite expand_length in IH.
    rewrite Nat.pow_succ_r'. nia.
Qed.

Lemma generate_transformed_values_length (value : R) (constrained : bool) :
  (List.length (_generate_transformed_values value constrained) <= 4)%nat.
Proof.
  unfold _generate_transformed_values.
  destruct constrained; [cbn; lia |].
  destruct (is_small value); [cbn; lia |].
  destruct (is_small (value - PI / 2) || is_small (value + PI / 2)); cbn; lia.
Qed.

Lemma filter_length_le {A : Type} (f : A -> bool) (l : list A) :
  (List.length (filter f l) <= List.length l)%nat.
Proof.
  induction l as [| a l IH]; [cbn; lia |]. cbn. destruct (f a); cbn; lia.
Qed.

Lemma cut_at_minus_pi_id (value : R) :
  - PI - SMALL <= value < PI + SMALL -> cut_at_minus_pi value = value.
Proof.
  intros H. unfold cut_at_minus_pi.
  rewrite Rltb_false by lra. rewrite Rleb_false by lra. reflexivity.
Qed.

(** C2: a constrained axis yields its value alone; an unconstrained
    one yields 0 and pi when the value is within 1e-8 of zero, pi/2
    and -pi/2 when it is within 1e-8 of +pi/2 or of -pi/2, and the
    four values v, -v, pi+v, pi-v otherwise.  So an axis contributes
    at most four candidates, and n axes at most 4^n candidate
    tuples. *)
Theorem generate_transformed_values_cases (value : R) :
  _generate_transformed_values value true = [value]
  /\ (Rabs value < 1e-8 -> _generate_transformed_values value false = [0; PI])
  /\ (Rabs (value - PI / 2) < 1e-8 \/ Rabs (value + PI / 2) < 1e-8 ->
      _generate_transformed_values value false = [PI / 2; - (PI / 2)])
  /\ (~ Rabs value < 1e-8 ->
      ~ Rabs (value - PI / 2) < 1e-8 -> ~ Rabs (value + PI / 2) < 1e-8 ->
      _generate_transformed_values value false = [value; - value; PI + value; PI - value])
  /\ (forall constrained,
         (List.length (_generate_transformed_values value constrained) <= 4)%nat)
  /\ (forall self values names constrained_names tuples,
         _generate_possible_solutions self values names constrained_names = Return tuples ->
         (List.length tuples <= 4 ^ List.length values)%nat).
Proof.
  change 1e-8 with SMALL.
  split; [reflexivity |].
  split; [intros H; unfold _generate_transformed_values; cbn;
          rewrite is_small_true by assumption; reflexivity |].
  split.
  { intros H. unfold _generate_transformed_values. cbn.
    assert (Hv : ~ Rabs value < SMALL).
    { pose proof PI2_1 as HP. unfold SMALL in *. intros Hs.
      apply Rabs_def2 in Hs.
      destruct H as [H | H]; apply Rabs_def2 in H; lra. }
    rewrite is_small_false by assumption.
    destruct H as [H | H].
    - rewrite (is_small_true _ H). reflexivity.
    - rewrite (is_small_true _ H). rewrite orb_true_r. reflexivity. }
  split.
  { intros H0 H1 H2. unfold _generate_transformed_values. cbn.
    rewrite !is_small_false by assumption. reflexivity. }
  split; [intros c; apply generate_transformed_values_length |].
  intros self values names constrained_names tuples.
  unfold _generate_possible_solutions, reduce_expand.
  remember (map _ (combine values names)) as tv eqn:Etv.
  assert (Hall : Forall (fun b => (List.length b <= 4)%nat) tv).
  { subst tv. apply Forall_forall. intros b Hb. apply in_map_iff in Hb.
    destruct Hb as [[v n] [<- _]]. rewrite length_map.
    eapply Nat.le_trans; [apply filter_length_le | apply generate_transformed_values_length]. }
  assert (Hlen : (List.length tv <= List.length values)%nat).
  { subst tv. rewrite length_map, length_combine. lia. }
  destruct tv as [| first rest]; [discriminate |].
  intros E. injection E as <-.
  inversion Hall as [| ? ? Hf Hr]; subst.
  pose proof (fold_expand_length rest (map (fun x => [x]) first) Hr) as Hle.
  rewrite length_map in Hle. cbn [List.length] in Hlen.
  assert (4 ^ S (List.length rest) <= 4 ^ List.length values)%nat
    by (apply Nat.pow_le_mono_r; lia).
  rewrite Nat.pow_succ_r' in *. nia.
Qed.

Lemma generate_transformed_values_cases_witness :
  _generate_transformed_values 0 false = [0; PI]
  /\ _generate_transformed_values (PI / 2) false = [PI / 2; - (PI / 2)]
  /\ _generate_transformed_values 1 false = [1; - 1; PI + 1; PI - 1]
  /\ (List.length [[0%R; 0%R]] <= 4 ^ 2)%nat.
Proof.
  pose proof PI_gt_3 as HPI. pose proof PI_4 as HPI4.
  split; [| split; [| split]].
  - apply (generate_transformed_values_cases 0). rewrite Rabs_R0. lra.
  - apply (generate_transformed_values_cases (PI / 2)). left.
    replace (PI / 2 - PI / 2) with 0 by ring. rewrite Rabs_R0. lra.
  - apply (generate_transformed_values_cases 1).
    + rewrite Rabs_pos_eq; lra.
    + rewrite Rabs_left1; lra.
    + rewrite Rabs_pos_eq; lra.
  - destruct (generate_transformed_values_cases 0) as (_ & _ & _ & _ & _ & H).
    apply (H (self_id vertical_constraints) [0; 0] ["delta"; "nu"] ["delta"; "nu"]).
    unfold _generate_possible_solutions. cbn.
    rewrite cut_at_minus_pi_id by (unfold SMALL; lra). reflexivity.
Defined.

(** ** Degenerate-position cleanup *)

Lemma dict_truth_true (d : dict) : dict_truth d = true <-> d <> [].
Proof. destruct d; cbn; split; intros H; congruence. Qed.

Lemma detector_like_true (constraints : YouConstraintManager.t) :
  dict_truth (YouConstraintManager.detector constraints)
  || dict_truth (YouConstraintManager.naz constraints) = true
  <-> detector_like constraints.
Proof.
  unfold detector_like. rewrite orb_true_iff, !dict_truth_true. reflexivity.
Qed.

Lemma vertical_degenerate_true pos constraints :
  (is_small (YouPosition.nu pos)
   && (dict_truth (YouConstraintManager.detector constraints)
       || dict_truth (YouConstraintManager.naz constraints)))
  && (is_small (YouPosition.mu pos)
      && dict_in "mu" (YouConstraintManager.sample constraints))
  && is_small (YouPosition.chi pos) = true
  <-> vertical_degenerate pos constraints.
Proof.
  unfold vertical_degenerate, approx0.
  rewrite !andb_true_iff, !is_small_lt, detector_like_true. tauto.
Qed.

Lemma horizontal_degenerate_true pos constraints :
  (is_small (YouPosition.delta pos)
   && (dict_truth (YouConstraintManager.detector constraints)
       || dict_truth (YouConstraintManager.naz constraints)))
  && (is_small (YouPosition.eta pos)
      && dict_in "eta" (YouConstraintManager.sample constraints))
  && is_small (YouPosition.chi pos - PI / 2) = true
  <-> horizontal_degenerate pos constraints.
Proof.
  unfold horizontal_degenerate, approx0.
  rewrite !andb_true_iff, !is_small_lt, detector_like_true. tauto.
Qed.

(** The cleanup changes a position only in the two degenerate cases. *)
Lemma tidy_unchanged pos constraints :
  ~ vertical_degenerate pos constraints -> ~ horizontal_degenerate pos constraints ->
  _tidy_degenerate_solutions pos constraints = pos.
Proof.
  intros Hv Hh.
  rewrite <- vertical_degenerate_true in Hv. rewrite <- horizontal_degenerate_true in Hh.
  unfold _tidy_degenerate_solutions. cbn zeta.
  set (nu0 := is_small (YouPosition.nu pos) && _) in *.
  set (mu0 := is_small (YouPosition.mu pos) && _) in *.
  set (delta0 := is_small (YouPosition.delta pos) && _) in *.
  set (eta0 := is_small (YouPosition.eta pos) && _) in *.
  destruct nu0, mu0, (is_small (YouPosition.chi pos)), delta0, eta0,
    (is_small (YouPosition.chi pos - PI / 2));
    cbn in *; try reflexivity; congruence.
Qed.

(** C9: in the vertical degenerate case (nu within tolerance of 0 with
    a detector or naz constraint, mu within tolerance of 0 with 'mu'
    among the sample constraints, chi within tolerance of 0) the
    cleanup sets eta to delta/2 and takes the same difference off phi,
    so eta + phi is preserved and mu, delta, nu and chi are unchanged;
    a position in neither of the two degenerate cases is returned
    unchanged. *)
Theorem tidy_degenerate_solutions_cases
        (pos : YouPosition.t) (constraints : YouConstraintManager.t) :
  (vertical_degenerate pos constraints ->
   let pos' := _tidy_degenerate_solutions pos constraints in
   YouPosition.eta pos' = YouPosition.delta pos / 2
   /\ YouPosition.phi pos'
      = YouPosition.phi pos - (YouPosition.delta pos / 2 - YouPosition.eta pos)
   /\ YouPosition.eta pos' + YouPosition.phi pos'
      = YouPosition.eta pos + YouPosition.phi pos
   /\ YouPosition.mu pos' = YouPosition.mu pos
   /\ YouPosition.delta pos' = YouPosition.delta pos
   /\ YouPosition.nu pos' = YouPosition.nu pos
   /\ YouPosition.chi pos' = YouPosition.chi pos)
  /\ (~ vertical_degenerate pos constraints -> ~ horizontal_degenerate pos constraints ->
      _tidy_degenerate_solutions pos constraints = pos).
Proof.
  split; [| apply tidy_unchanged].
  intros Hv. apply vertical_degenerate_true in Hv.
  apply andb_true_iff in Hv. destruct Hv as [Hv Hchi].
  cbn zeta. unfold _tidy_degenerate_solutions. cbn zeta.
  rewrite Hv, Hchi. cbn. repeat split; ring.
Qed.

Lemma tidy_degenerate_solutions_cases_witness :
  YouPosition.eta (_tidy_degenerate_solutions phi_30_pos vertical_constraints) = PI / 3 / 2
  /\ _tidy_degenerate_solutions generic_pos vertical_constraints = generic_pos.
Proof.
  pose proof PI_gt_3 as HPI. pose proof PI_4 as HPI4.
  split.
  - apply (tidy_degenerate_solutions_cases phi_30_pos vertical_constraints).
    unfold vertical_degenerate, detector_like, approx0, phi_30_pos, vertical_constraints, SMALL.
    cbn. rewrite Rabs_R0.
    repeat split; try lra. left. discriminate.
  - apply (tidy_degenerate_solutions_cases generic_pos vertical_constraints).
    + unfold vertical_degenerate, approx0, generic_pos, SMALL. cbn.
      intros (_ & _ & _ & _ & H). rewrite Rabs_pos_eq in H; lra.
    + unfold horizontal_degenerate, approx0, generic_pos, vertical_constraints, SMALL. cbn.
      intros (_ & _ & _ & H & _). discriminate H.
Defined.

(** ** The error monad *)

Lemma bind_Return_inv {A B : Type} (m : result A) (f : A -> result B) (b : B) :
  bind m f = Return b -> exists a, m = Return a /\ f a = Return b.
Proof. destruct m as [a | e]; cbn; intros H; [exists a; auto | discriminate]. Qed.

Lemma unpack2_inv (t : list R) (a b : R) : unpack2 t = Return (a, b) -> t = [a; b].
Proof.
  destruct t as [| x [| y [| z t]]]; cbn; intros H; try discriminate.
  injection H as -> ->. reflexivity.
Qed.

Lemma unpack4_inv (t : list R) (a b c d : R) :
  unpack4 t = Return (a, b, c, d) -> t = [a; b; c; d].
Proof.
  destruct t as [| x [| y [| z [| w [| v t]]]]]; cbn; intros H; try discriminate.
  injection H as -> -> -> ->. reflexivity.
Qed.

(** ** Detector solutions *)

Lemma ne_true (a b : R) : ne a b = true <-> approx0 (a - b).
Proof. apply is_small_lt. Qed.

Lemma reproduces_theta_qaz_true (required_theta required_qaz delta nu : R) :
  ne (acos (bound (cos delta * cos nu)) / 2) required_theta
  && ne (atan2 (tan delta) (sin nu)) required_qaz = true
  <-> reproduces_theta_qaz required_theta required_qaz delta nu.
Proof.
  unfold reproduces_theta_qaz. rewrite theta_and_qaz_total, andb_true_iff, !ne_true.
  split.
  - intros [H1 H2]. eauto.
  - intros (theta & qaz & E & H1 & H2). injection E as <- <-. auto.
Qed.

(** The survivors of the detector filter are the candidate pairs that
    reproduce theta and qaz. *)
Lemma filter_detector_solutions_In possible theta qaz survivors :
  _filter_detector_solutions_by_theta_and_qaz possible theta qaz = Return survivors ->
  forall delta nu,
    In (delta, nu) survivors
    <-> In [delta; nu] possible /\ reproduces_theta_qaz theta qaz delta nu.
Proof.
  revert survivors. induction possible as [| t rest IH]; intros survivors H delta nu.
  - cbn in H. injection H as <-. cbn. tauto.
  - cbn [_filter_detector_solutions_by_theta_and_qaz] in H.
    apply bind_Return_inv in H. destruct H as ([d n] & Hu & H).
    apply unpack2_inv in Hu. subst t.
    rewrite theta_and_qaz_total in H. cbn [bind] in H.
    apply bind_Return_inv in H. destruct H as (rest' & Hrest & H).
    specialize (IH rest' Hrest delta nu).
    destruct (ne _ theta && ne _ qaz) eqn:Ek.
    + injection H as <-. cbn [In]. rewrite IH.
      apply reproduces_theta_qaz_true in Ek.
      split.
      * intros [E | [Hin Hr]]; [injection E as -> ->; auto | auto].
      * intros [[E | Hin] Hr]; [injection E as -> ->; auto | auto].
    + injection H as <-. cbn [In]. rewrite IH.
      split; [tauto |].
      intros [[E | Hin] Hr]; [| auto].
      injection E as -> ->. apply reproduces_theta_qaz_true in Hr. congruence.
Qed.

(** C3: with the candidate pairs filtered by theta and qaz,
    [_choose_detector_angles] returns the pair that survives when
    exactly one does, and only then; it raises the 'Multiple detector
    solutions were found' exception when more than one survives, and
    [NoSolutionException] when none does. *)
Theorem choose_detector_angles_cases
        (self : YouHklCalculator.t) (possible : list (list R)) (theta qaz : R)
        (survivors : list (R * R)) :
  _filter_detector_solutions_by_theta_and_qaz possible theta qaz = Return survivors ->
  (forall delta nu,
      In (delta, nu) survivors
      <-> In [delta; nu] possible /\ reproduces_theta_qaz theta qaz delta nu)
  /\ (forall delta_nu,
         _choose_detector_angles self survivors = Return delta_nu <-> survivors = [delta_nu])
  /\ ((1 < List.length survivors)%nat ->
      _choose_detector_angles self survivors
      = Raise (Exception
          "Multiple detector solutions were found: delta, nu = %s, please constrain detector limits"))
  /\ (survivors = [] ->
      _choose_detector_angles self survivors
      = Raise (NoSolutionException
          "No detector solutions were found,please unconstrain detector limits")).
Proof.
  intros H. split; [exact (filter_detector_solutions_In _ _ _ _ H) |].
  unfold _choose_detector_angles.
  split; [| split].
  - intros delta_nu. destruct survivors as [| p [| q l]]; cbn; split; intros E;
      try discriminate; congruence.
  - intros Hlen. apply Nat.ltb_lt in Hlen. rewrite Hlen. reflexivity.
  - intros ->. reflexivity.
Qed.

(** ** Worked example: detector angles of a reflection at theta = 30 degrees *)

Lemma acos_half : acos (1 / 2) = PI / 3.
Proof.
  rewrite <- cos_PI3. apply acos_cos. pose proof PI_gt_3. lra.
Qed.

Lemma sqrt3_pos : 0 < sqrt 3.
Proof. apply sqrt_lt_R0. lra. Qed.

Lemma sqrt3_sqr : sqrt 3 * sqrt 3 = 3.
Proof. apply sqrt_sqrt. lra. Qed.

Lemma ne_refl (a : R) : ne a a = true.
Proof. unfold ne. replace (a - a) with 0 by ring. apply is_small_0. Qed.

Lemma theta_and_qaz_60_0 :
  _theta_and_qaz_from_detector_angles (PI / 3) 0 = Return (PI / 6, PI / 2).
Proof.
  rewrite theta_and_qaz_total. rewrite cos_PI3, cos_0, sin_0, tan_PI3.
  replace (1 / 2 * 1) with (1 / 2) by field.
  rewrite bound_id by lra. rewrite acos_half.
  rewrite atan2_y_pos_0 by exact sqrt3_pos.
  do 2 f_equal. field.
Qed.

Lemma theta_and_qaz_minus_60_0 :
  _theta_and_qaz_from_detector_angles (- (PI / 3)) 0 = Return (PI / 6, - (PI / 2)).
Proof.
  rewrite theta_and_qaz_total. rewrite cos_neg, tan_neg, cos_PI3, cos_0, sin_0, tan_PI3.
  replace (1 / 2 * 1) with (1 / 2) by field.
  rewrite bound_id by lra. rewrite acos_half.
  rewrite atan2_y_neg_0 by (pose proof sqrt3_pos; lra).
  do 2 f_equal. field.
Qed.

Lemma filter_detector_60_0 :
  _filter_detector_solutions_by_theta_and_qaz [[PI / 3; 0]; [- (PI / 3); 0]] (PI / 6) (PI / 2)
  = Return [(PI / 3, 0)].
Proof.
  cbn [_filter_detector_solutions_by_theta_and_qaz unpack2 bind].
  rewrite theta_and_qaz_60_0, theta_and_qaz_minus_60_0. cbn [bind].
  rewrite !ne_refl. cbn [andb].
  assert (E : ne (- (PI / 2)) (PI / 2) = false).
  { apply is_small_false. unfold SMALL. pose proof PI_gt_3.
    rewrite Rabs_left1; lra. }
  rewrite E. reflexivity.
Qed.

Lemma choose_detector_angles_cases_witness :
  _choose_detector_angles (self_id vertical_constraints) [(PI / 3, 0)] = Return (PI / 3, 0).
Proof.
  apply (choose_detector_angles_cases (self_id vertical_constraints)
           [[PI / 3; 0]; [- (PI / 3); 0]] (PI / 6) (PI / 2) [(PI / 3, 0)]
           filter_detector_60_0).
  reflexivity.
Defined.

Lemma bind_ext {A B : Type} (m : result A) (f g : A -> result B) :
  (forall a, f a = g a) -> bind m f = bind m g.
Proof. intros H. destruct m; cbn; auto. Qed.

(** ** The reference stage *)

Lemma reference_angles_parallel self name value theta tau :
  sin tau = 0 \/ cos theta = 0 ->
  exists msg,
    _calc_remaining_reference_angles self name value theta tau
    = Raise (DiffcalcException msg).
Proof.
  intros H. unfold _calc_remaining_reference_angles.
  destruct (Req_bool (sin tau) 0) eqn:Et; [eauto |].
  destruct (Req_bool (cos theta) 0) eqn:Ec; [eauto |].
  destruct H as [H | H]; apply Req_bool_true in H; congruence.
Qed.

Lemma reference_angles_guards self name value theta tau :
  sin tau <> 0 -> cos theta <> 0 ->
  _calc_remaining_reference_angles self name value theta tau =
  ('(psi_given, alpha, beta) <-
      (if String.eqb name "psi" then
         if Rltb (1 + SMALL) (Rabs (sin_alpha_of_psi theta tau value)) then
           Raise (DiffcalcException "No reflection can be reached where psi = %.4f.")
         else
           alpha <- py_asin (bound (sin_alpha_of_psi theta tau value)) ;;
           if Rltb (1 + SMALL) (Rabs (sin_beta_of_psi theta tau value)) then
             Raise (DiffcalcException "No reflection can be reached where psi = %.4f.")
           else
             beta <- py_asin (bound (sin_beta_of_psi theta tau value)) ;;
             Return (Some value, alpha, beta)
       else if String.eqb name "a_eq_b" then
         alpha <- py_asin (bound (cos tau * sin theta)) ;;
         Return (None, alpha, alpha)
       else if String.eqb name "alpha" then
         beta <- py_asin (sin_of_other theta tau value) ;;
         Return (None, value, beta)
       else if String.eqb name "beta" then
         if Rltb (1 + SMALL) (Rabs (sin_of_other theta tau value)) then
           Raise (DiffcalcException "No reflection can be reached where beta = %.4f.")
         else
           alpha <- py_asin (sin_of_other theta tau value) ;;
           Return (None, alpha, value)
       else Raise UnboundLocalError) ;;
   match psi_given with
   | Some psi => Return (psi, alpha, beta)
   | None => Return (psi_of_alpha theta tau alpha, alpha, beta)
   end).
Proof.
  intros Ht Hc. unfold _calc_remaining_reference_angles.
  rewrite (Req_bool_false _ _ Ht), (Req_bool_false _ _ Hc).
  assert (Hd : forall a, py_div a (sin tau * cos theta) = Return (a / (sin tau * cos theta))).
  { intros a. apply py_div_nonzero. apply Rmult_integral_contrapositive. auto. }
  apply bind_ext. intros [[[psi |] alpha] beta]; [reflexivity |].
  rewrite Hd. cbn [bind]. rewrite py_acos_bound. reflexivity.
Qed.

Lemma spherical_bound (a b c d e : R) :
  a * a + b * b = 1 -> c * c + d * d = 1 -> -1 <= e <= 1 ->
  -1 <= a * c - d * b * e <= 1.
Proof.
  intros H1 H2 He.
  assert (Hsq : (a * c - d * b * e) * (a * c - d * b * e) <= 1).
  { assert (E : (a * a + b * b) * (c * c + d * d) - (a * c - d * b * e) * (a * c - d * b * e)
                = (a * d + b * c * e) * (a * d + b * c * e) + (b * c) * (b * c) * (1 - e * e)
                  + (b * d) * (b * d) * (1 - e * e)) by ring.
    rewrite H1, H2 in E.
    assert (0 <= (1 - e) * (1 + e)) by (apply Rmult_le_pos; lra).
    assert (0 <= 1 - e * e) by lra.
    assert (0 <= (a * d + b * c * e) * (a * d + b * c * e)) by apply Rle_0_sqr.
    assert (0 <= (b * c) * (b * c) * (1 - e * e))
      by (apply Rmult_le_pos; [apply Rle_0_sqr | assumption]).
    assert (0 <= (b * d) * (b * d) * (1 - e * e))
      by (apply Rmult_le_pos; [apply Rle_0_sqr | assumption]).
    lra. }
  assert (Hq := Rle_0_sqr (a * c - d * b * e + 1)).
  assert (Hq' := Rle_0_sqr (a * c - d * b * e - 1)).
  unfold Rsqr in *. split; nra.
Qed.

Lemma cos2_sin2 (x : R) : cos x * cos x + sin x * sin x = 1.
Proof. pose proof (sin2_cos2 x) as H. unfold Rsqr in H. lra. Qed.

(** The guards of the psi branch never fire: both derived sines lie
    in [-1, 1]. *)
Lemma sin_alpha_of_psi_range (theta tau psi : R) : -1 <= sin_alpha_of_psi theta tau psi <= 1.
Proof.
  unfold sin_alpha_of_psi.
  apply spherical_bound; [apply cos2_sin2 | rewrite Rplus_comm; apply cos2_sin2 | apply COS_bound].
Qed.

Lemma sin_beta_of_psi_range (theta tau psi : R) : -1 <= sin_beta_of_psi theta tau psi <= 1.
Proof.
  unfold sin_beta_of_psi.
  replace (cos tau * sin theta + cos theta * sin tau * cos psi)
    with (cos tau * sin theta - cos theta * sin tau * (- cos psi)) by ring.
  apply spherical_bound; [apply cos2_sin2 | rewrite Rplus_comm; apply cos2_sin2 |].
  pose proof (COS_bound psi). lra.
Qed.

Lemma psi_of_alpha_a_eq_b (theta tau : R) :
  sin tau <> 0 -> cos theta <> 0 ->
  psi_of_alpha theta tau (asin (bound (cos tau * sin theta))) = PI / 2.
Proof.
  intros Ht Hc. unfold psi_of_alpha.
  assert (Hx : -1 <= cos tau * sin theta <= 1).
  { pose proof (COS_bound tau). pose proof (SIN_bound theta). split; nra. }
  rewrite (bound_id _ Hx). rewrite sin_asin by exact Hx.
  replace ((cos tau * sin theta - cos tau * sin theta) / (sin tau * cos theta)) with 0
    by (field; auto).
  rewrite bound_id by lra. apply acos_0.
Qed.

(** C6, as the code has it.  The function raises [DiffcalcException]
    when [sin(tau)] or [cos(theta)] is equal to zero (an exact
    comparison), and when a beta constraint gives [sin(alpha)] a
    magnitude above 1 + 1e-8.  With both guards non-zero it returns
    psi, alpha, beta: for a psi constraint always (its two derived
    sines never leave [-1, 1]), for a_eq_b always (with psi = pi/2),
    and for an alpha or beta constraint whose derived sine lies in
    [-1, 1]. *)
Theorem calc_remaining_reference_angles_cases
        (self : YouHklCalculator.t) (value theta tau : R) :
  (forall name,
      sin tau = 0 \/ cos theta = 0 ->
      exists msg,
        _calc_remaining_reference_angles self name value theta tau
        = Raise (DiffcalcException msg))
  /\ (sin tau <> 0 -> cos theta <> 0 ->
      _calc_remaining_reference_angles self "psi" value theta tau
      = Return (value, asin (sin_alpha_of_psi theta tau value),
                asin (sin_beta_of_psi theta tau value))
      /\ _calc_remaining_reference_angles self "a_eq_b" value theta tau
         = Return (PI / 2, asin (bound (cos tau * sin theta)),
                   asin (bound (cos tau * sin theta)))
      /\ (1 + 1e-8 < Rabs (sin_of_other theta tau value) ->
          exists msg,
            _calc_remaining_reference_angles self "beta" value theta tau
            = Raise (DiffcalcException msg))
      /\ (Rabs (sin_of_other theta tau value) <= 1 ->
          _calc_remaining_reference_angles self "beta" value theta tau
          = Return (psi_of_alpha theta tau (asin (sin_of_other theta tau value)),
                    asin (sin_of_other theta tau value), value))
      /\ (Rabs (sin_of_other theta tau value) <= 1 ->
          _calc_remaining_reference_angles self "alpha" value theta tau
          = Return (psi_of_alpha theta tau value, value,
                    asin (sin_of_other theta tau value)))).
Proof.
  change 1e-8 with SMALL.
  split; [intros name; apply reference_angles_parallel |].
  intros Ht Hc.
  split; [| split; [| split; [| split]]].
  - rewrite (reference_angles_guards _ _ _ _ _ Ht Hc). cbn [String.eqb Ascii.eqb Bool.eqb].
    pose proof (sin_alpha_of_psi_range theta tau value) as Ha.
    pose proof (sin_beta_of_psi_range theta tau value) as Hb.
    pose proof SMALL_pos.
    rewrite Rltb_false by (apply Rle_not_lt; apply Rabs_le; lra).
    rewrite py_asin_bound. cbn [bind].
    rewrite Rltb_false by (apply Rle_not_lt; apply Rabs_le; lra).
    rewrite py_asin_bound. cbn [bind].
    rewrite (bound_id _ Ha), (bound_id _ Hb). reflexivity.
  - rewrite (reference_angles_guards _ _ _ _ _ Ht Hc). cbn [String.eqb Ascii.eqb Bool.eqb].
    rewrite py_asin_bound. cbn [bind].
    rewrite (psi_of_alpha_a_eq_b _ _ Ht Hc). reflexivity.
  - intros H. rewrite (reference_angles_guards _ _ _ _ _ Ht Hc). cbn [String.eqb Ascii.eqb Bool.eqb].
    rewrite (Rltb_true _ _ H). cbn. eauto.
  - intros H. rewrite (reference_angles_guards _ _ _ _ _ Ht Hc). cbn [String.eqb Ascii.eqb Bool.eqb].
    pose proof SMALL_pos.
    rewrite Rltb_false by lra.
    unfold py_asin. rewrite (Rleb_true _ _ H). reflexivity.
  - intros H. rewrite (reference_angles_guards _ _ _ _ _ Ht Hc). cbn [String.eqb Ascii.eqb Bool.eqb].
    unfold py_asin. rewrite (Rleb_true _ _ H). reflexivity.
Qed.

Lemma tiny_tau_sin_small : approx0 (sin 1e-9).
Proof.
  unfold approx0, SMALL. pose proof PI_gt_3.
  assert (0 < sin 1e-9) by (apply sin_gt_0; lra).
  assert (sin 1e-9 < 1e-9) by (apply sin_lt_x; lra).
  rewrite Rabs_pos_eq; lra.
Qed.

Lemma tiny_tau_sin_nonzero : sin 1e-9 <> 0.
Proof.
  pose proof PI_gt_3. assert (0 < sin 1e-9) by (apply sin_gt_0; lra). lra.
Qed.

Lemma cos_PI6_nonzero : cos (PI / 6) <> 0.
Proof. rewrite cos_PI6. pose proof sqrt3_pos. lra. Qed.

(** C6 as stated fails: with [sin(tau)] within the tolerance of zero
    (and not zero) the a_eq_b constraint is resolved without error. *)
Lemma reference_angles_returned_for_tiny_tau :
  approx0 (sin 1e-9)
  /\ _calc_remaining_reference_angles (self_id a_eq_b_only) "a_eq_b" 0 (PI / 6) 1e-9
     = Return (PI / 2, asin (bound (cos 1e-9 * sin (PI / 6))),
               asin (bound (cos 1e-9 * sin (PI / 6)))).
Proof.
  split; [exact tiny_tau_sin_small |].
  rewrite (reference_angles_guards _ _ _ _ _ tiny_tau_sin_nonzero cos_PI6_nonzero).
  cbn [String.eqb Ascii.eqb Bool.eqb].
  rewrite py_asin_bound. cbn [bind].
  rewrite (psi_of_alpha_a_eq_b _ _ tiny_tau_sin_nonzero cos_PI6_nonzero). reflexivity.
Qed.

Lemma calc_remaining_reference_angles_cases_witness :
  _calc_remaining_reference_angles (self_id a_eq_b_only) "a_eq_b" 0 (PI / 6) (PI / 2)
  = Return (PI / 2, asin (bound (cos (PI / 2) * sin (PI / 6))),
            asin (bound (cos (PI / 2) * sin (PI / 6)))).
Proof.
  apply (calc_remaining_reference_angles_cases (self_id a_eq_b_only) 0 (PI / 6) (PI / 2)).
  - rewrite sin_PI2. lra.
  - exact cos_PI6_nonzero.
Defined.

(** The alpha branch has no guard on the derived [sin(beta)]: where
    the beta branch raises [DiffcalcException], [math.asin] raises
    [ValueError]. *)
Lemma reference_angles_alpha_domain_error :
  sin_of_other (PI / 3) (PI / 6) (- (PI / 2)) = 5 / 2
  /\ _calc_remaining_reference_angles (self_id a_eq_b_only) "alpha" (- (PI / 2)) (PI / 3) (PI / 6)
     = Raise (ValueError "math domain error").
Proof.
  assert (E : sin_of_other (PI / 3) (PI / 6) (- (PI / 2)) = 5 / 2).
  { unfold sin_of_other. rewrite sin_neg, sin_PI2, sin_PI3, cos_PI6.
    pose proof sqrt3_sqr. nra. }
  split; [exact E |].
  rewrite reference_angles_guards.
  - cbn [String.eqb Ascii.eqb Bool.eqb]. rewrite E. unfold py_asin.
    rewrite Rleb_false by (rewrite Rabs_pos_eq; lra). reflexivity.
  - rewrite sin_PI6. lra.
  - rewrite cos_PI3. lra.
Qed.

(** The beta branch calls [math.asin] without [bound]: a derived
    [sin(alpha)] between 1 and 1 + 1e-8 is a [ValueError]. *)
Lemma reference_angles_beta_within_tolerance self value theta tau :
  sin tau <> 0 -> cos theta <> 0 ->
  1 < Rabs (sin_of_other theta tau value) <= 1 + SMALL ->
  _calc_remaining_reference_angles self "beta" value theta tau
  = Raise (ValueError "math domain error").
Proof.
  intros Ht Hc H. rewrite (reference_angles_guards _ _ _ _ _ Ht Hc).
  cbn [String.eqb Ascii.eqb Bool.eqb].
  rewrite Rltb_false by lra. unfold py_asin. rewrite Rleb_false by lra. reflexivity.
Qed.

(** ** Sample solutions: the filter *)

Lemma sequence_ne_3 (h k l h' k' l' : R) :
  sequence_ne [h; k; l] [h'; k'; l'] = true
  <-> approx0 (h - h') /\ approx0 (k - k') /\ approx0 (l - l').
Proof.
  cbn. rewrite <- !ne_true.
  destruct (ne h h'), (ne k k'), (ne l l'); cbn; intuition congruence.
Qed.

Lemma ne_nan_true (a : R) (b : option R) :
  ne_nan a b = true <-> exists v, b = Some v /\ approx0 (a - v).
Proof.
  destruct b as [v |]; cbn.
  - rewrite ne_true. split; [eauto |]. intros (v' & E & H). injection E as <-. exact H.
  - split; [discriminate |]. intros (v' & E & _). discriminate.
Qed.

Lemma VirtualAngles_get_Some va name o :
  VirtualAngles.get va name = Return o ->
  forall a, ne_nan a o = true
            <-> exists v, VirtualAngles.get va name = Return (Some v) /\ approx0 (a - v).
Proof.
  intros E a. rewrite E, ne_nan_true. split.
  - intros (v & -> & H). eauto.
  - intros (v & Ev & H). injection Ev as ->. eauto.
Qed.

(** The loop body of the filter, for one tuple. *)
Lemma filter_valid_sample_solutions_step
      self delta nu mu eta chi phi rest wavelength hkl name value survivors :
  _filter_valid_sample_solutions self delta nu ([mu; eta; chi; phi] :: rest) wavelength hkl
    name value = Return survivors ->
  exists rest',
    _filter_valid_sample_solutions self delta nu rest wavelength hkl name value = Return rest'
    /\ ((round_trips self delta nu wavelength hkl (mu, eta, chi, phi)
         /\ reproduces_reference self delta nu wavelength name value (mu, eta, chi, phi)
         /\ survivors = (mu, eta, chi, phi) :: rest')
        \/ (~ (round_trips self delta nu wavelength hkl (mu, eta, chi, phi)
               /\ reproduces_reference self delta nu wavelength name value (mu, eta, chi, phi))
            /\ survivors = rest')).
Proof.
  cbn [_filter_valid_sample_solutions unpack4 bind]. intros H.
  apply bind_Return_inv in H. destruct H as ([[h' k'] l'] & Hhkl & H).
  apply bind_Return_inv in H. destruct H as (virtual_okay & Hv & H).
  apply bind_Return_inv in H. destruct H as (rest' & Hrest & H).
  exists rest'. split; [exact Hrest |].
  destruct hkl as [[h k] l].
  assert (Hrt : sequence_ne (tuple3 (h, k, l)) (tuple3 (h', k', l')) = true
                <-> round_trips self delta nu wavelength (h, k, l) (mu, eta, chi, phi)).
  { unfold tuple3. rewrite sequence_ne_3. unfold round_trips. split.
    - intros Hok. exists (h', k', l'). auto.
    - intros ([[h2 k2] l2] & E & Hok). rewrite Hhkl in E. injection E as <- <- <-. exact Hok. }
  destruct (sequence_ne (tuple3 (h, k, l)) (tuple3 (h', k', l'))) eqn:Eok.
  - apply bind_Return_inv in Hv. destruct Hv as (va & Hva & Hv).
    assert (Hrr : virtual_okay = true
                  <-> reproduces_reference self delta nu wavelength name value
                        (mu, eta, chi, phi)).
    { unfold reproduces_reference. destruct (String.eqb name "a_eq_b").
      - injection Hv as <-. rewrite ne_true. split.
        + intros Hab. exists va. auto.
        + intros (va' & E & Hab). rewrite Hva in E. injection E as <-. exact Hab.
      - apply bind_Return_inv in Hv. destruct Hv as (o & Hget & Hv). injection Hv as <-.
        rewrite (VirtualAngles_get_Some _ _ _ Hget). split.
        + intros Hex. exists va. auto.
        + intros (va' & E & Hex). rewrite Hva in E. injection E as <-. exact Hex. }
    destruct virtual_okay; cbn [andb] in H; injection H as <-.
    + left. repeat split; [apply Hrt | apply Hrr]; reflexivity.
    + right. split; [| reflexivity]. intros [_ Hr]. apply Hrr in Hr. discriminate.
  - cbn [andb] in H. injection H as <-. right. split; [| reflexivity].
    intros [Hr _]. apply Hrt in Hr. discriminate.
Qed.

Lemma filter_valid_sample_solutions_cons_inv
      self delta nu t rest wavelength hkl name value survivors :
  _filter_valid_sample_solutions self delta nu (t :: rest) wavelength hkl name value
  = Return survivors ->
  exists mu eta chi phi, t = [mu; eta; chi; phi].
Proof.
  cbn [_filter_valid_sample_solutions]. intros H.
  apply bind_Return_inv in H. destruct H as ([[[mu eta] chi] phi] & Hu & _).
  apply unpack4_inv in Hu. eauto.
Qed.

(** The survivors are the candidates that round-trip and reproduce the
    reference constraint, in the order of the candidates. *)
Lemma filter_valid_sample_solutions_In
      self delta nu possible wavelength hkl name value survivors :
  _filter_valid_sample_solutions self delta nu possible wavelength hkl name value
  = Return survivors ->
  (forall mu eta chi phi,
      In (mu, eta, chi, phi) survivors
      <-> In [mu; eta; chi; phi] possible
          /\ round_trips self delta nu wavelength hkl (mu, eta, chi, phi)
          /\ reproduces_reference self delta nu wavelength name value (mu, eta, chi, phi))
  /\ subsequence (map tuple4 survivors) possible.
Proof.
  revert survivors. induction possible as [| t rest IH]; intros survivors H.
  - cbn in H. injection H as <-. split; [| constructor]. intros. cbn. tauto.
  - destruct (filter_valid_sample_solutions_cons_inv _ _ _ _ _ _ _ _ _ _ H)
      as (mu0 & eta0 & chi0 & phi0 & ->).
    apply filter_valid_sample_solutions_step in H.
    destruct H as (rest' & Hrest & Hcase).
    destruct (IH rest' Hrest) as [IHin IHsub].
    destruct Hcase as [(Hrt & Hrr & ->) | (Hno & ->)].
    + split.
      * intros mu eta chi phi. cbn [In]. rewrite IHin. split.
        -- intros [E | Hin]; [injection E as <- <- <- <-; auto | tauto].
        -- intros ([E | Hin] & H1 & H2); [injection E as <- <- <- <-; auto | auto].
      * cbn [map tuple4]. apply subsequence_keep. exact IHsub.
    + split.
      * intros mu eta chi phi. cbn [In]. rewrite IHin. split; [tauto |].
        intros ([E | Hin] & H1 & H2); [| auto].
        injection E as <- <- <- <-. exfalso. auto.
      * apply subsequence_skip. exact IHsub.
Qed.

(** ** Sample solutions: the choice *)

Lemma py_min_from_le (best : R) (l : list R) :
  py_min_from best l <= best /\ forall x, In x l -> py_min_from best l <= x.
Proof.
  revert best. induction l as [| y l IH]; intros best; cbn [py_min_from].
  - split; [lra | intros x []].
  - destruct (IH (if Rltb y best then y else best)) as [H1 H2].
    unfold Rltb in *. destruct (Rlt_dec y best) as [Hlt | Hge].
    + split; [lra |]. intros x [<- | Hin]; [exact H1 | auto].
    + split; [exact H1 |]. intros x [<- | Hin]; [lra | auto].
Qed.

Lemma py_min_from_In (best : R) (l : list R) :
  py_min_from best l = best \/ In (py_min_from best l) l.
Proof.
  revert best. induction l as [| y l IH]; intros best; cbn [py_min_from].
  - left. reflexivity.
  - destruct (IH (if Rltb y best then y else best)) as [E | Hin].
    + rewrite E. destruct (Rltb y best); [right; left; reflexivity | left; reflexivity].
    + right. right. exact Hin.
Qed.

Lemma py_index_In (l : list R) (x : R) :
  In x l ->
  exists i,
    py_index l x = Return i /\ nth_error l i = Some x
    /\ forall j y, (j < i)%nat -> nth_error l j = Some y -> y <> x.
Proof.
  induction l as [| y l IH]; intros Hin; [destruct Hin |].
  cbn [py_index]. destruct (Req_bool y x) eqn:E.
  - apply Req_bool_eq in E. subst y. exists O. repeat split. intros j y Hj. lia.
  - assert (Hyx : y <> x) by (intros ->; rewrite Req_bool_true in E by reflexivity; discriminate).
    destruct Hin as [-> | Hin]; [contradiction |].
    destruct (IH Hin) as (i & Hi & Hnth & Hfirst). exists (S i). rewrite Hi. cbn.
    repeat split; [exact Hnth |].
    intros [| j] z Hj Hz; cbn in Hz.
    + injection Hz as <-. exact Hyx.
    + apply (Hfirst j); [lia | exact Hz].
Qed.

Lemma abs_sum_eq (t : R * R * R * R) : abs_sum t = angle_magnitude t.
Proof. destruct t as [[[mu eta] chi] phi]. cbn. ring. Qed.

(** Of a non-empty list the first tuple of least magnitude is chosen. *)
Lemma choose_sample_angles_first_least self (l : list (R * R * R * R)) :
  l <> [] ->
  exists i t,
    _choose_sample_angles self l = Return t
    /\ nth_error l i = Some t
    /\ (forall t', In t' l -> angle_magnitude t <= angle_magnitude t')
    /\ (forall j t', (j < i)%nat -> nth_error l j = Some t' ->
                     angle_magnitude t < angle_magnitude t').
Proof.
  intros Hne. destruct l as [| t0 l]; [contradiction |].
  assert (Hgen :
    exists i t,
      (shortest <- py_min (map abs_sum (t0 :: l)) ;;
       shortest_solution_index <- py_index (map abs_sum (t0 :: l)) shortest ;;
       py_getitem (t0 :: l) shortest_solution_index) = Return t
      /\ nth_error (t0 :: l) i = Some t
      /\ (forall t', In t' (t0 :: l) -> angle_magnitude t <= angle_magnitude t')
      /\ (forall j t', (j < i)%nat -> nth_error (t0 :: l) j = Some t' ->
                       angle_magnitude t < angle_magnitude t')).
  { cbn [map py_min bind].
    set (m := py_min_from (abs_sum t0) (map abs_sum l)).
    destruct (py_min_from_le (abs_sum t0) (map abs_sum l)) as [Hle0 Hle].
    assert (Hmin : forall t', In t' (t0 :: l) -> m <= abs_sum t').
    { intros t' [<- | Hin]; [exact Hle0 |]. apply Hle. apply in_map. exact Hin. }
    assert (Hin : In m (abs_sum t0 :: map abs_sum l)).
    { destruct (py_min_from_In (abs_sum t0) (map abs_sum l)) as [E | H];
        [left; symmetry; exact E | right; exact H]. }
    destruct (py_index_In _ _ Hin) as (i & Hi & Hnth & Hfirst).
    change (abs_sum t0 :: map abs_sum l) with (map abs_sum (t0 :: l)) in *.
    rewrite Hi. cbn [bind].
    rewrite nth_error_map in Hnth.
    destruct (nth_error (t0 :: l) i) as [t |] eqn:Et; [| discriminate].
    cbn in Hnth. injection Hnth as Hm.
    exists i, t. unfold py_getitem. rewrite Et.
    repeat split.
    - intros t' Ht'. rewrite <- !abs_sum_eq, Hm. apply Hmin. exact Ht'.
    - intros j t' Hj Ht'. rewrite <- !abs_sum_eq, Hm.
      assert (Hneq : abs_sum t' <> m).
      { apply (Hfirst j); [exact Hj |]. rewrite nth_error_map, Ht'. reflexivity. }
      assert (m <= abs_sum t') by (apply Hmin; eapply nth_error_In; exact Ht').
      lra. }
  destruct l as [| t1 l]; [| exact Hgen].
  exists O, t0. cbn. repeat split.
  - intros t' [<- | []]. lra.
  - intros j t' Hj. lia.
Qed.

Lemma choose_sample_angles_In self l t :
  _choose_sample_angles self l = Return t -> In t l.
Proof.
  intros H. destruct l as [| t0 l]; [discriminate |].
  destruct (choose_sample_angles_first_least self (t0 :: l)) as (i & t' & E & Hnth & _);
    [discriminate |].
  rewrite H in E. injection E as <-. eapply nth_error_In. exact Hnth.
Qed.

(** C4: the tuples that survive [_filter_valid_sample_solutions] are
    the candidates, in their order, that round-trip through the
    forward kinematics to the target hkl within the tolerance and
    whose virtual angles reproduce the reference constraint (alpha
    within the tolerance of beta for a_eq_b); of the survivors
    [_choose_sample_angles] returns the first one of least
    |mu|+|eta|+|chi|+|phi|, and with no survivor it raises
    [NoSolutionException]. *)
Theorem sample_solutions_filtered_and_chosen
        (self : YouHklCalculator.t) (delta nu : R) (possible : list (list R))
        (wavelength : R) (hkl : R * R * R)
        (ref_constraint_name : string) (ref_constraint_value : R)
        (survivors : list (R * R * R * R)) :
  _filter_valid_sample_solutions self delta nu possible wavelength hkl
    ref_constraint_name ref_constraint_value = Return survivors ->
  (forall mu eta chi phi,
      In (mu, eta, chi, phi) survivors
      <-> In [mu; eta; chi; phi] possible
          /\ round_trips self delta nu wavelength hkl (mu, eta, chi, phi)
          /\ reproduces_reference self delta nu wavelength
               ref_constraint_name ref_constraint_value (mu, eta, chi, phi))
  /\ subsequence (map tuple4 survivors) possible
  /\ (survivors = [] ->
      _choose_sample_angles self survivors
      = Raise (NoSolutionException
                 "No sample solutions were found,please un-constrain sample limits"))
  /\ (survivors <> [] ->
      exists i t,
        _choose_sample_angles self survivors = Return t
        /\ nth_error survivors i = Some t
        /\ (forall t', In t' survivors -> angle_magnitude t <= angle_magnitude t')
        /\ (forall j t', (j < i)%nat -> nth_error survivors j = Some t' ->
                         angle_magnitude t < angle_magnitude t')).
Proof.
  intros H. destruct (filter_valid_sample_solutions_In _ _ _ _ _ _ _ _ _ H) as [Hin Hsub].
  split; [exact Hin |]. split; [exact Hsub |]. split.
  - intros ->. reflexivity.
  - apply choose_sample_angles_first_least.
Qed.

(** ** Forward kinematics in closed form *)

Lemma inverse_x_rotation th : inverse (x_rotation th) = Return (transpose (x_rotation th)).
Proof.
  unfold inverse, x_rotation, det, adjugate, mscale, transpose. cbn.
  pose proof (cos2_sin2 th) as H.
  set (c := cos th) in *. set (s := sin th) in *.
  replace (1 * (c * c - - s * s) - 0 * (0 * c - - s * 0) + 0 * (0 * s - c * 0)) with 1 by lra.
  rewrite Req_bool_false by lra. rewrite Rinv_1.
  f_equal. f_equal; nra.
Qed.

Lemma inverse_y_rotation th : inverse (y_rotation th) = Return (transpose (y_rotation th)).
Proof.
  unfold inverse, y_rotation, det, adjugate, mscale, transpose. cbn.
  pose proof (cos2_sin2 th) as H.
  set (c := cos th) in *. set (s := sin th) in *.
  replace (c * (1 * c - 0 * 0) - 0 * (0 * c - 0 * - s) + s * (0 * 0 - 1 * - s)) with 1 by lra.
  rewrite Req_bool_false by lra. rewrite Rinv_1.
  f_equal. f_equal; nra.
Qed.

Lemma inverse_z_rotation th : inverse (z_rotation th) = Return (transpose (z_rotation th)).
Proof.
  unfold inverse, z_rotation, det, adjugate, mscale, transpose. cbn.
  pose proof (cos2_sin2 th) as H.
  set (c := cos th) in *. set (s := sin th) in *.
  replace (c * (c * 1 - 0 * 0) - - s * (s * 1 - 0 * 0) + 0 * (s * 0 - c * 0)) with 1 by lra.
  rewrite Req_bool_false by lra. rewrite Rinv_1.
  f_equal. f_equal; nra.
Qed.

Lemma youAnglesToHkl_closed_form pos wavelength UBmatrix :
  wavelength <> 0 -> det UBmatrix <> 0 ->
  youAnglesToHkl pos wavelength UBmatrix = Return (hkl_of pos wavelength UBmatrix).
Proof.
  intros Hw Hd. destruct pos as [mu delta nu eta chi phi].
  unfold youAnglesToHkl, hkl_of, hkl_vector_of, YouPosition.totuple, createYouMatrices. cbn.
  rewrite (py_div_nonzero _ _ Hw). cbn [bind].
  unfold inverse at 1. rewrite (Req_bool_false _ _ Hd). cbn [bind].
  unfold calcPHI, calcCHI, calcETA, calcMU.
  rewrite inverse_z_rotation. cbn [bind].
  rewrite inverse_y_rotation. cbn [bind].
  rewrite inverse_z_rotation. cbn [bind].
  rewrite inverse_x_rotation. cbn [bind].
  reflexivity.
Qed.

Lemma cos_plus_2PI (x : R) : cos (x + 2 * PI) = cos x.
Proof.
  replace (x + 2 * PI) with (x + PI + PI) by ring. rewrite !neg_cos. ring.
Qed.

Lemma sin_plus_2PI (x : R) : sin (x + 2 * PI) = sin x.
Proof.
  replace (x + 2 * PI) with (x + PI + PI) by ring. rewrite !neg_sin. ring.
Qed.

Lemma calcPHI_period (phi : R) : calcPHI (phi + 2 * PI) = calcPHI phi.
Proof.
  unfold calcPHI, z_rotation.
  rewrite !cos_neg, !sin_neg, cos_plus_2PI, sin_plus_2PI. reflexivity.
Qed.

(** Turning phi by a full circle does not change the Miller indices. *)
Lemma youAnglesToHkl_phi_period mu delta nu eta chi phi wavelength UBmatrix :
  youAnglesToHkl (YouPosition.make mu delta nu eta chi (phi + 2 * PI)) wavelength UBmatrix
  = youAnglesToHkl (YouPosition.make mu delta nu eta chi phi) wavelength UBmatrix.
Proof.
  unfold youAnglesToHkl, YouPosition.totuple, createYouMatrices. cbn.
  rewrite calcPHI_period. reflexivity.
Qed.

(** ** Worked example: the (1 0 0) reflection of a cubic crystal *)

Lemma PI_pos : 0 < PI.
Proof. pose proof PI_gt_3. lra. Qed.

Lemma h_phi_100 : mvec UB_cubic (Vector 1 0 0) = Vector (2 * PI) 0 0.
Proof. unfold mvec, UB_cubic. cbn. f_equal; ring. Qed.

Lemma norm_x_axis (a : R) : 0 <= a -> norm (Vector a 0 0) = a.
Proof.
  intros H. unfold norm. cbn.
  replace (a * a + 0 * 0 + 0 * 0) with (a * a) by ring. apply sqrt_square. exact H.
Qed.

Lemma norm_z_axis : norm (Vector 0 0 1) = 1.
Proof.
  unfold norm. cbn. replace (0 * 0 + 0 * 0 + 1 * 1) with 1 by ring. apply sqrt_1.
Qed.

Lemma asin_half : asin (1 / 2) = PI / 6.
Proof. rewrite <- sin_PI6. apply asin_sin. pose proof PI_gt_3. lra. Qed.

Lemma calc_theta_100 : _calc_theta self_100 (Vector (2 * PI) 0 0) 1 = Return (PI / 6).
Proof.
  pose proof PI_pos as HPI.
  unfold _calc_theta. rewrite norm_x_axis by lra.
  rewrite Req_bool_false by lra.
  rewrite py_div_nonzero by lra. cbn [bind].
  rewrite py_div_nonzero by lra. cbn [bind].
  replace (2 * PI / (2 * (2 * PI / 1))) with (1 / 2) by (field; lra).
  rewrite py_asin_in by lra. rewrite asin_half. reflexivity.
Qed.

Lemma tau_100 : angle_between_vectors (Vector (2 * PI) 0 0) (Vector 0 0 1) = Return (PI / 2).
Proof.
  pose proof PI_pos as HPI.
  unfold angle_between_vectors. rewrite norm_x_axis by lra. rewrite norm_z_axis.
  rewrite !py_div_nonzero by lra. cbn [bind].
  unfold dot3, vscale. cbn.
  replace (2 * PI * (1 / (2 * PI)) * (0 * (1 / 1)) + 0 * (1 / (2 * PI)) * (0 * (1 / 1))
           + 0 * (1 / (2 * PI)) * (1 * (1 / 1))) with 0 by (field; lra).
  rewrite bound_id by lra. rewrite py_acos_in by lra. rewrite acos_0. reflexivity.
Qed.

Lemma reference_100 :
  _calc_remaining_reference_angles self_100 "a_eq_b" 0 (PI / 6) (PI / 2)
  = Return (PI / 2, 0, 0).
Proof.
  rewrite reference_angles_guards;
    [| rewrite sin_PI2; lra | exact cos_PI6_nonzero].
  cbn [String.eqb Ascii.eqb Bool.eqb].
  rewrite py_asin_bound. cbn [bind].
  rewrite psi_of_alpha_a_eq_b; [| rewrite sin_PI2; lra | exact cos_PI6_nonzero].
  rewrite cos_PI2, Rmult_0_l. rewrite bound_id by lra. rewrite asin_0. reflexivity.
Qed.

Lemma two_PI6 : 2 * (PI / 6) = PI / 3.
Proof. field. Qed.

Lemma sqrt3_gt_1 : 1 < sqrt 3.
Proof.
  rewrite <- sqrt_1. apply sqrt_lt_1_alt. lra.
Qed.

Lemma detector_100 :
  _calc_remaining_detector_angles self_100 "qaz" (PI / 2) (PI / 6)
  = Return (PI / 3, 0, PI / 2).
Proof.
  unfold _calc_remaining_detector_angles. cbn [String.eqb Ascii.eqb Bool.eqb bind].
  rewrite two_PI6, cos_PI2, cos_PI3, sin_PI2, Rmult_0_r.
  rewrite atan2_0_x_pos by lra.
  rewrite is_small_0. cbn [negb]. rewrite cos_0.
  rewrite py_div_nonzero by lra. cbn [bind].
  replace (1 / 2 / 1) with (1 / 2) by field.
  rewrite bound_id by lra. rewrite py_acos_in by lra. cbn [bind]. rewrite acos_half.
  unfold sign. rewrite Rltb_true by (pose proof PI_pos; lra).
  rewrite Rmult_1_l. reflexivity.
Qed.

Lemma naz_qaz_100 : _calc_angle_between_naz_and_qaz (PI / 6) 0 (PI / 2) = Return (PI / 2).
Proof.
  unfold _calc_angle_between_naz_and_qaz. cbn zeta.
  rewrite cos_PI2, sin_0, cos_0, cos_PI6.
  pose proof sqrt3_gt_1.
  rewrite is_small_false by (unfold SMALL; rewrite Rabs_pos_eq; lra).
  rewrite py_div_nonzero by lra. cbn [bind].
  replace ((0 - 0 * sin (PI / 6)) / (1 * (sqrt 3 / 2))) with 0 by (field; lra).
  rewrite bound_id by lra. rewrite py_acos_in by lra. rewrite acos_0. reflexivity.
Qed.

Lemma generate_transformed_values_generic (v : R) :
  ~ Rabs v < SMALL -> ~ Rabs (v - PI / 2) < SMALL -> ~ Rabs (v + PI / 2) < SMALL ->
  _generate_transformed_values v false = [v; - v; PI + v; PI - v].
Proof.
  intros H0 H1 H2. unfold _generate_transformed_values.
  rewrite !is_small_false by assumption. reflexivity.
Qed.

Lemma generate_transformed_values_0 : _generate_transformed_values 0 false = [0; PI].
Proof. unfold _generate_transformed_values. rewrite is_small_0. reflexivity. Qed.

Lemma limited_within (name : string) (v : R) :
  -1 <= v * TODEG <= 90 ->
  Hardware.isAxisValueWithinLimits limited name (Hardware.cutAngle limited name (v * TODEG))
  = true.
Proof. intros H. cbn. rewrite !Rleb_true by lra. reflexivity. Qed.

Lemma limited_outside (name : string) (v : R) :
  v * TODEG < -1 \/ 90 < v * TODEG ->
  Hardware.isAxisValueWithinLimits limited name (Hardware.cutAngle limited name (v * TODEG))
  = false.
Proof.
  intros H. cbn. destruct H as [H | H].
  - rewrite (Rleb_false (-1)) by lra. reflexivity.
  - rewrite (Rleb_false _ 90) by lra. apply andb_false_r.
Qed.

Lemma TODEG_PI (q : R) : PI * q * TODEG = 180 * q.
Proof. unfold TODEG. field. pose proof PI_pos. lra. Qed.

(** The transformed values of an angle of 180 q degrees, 1 < 180 q
    < 90, that lie within the limits. *)
Lemma limited_transformed_values (name : string) (q : R) :
  1 / 180 < q <= 1 / 3 ->
  map cut_at_minus_pi
    (filter (fun tv => Hardware.isAxisValueWithinLimits limited name
                         (Hardware.cutAngle limited name (tv * TODEG)))
            (_generate_transformed_values (PI * q) false))
  = [PI * q].
Proof.
  intros Hq. pose proof PI_gt_3 as HPI. pose proof PI_4 as HPI4.
  assert (Hlo : 3 / 180 < PI * q) by nra.
  assert (Hhi : PI * q < PI / 2) by nra.
  rewrite generate_transformed_values_generic.
  - cbn [filter].
    rewrite limited_within by (rewrite TODEG_PI; lra).
    rewrite limited_outside
      by (left; replace (- (PI * q)) with (PI * (- q)) by ring; rewrite TODEG_PI; lra).
    rewrite limited_outside
      by (right; replace (PI + PI * q) with (PI * (1 + q)) by ring; rewrite TODEG_PI; lra).
    rewrite limited_outside
      by (right; replace (PI - PI * q) with (PI * (1 - q)) by ring; rewrite TODEG_PI; lra).
    cbn [map]. rewrite cut_at_minus_pi_id; [reflexivity |].
    unfold SMALL. lra.
  - unfold SMALL. rewrite Rabs_pos_eq by lra. lra.
  - unfold SMALL. rewrite Rabs_left1 by lra.
    nra.
  - unfold SMALL. rewrite Rabs_pos_eq by lra. lra.
Qed.

Lemma limited_transformed_values_0 (name : string) :
  map cut_at_minus_pi
    (filter (fun tv => Hardware.isAxisValueWithinLimits limited name
                         (Hardware.cutAngle limited name (tv * TODEG)))
            (_generate_transformed_values 0 false))
  = [0].
Proof.
  pose proof PI_gt_3 as HPI.
  rewrite generate_transformed_values_0. cbn [filter].
  rewrite limited_within by (rewrite Rmult_0_l; lra).
  rewrite limited_outside
    by (right; replace PI with (PI * 1) at 1 by ring; rewrite TODEG_PI; lra).
  cbn [map]. rewrite cut_at_minus_pi_id by (unfold SMALL; lra). reflexivity.
Qed.

Lemma limited_constrained_0 (name : string) :
  map cut_at_minus_pi
    (filter (fun tv => Hardware.isAxisValueWithinLimits limited name
                         (Hardware.cutAngle limited name (tv * TODEG)))
            (_generate_transformed_values 0 true))
  = [0].
Proof.
  pose proof PI_gt_3 as HPI.
  unfold _generate_transformed_values. cbn [filter].
  rewrite limited_within by (rewrite Rmult_0_l; lra).
  cbn [map]. rewrite cut_at_minus_pi_id by (unfold SMALL; lra). reflexivity.
Qed.

Lemma PI3_eq : PI / 3 = PI * (1 / 3).
Proof. field. Qed.

Lemma PI6_eq : PI / 6 = PI * (1 / 6).
Proof. field. Qed.

Lemma possible_detector_100 :
  _generate_possible_solutions self_100 [PI / 3; 0] ["delta"; "nu"] ["qaz"]
  = Return [[PI / 3; 0]].
Proof.
  unfold _generate_possible_solutions.
  cbn [combine map name_in existsb String.eqb Ascii.eqb Bool.eqb orb
       YouHklCalculator._hardware self_100 YouHklCalculator.init].
  rewrite PI3_eq. rewrite limited_transformed_values by lra.
  rewrite limited_transformed_values_0. reflexivity.
Qed.

Lemma final_detector_100 :
  _generate_final_detector_angles self_100 (PI / 3) 0 (PI / 2) (PI / 6) "qaz"
  = Return (PI / 3, 0).
Proof.
  pose proof PI_gt_3 as HPI.
  unfold _generate_final_detector_angles.
  assert (E : ne (PI / 3) (PI / 2) = false).
  { apply is_small_false. unfold SMALL. rewrite Rabs_left1; lra. }
  rewrite E. cbn [andb].
  rewrite possible_detector_100. cbn [bind].
  cbn [_filter_detector_solutions_by_theta_and_qaz unpack2 bind].
  rewrite theta_and_qaz_60_0. cbn [bind]. rewrite !ne_refl. cbn [andb].
  reflexivity.
Qed.

Lemma norm_eq (v : vector) (r : R) :
  0 <= r -> v0 v * v0 v + v1 v * v1 v + v2 v * v2 v = r * r -> norm v = r.
Proof. intros Hr H. unfold norm. rewrite H. apply sqrt_square. exact Hr. Qed.

Lemma angle_between_equatorial_and_z (a b : R) :
  a * a + b * b = 1 ->
  angle_between_vectors (Vector a b 0) (Vector 0 0 1) = Return (PI / 2).
Proof.
  intros H. unfold angle_between_vectors.
  rewrite (norm_eq (Vector a b 0) 1) by (cbn; lra).
  rewrite norm_z_axis. rewrite !py_div_nonzero by lra. cbn [bind].
  unfold dot3, vscale. cbn.
  replace (a * (1 / 1) * (0 * (1 / 1)) + b * (1 / 1) * (0 * (1 / 1))
           + 0 * (1 / 1) * (1 * (1 / 1))) with 0 by field.
  rewrite bound_id by lra. rewrite py_acos_in by lra. rewrite acos_0. reflexivity.
Qed.

(** Equation 31 for a scattering vector in the equatorial plane and
    the reference vector along z. *)
Lemma calc_N_equatorial (r a b : R) :
  0 < r -> a * a + b * b = 1 ->
  _calc_N (Vector (r * a) (r * b) 0) (Vector 0 0 1)
  = Return (Matrix a 0 b
                   b 0 (- a)
                   0 1 0).
Proof.
  intros Hr H. pose proof PI_gt_3 as HPI. unfold _calc_N.
  rewrite (norm_eq (Vector (r * a) (r * b) 0) r) by (cbn; nra).
  rewrite py_div_nonzero by lra. cbn [bind].
  replace (vscale (Vector (r * a) (r * b) 0) (1 / r)) with (Vector a b 0)
    by (unfold vscale; cbn; f_equal; field; lra).
  rewrite (norm_eq (Vector a b 0) 1) by (cbn; lra).
  rewrite py_div_nonzero by lra. cbn [bind].
  replace (vscale (Vector 0 0 1) (1 / 1)) with (Vector 0 0 1)
    by (unfold vscale; cbn; f_equal; field).
  rewrite (angle_between_equatorial_and_z a b H). cbn [bind].
  rewrite is_small_false by (unfold SMALL; rewrite Rabs_pos_eq; lra).
  replace (cross3 (Vector a b 0) (Vector 0 0 1)) with (Vector b (- a) 0)
    by (unfold cross3; cbn; f_equal; ring).
  replace (cross3 (Vector b (- a) 0) (Vector a b 0)) with (Vector 0 0 1)
    by (unfold cross3; cbn; f_equal; nra).
  rewrite norm_z_axis.
  rewrite (norm_eq (Vector b (- a) 0) 1) by (cbn; lra).
  rewrite !py_div_nonzero by lra. cbn [bind].
  unfold vscale. cbn. do 2 f_equal; field.
Qed.

Lemma atan2_30 : atan2 (1 / 2) (sqrt 3 / 2) = PI / 6.
Proof.
  pose proof sqrt3_pos. pose proof PI_gt_3.
  rewrite atan2_x_pos by lra.
  replace (1 / 2 / (sqrt 3 / 2)) with (1 / sqrt 3) by (field; lra).
  rewrite <- tan_PI6. apply atan_tan. lra.
Qed.

Lemma sample_angles_100 :
  _calc_remaining_sample_angles self_100 "phi" 0
    (Vector (sqrt 3 / 2) (- (1 / 2)) 0) (Vector 0 0 1) (Vector (2 * PI) 0 0) (Vector 0 0 1)
  = Return (0, 0, PI / 6, 0).
Proof.
  pose proof sqrt3_pos as Hs. pose proof sqrt3_sqr as Hss. pose proof PI_gt_3 as HPI.
  unfold _calc_remaining_sample_angles.
  replace (Vector (sqrt 3 / 2) (- (1 / 2)) 0)
    with (Vector (1 * (sqrt 3 / 2)) (1 * - (1 / 2)) 0) by (f_equal; ring).
  rewrite calc_N_equatorial by nra.
  replace (Vector (2 * PI) 0 0) with (Vector (2 * PI * 1) (2 * PI * 0) 0) by (f_equal; ring).
  rewrite calc_N_equatorial by lra.
  cbn [bind String.eqb Ascii.eqb Bool.eqb].
  replace (inverse (Matrix 1 0 0 0 0 (- (1)) 0 1 0))
    with (Return (Matrix 1 0 0 0 0 1 0 (- (1)) 0)).
  2:{ unfold inverse, det, adjugate, mscale. cbn.
      replace (1 * (0 * 0 - - (1) * 1) - 0 * (0 * 0 - - (1) * 0) + 0 * (0 * 1 - 0 * 0))
        with 1 by ring.
      rewrite Req_bool_false by lra. rewrite Rinv_1. do 2 f_equal; ring. }
  cbn [bind].
  replace (mmul (mmul (Matrix (sqrt 3 / 2) 0 (- (1 / 2)) (- (1 / 2)) 0 (- (sqrt 3 / 2)) 0 1 0)
                      (Matrix 1 0 0 0 0 1 0 (- (1)) 0))
                (transpose (calcPHI 0)))
    with (Matrix (sqrt 3 / 2) (1 / 2) 0 (- (1 / 2)) (sqrt 3 / 2) 0 0 0 1).
  2:{ unfold mmul, transpose, calcPHI, z_rotation. cbn.
      rewrite Ropp_0, cos_0, sin_0. f_equal; ring. }
  cbn [m00 m01 m02 m10 m11 m12 m20 m21 m22].
  replace (sqrt ((sqrt 3 / 2) ^ 2 + 0 ^ 2)) with (sqrt 3 / 2).
  2:{ replace ((sqrt 3 / 2) ^ 2 + 0 ^ 2) with ((sqrt 3 / 2) * (sqrt 3 / 2)) by ring.
      rewrite sqrt_square; lra. }
  rewrite atan2_30. rewrite !atan2_0_x_pos by lra.
  rewrite cos_PI6.
  rewrite is_small_false by (unfold SMALL; rewrite Rabs_pos_eq; pose proof sqrt3_gt_1; lra).
  reflexivity.
Qed.

Lemma possible_sample_100 :
  _generate_possible_solutions self_100 [0; PI / 6; 0; 0] ["mu"; "eta"; "chi"; "phi"] ["phi"]
  = Return [[0; PI / 6; 0; 0]].
Proof.
  unfold _generate_possible_solutions.
  cbn [combine map name_in existsb String.eqb Ascii.eqb Bool.eqb orb
       YouHklCalculator._hardware self_100 YouHklCalculator.init].
  rewrite PI6_eq. rewrite limited_transformed_values by lra.
  rewrite !limited_transformed_values_0. rewrite limited_constrained_0. reflexivity.
Qed.

Lemma det_UB_cubic : det UB_cubic <> 0.
Proof.
  unfold det, UB_cubic. cbn. pose proof PI_pos.
  set (t := 2 * PI). assert (0 < t) by (unfold t; lra). clearbody t.
  replace (t * (t * t - 0 * 0) - 0 * (0 * t - 0 * 0) + 0 * (0 * 0 - t * 0))
    with (t * (t * t)) by ring.
  assert (0 < t * (t * t)) by (repeat apply Rmult_lt_0_compat; assumption). lra.
Qed.

Lemma hkl_of_100 : hkl_of pos_100 1 UB_cubic = (1, 0, 0).
Proof.
  pose proof PI_gt_3 as HPI. pose proof sqrt3_sqr as Hss.
  unfold hkl_of, hkl_vector_of. rewrite !mvec_mmul.
  cbn [YouPosition.mu YouPosition.delta YouPosition.nu YouPosition.eta YouPosition.chi
       YouPosition.phi pos_100].
  unfold calcNU, calcMU, calcCHI, calcPHI.
  rewrite Ropp_0, x_rotation_0, y_rotation_0, z_rotation_0.
  replace (transpose I) with I by reflexivity. rewrite !mvec_I.
  replace (mvec (msub (mmul I (calcDELTA (PI / 3))) I) (Vector 0 (2 * PI / 1) 0))
    with (Vector (2 * PI * (sqrt 3 / 2)) (2 * PI * (- (1 / 2))) 0).
  2:{ unfold calcDELTA, z_rotation, mmul, msub, mvec, I. cbn.
      rewrite cos_neg, sin_neg, cos_PI3, sin_PI3. f_equal; field. }
  replace (mvec (transpose (calcETA (PI / 6)))
             (Vector (2 * PI * (sqrt 3 / 2)) (2 * PI * - (1 / 2)) 0))
    with (Vector (2 * PI) 0 0).
  2:{ unfold calcETA, z_rotation, transpose, mvec. cbn.
      rewrite cos_neg, sin_neg, cos_PI6, sin_PI6. f_equal; nra. }
  unfold UB_cubic, adjugate, det, mscale, mvec. cbn.
  f_equal; [f_equal |]; field; lra.
Qed.

Lemma anglesToHkl_100 : _anglesToHkl self_100 pos_100 1 = Return (1, 0, 0).
Proof.
  unfold _anglesToHkl. cbn [YouHklCalculator._getUBMatrix self_100 YouHklCalculator.init].
  rewrite youAnglesToHkl_closed_form by (try exact det_UB_cubic; lra).
  rewrite hkl_of_100. reflexivity.
Qed.

Lemma n_lab_of_100 : n_lab_of self_100 pos_100 = Vector 0 0 1.
Proof. apply n_lab_of_mu_chi_0. reflexivity. Qed.

Lemma virtual_angles_100 : _anglesToVirtualAngles self_100 pos_100 1 = Return va_100.
Proof.
  pose proof PI_gt_3 as HPI. pose proof sqrt3_pos as Hs.
  pose proof (anglesToVirtualAngles_unfold self_100 pos_100 1) as H.
  cbn zeta in H. rewrite H. clear H. rewrite n_lab_of_100.
  cbn [v0 v1 v2 YouPosition.delta YouPosition.nu pos_100].
  rewrite cos_PI3, cos_0, sin_0, tan_PI3, Ropp_0.
  replace (1 / 2 * 1) with (1 / 2) by field.
  rewrite (bound_id (1 / 2)) by lra. rewrite acos_half.
  replace (PI / 3 / 2) with (PI / 6) by field.
  rewrite (bound_id 0) by lra. rewrite asin_0, cos_0, sin_0.
  rewrite atan2_0_x_pos by lra.
  rewrite atan2_y_pos_0 by exact Hs.
  replace (0 - PI / 2) with (- (PI / 2)) by ring.
  rewrite cos_neg, cos_PI2.
  replace (1 * cos (PI / 6) * 0 + 0 * sin (PI / 6)) with 0 by ring.
  rewrite (bound_id 0) by lra. rewrite acos_0, cos_PI2, sin_PI2.
  replace (2 * sin (PI / 6) * 0 - 0) with 0 by ring.
  rewrite (bound_id 0) by lra. rewrite asin_0.
  rewrite (Req_bool_false 1 0) by lra.
  rewrite (Req_bool_false _ _ cos_PI6_nonzero).
  replace ((0 * sin (PI / 6) - 0) / (1 * cos (PI / 6))) with 0
    by (field; exact cos_PI6_nonzero).
  rewrite (bound_id 0) by lra. rewrite acos_0. reflexivity.
Qed.

Lemma filter_sample_100 :
  _filter_valid_sample_solutions self_100 (PI / 3) 0 [[0; PI / 6; 0; 0]] 1 (1, 0, 0) "a_eq_b" 0
  = Return [(0, PI / 6, 0, 0)].
Proof.
  cbn [_filter_valid_sample_solutions unpack4 bind].
  change (YouPosition.make 0 (PI / 3) 0 (PI / 6) 0 0) with pos_100.
  rewrite anglesToHkl_100. cbn [bind tuple3 sequence_ne].
  rewrite !ne_refl. cbn [negb].
  rewrite virtual_angles_100. cbn [bind String.eqb Ascii.eqb Bool.eqb].
  cbn [VirtualAngles.alpha VirtualAngles.beta va_100]. rewrite ne_refl. reflexivity.
Qed.

Lemma final_sample_100 :
  _generate_final_sample_angles self_100 0 (PI / 6) 0 0 ["phi"] (PI / 3) 0 1 (1, 0, 0) "a_eq_b" 0
  = Return (0, PI / 6, 0, 0).
Proof.
  unfold _generate_final_sample_angles.
  rewrite possible_sample_100. cbn [bind].
  rewrite filter_sample_100. reflexivity.
Qed.

Lemma hklToAngles_100 : _hklToAngles self_100 1 0 0 1 = Return (pos_100, va_100).
Proof.
  pose proof PI_gt_3 as HPI.
  unfold _hklToAngles.
  cbn [YouHklCalculator.constraints YouHklCalculator.n_phi YouHklCalculator._getUBMatrix
       self_100 YouHklCalculator.init].
  rewrite h_phi_100, calc_theta_100. cbn [bind].
  rewrite tau_100. cbn [bind].
  cbn [YouConstraintManager.reference YouConstraintManager.detector YouConstraintManager.naz
       YouConstraintManager.sample phi_constraints].
  rewrite reference_100. cbn [bind dict_truth andb].
  rewrite detector_100. cbn [bind]. rewrite naz_qaz_100. cbn [bind].
  rewrite (Req_bool_false (PI / 2) 0) by lra. cbn [negb orb].
  rewrite final_detector_100. cbn [bind].
  replace (PI / 2 - PI / 2) with 0 by ring.
  rewrite cos_PI6, sin_PI6, sin_PI2, cos_PI2, cos_0, sin_0.
  replace (Vector (sqrt 3 / 2 * 1) (- (1 / 2)) (sqrt 3 / 2 * 0))
    with (Vector (sqrt 3 / 2) (- (1 / 2)) 0) by (f_equal; ring).
  replace (Vector (1 * 0) (- 0) (1 * 1)) with (Vector 0 0 1) by (f_equal; ring).
  rewrite sample_angles_100. cbn [bind].
  rewrite final_sample_100. cbn [bind].
  change (YouPosition.make 0 (PI / 3) 0 (PI / 6) 0 0) with pos_100.
  assert (Et : _tidy_degenerate_solutions pos_100 phi_constraints = pos_100).
  { unfold _tidy_degenerate_solutions. cbn.
    rewrite (is_small_false (PI / 3))
      by (unfold SMALL; rewrite Rabs_pos_eq; lra).
    rewrite !andb_false_r. cbn. reflexivity. }
  rewrite Et. cbn [YouPosition.phi pos_100].
  rewrite Rleb_false by (unfold SMALL; lra).
  rewrite virtual_angles_100. reflexivity.
Qed.

Lemma sample_solutions_filtered_and_chosen_witness :
  In (0, PI / 6, 0, 0) [(0, PI / 6, 0, 0)]
  /\ exists i t,
      _choose_sample_angles self_100 [(0, PI / 6, 0, 0)] = Return t
      /\ nth_error [(0, PI / 6, 0, 0)] i = Some t
      /\ (forall t', In t' [(0, PI / 6, 0, 0)] -> angle_magnitude t <= angle_magnitude t')
      /\ (forall j t', (j < i)%nat -> nth_error [(0, PI / 6, 0, 0)] j = Some t' ->
                       angle_magnitude t < angle_magnitude t').
Proof.
  destruct (sample_solutions_filtered_and_chosen self_100 (PI / 3) 0 [[0; PI / 6; 0; 0]] 1
              (1, 0, 0) "a_eq_b" 0 [(0, PI / 6, 0, 0)] filter_sample_100)
    as (Hin & _ & _ & Hchoose).
  split.
  - apply Hin. split; [left; reflexivity |]. split.
    + exists (1, 0, 0). change (YouPosition.make 0 (PI / 3) 0 (PI / 6) 0 0) with pos_100.
      split; [exact anglesToHkl_100 |].
      unfold approx0. replace (1 - 1) with 0 by ring. replace (0 - 0) with 0 by ring.
      rewrite Rabs_R0. pose proof SMALL_pos. auto.
    + exists va_100. change (YouPosition.make 0 (PI / 3) 0 (PI / 6) 0 0) with pos_100.
      split; [exact virtual_angles_100 |].
      cbn. unfold approx0. replace (0 - 0) with 0 by ring. rewrite Rabs_R0. exact SMALL_pos.
  - apply Hchoose. discriminate.
Defined.

(** ** The round trip of a solution *)

Lemma generate_final_sample_angles_round_trips
      self mu_ eta_ chi_ phi_ names delta nu wavelength hkl rn rv mu eta chi phi :
  _generate_final_sample_angles self mu_ eta_ chi_ phi_ names delta nu wavelength hkl rn rv
  = Return (mu, eta, chi, phi) ->
  round_trips self delta nu wavelength hkl (mu, eta, chi, phi).
Proof.
  unfold _generate_final_sample_angles. intros H.
  apply bind_Return_inv in H. destruct H as (possible & _ & H).
  apply bind_Return_inv in H. destruct H as (survivors & Hf & H).
  apply choose_sample_angles_In in H.
  apply (filter_valid_sample_solutions_In _ _ _ _ _ _ _ _ _ Hf) in H. tauto.
Qed.

Lemma try_each_xi_round_trips
      self xis theta mu_ eta_ chi_ phi_ names wavelength hkl rn rv delta nu mu eta chi phi :
  try_each_xi self xis theta mu_ eta_ chi_ phi_ names wavelength hkl rn rv
  = Return (delta, nu, (mu, eta, chi, phi)) ->
  round_trips self delta nu wavelength hkl (mu, eta, chi, phi).
Proof.
  induction xis as [| xi rest IH]; [discriminate |].
  cbn [try_each_xi]. intros H.
  apply bind_Return_inv in H. destruct H as ([[d n] q] & _ & H).
  destruct (_generate_final_detector_angles self d n q theta "qaz") as [[d' n'] | e].
  - destruct (_generate_final_sample_angles self mu_ eta_ chi_ phi_ names d' n' wavelength
                hkl rn rv) as [[[[m e'] c] p] | e] eqn:Es.
    + injection H as <- <- <- <- <- <-.
      eapply generate_final_sample_angles_round_trips. exact Es.
    + destruct e; try discriminate. apply IH. exact H.
  - destruct e; try discriminate. apply IH. exact H.
Qed.

Lemma tidy_non_degenerate pos constraints :
  ~ vertical_degenerate (_tidy_degenerate_solutions pos constraints) constraints ->
  ~ horizontal_degenerate (_tidy_degenerate_solutions pos constraints) constraints ->
  _tidy_degenerate_solutions pos constraints = pos.
Proof.
  intros Hv Hh.
  rewrite <- vertical_degenerate_true in Hv. rewrite <- horizontal_degenerate_true in Hh.
  revert Hv Hh.
  unfold _tidy_degenerate_solutions. cbn zeta.
  set (dl := dict_truth _ || dict_truth _).
  destruct (is_small (YouPosition.nu pos)) eqn:Enu, dl eqn:Edl,
    (is_small (YouPosition.mu pos)) eqn:Emu,
    (dict_in "mu" (YouConstraintManager.sample constraints)) eqn:Edm,
    (is_small (YouPosition.chi pos)) eqn:Echi,
    (is_small (YouPosition.delta pos)) eqn:Edelta,
    (is_small (YouPosition.eta pos)) eqn:Eeta,
    (dict_in "eta" (YouConstraintManager.sample constraints)) eqn:Ede,
    (is_small (YouPosition.chi pos - PI / 2)) eqn:Echi2;
    cbn [andb orb]; try reflexivity; cbn [YouPosition.nu YouPosition.mu YouPosition.chi
      YouPosition.delta YouPosition.eta];
    rewrite ?Enu, ?Emu, ?Echi, ?Edelta, ?Eeta, ?Echi2, ?Edm, ?Ede; cbn [andb orb];
    intros Hv Hh; try congruence.
Qed.

(** The sample angles of a returned solution round-trip with its
    detector angles: what every path through [_hklToAngles] has in
    common before the tidy-up. *)
Lemma hklToAngles_inv self h k l wavelength pos va :
  _hklToAngles self h k l wavelength = Return (pos, va) ->
  exists mu delta nu eta chi phi,
    round_trips self delta nu wavelength (h, k, l) (mu, eta, chi, phi)
    /\ let tidied :=
         _tidy_degenerate_solutions (YouPosition.make mu delta nu eta chi phi)
           (YouHklCalculator.constraints self) in
       pos = if Rleb (YouPosition.phi tidied) (- PI + SMALL)
             then YouPosition.make (YouPosition.mu tidied) (YouPosition.delta tidied)
                    (YouPosition.nu tidied) (YouPosition.eta tidied)
                    (YouPosition.chi tidied) (YouPosition.phi tidied + 2 * PI)
             else tidied.
Proof.
  unfold _hklToAngles. cbn zeta. intros H.
  apply bind_Return_inv in H. destruct H as (theta & _ & H).
  apply bind_Return_inv in H. destruct H as (tau & _ & H).
  destruct (YouConstraintManager.reference (YouHklCalculator.constraints self))
    as [| [rn rv] ?]; [discriminate |].
  apply bind_Return_inv in H. destruct H as ([[psi alpha] beta] & _ & H).
  destruct (dict_truth _ && dict_truth _); [discriminate |].
  apply bind_Return_inv in H. destruct H as (stage1 & _ & H).
  apply bind_Return_inv in H. destruct H as (stage2 & _ & H).
  apply bind_Return_inv in H.
  destruct H as ([[[[[mu delta] nu] eta] chi] phi] & Hs & H).
  apply bind_Return_inv in H. destruct H as (va' & _ & H).
  injection H as <- <-.
  exists mu, delta, nu, eta, chi, phi. split; [| reflexivity].
  destruct (YouConstraintManager.sample (YouHklCalculator.constraints self))
    as [| [sn sv] [| c2 [| c3 [| c4 rest]]]]; try discriminate.
  - destruct stage2 as [[[[sd sn'] sq] snz] |]; [| discriminate].
    apply bind_Return_inv in Hs. destruct Hs as ([[[p0 c0] e0] m0] & _ & Hs).
    apply bind_Return_inv in Hs. destruct Hs as ([[[m1 e1] c1] p1] & Hfin & Hs).
    injection Hs as <- <- <- <- <- <-.
    eapply generate_final_sample_angles_round_trips. exact Hfin.
  - apply bind_Return_inv in Hs.
    destruct Hs as ([[[[[xi psi'] m0] e0] c0] p0] & _ & Hs).
    apply bind_Return_inv in Hs. destruct Hs as ([[d1 n1] [[[m1 e1] c1] p1]] & Hxi & Hs).
    injection Hs as <- <- <- <- <- <-.
    eapply try_each_xi_round_trips. exact Hxi.
Qed.

(** C1: when [_hklToAngles] returns a position that is in neither of
    the two degenerate cases of the tidy-up, [youAnglesToHkl] maps
    that position, with the same wavelength and UB matrix, to Miller
    indices within 1e-6 of the requested h, k, l in each component. *)
Theorem hklToAngles_round_trip
        (self : YouHklCalculator.t) (h k l wavelength : R)
        (pos : YouPosition.t) (va : VirtualAngles.t) :
  _hklToAngles self h k l wavelength = Return (pos, va) ->
  ~ vertical_degenerate pos (YouHklCalculator.constraints self) ->
  ~ horizontal_degenerate pos (YouHklCalculator.constraints self) ->
  exists h' k' l',
    youAnglesToHkl pos wavelength (YouHklCalculator._getUBMatrix self) = Return (h', k', l')
    /\ Rabs (h - h') < 1e-6 /\ Rabs (k - k') < 1e-6 /\ Rabs (l - l') < 1e-6.
Proof.
  intros H Hv Hh. apply hklToAngles_inv in H.
  destruct H as (mu & delta & nu & eta & chi & phi & Hrt & Hpos). cbn zeta in Hpos.
  set (tidied := _tidy_degenerate_solutions (YouPosition.make mu delta nu eta chi phi)
                   (YouHklCalculator.constraints self)) in *.
  assert (Hv' : ~ vertical_degenerate tidied (YouHklCalculator.constraints self)).
  { intros Hd. apply Hv. rewrite Hpos. destruct (Rleb _ _); exact Hd. }
  assert (Hh' : ~ horizontal_degenerate tidied (YouHklCalculator.constraints self)).
  { intros Hd. apply Hh. rewrite Hpos. destruct (Rleb _ _); exact Hd. }
  assert (Et : tidied = YouPosition.make mu delta nu eta chi phi)
    by (apply tidy_non_degenerate; assumption).
  rewrite Et in Hpos. cbn in Hpos.
  destruct Hrt as ([[h' k'] l'] & Hhkl & H1 & H2 & H3).
  unfold _anglesToHkl in Hhkl.
  exists h', k', l'. split.
  - rewrite Hpos. destruct (Rleb phi (- PI + SMALL)); [| exact Hhkl].
    rewrite youAnglesToHkl_phi_period. exact Hhkl.
  - unfold approx0, SMALL in *. repeat split; lra.
Qed.

Lemma hklToAngles_round_trip_witness :
  exists h' k' l',
    youAnglesToHkl pos_100 1 UB_cubic = Return (h', k', l')
    /\ Rabs (1 - h') < 1e-6 /\ Rabs (0 - k') < 1e-6 /\ Rabs (0 - l') < 1e-6.
Proof.
  apply (hklToAngles_round_trip self_100 1 0 0 1 pos_100 va_100 hklToAngles_100).
  - intros (_ & _ & _ & H & _). discriminate H.
  - intros (H & _). unfold approx0, SMALL in H. cbn in H.
    pose proof PI_gt_3. rewrite Rabs_pos_eq in H; lra.
Defined.

(** ** Detector angles and the hardware limits *)

Lemma expand_nil_r (tuples : list (list R)) : expand tuples [] = [].
Proof. unfold expand. induction tuples as [| t l IH]; cbn; auto. Qed.

Lemma In_expand_singletons (l1 l2 : list R) (a b : R) :
  In [a; b] (expand (map (fun x => [x]) l1) l2) <-> In a l1 /\ In b l2.
Proof.
  unfold expand. rewrite in_flat_map. split.
  - intros (t & Ht & Hab). apply in_map_iff in Ht. destruct Ht as (x & <- & Hx).
    apply in_map_iff in Hab. destruct Hab as (y & E & Hy).
    cbn in E. injection E as <- <-. auto.
  - intros [Ha Hb]. exists [a]. split; [apply in_map_iff; exists a; auto |].
    apply in_map_iff. exists b. auto.
Qed.

(** The candidate values of one axis: the transformed values the
    hardware accepts, each cut at -pi. *)
Lemma In_axis_candidates hardware name value constrained (c : R) :
  In c (map cut_at_minus_pi
          (filter (fun tv => Hardware.isAxisValueWithinLimits hardware name
                               (Hardware.cutAngle hardware name (tv * TODEG)))
                  (_generate_transformed_values value constrained)))
  <-> exists tv,
      In tv (_generate_transformed_values value constrained)
      /\ within_limits hardware name tv /\ c = cut_at_minus_pi tv.
Proof.
  rewrite in_map_iff. unfold within_limits. split.
  - intros (tv & <- & H). apply filter_In in H. exists tv. tauto.
  - intros (tv & Hin & Hw & ->). exists tv. split; [reflexivity |].
    apply filter_In. auto.
Qed.

Lemma possible_detector_pairs self initial_delta initial_nu det_constraint_name :
  exists possible,
    _generate_possible_solutions self [initial_delta; initial_nu] ["delta"; "nu"]
      [det_constraint_name] = Return possible
    /\ (forall delta nu,
           In [delta; nu] possible ->
           exists d n,
             In d (_generate_transformed_values initial_delta
                     (name_in "delta" [det_constraint_name]))
             /\ In n (_generate_transformed_values initial_nu
                        (name_in "nu" [det_constraint_name]))
             /\ within_limits (YouHklCalculator._hardware self) "delta" d
             /\ within_limits (YouHklCalculator._hardware self) "nu" n
             /\ delta = cut_at_minus_pi d /\ nu = cut_at_minus_pi n)
    /\ ((forall d n,
            In d (_generate_transformed_values initial_delta
                    (name_in "delta" [det_constraint_name])) ->
            In n (_generate_transformed_values initial_nu
                    (name_in "nu" [det_constraint_name])) ->
            ~ (within_limits (YouHklCalculator._hardware self) "delta" d
               /\ within_limits (YouHklCalculator._hardware self) "nu" n)) ->
        possible = []).
Proof.
  unfold _generate_possible_solutions. cbn [combine map reduce_expand fold_left].
  eexists. split; [reflexivity |]. split.
  - intros delta nu H. apply In_expand_singletons in H. destruct H as [Hd Hn].
    apply In_axis_candidates in Hd. destruct Hd as (d & Hd & Hwd & ->).
    apply In_axis_candidates in Hn. destruct Hn as (n & Hn & Hwn & ->).
    exists d, n. auto 10.
  - intros Hall.
    match goal with
    | |- expand (map _ (map _ (filter ?f ?l1))) (map _ (filter ?g ?l2)) = [] =>
        destruct (filter f l1) as [| d ds] eqn:E1; [reflexivity |];
        destruct (filter g l2) as [| n ns] eqn:E2; [apply expand_nil_r |]
    end.
    exfalso.
    assert (Hd : In d (d :: ds)) by (left; reflexivity). rewrite <- E1 in Hd.
    assert (Hn : In n (n :: ns)) by (left; reflexivity). rewrite <- E2 in Hn.
    apply filter_In in Hd. apply filter_In in Hn.
    apply (Hall d n); unfold within_limits; tauto.
Qed.

Lemma partition_In {A : Type} (f : A -> bool) (l l1 l2 : list A) (x : A) :
  partition f l = (l1, l2) -> In x l1 \/ In x l2 -> In x l.
Proof.
  intros H Hin. pose proof (elements_in_partition f l H x) as E. apply E. exact Hin.
Qed.

Lemma py_getitem_In {A : Type} (l : list A) (i : nat) (a : A) :
  py_getitem l i = Return a -> In a l.
Proof.
  unfold py_getitem. destruct (nth_error l i) eqn:E; [| discriminate].
  intros H. injection H as <-. eapply nth_error_In. exact E.
Qed.

Lemma delta_90_shortcut_true self initial_delta :
  ne initial_delta (PI / 2)
  && negb (dict_in "nu" (YouConstraintManager.detector (YouHklCalculator.constraints self)))
  = true
  <-> delta_90_shortcut self initial_delta.
Proof.
  unfold delta_90_shortcut. rewrite andb_true_iff, ne_true, negb_true_iff. reflexivity.
Qed.

(** C5, as the code has it.  With delta within tolerance of 90
    degrees and no nu constraint the function returns (delta, 0)
    without consulting the limits.  In every other case: when each
    candidate (delta, nu) pair has an angle the hardware refuses, the
    function raises [NoSolutionException]; each angle of a pair it
    returns is a transformed value that the hardware accepts, cut at
    -pi after the hardware has accepted it; and the pair returned lies
    within the limits whenever the hardware accepts the cut value of
    every candidate it accepts. *)
Theorem generate_final_detector_angles_limits
        (self : YouHklCalculator.t) (initial_delta initial_nu qaz theta : R)
        (det_constraint_name : string) :
  let hardware := YouHklCalculator._hardware self in
  let deltas :=
    _generate_transformed_values initial_delta (name_in "delta" [det_constraint_name]) in
  let nus :=
    _generate_transformed_values initial_nu (name_in "nu" [det_constraint_name]) in
  let result :=
    _generate_final_detector_angles self initial_delta initial_nu qaz theta
      det_constraint_name in
  (delta_90_shortcut self initial_delta -> result = Return (initial_delta, 0))
  /\ (~ delta_90_shortcut self initial_delta ->
      (forall d n, In d deltas -> In n nus ->
                   ~ (within_limits hardware "delta" d /\ within_limits hardware "nu" n)) ->
      result = Raise (NoSolutionException
                        "No detector solutions were found,please unconstrain detector limits"))
  /\ (~ delta_90_shortcut self initial_delta ->
      forall delta nu,
        result = Return (delta, nu) ->
        exists d n,
          In d deltas /\ In n nus
          /\ within_limits hardware "delta" d /\ within_limits hardware "nu" n
          /\ delta = cut_at_minus_pi d /\ nu = cut_at_minus_pi n)
  /\ (~ delta_90_shortcut self initial_delta ->
      (forall d, In d deltas -> within_limits hardware "delta" d ->
                 within_limits hardware "delta" (cut_at_minus_pi d)) ->
      (forall n, In n nus -> within_limits hardware "nu" n ->
                 within_limits hardware "nu" (cut_at_minus_pi n)) ->
      forall delta nu,
        result = Return (delta, nu) ->
        within_limits hardware "delta" delta /\ within_limits hardware "nu" nu).
Proof.
  cbn zeta.
  assert (Hret : ~ delta_90_shortcut self initial_delta ->
                 forall delta nu,
                   _generate_final_detector_angles self initial_delta initial_nu qaz theta
                     det_constraint_name = Return (delta, nu) ->
                   exists d n,
                     In d (_generate_transformed_values initial_delta
                             (name_in "delta" [det_constraint_name]))
                     /\ In n (_generate_transformed_values initial_nu
                                (name_in "nu" [det_constraint_name]))
                     /\ within_limits (YouHklCalculator._hardware self) "delta" d
                     /\ within_limits (YouHklCalculator._hardware self) "nu" n
                     /\ delta = cut_at_minus_pi d /\ nu = cut_at_minus_pi n).
  2: { split; [| split; [| split]].
       - intros H. unfold _generate_final_detector_angles.
         apply delta_90_shortcut_true in H. rewrite H. reflexivity.
       - intros Hno Hall. unfold _generate_final_detector_angles.
         rewrite <- delta_90_shortcut_true in Hno.
         apply not_true_is_false in Hno. rewrite Hno.
         destruct (possible_detector_pairs self initial_delta initial_nu det_constraint_name)
           as (possible & E & _ & Hnil).
         rewrite E, (Hnil Hall). reflexivity.
       - exact Hret.
       - intros Hno Hd Hn delta nu H.
         destruct (Hret Hno delta nu H) as (d & n & Hind & Hinn & Hwd & Hwn & -> & ->).
         split; [apply Hd | apply Hn]; assumption. }
  unfold _generate_final_detector_angles.
  - intros Hno delta nu. rewrite <- delta_90_shortcut_true in Hno.
    apply not_true_is_false in Hno. rewrite Hno.
    destruct (possible_detector_pairs self initial_delta initial_nu det_constraint_name)
      as (possible & E & Hin & _).
    rewrite E. cbn [bind]. intros H.
    apply bind_Return_inv in H. destruct H as (survivors & Hf & H).
    apply bind_Return_inv in H. destruct H as (chosen & Hc & H).
    apply Hin. apply (filter_detector_solutions_In _ _ _ _ Hf).
    assert (Hch : In (delta, nu) chosen).
    { unfold _choose_detector_angles in H. destruct (Nat.ltb 1 (List.length chosen));
        [discriminate |]. destruct chosen as [| p l]; [discriminate |].
      injection H as ->. left. reflexivity. }
    destruct (Nat.ltb 1 (List.length survivors)); [| injection Hc as <-; exact Hch].
    destruct (partition close_to_90 survivors) as [close other] eqn:Ep.
    destruct close as [| c0 close']; [injection Hc as <-; exact Hch |].
    apply bind_Return_inv in Hc. destruct Hc as (thetas_ & _ & Hc).
    apply bind_Return_inv in Hc. destruct Hc as (closest_index & _ & Hc).
    apply bind_Return_inv in Hc. destruct Hc as (closest & Hget & Hc).
    injection Hc as <-. apply py_getitem_In in Hget.
    apply in_app_or in Hch. apply (partition_In _ _ _ _ _ Ep).
    destruct Hch as [Ho | [<- | []]]; [right; exact Ho | left; exact Hget].
Qed.

Lemma generate_transformed_values_90 :
  _generate_transformed_values (PI / 2) false = [PI / 2; - (PI / 2)].
Proof.
  pose proof PI_gt_3 as HPI. unfold _generate_transformed_values.
  rewrite is_small_false by (unfold SMALL; rewrite Rabs_pos_eq; lra).
  replace (PI / 2 - PI / 2) with 0 by ring. rewrite is_small_0. reflexivity.
Qed.

Lemma narrow_refuses (name : string) (v : R) :
  v * TODEG < -1 \/ 60 < v * TODEG -> ~ within_limits narrow name v.
Proof.
  unfold within_limits. cbn. intros H E. apply andb_true_iff in E.
  destruct E as [E1 E2]. apply Rleb_le in E1. apply Rleb_le in E2. lra.
Qed.

Lemma narrow_refuses_90 : ~ within_limits narrow "delta" (PI / 2).
Proof.
  apply narrow_refuses. right. replace (PI / 2) with (PI * (1 / 2)) by field.
  rewrite TODEG_PI. lra.
Qed.

Lemma narrow_refuses_minus_90 : ~ within_limits narrow "delta" (- (PI / 2)).
Proof.
  apply narrow_refuses. left. replace (- (PI / 2)) with (PI * (- (1 / 2))) by field.
  rewrite TODEG_PI. lra.
Qed.

Lemma delta_90_shortcut_narrow : delta_90_shortcut self_narrow (PI / 2).
Proof.
  split; [| reflexivity]. unfold approx0. replace (PI / 2 - PI / 2) with 0 by ring.
  rewrite Rabs_R0. exact SMALL_pos.
Qed.

Lemma wide_within (name : string) (v : R) :
  100 <= v * TODEG <= 250 -> within_limits wide name v.
Proof. intros H. unfold within_limits. cbn. rewrite !Rleb_true by lra. reflexivity. Qed.

Lemma wide_refuses (name : string) (v : R) :
  v * TODEG < 100 \/ 250 < v * TODEG -> ~ within_limits wide name v.
Proof.
  unfold within_limits. cbn. intros H E. apply andb_true_iff in E.
  destruct E as [E1 E2]. apply Rleb_le in E1. apply Rleb_le in E2. lra.
Qed.

Lemma wide_outside (name : string) (v : R) :
  v * TODEG < 100 \/ 250 < v * TODEG ->
  Hardware.isAxisValueWithinLimits wide name (Hardware.cutAngle wide name (v * TODEG))
  = false.
Proof.
  intros H. apply not_true_is_false. exact (wide_refuses name v H).
Qed.

Lemma possible_detector_wide :
  _generate_possible_solutions self_wide [PI / 3; 0] ["delta"; "nu"] ["qaz"]
  = Return [[- (PI * (2 / 3)); PI]; [PI * (2 / 3); PI]].
Proof.
  pose proof PI_gt_3 as HPI. pose proof PI_4 as HPI4.
  unfold _generate_possible_solutions.
  cbn [combine map name_in existsb String.eqb Ascii.eqb Bool.eqb orb
       YouHklCalculator._hardware self_wide YouHklCalculator.init].
  rewrite PI3_eq.
  rewrite generate_transformed_values_generic, generate_transformed_values_0.
  - cbn [filter].
    rewrite (wide_outside "delta" (PI * (1 / 3))) by (left; rewrite TODEG_PI; lra).
    rewrite (wide_outside "delta" (- (PI * (1 / 3))))
      by (left; replace (- (PI * (1 / 3))) with (PI * (- (1 / 3))) by ring;
          rewrite TODEG_PI; lra).
    rewrite (wide_within "delta" (PI + PI * (1 / 3)))
      by (replace (PI + PI * (1 / 3)) with (PI * (4 / 3)) by field; rewrite TODEG_PI; lra).
    rewrite (wide_within "delta" (PI - PI * (1 / 3)))
      by (replace (PI - PI * (1 / 3)) with (PI * (2 / 3)) by field; rewrite TODEG_PI; lra).
    rewrite (wide_outside "nu" 0) by (left; rewrite Rmult_0_l; lra).
    rewrite (wide_within "nu" PI)
      by (replace PI with (PI * 1) at 1 2 by ring; rewrite TODEG_PI; lra).
    cbn [map reduce_expand fold_left expand flat_map app].
    assert (E1 : cut_at_minus_pi (PI + PI * (1 / 3)) = - (PI * (2 / 3))).
    { unfold cut_at_minus_pi. rewrite Rltb_false by (unfold SMALL; lra).
      rewrite Rleb_true by (unfold SMALL; lra). field. }
    assert (E2 : cut_at_minus_pi (PI - PI * (1 / 3)) = PI * (2 / 3)).
    { rewrite cut_at_minus_pi_id by (unfold SMALL; lra). field. }
    assert (E3 : cut_at_minus_pi PI = PI)
      by (apply cut_at_minus_pi_id; unfold SMALL; lra).
    rewrite E1, E2, E3. reflexivity.
  - unfold SMALL. rewrite Rabs_pos_eq by lra. lra.
  - unfold SMALL. rewrite Rabs_left1 by lra. lra.
  - unfold SMALL. rewrite Rabs_pos_eq by lra. lra.
Qed.

Lemma cos_2PI3 : cos (PI * (2 / 3)) = - (1 / 2).
Proof.
  replace (PI * (2 / 3)) with (PI - PI / 3) by field.
  rewrite cos_minus, cos_PI, sin_PI, cos_PI3. ring.
Qed.

Lemma sin_2PI3 : sin (PI * (2 / 3)) = sqrt 3 / 2.
Proof.
  replace (PI * (2 / 3)) with (PI - PI / 3) by field.
  rewrite sin_minus, cos_PI, sin_PI, cos_PI3, sin_PI3. ring.
Qed.

Lemma tan_2PI3 : tan (PI * (2 / 3)) = - sqrt 3.
Proof. unfold tan. rewrite sin_2PI3, cos_2PI3. field. Qed.

Lemma theta_and_qaz_minus_120_180 :
  _theta_and_qaz_from_detector_angles (- (PI * (2 / 3))) PI = Return (PI / 6, PI / 2).
Proof.
  rewrite theta_and_qaz_total. rewrite cos_neg, tan_neg, cos_2PI3, tan_2PI3, cos_PI, sin_PI.
  replace (- (1 / 2) * -1) with (1 / 2) by field.
  rewrite bound_id by lra. rewrite acos_half.
  rewrite Ropp_involutive, atan2_y_pos_0 by exact sqrt3_pos.
  do 2 f_equal. field.
Qed.

Lemma theta_and_qaz_120_180 :
  _theta_and_qaz_from_detector_angles (PI * (2 / 3)) PI = Return (PI / 6, - (PI / 2)).
Proof.
  rewrite theta_and_qaz_total. rewrite cos_2PI3, tan_2PI3, cos_PI, sin_PI.
  replace (- (1 / 2) * -1) with (1 / 2) by field.
  rewrite bound_id by lra. rewrite acos_half.
  rewrite atan2_y_neg_0 by (pose proof sqrt3_pos; lra).
  do 2 f_equal. field.
Qed.

Lemma final_detector_wide :
  _generate_final_detector_angles self_wide (PI / 3) 0 (PI / 2) (PI / 6) "qaz"
  = Return (- (PI * (2 / 3)), PI).
Proof.
  pose proof PI_gt_3 as HPI.
  unfold _generate_final_detector_angles.
  assert (E : ne (PI / 3) (PI / 2) = false).
  { apply is_small_false. unfold SMALL. rewrite Rabs_left1; lra. }
  rewrite E. cbn [andb].
  rewrite possible_detector_wide. cbn [bind].
  cbn [_filter_detector_solutions_by_theta_and_qaz unpack2 bind].
  rewrite theta_and_qaz_minus_120_180, theta_and_qaz_120_180. cbn [bind].
  rewrite !ne_refl. cbn [andb].
  assert (E' : ne (- (PI / 2)) (PI / 2) = false).
  { apply is_small_false. unfold SMALL. rewrite Rabs_left1; lra. }
  rewrite E'. reflexivity.
Qed.

Lemma not_shortcut_wide : ~ delta_90_shortcut self_wide (PI / 3).
Proof.
  intros [H _]. unfold approx0, SMALL in H. pose proof PI_gt_3.
  rewrite Rabs_left1 in H; lra.
Qed.

Lemma wide_refuses_minus_120 : ~ within_limits wide "delta" (- (PI * (2 / 3))).
Proof.
  apply wide_refuses. left.
  replace (- (PI * (2 / 3))) with (PI * (- (2 / 3))) by ring. rewrite TODEG_PI. lra.
Qed.

(** C5 as stated fails, in the degenerate case and outside it.  With
    limits of -1 to 60 degrees the hardware refuses every candidate
    detector pair, and the shortcut returns a delta of 90 degrees that
    the hardware refuses.  With limits of 100 to 250 degrees, away from
    the shortcut, the hardware accepts the candidate delta of 240
    degrees, and the function returns it cut at -pi: -120 degrees,
    which the hardware refuses. *)
Lemma detector_pair_outside_limits_returned :
  ((forall d n,
       In d (_generate_transformed_values (PI / 2) false) ->
       In n (_generate_transformed_values 0 false) ->
       ~ (within_limits narrow "delta" d /\ within_limits narrow "nu" n))
   /\ _generate_final_detector_angles self_narrow (PI / 2) 0 (PI / 2) (PI / 4) "qaz"
      = Return (PI / 2, 0)
   /\ ~ within_limits narrow "delta" (PI / 2))
  /\ (~ delta_90_shortcut self_wide (PI / 3)
      /\ _generate_final_detector_angles self_wide (PI / 3) 0 (PI / 2) (PI / 6) "qaz"
         = Return (- (PI * (2 / 3)), PI)
      /\ ~ within_limits wide "delta" (- (PI * (2 / 3)))).
Proof.
  split; [split; [| split] | split; [| split]].
  - rewrite generate_transformed_values_90. intros d n [<- | [<- | []]] _ [H _].
    + exact (narrow_refuses_90 H).
    + exact (narrow_refuses_minus_90 H).
  - unfold _generate_final_detector_angles.
    rewrite (proj2 (delta_90_shortcut_true self_narrow (PI / 2)) delta_90_shortcut_narrow).
    reflexivity.
  - exact narrow_refuses_90.
  - exact not_shortcut_wide.
  - exact final_detector_wide.
  - exact wide_refuses_minus_120.
Qed.

Lemma not_shortcut_72 : ~ delta_90_shortcut self_narrow (PI * (2 / 5)).
Proof.
  intros [H _]. unfold approx0, SMALL in H. pose proof PI_gt_3.
  rewrite Rabs_left1 in H; lra.
Qed.

Lemma not_shortcut_60 : ~ delta_90_shortcut self_100 (PI / 3).
Proof.
  intros [H _]. unfold approx0, SMALL in H. pose proof PI_gt_3.
  rewrite Rabs_left1 in H; lra.
Qed.

Lemma narrow_refuses_72 (d n : R) :
  In d (_generate_transformed_values (PI * (2 / 5)) (name_in "delta" ["qaz"])) ->
  In n (_generate_transformed_values 0 (name_in "nu" ["qaz"])) ->
  ~ (within_limits narrow "delta" d /\ within_limits narrow "nu" n).
Proof.
  pose proof PI_gt_3 as HPI. pose proof PI_4 as HPI4.
  cbn [name_in existsb String.eqb Ascii.eqb Bool.eqb orb].
  rewrite generate_transformed_values_generic.
  - intros [<- | [<- | [<- | [<- | []]]]] _ [H _]; revert H; apply narrow_refuses.
    + right. rewrite TODEG_PI. lra.
    + left. replace (- (PI * (2 / 5))) with (PI * (- (2 / 5))) by ring. rewrite TODEG_PI. lra.
    + right. replace (PI + PI * (2 / 5)) with (PI * (7 / 5)) by field. rewrite TODEG_PI. lra.
    + right. replace (PI - PI * (2 / 5)) with (PI * (3 / 5)) by field. rewrite TODEG_PI. lra.
  - unfold SMALL. rewrite Rabs_pos_eq; lra.
  - unfold SMALL. rewrite Rabs_left1; lra.
  - unfold SMALL. rewrite Rabs_pos_eq; lra.
Qed.

Lemma limited_accepts_cut_60 (name : string) (d : R) :
  In d (_generate_transformed_values (PI / 3) false) ->
  within_limits limited name d -> within_limits limited name (cut_at_minus_pi d).
Proof.
  pose proof PI_gt_3 as HPI. intros Hin Hw.
  rewrite cut_at_minus_pi_id; [exact Hw |].
  rewrite PI3_eq, generate_transformed_values_generic in Hin.
  - unfold within_limits in Hw.
    destruct Hin as [<- | [<- | [<- | [<- | []]]]]; try (unfold SMALL; lra).
    rewrite limited_outside in Hw; [discriminate Hw |].
    right. replace (PI + PI * (1 / 3)) with (PI * (4 / 3)) by field.
    rewrite TODEG_PI. lra.
  - unfold SMALL. rewrite Rabs_pos_eq by lra. lra.
  - unfold SMALL. rewrite Rabs_left1 by lra. lra.
  - unfold SMALL. rewrite Rabs_pos_eq by lra. lra.
Qed.

Lemma limited_accepts_cut_0 (name : string) (n : R) :
  In n (_generate_transformed_values 0 false) ->
  within_limits limited name n -> within_limits limited name (cut_at_minus_pi n).
Proof.
  pose proof PI_gt_3 as HPI. intros Hin Hw.
  rewrite cut_at_minus_pi_id; [exact Hw |].
  rewrite generate_transformed_values_0 in Hin.
  destruct Hin as [<- | [<- | []]]; unfold SMALL; lra.
Qed.

Lemma generate_final_detector_angles_limits_witness :
  _generate_final_detector_angles self_narrow (PI / 2) 0 (PI / 2) (PI / 4) "qaz"
  = Return (PI / 2, 0)
  /\ _generate_final_detector_angles self_narrow (PI * (2 / 5)) 0 (PI / 2) (PI / 5) "qaz"
     = Raise (NoSolutionException
                "No detector solutions were found,please unconstrain detector limits")
  /\ (exists d n,
        In d (_generate_transformed_values (PI / 3) (name_in "delta" ["qaz"]))
        /\ In n (_generate_transformed_values 0 (name_in "nu" ["qaz"]))
        /\ within_limits limited "delta" d /\ within_limits limited "nu" n
        /\ PI / 3 = cut_at_minus_pi d /\ 0 = cut_at_minus_pi n)
  /\ within_limits limited "delta" (PI / 3) /\ within_limits limited "nu" 0.
Proof.
  split; [| split; [| split]].
  - apply (generate_final_detector_angles_limits self_narrow (PI / 2) 0 (PI / 2) (PI / 4) "qaz").
    exact delta_90_shortcut_narrow.
  - apply (generate_final_detector_angles_limits self_narrow (PI * (2 / 5)) 0 (PI / 2) (PI / 5)
             "qaz").
    + exact not_shortcut_72.
    + exact narrow_refuses_72.
  - apply (generate_final_detector_angles_limits self_100 (PI / 3) 0 (PI / 2) (PI / 6) "qaz").
    + exact not_shortcut_60.
    + exact final_detector_100.
  - apply (generate_final_detector_angles_limits self_100 (PI / 3) 0 (PI / 2) (PI / 6) "qaz").
    + exact not_shortcut_60.
    + exact (limited_accepts_cut_60 "delta").
    + exact (limited_accepts_cut_0 "nu").
    + exact final_detector_100.
Defined.

Lemma tidy_detector_angles pos constraints :
  YouPosition.delta (_tidy_degenerate_solutions pos constraints) = YouPosition.delta pos
  /\ YouPosition.nu (_tidy_degenerate_solutions pos constraints) = YouPosition.nu pos.
Proof.
  unfold _tidy_degenerate_solutions. cbn zeta.
  destruct (_ && _ && _); [destruct (is_small _); auto |].
  destruct (_ && _ && _); [destruct (is_small _); auto |]. auto.
Qed.

(** A detector constraint whose value is 0 is false as the condition
    [if det_constraint or naz_constraint], to which the detector
    stage has rebound it: with one sample constraint the detector
    angles of the solution are then the provisional ones, and no
    hardware limit has been put to them. *)
Lemma hklToAngles_zero_detector_constraint
      self h k l wavelength det_constraint_name sample_constraint pos va :
  YouConstraintManager.detector (YouHklCalculator.constraints self)
  = [(det_constraint_name, 0)] ->
  YouConstraintManager.naz (YouHklCalculator.constraints self) = [] ->
  YouConstraintManager.sample (YouHklCalculator.constraints self) = [sample_constraint] ->
  _hklToAngles self h k l wavelength = Return (pos, va) ->
  exists theta qaz,
    _calc_remaining_detector_angles self det_constraint_name 0 theta
    = Return (YouPosition.delta pos, YouPosition.nu pos, qaz).
Proof.
  intros Hdet Hnaz Hsam. unfold _hklToAngles. cbn zeta. rewrite Hdet, Hnaz, Hsam.
  intros H.
  apply bind_Return_inv in H. destruct H as (theta & _ & H).
  apply bind_Return_inv in H. destruct H as (tau & _ & H).
  destruct (YouConstraintManager.reference (YouHklCalculator.constraints self))
    as [| [rn rv] ?]; [discriminate |].
  apply bind_Return_inv in H. destruct H as ([[psi alpha] beta] & _ & H).
  cbn [dict_truth andb] in H.
  apply bind_Return_inv in H. destruct H as (stage1 & H1 & H).
  apply bind_Return_inv in H1. destruct H1 as ([[delta0 nu0] qaz0] & Hprov & H1).
  apply bind_Return_inv in H1. destruct H1 as (naz_qaz_angle & _ & H1).
  rewrite Req_bool_true in H1 by reflexivity. cbn [negb orb] in H1.
  injection H1 as <-. cbn [bind] in H.
  destruct sample_constraint as [sn sv].
  apply bind_Return_inv in H.
  destruct H as ([[[[[mu delta] nu] eta] chi] phi] & Hs & H).
  apply bind_Return_inv in Hs. destruct Hs as ([[[p0 c0] e0] m0] & _ & Hs).
  apply bind_Return_inv in Hs. destruct Hs as ([[[m1 e1] c1] p1] & _ & Hs).
  injection Hs as <- <- <- <- <- <-.
  apply bind_Return_inv in H. destruct H as (va' & _ & H).
  injection H as <- <-.
  exists theta, qaz0.
  destruct (tidy_detector_angles (YouPosition.make m1 delta0 nu0 e1 c1 p1)
              (YouHklCalculator.constraints self)) as [Ed En].
  destruct (Rleb _ _); cbn [YouPosition.delta YouPosition.nu]; rewrite Ed, En; exact Hprov.
Qed.

(** ** Rational intervals *)

Lemma Q2R_inject_Z (z : Z) : Q2R (inject_Z z) = IZR z.
Proof. unfold Q2R, inject_Z. cbn. rewrite Rinv_1. ring. Qed.

Lemma Q2R_Qmake (z : Z) (p : positive) : Q2R (z # p) = IZR z / IZR (Zpos p).
Proof. reflexivity. Qed.

Lemma IZR_grid_pos : 0 < IZR (Zpos grid).
Proof. apply IZR_lt. reflexivity. Qed.

Lemma pow2_exponent_spec (p : positive) (k : N) :
  pow2_exponent p = Some k -> Zpos p = (2 ^ Z.of_N k)%Z.
Proof.
  revert k. induction p as [p IH | p IH |]; intros k H; cbn [pow2_exponent] in H.
  - discriminate.
  - destruct (pow2_exponent p) as [k' |]; [| discriminate].
    injection H as <-. rewrite N2Z.inj_succ, Z.pow_succ_r by apply N2Z.is_nonneg.
    rewrite <- (IH k' eq_refl). reflexivity.
  - injection H as <-. reflexivity.
Qed.

Lemma floor_grid_spec (q : Q) : floor_grid q = Qfloor (q * inject_Z (Zpos grid)).
Proof.
  unfold floor_grid. destruct (pow2_exponent (Qden q)) as [k |] eqn:E; [| reflexivity].
  apply pow2_exponent_spec in E. destruct q as [n d]. cbn [Qnum Qden] in *.
  rewrite Z.shiftr_div_pow2 by apply N2Z.is_nonneg.
  rewrite Z.shiftl_mul_pow2 by (unfold grid_bits; lia).
  unfold Qfloor, Qmult, inject_Z. cbn [Qnum Qden].
  rewrite Pos.mul_1_r, E. reflexivity.
Qed.

Lemma ceiling_grid_spec (q : Q) : ceiling_grid q = Qceiling (q * inject_Z (Zpos grid)).
Proof.
  unfold ceiling_grid, Qceiling. rewrite floor_grid_spec. f_equal.
  apply Qfloor_comp. ring.
Qed.

Lemma round_down_le (q : Q) : Q2R (round_down q) <= Q2R q.
Proof.
  unfold round_down. rewrite floor_grid_spec, Q2R_Qmake.
  pose proof (Qle_Rle _ _ (Qfloor_le (q * inject_Z (Zpos grid)))) as H.
  rewrite Q2R_inject_Z, Q2R_mult, Q2R_inject_Z in H.
  pose proof IZR_grid_pos as Hg.
  apply Rmult_le_reg_r with (IZR (Zpos grid)); [exact Hg |].
  unfold Rdiv. rewrite Rmult_assoc, Rinv_l by lra. lra.
Qed.

Lemma round_up_ge (q : Q) : Q2R q <= Q2R (round_up q).
Proof.
  unfold round_up. rewrite ceiling_grid_spec, Q2R_Qmake.
  pose proof (Qle_Rle _ _ (Qle_ceiling (q * inject_Z (Zpos grid)))) as H.
  rewrite Q2R_inject_Z, Q2R_mult, Q2R_inject_Z in H.
  pose proof IZR_grid_pos as Hg.
  apply Rmult_le_reg_r with (IZR (Zpos grid)); [exact Hg |].
  unfold Rdiv. rewrite Rmult_assoc, Rinv_l by lra. lra.
Qed.

Lemma round_down_nonneg (q : Q) : 0 <= Q2R q -> 0 <= Q2R (round_down q).
Proof.
  intros Hq. unfold round_down. rewrite floor_grid_spec, Q2R_Qmake.
  assert (Hz : (0 <= Qfloor (q * inject_Z (Zpos grid)))%Z).
  { change 0%Z with (Qfloor 0). apply Qfloor_resp_le.
    apply Rle_Qle. rewrite RMicromega.Q2R_0, Q2R_mult, Q2R_inject_Z.
    pose proof IZR_grid_pos. apply Rmult_le_pos; lra. }
  apply IZR_le in Hz. pose proof IZR_grid_pos.
  apply Rmult_le_pos; [exact Hz | apply Rlt_le, Rinv_0_lt_compat; assumption].
Qed.

Lemma Qle_bool_Rle (x y : Q) : Qle_bool x y = true -> Q2R x <= Q2R y.
Proof. intros H. apply Qle_Rle, Qle_bool_iff. exact H. Qed.

Lemma Qle_bool_false_Rlt (x y : Q) : Qle_bool x y = false -> Q2R y < Q2R x.
Proof.
  intros H. apply Qlt_Rlt. apply Qnot_le_lt. intros Hle.
  apply Qle_bool_iff in Hle. congruence.
Qed.

Lemma qleb_spec (x y : Q) : qleb x y = Qle_bool x y.
Proof.
  unfold qleb, Qle_bool. destruct (Pos.eqb (Qden x) (Qden y)) eqn:E; [| reflexivity].
  apply Pos.eqb_eq in E. rewrite E.
  destruct (Z.leb_spec (Qnum x) (Qnum y)) as [H | H];
    destruct (Z.leb_spec (Qnum x * Zpos (Qden y)) (Qnum y * Zpos (Qden y))) as [H' | H'];
    try reflexivity; exfalso; nia.
Qed.

Lemma qltb_Rlt (x y : Q) : qltb x y = true -> Q2R x < Q2R y.
Proof.
  unfold qltb. rewrite qleb_spec. intros H. apply negb_true_iff in H.
  apply Qle_bool_false_Rlt. exact H.
Qed.

Lemma qltb_0_Rlt (x : Q) : qltb 0 x = true -> 0 < Q2R x.
Proof. intros H. apply qltb_Rlt in H. rewrite RMicromega.Q2R_0 in H. exact H. Qed.

Lemma qltb_Rlt_0 (x : Q) : qltb x 0 = true -> Q2R x < 0.
Proof. intros H. apply qltb_Rlt in H. rewrite RMicromega.Q2R_0 in H. exact H. Qed.

Lemma positive_contains (a : itv) (x : R) :
  positive_itv a = true -> contains a x -> 0 < x.
Proof.
  unfold positive_itv, contains. intros Hp [Hlo _].
  apply qltb_0_Rlt in Hp. lra.
Qed.

Lemma qmin_le (x y : Q) : Q2R (qmin x y) <= Q2R x /\ Q2R (qmin x y) <= Q2R y.
Proof.
  unfold qmin. rewrite qleb_spec. destruct (Qle_bool x y) eqn:E.
  - apply Qle_bool_Rle in E. lra.
  - apply Qle_bool_false_Rlt in E. lra.
Qed.

Lemma qmax_ge (x y : Q) : Q2R x <= Q2R (qmax x y) /\ Q2R y <= Q2R (qmax x y).
Proof.
  unfold qmax. rewrite qleb_spec. destruct (Qle_bool x y) eqn:E.
  - apply Qle_bool_Rle in E. lra.
  - apply Qle_bool_false_Rlt in E. lra.
Qed.

Lemma contains_point (q : Q) (x : R) : x = Q2R q -> contains (point q) x.
Proof. intros ->. unfold contains. cbn. lra. Qed.

Lemma iadd_sound (a b : itv) (x y : R) :
  contains a x -> contains b y -> contains (iadd a b) (x + y).
Proof.
  unfold contains, iadd. cbn. intros Hx Hy.
  pose proof (round_down_le (lo a + lo b)) as Hd.
  pose proof (round_up_ge (hi a + hi b)) as Hu.
  rewrite Q2R_plus in Hd, Hu. lra.
Qed.

Lemma isub_sound (a b : itv) (x y : R) :
  contains a x -> contains b y -> contains (isub a b) (x - y).
Proof.
  unfold contains, isub. cbn. intros Hx Hy.
  pose proof (round_down_le (lo a - hi b)) as Hd.
  pose proof (round_up_ge (hi a - lo b)) as Hu.
  rewrite Q2R_minus in Hd, Hu. lra.
Qed.

Lemma iopp_sound (a : itv) (x : R) : contains a x -> contains (iopp a) (- x).
Proof. unfold contains, iopp. cbn. rewrite !Q2R_opp. lra. Qed.

(** A product lies between the least and the greatest of the four
    products of the end points. *)
Lemma product_bounds (a1 a2 b1 b2 x y m n : R) :
  a1 <= x <= a2 -> b1 <= y <= b2 ->
  m <= a1 * b1 -> m <= a1 * b2 -> m <= a2 * b1 -> m <= a2 * b2 ->
  a1 * b1 <= n -> a1 * b2 <= n -> a2 * b1 <= n -> a2 * b2 <= n ->
  m <= x * y <= n.
Proof.
  intros Hx Hy M1 M2 M3 M4 N1 N2 N3 N4.
  destruct (Rle_dec 0 y) as [Hy0 | Hy0].
  - assert (a1 * y <= x * y <= a2 * y) by nra.
    destruct (Rle_dec 0 a1), (Rle_dec 0 a2); split; nra.
  - assert (a2 * y <= x * y <= a1 * y) by nra.
    destruct (Rle_dec 0 a1), (Rle_dec 0 a2); split; nra.
Qed.

Lemma imul_sound (a b : itv) (x y : R) :
  contains a x -> contains b y -> contains (imul a b) (x * y).
Proof.
  unfold contains, imul. cbn. intros Hx Hy.
  set (p1 := (lo a * lo b)%Q). set (p2 := (lo a * hi b)%Q).
  set (p3 := (hi a * lo b)%Q). set (p4 := (hi a * hi b)%Q).
  pose proof (round_down_le (qmin (qmin p1 p2) (qmin p3 p4))) as Hd.
  pose proof (round_up_ge (qmax (qmax p1 p2) (qmax p3 p4))) as Hu.
  destruct (qmin_le (qmin p1 p2) (qmin p3 p4)) as [L12 L34].
  destruct (qmin_le p1 p2) as [L1 L2]. destruct (qmin_le p3 p4) as [L3 L4].
  destruct (qmax_ge (qmax p1 p2) (qmax p3 p4)) as [U12 U34].
  destruct (qmax_ge p1 p2) as [U1 U2]. destruct (qmax_ge p3 p4) as [U3 U4].
  unfold p1, p2, p3, p4 in *. rewrite !Q2R_mult in *.
  apply (product_bounds (Q2R (lo a)) (Q2R (hi a)) (Q2R (lo b)) (Q2R (hi b))); lra.
Qed.

Lemma iinv_sound (a : itv) (x : R) :
  positive_itv a = true -> contains a x -> contains (iinv a) (/ x).
Proof.
  unfold positive_itv, contains, iinv. cbn. intros Hp Hx.
  apply qltb_Rlt in Hp. rewrite RMicromega.Q2R_0 in Hp.
  pose proof (round_down_le (/ hi a)) as Hd.
  pose proof (round_up_ge (/ lo a)) as Hu.
  assert (Hlo : ~ lo a == 0).
  { intros E. apply Qeq_eqR in E. rewrite RMicromega.Q2R_0 in E. lra. }
  assert (Hhi : ~ hi a == 0).
  { intros E. apply Qeq_eqR in E. rewrite RMicromega.Q2R_0 in E. lra. }
  rewrite Q2R_inv in Hd by exact Hhi. rewrite Q2R_inv in Hu by exact Hlo.
  assert (/ Q2R (hi a) <= / x) by (apply Rinv_le_contravar; lra).
  assert (/ x <= / Q2R (lo a)) by (apply Rinv_le_contravar; lra).
  lra.
Qed.


(** ** The sine and cosine series on rationals *)

Lemma IZR_zfact (n : nat) : IZR (zfact n) = INR (fact n).
Proof.
  induction n as [| n IH]; [reflexivity |].
  cbn [zfact]. rewrite mult_IZR, IH, <- INR_IZR_INZ.
  change (fact (S n)) with (S n * fact n)%nat. rewrite mult_INR. reflexivity.
Qed.

Lemma zfact_nonzero (n : nat) : ~ inject_Z (zfact n) == 0.
Proof.
  intros E. apply Qeq_eqR in E. rewrite Q2R_inject_Z, IZR_zfact, RMicromega.Q2R_0 in E.
  exact (INR_fact_neq_0 n E).
Qed.

Lemma pow_down_bounds (a : Q) (n : nat) :
  0 <= Q2R a -> 0 <= Q2R (pow_down a n) <= Q2R a ^ n.
Proof.
  intros Ha. induction n as [| n IH]; cbn [pow_down pow].
  - rewrite RMicromega.Q2R_1. lra.
  - split.
    + apply round_down_nonneg. rewrite Q2R_mult. apply Rmult_le_pos; lra.
    + pose proof (round_down_le (a * pow_down a n)) as H. rewrite Q2R_mult in H.
      apply Rle_trans with (Q2R a * Q2R (pow_down a n)); [exact H |].
      apply Rmult_le_compat_l; lra.
Qed.

Lemma pow_up_bounds (a : Q) (n : nat) : 0 <= Q2R a -> Q2R a ^ n <= Q2R (pow_up a n).
Proof.
  intros Ha. induction n as [| n IH]; cbn [pow_up pow].
  - rewrite RMicromega.Q2R_1. lra.
  - pose proof (round_up_ge (a * pow_up a n)) as H. rewrite Q2R_mult in H.
    apply Rle_trans with (Q2R a * Q2R (pow_up a n)); [| exact H].
    apply Rmult_le_compat_l; lra.
Qed.

Lemma Q2R_div_zfact (q : Q) (k : nat) :
  Q2R (q / inject_Z (zfact k)) = Q2R q / INR (fact k).
Proof.
  rewrite Q2R_div by apply zfact_nonzero. rewrite Q2R_inject_Z, IZR_zfact. reflexivity.
Qed.

Lemma minus_1_pow_even (i : nat) : Nat.even i = true -> (-1) ^ i = 1.
Proof.
  intros H. apply Nat.even_spec in H. destruct H as [m ->]. apply pow_1_even.
Qed.

Lemma minus_1_pow_odd (i : nat) : Nat.even i = false -> (-1) ^ i = -1.
Proof.
  intros H. assert (Ho : Nat.odd i = true) by (rewrite <- Nat.negb_even, H; reflexivity).
  apply Nat.odd_spec in Ho. destruct Ho as [m ->].
  rewrite Nat.add_1_r. apply pow_1_odd.
Qed.

Lemma term_down_le (a : Q) (i k : nat) :
  0 <= Q2R a -> Q2R (term_down a i k) <= (-1) ^ i * (Q2R a ^ k / INR (fact k)).
Proof.
  intros Ha. unfold term_down.
  pose proof (pow_down_bounds a k Ha) as Hd. pose proof (pow_up_bounds a k Ha) as Hu.
  assert (Hf : 0 < / INR (fact k)) by (apply Rinv_0_lt_compat, INR_fact_lt_0).
  destruct (Nat.even i) eqn:E.
  - rewrite (minus_1_pow_even i E), Q2R_div_zfact. unfold Rdiv.
    rewrite Rmult_1_l. apply Rmult_le_compat_r; lra.
  - rewrite (minus_1_pow_odd i E), Q2R_opp, Q2R_div_zfact. unfold Rdiv.
    assert (Q2R a ^ k * / INR (fact k) <= Q2R (pow_up a k) * / INR (fact k))
      by (apply Rmult_le_compat_r; lra).
    lra.
Qed.

Lemma term_up_ge (a : Q) (i k : nat) :
  0 <= Q2R a -> (-1) ^ i * (Q2R a ^ k / INR (fact k)) <= Q2R (term_up a i k).
Proof.
  intros Ha. unfold term_up.
  pose proof (pow_down_bounds a k Ha) as Hd. pose proof (pow_up_bounds a k Ha) as Hu.
  assert (Hf : 0 < / INR (fact k)) by (apply Rinv_0_lt_compat, INR_fact_lt_0).
  destruct (Nat.even i) eqn:E.
  - rewrite (minus_1_pow_even i E), Q2R_div_zfact. unfold Rdiv.
    rewrite Rmult_1_l. apply Rmult_le_compat_r; lra.
  - rewrite (minus_1_pow_odd i E), Q2R_opp, Q2R_div_zfact. unfold Rdiv.
    assert (Q2R (pow_down a k) * / INR (fact k) <= Q2R a ^ k * / INR (fact k))
      by (apply Rmult_le_compat_r; lra).
    lra.
Qed.

Lemma Q2R_grid_plus (z1 z2 : Z) :
  Q2R ((z1 + z2) # grid) = Q2R (z1 # grid) + Q2R (z2 # grid).
Proof.
  unfold Q2R. cbn [Qnum Qden]. rewrite plus_IZR. ring.
Qed.

Lemma sum_floor_le (f : nat -> Q) (g : nat -> R) (n : nat) :
  (forall i, Q2R (f i) <= g i) -> Q2R (sum_floor f n # grid) <= sum_f_R0 g n.
Proof.
  intros H. induction n as [| n IH]; cbn [sum_floor sum_f_R0].
  - pose proof (round_down_le (f O)) as Hd. unfold round_down in Hd.
    pose proof (H O). lra.
  - rewrite Q2R_grid_plus. pose proof (H (S n)).
    pose proof (round_down_le (f (S n))) as Hd. unfold round_down in Hd. lra.
Qed.

Lemma sum_ceiling_ge (f : nat -> Q) (g : nat -> R) (n : nat) :
  (forall i, g i <= Q2R (f i)) -> sum_f_R0 g n <= Q2R (sum_ceiling f n # grid).
Proof.
  intros H. induction n as [| n IH]; cbn [sum_ceiling sum_f_R0].
  - pose proof (round_up_ge (f O)) as Hu. unfold round_up in Hu.
    pose proof (H O). lra.
  - rewrite Q2R_grid_plus. pose proof (H (S n)).
    pose proof (round_up_ge (f (S n))) as Hu. unfold round_up in Hu. lra.
Qed.

Lemma sin_lower_le (n : nat) (a : Q) :
  0 <= Q2R a <= 4 -> Q2R (sin_lower n a) <= sin (Q2R a).
Proof.
  intros Ha. unfold sin_lower.
  pose proof (sum_floor_le (sin_term_down a) (sin_term (Q2R a)) (2 * n + 1)
                (fun i => term_down_le a i (2 * i + 1) (proj1 Ha))) as H.
  pose proof (pre_sin_bound (Q2R a) n) as Hb. unfold sin_approx in Hb. lra.
Qed.

Lemma sin_upper_ge (n : nat) (a : Q) :
  0 <= Q2R a <= 4 -> sin (Q2R a) <= Q2R (sin_upper n a).
Proof.
  intros Ha. unfold sin_upper.
  pose proof (sum_ceiling_ge (sin_term_up a) (sin_term (Q2R a)) (2 * (n + 1))
                (fun i => term_up_ge a i (2 * i + 1) (proj1 Ha))) as H.
  pose proof (pre_sin_bound (Q2R a) n) as Hb. unfold sin_approx in Hb. lra.
Qed.

Lemma cos_lower_le (n : nat) (a : Q) :
  0 <= Q2R a <= 2 -> Q2R (cos_lower n a) <= cos (Q2R a).
Proof.
  intros Ha. unfold cos_lower.
  pose proof (sum_floor_le (cos_term_down a) (cos_term (Q2R a)) (2 * n + 1)
                (fun i => term_down_le a i (2 * i) (proj1 Ha))) as H.
  pose proof (pre_cos_bound (Q2R a) n) as Hb. unfold cos_approx in Hb. lra.
Qed.

Lemma cos_upper_ge (n : nat) (a : Q) :
  0 <= Q2R a <= 2 -> cos (Q2R a) <= Q2R (cos_upper n a).
Proof.
  intros Ha. unfold cos_upper.
  pose proof (sum_ceiling_ge (cos_term_up a) (cos_term (Q2R a)) (2 * (n + 1))
                (fun i => term_up_ge a i (2 * i) (proj1 Ha))) as H.
  pose proof (pre_cos_bound (Q2R a) n) as Hb. unfold cos_approx in Hb. lra.
Qed.

Lemma first_quadrant_bounds (a : itv) :
  first_quadrant a = true -> 0 <= Q2R (lo a) <= Q2R (hi a) /\ Q2R (hi a) <= 3 / 2.
Proof.
  unfold first_quadrant. intros H.
  apply andb_true_iff in H. destruct H as [H H3].
  apply andb_true_iff in H. destruct H as [H1 H2].
  apply Qle_bool_Rle in H1, H2, H3.
  rewrite RMicromega.Q2R_0 in H1.
  replace (Q2R (3 # 2)) with (3 / 2) in H3 by (unfold Q2R; cbn; lra).
  lra.
Qed.

Lemma isin_sound (a : itv) (x : R) :
  first_quadrant a = true -> contains a x -> contains (isin a) (sin x).
Proof.
  intros Hq Hx. apply first_quadrant_bounds in Hq. unfold contains in *.
  pose proof PI2_3_2 as HPI. unfold isin. cbn [lo hi].
  pose proof (sin_lower_le order (lo a)). pose proof (sin_upper_ge order (hi a)).
  assert (sin (Q2R (lo a)) <= sin x) by (apply sin_incr_1; lra).
  assert (sin x <= sin (Q2R (hi a))) by (apply sin_incr_1; lra).
  lra.
Qed.

Lemma icos_sound (a : itv) (x : R) :
  first_quadrant a = true -> contains a x -> contains (icos a) (cos x).
Proof.
  intros Hq Hx. apply first_quadrant_bounds in Hq. unfold contains in *.
  pose proof PI2_3_2 as HPI. unfold icos. cbn [lo hi].
  pose proof (cos_lower_le order (hi a)). pose proof (cos_upper_ge order (lo a)).
  assert (cos (Q2R (hi a)) <= cos x) by (apply cos_decr_1; lra).
  assert (cos x <= cos (Q2R (lo a))) by (apply cos_decr_1; lra).
  lra.
Qed.

(** pi lies between its fifteen-decimal truncation and the next
    fifteen-decimal number: the sine is positive at the one and negative
    at the other. *)
Lemma between_3_and_4 (q : Q) :
  Qle_bool 3 q && Qle_bool q 4 = true -> 3 <= Q2R q <= 4.
Proof.
  intros H. apply andb_true_iff in H. destruct H as [H3 H4].
  apply Qle_bool_Rle in H3, H4.
  replace (Q2R 3) with 3 in H3 by (unfold Q2R; cbn; lra).
  replace (Q2R 4) with 4 in H4 by (unfold Q2R; cbn; lra).
  lra.
Qed.

Lemma pi_lo_bounds : 3 <= Q2R pi_lo <= 4.
Proof. apply between_3_and_4. vm_compute. reflexivity. Qed.

Lemma pi_hi_bounds : 3 <= Q2R pi_hi <= 4.
Proof. apply between_3_and_4. vm_compute. reflexivity. Qed.

Lemma PI_above_pi_lo : Q2R pi_lo < PI.
Proof.
  pose proof pi_lo_bounds as Hb. pose proof PI_gt_3 as HPI.
  destruct (Rlt_dec (Q2R pi_lo) PI) as [H | H]; [exact H | exfalso].
  assert (Hs : sin (Q2R pi_lo) <= 0) by (apply sin_le_0; lra).
  assert (Hl : Q2R (sin_lower 7 pi_lo) <= sin (Q2R pi_lo)) by (apply sin_lower_le; lra).
  assert (Hpos : qltb 0 (sin_lower 7 pi_lo) = true) by (vm_compute; reflexivity).
  apply qltb_0_Rlt in Hpos. lra.
Qed.

Lemma PI_below_pi_hi : PI < Q2R pi_hi.
Proof.
  pose proof pi_hi_bounds as Hb.
  destruct (Rlt_dec PI (Q2R pi_hi)) as [H | H]; [exact H | exfalso].
  assert (Hs : 0 <= sin (Q2R pi_hi)) by (apply sin_ge_0; lra).
  assert (Hu : sin (Q2R pi_hi) <= Q2R (sin_upper 7 pi_hi)) by (apply sin_upper_ge; lra).
  assert (Hneg : qltb (sin_upper 7 pi_hi) 0 = true) by (vm_compute; reflexivity).
  apply qltb_Rlt_0 in Hneg. lra.
Qed.

Lemma ipi_sound : contains ipi PI.
Proof.
  unfold contains, ipi. cbn. pose proof PI_above_pi_lo. pose proof PI_below_pi_hi. lra.
Qed.

Lemma iwithin_sound (i : itv) (c tol : Q) (x : R) :
  iwithin i c tol = true -> contains i x -> Rabs (x - Q2R c) < Q2R tol.
Proof.
  unfold iwithin, contains. intros H Hx.
  apply andb_true_iff in H. destruct H as [H1 H2].
  apply qltb_Rlt in H1, H2. rewrite Q2R_minus in H1. rewrite Q2R_plus in H2.
  apply Rabs_def1; lra.
Qed.

Lemma ibeyond_sound (i : itv) (c tol : Q) (x : R) :
  ibeyond i c tol = true -> contains i x -> Q2R tol < Rabs (x - Q2R c).
Proof.
  unfold ibeyond, contains. intros H Hx.
  apply orb_true_iff in H. destruct H as [H | H]; apply qltb_Rlt in H.
  - rewrite Q2R_plus in H. pose proof (Rle_abs (x - Q2R c)). lra.
  - rewrite Q2R_minus in H. pose proof (Rle_abs (Q2R c - x)) as Ha.
    rewrite Rabs_minus_sym in Ha. lra.
Qed.


(** ** The forward kinematics on intervals *)

Ltac split_conj := repeat match goal with |- _ /\ _ => split end.

Create HintDb itv.
#[local] Hint Resolve iadd_sound isub_sound imul_sound iopp_sound isin_sound icos_sound : itv.

Lemma contains_0 : contains (point 0) 0.
Proof. apply contains_point. rewrite RMicromega.Q2R_0. reflexivity. Qed.

Lemma contains_1 : contains (point 1) 1.
Proof. apply contains_point. rewrite RMicromega.Q2R_1. reflexivity. Qed.

#[local] Hint Resolve contains_0 contains_1 : itv.

Lemma vwithin_sound (iv : ivector) (c0 c1 c2 tol : Q) (v : vector) :
  vwithin iv c0 c1 c2 tol = true -> vcontains iv v ->
  Rabs (v0 v - Q2R c0) < Q2R tol /\ Rabs (v1 v - Q2R c1) < Q2R tol
  /\ Rabs (v2 v - Q2R c2) < Q2R tol.
Proof.
  unfold vwithin, vcontains. intros H (H0 & H1 & H2).
  apply andb_true_iff in H. destruct H as [H H2'].
  apply andb_true_iff in H. destruct H as [H0' H1'].
  split_conj; eapply iwithin_sound; eassumption.
Qed.

Lemma idot3_sound (a1 a2 a3 b1 b2 b3 : itv) (x1 x2 x3 y1 y2 y3 : R) :
  contains a1 x1 -> contains a2 x2 -> contains a3 x3 ->
  contains b1 y1 -> contains b2 y2 -> contains b3 y3 ->
  contains (idot3 a1 a2 a3 b1 b2 b3) (x1 * y1 + x2 * y2 + x3 * y3).
Proof. intros. unfold idot3. auto with itv. Qed.

#[local] Hint Resolve idot3_sound : itv.

Lemma immul_sound (A B : imatrix) (a b : matrix) :
  mcontains A a -> mcontains B b -> mcontains (immul A B) (mmul a b).
Proof.
  unfold mcontains. intros (? & ? & ? & ? & ? & ? & ? & ? & ?) (? & ? & ? & ? & ? & ? & ? & ? & ?).
  unfold immul, mmul. cbn. split_conj; auto with itv.
Qed.

Lemma imvec_sound (A : imatrix) (V : ivector) (a : matrix) (v : vector) :
  mcontains A a -> vcontains V v -> vcontains (imvec A V) (mvec a v).
Proof.
  unfold mcontains, vcontains. intros (? & ? & ? & ? & ? & ? & ? & ? & ?) (? & ? & ?).
  unfold imvec, mvec. cbn. split_conj; auto with itv.
Qed.

Lemma imsub_sound (A B : imatrix) (a b : matrix) :
  mcontains A a -> mcontains B b -> mcontains (imsub A B) (msub a b).
Proof.
  unfold mcontains. intros (? & ? & ? & ? & ? & ? & ? & ? & ?) (? & ? & ? & ? & ? & ? & ? & ? & ?).
  unfold imsub, msub. cbn. split_conj; auto with itv.
Qed.

Lemma imscale_sound (A : imatrix) (S : itv) (a : matrix) (s : R) :
  mcontains A a -> contains S s -> mcontains (imscale A S) (mscale a s).
Proof.
  unfold mcontains. intros (? & ? & ? & ? & ? & ? & ? & ? & ?) ?.
  unfold imscale, mscale. cbn. split_conj; auto with itv.
Qed.

Lemma itranspose_sound (A : imatrix) (a : matrix) :
  mcontains A a -> mcontains (itranspose A) (transpose a).
Proof.
  unfold mcontains. intros (? & ? & ? & ? & ? & ? & ? & ? & ?).
  unfold itranspose, transpose. cbn. split_conj; assumption.
Qed.

Lemma idet_sound (A : imatrix) (a : matrix) :
  mcontains A a -> contains (idet A) (det a).
Proof.
  unfold mcontains. intros (? & ? & ? & ? & ? & ? & ? & ? & ?).
  unfold idet, det. auto 10 with itv.
Qed.

Lemma iadjugate_sound (A : imatrix) (a : matrix) :
  mcontains A a -> mcontains (iadjugate A) (adjugate a).
Proof.
  unfold mcontains. intros (? & ? & ? & ? & ? & ? & ? & ? & ?).
  unfold iadjugate, adjugate. cbn. split_conj; auto with itv.
Qed.

Lemma iI_sound : mcontains iI I.
Proof. unfold mcontains, iI, I. cbn. split_conj; auto with itv. Qed.

Lemma ix_rotation_sound (a : itv) (th : R) :
  first_quadrant a = true -> contains a th -> mcontains (ix_rotation a) (x_rotation th).
Proof.
  intros. unfold mcontains, ix_rotation, x_rotation. cbn. split_conj; auto with itv.
Qed.

Lemma iy_rotation_sound (a : itv) (th : R) :
  first_quadrant a = true -> contains a th -> mcontains (iy_rotation a) (y_rotation th).
Proof.
  intros. unfold mcontains, iy_rotation, y_rotation. cbn. split_conj; auto with itv.
Qed.

Lemma iz_rotation_sound (a : itv) (th : R) :
  first_quadrant a = true -> contains a th -> mcontains (iz_rotation a) (z_rotation th).
Proof.
  intros. unfold mcontains, iz_rotation, z_rotation. cbn. split_conj; auto with itv.
Qed.

Lemma z_rotation_neg (th : R) : z_rotation (- th) = transpose (z_rotation th).
Proof.
  unfold z_rotation, transpose. cbn. rewrite cos_neg, sin_neg, Ropp_involutive. reflexivity.
Qed.

Lemma transpose_involutive (a : matrix) : transpose (transpose a) = a.
Proof. destruct a. reflexivity. Qed.

Lemma hkl_vector_of_rotations (pos : YouPosition.t) (wavelength : R) (UBmatrix : matrix) :
  hkl_vector_of pos wavelength UBmatrix =
  mvec (mmul (mmul (mmul (mmul (mscale (adjugate UBmatrix) (/ det UBmatrix))
                               (z_rotation (YouPosition.phi pos)))
                         (transpose (y_rotation (YouPosition.chi pos))))
                   (z_rotation (YouPosition.eta pos)))
             (transpose (x_rotation (YouPosition.mu pos))))
       (mvec (msub (mmul (x_rotation (YouPosition.nu pos))
                         (transpose (z_rotation (YouPosition.delta pos)))) I)
             (Vector 0 (2 * PI / wavelength) 0)).
Proof.
  unfold hkl_vector_of, calcNU, calcDELTA, calcPHI, calcCHI, calcETA, calcMU.
  rewrite !z_rotation_neg, !transpose_involutive. reflexivity.
Qed.

Lemma iq_lab_sound (idelta inu ik : itv) (delta nu k : R) :
  first_quadrant idelta = true -> contains idelta delta ->
  first_quadrant inu = true -> contains inu nu ->
  contains ik k ->
  vcontains (imvec (imsub (immul (ix_rotation inu) (itranspose (iz_rotation idelta))) iI)
                   (IVector (point 0) ik (point 0)))
            (mvec (msub (mmul (x_rotation nu) (transpose (z_rotation delta))) I)
                  (Vector 0 k 0)).
Proof.
  intros Qdelta Hdelta Qnu Hnu Hk.
  apply imvec_sound.
  - apply imsub_sound; [| exact iI_sound].
    apply immul_sound; [apply ix_rotation_sound; assumption |].
    apply itranspose_sound, iz_rotation_sound; assumption.
  - split; [exact contains_0 | split; [exact Hk | exact contains_0]].
Qed.

Lemma iUB_inverse_sound (IUB : imatrix) (UBmatrix : matrix) :
  mcontains IUB UBmatrix -> positive_itv (idet IUB) = true ->
  det UBmatrix <> 0
  /\ mcontains (imscale (iadjugate IUB) (iinv (idet IUB)))
               (mscale (adjugate UBmatrix) (/ det UBmatrix)).
Proof.
  intros HUB Hpos. pose proof (idet_sound _ _ HUB) as Hdet.
  split.
  - apply Rgt_not_eq. exact (positive_contains _ _ Hpos Hdet).
  - apply imscale_sound; [apply iadjugate_sound; exact HUB |].
    apply iinv_sound; assumption.
Qed.

Lemma ihkl_of_sound (imu idelta inu ieta ichi iphi ik : itv) (IUB : imatrix)
      (pos : YouPosition.t) (wavelength : R) (UBmatrix : matrix) :
  first_quadrant imu = true -> contains imu (YouPosition.mu pos) ->
  first_quadrant idelta = true -> contains idelta (YouPosition.delta pos) ->
  first_quadrant inu = true -> contains inu (YouPosition.nu pos) ->
  first_quadrant ieta = true -> contains ieta (YouPosition.eta pos) ->
  first_quadrant ichi = true -> contains ichi (YouPosition.chi pos) ->
  first_quadrant iphi = true -> contains iphi (YouPosition.phi pos) ->
  contains ik (2 * PI / wavelength) ->
  mcontains IUB UBmatrix ->
  positive_itv (idet IUB) = true ->
  det UBmatrix <> 0
  /\ vcontains (ihkl_of imu idelta inu ieta ichi iphi ik IUB)
       (hkl_vector_of pos wavelength UBmatrix).
Proof.
  intros Qmu Hmu Qdelta Hdelta Qnu Hnu Qeta Heta Qchi Hchi Qphi Hphi Hk HUB Hpos.
  destruct (iUB_inverse_sound _ _ HUB Hpos) as [Hd Hinv].
  split; [exact Hd |].
  rewrite hkl_vector_of_rotations.
  exact (imvec_sound _ _ _ _
           (immul_sound _ _ _ _
              (immul_sound _ _ _ _
                 (immul_sound _ _ _ _
                    (immul_sound _ _ _ _ Hinv (iz_rotation_sound _ _ Qphi Hphi))
                    (itranspose_sound _ _ (iy_rotation_sound _ _ Qchi Hchi)))
                 (iz_rotation_sound _ _ Qeta Heta))
              (itranspose_sound _ _ (ix_rotation_sound _ _ Qmu Hmu)))
           (iq_lab_sound _ _ _ _ _ _ Qdelta Hdelta Qnu Hnu Hk)).
Qed.

(** ** The I16 fixture *)

Lemma TORAD_enclosed : contains iTORAD TORAD.
Proof.
  unfold iTORAD, TORAD, Rdiv. apply imul_sound; [exact ipi_sound |].
  apply contains_point. unfold Q2R. cbn. lra.
Qed.

Lemma radians_enclosed (degrees : Q) : contains (iradians degrees) (Q2R degrees * TORAD).
Proof.
  unfold iradians. apply imul_sound; [| exact TORAD_enclosed].
  apply contains_point. reflexivity.
Qed.

Lemma two_pi_enclosed : contains ik1 (2 * PI).
Proof.
  unfold ik1. apply imul_sound; [| exact ipi_sound].
  apply contains_point. unfold Q2R. cbn. lra.
Qed.

Lemma UB1_enclosed : mcontains iUB1 UB1.
Proof.
  unfold iUB1, UB1. apply imscale_sound; [| exact two_pi_enclosed].
  unfold mcontains. cbn [i00 i01 i02 i10 i11 i12 i20 i21 i22 m00 m01 m02 m10 m11 m12 m20 m21 m22].
  split_conj; apply contains_point; unfold Q2R; cbn; lra.
Qed.

Lemma ihkl_arbitrary_sound (phi : Q) :
  first_quadrant (iradians phi) = true ->
  let pos := inRadians (posFromI16sEuler (Q2R phi) 2.9 30.9 0.9 60.9 2.9) in
  youAnglesToHkl pos WL1 UB1 = Return (hkl_of pos WL1 UB1)
  /\ vcontains (ihkl_arbitrary phi) (hkl_vector_of pos WL1 UB1).
Proof.
  intros Hphi pos.
  assert (Hk : contains ik1 (2 * PI / WL1)).
  { unfold WL1. replace (2 * PI / 1) with (2 * PI) by field. exact two_pi_enclosed. }
  assert (Hpos : positive_itv (idet iUB1) = true) by (vm_compute; reflexivity).
  destruct (ihkl_of_sound (iradians 0.9) (iradians 60.9) (iradians 2.9) (iradians 30.9)
              (iradians 2.9) (iradians phi) ik1 iUB1 pos WL1 UB1) as [Hdet Hv].
  - vm_compute; reflexivity.
  - exact (radians_enclosed 0.9).
  - vm_compute; reflexivity.
  - exact (radians_enclosed 60.9).
  - vm_compute; reflexivity.
  - exact (radians_enclosed 2.9).
  - vm_compute; reflexivity.
  - exact (radians_enclosed 30.9).
  - vm_compute; reflexivity.
  - exact (radians_enclosed 2.9).
  - exact Hphi.
  - exact (radians_enclosed phi).
  - exact Hk.
  - exact UB1_enclosed.
  - exact Hpos.
  - split; [| exact Hv].
    apply youAnglesToHkl_closed_form; [unfold WL1; lra | exact Hdet].
Qed.

(** C8 (as the test has it, phi = 1.9 degrees).  With UB1 and
    wavelength 1, youAnglesToHkl at the position phi = 1.9, chi = 2.9,
    eta = 30.9, mu = 0.9, delta = 60.9, nu = 2.9 degrees, converted to
    radians, returns Miller indices within 1e-8 of
    (1.01174189, 0.02368622, 0.06627361). *)
Theorem youAnglesToHkl_arbitrary :
  returns_hkl_within 1e-8
    (youAnglesToHkl (inRadians (posFromI16sEuler 1.9 2.9 30.9 0.9 60.9 2.9)) WL1 UB1)
    (1.01174189, 0.02368622, 0.06627361).
Proof.
  destruct (ihkl_arbitrary_sound 1.9) as [Hret Hv]; [vm_compute; reflexivity |].
  assert (Hcheck : vwithin (ihkl_arbitrary 1.9) 1.01174189 0.02368622 0.06627361
                     (1 # 100000000) = true) by (vm_compute; reflexivity).
  unfold returns_hkl_within. rewrite Hret. unfold hkl_of.
  eexists _, _, _. split; [reflexivity |].
  replace 1e-8 with (Q2R (1 # 100000000)) by (unfold Q2R; cbn; lra).
  exact (vwithin_sound _ _ _ _ _ _ Hcheck Hv).
Qed.

(** C8, counterexample: at phi = 2.9 degrees, the position the claim
    names, the k index is further than 0.01 from 0.02368622. *)
Lemma youAnglesToHkl_phi_2_9_differs :
  ~ returns_hkl_within 0.01
      (youAnglesToHkl (inRadians (posFromI16sEuler 2.9 2.9 30.9 0.9 60.9 2.9)) WL1 UB1)
      (1.01174189, 0.02368622, 0.06627361).
Proof.
  destruct (ihkl_arbitrary_sound 2.9) as [Hret (_ & Hk & _)];
    [vm_compute; reflexivity |].
  assert (Hfar : ibeyond (iv1 (ihkl_arbitrary 2.9)) 0.02368622 0.01 = true)
    by (vm_compute; reflexivity).
  apply (ibeyond_sound _ _ _ _ Hfar) in Hk.
  unfold returns_hkl_within. intros (h & k & l & Heq & _ & Hclose & _).
  rewrite Hret in Heq. unfold hkl_of in Heq. cbv zeta in Heq.
  set (v := hkl_vector_of _ _ _) in *. clearbody v.
  injection Heq as _ <- _. lra.
Qed.

(** * Further properties of [calcyou.py] *)

(** ** The module-level helpers *)

Lemma Return_inj {A : Type} (a b : A) : Return a = Return b -> a = b.
Proof. intros H. injection H as H. exact H. Qed.

(** X1: an angle between -3 pi - SMALL and 3 pi + SMALL is moved by
    [cut_at_minus_pi] into [-pi - SMALL, pi + SMALL), by adding or
    taking off one full turn or by leaving it as it is. *)
Theorem cut_at_minus_pi_range (value : R) :
  - 3 * PI - SMALL <= value < 3 * PI + SMALL ->
  - PI - SMALL <= cut_at_minus_pi value < PI + SMALL
  /\ (cut_at_minus_pi value = value
      \/ cut_at_minus_pi value = value + 2 * PI
      \/ cut_at_minus_pi value = value - 2 * PI).
Proof.
  intros [Hlo Hhi]. pose proof SMALL_pos. pose proof PI_gt_3. unfold cut_at_minus_pi.
  destruct (Rltb value (- PI - SMALL)) eqn:E1.
  - apply Rltb_lt in E1. split; [lra | auto].
  - assert (H1 : ~ value < - PI - SMALL) by (rewrite <- Rltb_lt, E1; discriminate).
    destruct (Rleb (PI + SMALL) value) eqn:E2.
    + apply Rleb_le in E2. split; [lra | auto].
    + assert (H2 : ~ PI + SMALL <= value) by (rewrite <- Rleb_le, E2; discriminate).
      split; [lra | auto].
Qed.

Lemma cut_at_minus_pi_range_witness :
  - PI - SMALL <= cut_at_minus_pi 4 < PI + SMALL
  /\ (cut_at_minus_pi 4 = 4
      \/ cut_at_minus_pi 4 = 4 + 2 * PI
      \/ cut_at_minus_pi 4 = 4 - 2 * PI).
Proof.
  apply (cut_at_minus_pi_range 4).
  pose proof PI_gt_3. pose proof SMALL_pos. lra.
Defined.

(** X2: [sequence_ne] compares two sequences over their common
    prefix only, as [zip] pairs them: it is true exactly when every
    two elements at the same index are within the tolerance of one
    another, and elements past the end of the shorter sequence are
    ignored. *)
Theorem sequence_ne_common_prefix (a_seq b_seq : list R) :
  sequence_ne a_seq b_seq = true
  <-> (forall (i : nat) (a b : R),
          nth_error a_seq i = Some a -> nth_error b_seq i = Some b ->
          Rabs (a - b) < SMALL).
Proof.
  revert b_seq. induction a_seq as [| a a_seq IH]; intros b_seq.
  - cbn. split; [| reflexivity]. intros _ [| i] x y H; discriminate H.
  - destruct b_seq as [| b b_seq].
    + cbn. split; [| reflexivity]. intros _ [| i] x y _ H; discriminate H.
    + cbn [sequence_ne]. unfold ne. destruct (is_small (a - b)) eqn:E; cbn [negb].
      * apply is_small_lt in E. rewrite IH. split.
        -- intros H [| i] x y Hx Hy; cbn in Hx, Hy.
           ++ injection Hx as <-. injection Hy as <-. exact E.
           ++ exact (H i x y Hx Hy).
        -- intros H i x y Hx Hy. exact (H (S i) x y Hx Hy).
      * split; [discriminate |]. intros H.
        assert (Hs : Rabs (a - b) < SMALL) by (apply (H O); reflexivity).
        apply is_small_lt in Hs. congruence.
Qed.

(** ** Bragg's law: [_calc_theta] *)

Lemma calc_theta_zero (self : YouHklCalculator.t) (h_phi : vector) (wavelength : R) :
  norm h_phi = 0 ->
  _calc_theta self h_phi wavelength
  = Raise (DiffcalcException "Reflection is unreachable as |Q| is 0").
Proof.
  intros H0. unfold _calc_theta. cbn zeta. rewrite (Req_bool_true _ _ H0). reflexivity.
Qed.

(** [_calc_theta] for a scattering vector and a wavelength other than
    zero. *)
Lemma calc_theta_nonzero (self : YouHklCalculator.t) (h_phi : vector) (wavelength : R) :
  norm h_phi <> 0 -> wavelength <> 0 ->
  _calc_theta self h_phi wavelength
  = if Rleb (Rabs (norm h_phi * wavelength)) (4 * PI)
    then Return (asin (norm h_phi * wavelength / (4 * PI)))
    else Raise (DiffcalcException "Reflection is unreachable as |Q| is too long").
Proof.
  intros H0 Hw. pose proof PI_gt_3 as HPI.
  assert (Hq : norm h_phi / (2 * (2 * PI / wavelength)) = norm h_phi * wavelength / (4 * PI))
    by (field; split; lra).
  assert (Habs : Rabs (norm h_phi * wavelength / (4 * PI))
                 = Rabs (norm h_phi * wavelength) / (4 * PI)).
  { unfold Rdiv. rewrite Rabs_mult, (Rabs_pos_eq (/ (4 * PI))); [reflexivity |].
    apply Rlt_le, Rinv_0_lt_compat. lra. }
  unfold _calc_theta. cbn zeta. rewrite (Req_bool_false _ _ H0).
  rewrite (py_div_nonzero _ _ Hw). cbn [bind].
  rewrite py_div_nonzero by (apply Rmult_integral_contrapositive_currified;
    [lra | apply Rmult_integral_contrapositive_currified;
           [lra | apply Rinv_neq_0_compat; exact Hw]]).
  cbn [bind]. rewrite Hq. unfold py_asin.
  destruct (Rleb (Rabs (norm h_phi * wavelength)) (4 * PI)) eqn:E.
  - apply Rleb_le in E. rewrite Rleb_true; [reflexivity |].
    rewrite Habs. apply (Rmult_le_reg_r (4 * PI)); [lra |].
    unfold Rdiv. rewrite Rmult_assoc, Rinv_l by lra. lra.
  - rewrite Rleb_false; [reflexivity |].
    rewrite Habs. intros Hle. apply (Rmult_le_compat_r (4 * PI)) in Hle; [| lra].
    unfold Rdiv in Hle. rewrite Rmult_assoc, Rinv_l in Hle by lra.
    assert (Rleb (Rabs (norm h_phi * wavelength)) (4 * PI) = true)
      by (apply Rleb_true; lra).
    congruence.
Qed.

(** X3: [_calc_theta] raises [DiffcalcException] for a scattering
    vector of length zero, whatever the wavelength; [ZeroDivisionError]
    for a wavelength of zero; [DiffcalcException] when |Q| times the
    wavelength exceeds 4 pi in magnitude; and in every other case it
    returns the theta of Bragg's law, [asin (|Q| wavelength / 4 pi)]. *)
Theorem calc_theta_cases (self : YouHklCalculator.t) (h_phi : vector) (wavelength : R) :
  (norm h_phi = 0 ->
   _calc_theta self h_phi wavelength
   = Raise (DiffcalcException "Reflection is unreachable as |Q| is 0"))
  /\ (norm h_phi <> 0 -> wavelength = 0 ->
      _calc_theta self h_phi wavelength = Raise ZeroDivisionError)
  /\ (norm h_phi <> 0 -> wavelength <> 0 ->
      4 * PI < Rabs (norm h_phi * wavelength) ->
      _calc_theta self h_phi wavelength
      = Raise (DiffcalcException "Reflection is unreachable as |Q| is too long"))
  /\ (norm h_phi <> 0 -> wavelength <> 0 ->
      Rabs (norm h_phi * wavelength) <= 4 * PI ->
      _calc_theta self h_phi wavelength
      = Return (asin (norm h_phi * wavelength / (4 * PI)))).
Proof.
  repeat split.
  - apply calc_theta_zero.
  - intros H0 ->. unfold _calc_theta. cbn zeta.
    rewrite (Req_bool_false _ _ H0), py_div_zero. reflexivity.
  - intros H0 Hw Hlong. rewrite (calc_theta_nonzero _ _ _ H0 Hw).
    rewrite Rleb_false by lra. reflexivity.
  - intros H0 Hw Hok. rewrite (calc_theta_nonzero _ _ _ H0 Hw).
    rewrite Rleb_true by lra. reflexivity.
Qed.

Lemma calc_theta_cases_witness :
  _calc_theta self_100 (Vector 0 0 0) 1
  = Raise (DiffcalcException "Reflection is unreachable as |Q| is 0")
  /\ _calc_theta self_100 (Vector (2 * PI) 0 0) 0 = Raise ZeroDivisionError
  /\ _calc_theta self_100 (Vector (2 * PI) 0 0) 3
     = Raise (DiffcalcException "Reflection is unreachable as |Q| is too long")
  /\ _calc_theta self_100 (Vector (2 * PI) 0 0) 1
     = Return (asin (norm (Vector (2 * PI) 0 0) * 1 / (4 * PI))).
Proof.
  pose proof PI_gt_3 as HPI.
  assert (Hn : norm (Vector (2 * PI) 0 0) = 2 * PI) by (apply norm_x_axis; lra).
  assert (H0 : norm (Vector 0 0 0) = 0).
  { unfold norm. cbn. replace (0 * 0 + 0 * 0 + 0 * 0) with 0 by ring. exact sqrt_0. }
  split; [| split; [| split]].
  - apply (calc_theta_cases self_100 (Vector 0 0 0) 1). exact H0.
  - apply (calc_theta_cases self_100 (Vector (2 * PI) 0 0) 0); [rewrite Hn; lra | reflexivity].
  - apply (calc_theta_cases self_100 (Vector (2 * PI) 0 0) 3); [rewrite Hn; lra | lra |].
    rewrite Hn, Rabs_pos_eq; lra.
  - apply (calc_theta_cases self_100 (Vector (2 * PI) 0 0) 1); [rewrite Hn; lra | lra |].
    rewrite Hn, Rabs_pos_eq; lra.
Defined.

(** ** Matrices: products, rotations and the norm *)

Lemma mmul_assoc (a b c : matrix) : mmul (mmul a b) c = mmul a (mmul b c).
Proof. unfold mmul. cbn. f_equal; ring. Qed.

Lemma mmul_I_r (a : matrix) : mmul a I = a.
Proof. destruct a. unfold mmul, I. cbn. f_equal; ring. Qed.

Lemma transpose_I : transpose I = I.
Proof. reflexivity. Qed.

Lemma x_rotation_neg (th : R) : x_rotation (- th) = transpose (x_rotation th).
Proof.
  unfold x_rotation, transpose. cbn. rewrite cos_neg, sin_neg, Ropp_involutive. reflexivity.
Qed.

Lemma z_rotation_plus (a b : R) :
  mmul (z_rotation a) (z_rotation b) = z_rotation (a + b).
Proof.
  unfold mmul, z_rotation. cbn. rewrite cos_plus, sin_plus. f_equal; ring.
Qed.

(** A quarter turn about y carries a rotation about x into one about z. *)
Lemma y_quarter_turn_x_rotation (mu : R) :
  mmul (transpose (y_rotation (PI / 2))) (transpose (x_rotation mu))
  = mmul (z_rotation (- mu)) (transpose (y_rotation (PI / 2))).
Proof.
  unfold mmul, y_rotation, x_rotation, z_rotation, transpose. cbn.
  rewrite cos_PI2, sin_PI2, cos_neg, sin_neg. f_equal; ring.
Qed.

Lemma norm_nonneg (v : vector) : 0 <= norm v.
Proof. apply sqrt_pos. Qed.

Lemma norm_sqr (v : vector) :
  norm v * norm v = v0 v * v0 v + v1 v * v1 v + v2 v * v2 v.
Proof.
  unfold norm. apply sqrt_sqrt.
  pose proof (Rle_0_sqr (v0 v)). pose proof (Rle_0_sqr (v1 v)). pose proof (Rle_0_sqr (v2 v)).
  unfold Rsqr in *. lra.
Qed.

Lemma norm_x_rotation (th : R) (v : vector) : norm (mvec (x_rotation th) v) = norm v.
Proof.
  unfold norm, mvec, x_rotation. cbn. f_equal.
  pose proof (cos2_sin2 th) as H. set (c := cos th) in *. set (s := sin th) in *.
  replace ((1 * v0 v + 0 * v1 v + 0 * v2 v) * (1 * v0 v + 0 * v1 v + 0 * v2 v) +
           (0 * v0 v + c * v1 v + - s * v2 v) * (0 * v0 v + c * v1 v + - s * v2 v) +
           (0 * v0 v + s * v1 v + c * v2 v) * (0 * v0 v + s * v1 v + c * v2 v))
    with (v0 v * v0 v + (c * c + s * s) * (v1 v * v1 v + v2 v * v2 v)) by ring.
  rewrite H. ring.
Qed.

Lemma norm_y_rotation (th : R) (v : vector) : norm (mvec (y_rotation th) v) = norm v.
Proof.
  unfold norm, mvec, y_rotation. cbn. f_equal.
  pose proof (cos2_sin2 th) as H. set (c := cos th) in *. set (s := sin th) in *.
  replace ((c * v0 v + 0 * v1 v + s * v2 v) * (c * v0 v + 0 * v1 v + s * v2 v) +
           (0 * v0 v + 1 * v1 v + 0 * v2 v) * (0 * v0 v + 1 * v1 v + 0 * v2 v) +
           (- s * v0 v + 0 * v1 v + c * v2 v) * (- s * v0 v + 0 * v1 v + c * v2 v))
    with (v1 v * v1 v + (c * c + s * s) * (v0 v * v0 v + v2 v * v2 v)) by ring.
  rewrite H. ring.
Qed.

Lemma norm_z_rotation (th : R) (v : vector) : norm (mvec (z_rotation th) v) = norm v.
Proof.
  unfold norm, mvec, z_rotation. cbn. f_equal.
  pose proof (cos2_sin2 th) as H. set (c := cos th) in *. set (s := sin th) in *.
  replace ((c * v0 v + - s * v1 v + 0 * v2 v) * (c * v0 v + - s * v1 v + 0 * v2 v) +
           (s * v0 v + c * v1 v + 0 * v2 v) * (s * v0 v + c * v1 v + 0 * v2 v) +
           (0 * v0 v + 0 * v1 v + 1 * v2 v) * (0 * v0 v + 0 * v1 v + 1 * v2 v))
    with (v2 v * v2 v + (c * c + s * s) * (v0 v * v0 v + v1 v * v1 v)) by ring.
  rewrite H. ring.
Qed.

Lemma y_rotation_neg (th : R) : y_rotation (- th) = transpose (y_rotation th).
Proof.
  unfold y_rotation, transpose. cbn. rewrite cos_neg, sin_neg, Ropp_involutive. reflexivity.
Qed.

(** A matrix times its inverse. *)
Lemma mvec_inverse_cancel (a : matrix) (v : vector) :
  det a <> 0 -> mvec a (mvec (mscale (adjugate a) (/ det a)) v) = v.
Proof.
  intros Hd. destruct a as [a00 a01 a02 a10 a11 a12 a20 a21 a22], v as [x y z].
  unfold mvec, mscale, adjugate, det in *. cbn in *.
  f_equal; field; exact Hd.
Qed.

(** ** The forward kinematics: [youAnglesToHkl] *)

Lemma youAnglesToHkl_unfold (pos : YouPosition.t) (wavelength : R) (UBmatrix : matrix) :
  youAnglesToHkl pos wavelength UBmatrix
  = (k <- py_div (2 * PI) wavelength ;;
     UBi <- inverse UBmatrix ;;
     let hkl :=
       mvec (mmul UBi (sample_rotation_inverse (YouPosition.mu pos) (YouPosition.eta pos)
                         (YouPosition.chi pos) (YouPosition.phi pos)))
            (mvec (msub (mmul (calcNU (YouPosition.nu pos))
                              (calcDELTA (YouPosition.delta pos))) I)
                  (Vector 0 k 0)) in
     Return (v0 hkl, v1 hkl, v2 hkl)).
Proof.
  destruct pos as [mu delta nu eta chi phi].
  unfold youAnglesToHkl, YouPosition.totuple, createYouMatrices, sample_rotation_inverse.
  cbn [YouPosition.mu YouPosition.delta YouPosition.nu YouPosition.eta YouPosition.chi
       YouPosition.phi].
  destruct (py_div (2 * PI) wavelength) as [k |]; [| reflexivity]. cbn [bind].
  destruct (inverse UBmatrix) as [UBi |]; [| reflexivity]. cbn [bind].
  unfold calcPHI, calcCHI, calcETA, calcMU.
  rewrite inverse_z_rotation. cbn [bind].
  rewrite inverse_y_rotation. cbn [bind].
  rewrite inverse_z_rotation. cbn [bind].
  rewrite inverse_x_rotation. cbn [bind].
  rewrite !mmul_assoc. reflexivity.
Qed.

Lemma youAnglesToHkl_singular (pos : YouPosition.t) (wavelength : R) (UBmatrix : matrix) :
  wavelength <> 0 -> det UBmatrix = 0 ->
  youAnglesToHkl pos wavelength UBmatrix = Raise LinAlgError.
Proof.
  intros Hw Hd. rewrite youAnglesToHkl_unfold.
  rewrite (py_div_nonzero _ _ Hw). cbn [bind].
  unfold inverse. rewrite (Req_bool_true _ _ Hd). reflexivity.
Qed.

(** When [youAnglesToHkl] returns, UB is regular and the result is
    that of the closed form. *)
Lemma youAnglesToHkl_Return_inv (pos : YouPosition.t) (wavelength : R) (UBmatrix : matrix)
      (h k l : R) :
  wavelength <> 0 ->
  youAnglesToHkl pos wavelength UBmatrix = Return (h, k, l) ->
  det UBmatrix <> 0
  /\ Vector h k l
     = mvec (mmul (mscale (adjugate UBmatrix) (/ det UBmatrix))
                  (sample_rotation_inverse (YouPosition.mu pos) (YouPosition.eta pos)
                     (YouPosition.chi pos) (YouPosition.phi pos)))
            (mvec (msub (mmul (calcNU (YouPosition.nu pos))
                              (calcDELTA (YouPosition.delta pos))) I)
                  (Vector 0 (2 * PI / wavelength) 0)).
Proof.
  intros Hw Hret.
  destruct (Req_dec (det UBmatrix) 0) as [Hd | Hd].
  - rewrite (youAnglesToHkl_singular _ _ _ Hw Hd) in Hret. discriminate Hret.
  - split; [exact Hd |].
    rewrite youAnglesToHkl_unfold in Hret.
    rewrite (py_div_nonzero _ _ Hw) in Hret. cbn [bind] in Hret.
    unfold inverse in Hret. rewrite (Req_bool_false _ _ Hd) in Hret.
    cbn [bind] in Hret. cbn zeta in Hret.
    set (hkl := mvec _ _) in *. clearbody hkl.
    apply Return_inj in Hret. injection Hret as <- <- <-. destruct hkl; reflexivity.
Qed.



(** The scattering vector in the laboratory frame has the length of
    Bragg's law. *)
Lemma norm_q_lab (delta nu k : R) :
  0 <= k ->
  norm (mvec (msub (mmul (calcNU nu) (calcDELTA delta)) I) (Vector 0 k 0))
  = 2 * k * sin (acos (bound (cos delta * cos nu)) / 2).
Proof.
  intros Hk.
  assert (Hc : -1 <= cos delta * cos nu <= 1).
  { pose proof (COS_bound delta) as [? ?]. pose proof (COS_bound nu) as [? ?]. nra. }
  rewrite (bound_id _ Hc).
  set (c := cos delta * cos nu) in *.
  set (theta := acos c / 2).
  assert (Hth : 0 <= theta <= PI / 2).
  { unfold theta. pose proof (acos_bound c). lra. }
  assert (Hs : 0 <= sin theta) by (apply sin_ge_0; lra).
  assert (H2 : cos (2 * theta) = c).
  { unfold theta. replace (2 * (acos c / 2)) with (acos c) by field. apply cos_acos. exact Hc. }
  rewrite cos_2a_sin in H2.
  rewrite <- (sqrt_square (2 * k * sin theta)) by (apply Rmult_le_pos; lra).
  unfold norm. f_equal.
  unfold mvec, msub, mmul, calcNU, calcDELTA, x_rotation, z_rotation, I. cbn.
  rewrite cos_neg, sin_neg.
  pose proof (cos2_sin2 delta) as Hd. pose proof (cos2_sin2 nu) as Hn.
  unfold c in H2.
  set (cd := cos delta) in *. set (sd := sin delta) in *.
  set (cn := cos nu) in *. set (sn := sin nu) in *. set (st := sin theta) in *.
  replace (2 * k * st * (2 * k * st)) with (2 * k * k * (2 * st * st)) by ring.
  replace (2 * st * st) with (1 - cd * cn) by lra.
  ring_simplify.
  replace (sd ^ 2) with (1 - cd * cd) by lra.
  replace (sn ^ 2) with (1 - cn * cn) by lra.
  ring.
Qed.

(** The scattering vector UB (h, k, l) of the indices of a position
    has the length of Bragg's law. *)
Lemma anglesToHkl_norm (self : YouHklCalculator.t) (pos : YouPosition.t)
      (wavelength h k l : R) :
  0 < wavelength ->
  _anglesToHkl self pos wavelength = Return (h, k, l) ->
  norm (mvec (YouHklCalculator._getUBMatrix self) (Vector h k l))
  = 2 * (2 * PI / wavelength)
    * sin (acos (bound (cos (YouPosition.delta pos) * cos (YouPosition.nu pos))) / 2).
Proof.
  intros Hw Hret. pose proof PI_gt_3 as HPI. unfold _anglesToHkl in Hret.
  apply youAnglesToHkl_Return_inv in Hret; [| lra]. destruct Hret as [Hd ->].
  rewrite mvec_mmul, (mvec_inverse_cancel _ _ Hd).
  unfold sample_rotation_inverse, calcPHI, calcCHI, calcETA, calcMU.
  rewrite !mvec_mmul.
  rewrite <- !z_rotation_neg, <- y_rotation_neg, <- x_rotation_neg.
  rewrite norm_z_rotation, norm_y_rotation, norm_z_rotation, norm_x_rotation.
  apply norm_q_lab. apply Rlt_le, Rdiv_lt_0_compat; lra.
Qed.

(** X5: Bragg's law connects the forward kinematics with the first
    step of the solver.  For a positive wavelength, when
    [_anglesToHkl] returns h, k, l at a position, the scattering
    vector UB (h, k, l) has the length 2 (2 pi / wavelength) sin theta,
    theta being the Bragg angle of the detector angles; so
    [_calc_theta] finds that same theta again, unless the detector is
    in the direct beam (cos delta cos nu = 1), where it reports that
    |Q| is 0. *)
Theorem anglesToHkl_then_calc_theta
        (self : YouHklCalculator.t) (pos : YouPosition.t) (wavelength h k l : R) :
  0 < wavelength ->
  _anglesToHkl self pos wavelength = Return (h, k, l) ->
  let h_phi := mvec (YouHklCalculator._getUBMatrix self) (Vector h k l) in
  exists theta qaz,
    _theta_and_qaz_from_detector_angles (YouPosition.delta pos) (YouPosition.nu pos)
    = Return (theta, qaz)
    /\ norm h_phi = 2 * (2 * PI / wavelength) * sin theta
    /\ (cos (YouPosition.delta pos) * cos (YouPosition.nu pos) <> 1 ->
        _calc_theta self h_phi wavelength = Return theta)
    /\ (cos (YouPosition.delta pos) * cos (YouPosition.nu pos) = 1 ->
        _calc_theta self h_phi wavelength
        = Raise (DiffcalcException "Reflection is unreachable as |Q| is 0")).
Proof.
  intros Hw Hret h_phi. pose proof PI_gt_3 as HPI.
  set (UB := YouHklCalculator._getUBMatrix self) in *.
  set (delta := YouPosition.delta pos). set (nu := YouPosition.nu pos).
  assert (Hc : -1 <= cos delta * cos nu <= 1).
  { pose proof (COS_bound delta) as [? ?]. pose proof (COS_bound nu) as [? ?]. nra. }
  set (theta := acos (bound (cos delta * cos nu)) / 2).
  exists theta, (atan2 (tan delta) (sin nu)).
  assert (Hth : 0 <= theta <= PI / 2).
  { unfold theta. pose proof (acos_bound (bound (cos delta * cos nu))). lra. }
  assert (Hk : 0 < 2 * PI / wavelength).
  { apply Rdiv_lt_0_compat; lra. }
  assert (Hnorm : norm h_phi = 2 * (2 * PI / wavelength) * sin theta)
    by (apply anglesToHkl_norm; assumption).
  split; [| split; [exact Hnorm | split]].
  - unfold _theta_and_qaz_from_detector_angles. cbn zeta.
    rewrite py_acos_bound. reflexivity.
  - intros Hne.
    assert (Hs : 0 < sin theta).
    { destruct (Req_dec theta 0) as [E0 | E0].
      - exfalso. apply Hne. unfold theta in E0.
        assert (Ea : acos (bound (cos delta * cos nu)) = 0) by lra.
        rewrite (bound_id _ Hc) in Ea.
        rewrite <- (cos_acos (cos delta * cos nu) Hc), Ea. exact cos_0.
      - apply sin_gt_0; lra. }
    rewrite calc_theta_nonzero by (rewrite ?Hnorm; nra).
    rewrite Hnorm.
    replace (2 * (2 * PI / wavelength) * sin theta * wavelength)
      with (4 * PI * sin theta) by (field; lra).
    pose proof (SIN_bound theta) as [? ?].
    rewrite Rleb_true by (rewrite Rabs_pos_eq by nra; nra).
    f_equal.
    replace (4 * PI * sin theta / (4 * PI)) with (sin theta) by (field; lra).
    apply asin_sin. lra.
  - intros Heq.
    apply calc_theta_zero. rewrite Hnorm.
    assert (E0 : theta = 0).
    { unfold theta. rewrite (bound_id _ Hc), Heq, acos_1. lra. }
    rewrite E0, sin_0. ring.
Qed.

Lemma anglesToHkl_then_calc_theta_witness :
  exists theta qaz,
    _theta_and_qaz_from_detector_angles (YouPosition.delta pos_100) (YouPosition.nu pos_100)
    = Return (theta, qaz)
    /\ norm (mvec UB_cubic (Vector 1 0 0)) = 2 * (2 * PI / 1) * sin theta
    /\ (cos (YouPosition.delta pos_100) * cos (YouPosition.nu pos_100) <> 1 ->
        _calc_theta self_100 (mvec UB_cubic (Vector 1 0 0)) 1 = Return theta)
    /\ (cos (YouPosition.delta pos_100) * cos (YouPosition.nu pos_100) = 1 ->
        _calc_theta self_100 (mvec UB_cubic (Vector 1 0 0)) 1
        = Raise (DiffcalcException "Reflection is unreachable as |Q| is 0")).
Proof.
  apply (anglesToHkl_then_calc_theta self_100 pos_100 1 1 0 0); [lra |].
  exact anglesToHkl_100.
Defined.

(** ** The degenerate-position cleanup and the forward kinematics *)

Lemma transpose_calcPHI (phi : R) : transpose (calcPHI phi) = z_rotation phi.
Proof. unfold calcPHI. rewrite z_rotation_neg. apply transpose_involutive. Qed.

Lemma transpose_calcETA (eta : R) : transpose (calcETA eta) = z_rotation eta.
Proof. unfold calcETA. rewrite z_rotation_neg. apply transpose_involutive. Qed.

(** With chi = 0 the sample rotation depends on eta and phi through
    their sum only. *)
Lemma sample_rotation_inverse_chi_0 (mu eta phi : R) :
  sample_rotation_inverse mu eta 0 phi
  = mmul (z_rotation (phi + eta)) (transpose (calcMU mu)).
Proof.
  unfold sample_rotation_inverse.
  rewrite transpose_calcPHI, transpose_calcETA.
  unfold calcCHI. rewrite y_rotation_0, transpose_I, mmul_I_r, z_rotation_plus.
  reflexivity.
Qed.

(** With eta = 0 and chi = 90 degrees it depends on mu and phi through
    their difference only. *)
Lemma sample_rotation_inverse_chi_90 (mu phi : R) :
  sample_rotation_inverse mu 0 (PI / 2) phi
  = mmul (z_rotation (phi + - mu)) (transpose (y_rotation (PI / 2))).
Proof.
  unfold sample_rotation_inverse.
  rewrite transpose_calcPHI, transpose_calcETA, z_rotation_0, mmul_I_r.
  unfold calcCHI, calcMU.
  rewrite mmul_assoc, y_quarter_turn_x_rotation, <- mmul_assoc, z_rotation_plus.
  reflexivity.
Qed.

(** The three results [_tidy_degenerate_solutions] can give. *)
Lemma tidy_degenerate_solutions_results (pos : YouPosition.t)
      (constraints : YouConstraintManager.t) :
  _tidy_degenerate_solutions pos constraints = pos
  \/ (is_small (YouPosition.chi pos) = true
      /\ _tidy_degenerate_solutions pos constraints
         = YouPosition.make (YouPosition.mu pos) (YouPosition.delta pos) (YouPosition.nu pos)
             (YouPosition.eta pos + (YouPosition.delta pos / 2 - YouPosition.eta pos))
             (YouPosition.chi pos)
             (YouPosition.phi pos - (YouPosition.delta pos / 2 - YouPosition.eta pos)))
  \/ (is_small (YouPosition.chi pos - PI / 2) = true
      /\ _tidy_degenerate_solutions pos constraints
         = YouPosition.make (YouPosition.mu pos + (YouPosition.nu pos / 2 - YouPosition.mu pos))
             (YouPosition.delta pos) (YouPosition.nu pos) (YouPosition.eta pos)
             (YouPosition.chi pos)
             (YouPosition.phi pos + (YouPosition.nu pos / 2 - YouPosition.mu pos))).
Proof.
  unfold _tidy_degenerate_solutions. cbn zeta.
  destruct (_ && _ && _).
  - destruct (is_small (YouPosition.chi pos)); [right; left; split; reflexivity | left; reflexivity].
  - destruct (_ && _ && _); [| left; reflexivity].
    destruct (is_small (YouPosition.chi pos - PI / 2));
      [right; right; split; reflexivity | left; reflexivity].
Qed.

Lemma PI2_not_small : is_small (PI / 2) = false.
Proof.
  apply is_small_false. pose proof PI_gt_3. unfold SMALL.
  rewrite Rabs_pos_eq by lra. lra.
Qed.

(** X6: the cleanup of a degenerate position does not change the
    Miller indices when the degenerate angle is exactly at its nominal
    value: with chi = 0 (phi and eta are collinear, and the cleanup
    keeps eta + phi), and with eta = 0 and chi = 90 degrees (phi and mu
    are collinear, and the cleanup keeps phi - mu), [youAnglesToHkl]
    gives the same result before and after, whatever the
    constraints. *)
Theorem tidy_degenerate_solutions_keeps_hkl
        (pos : YouPosition.t) (constraints : YouConstraintManager.t)
        (wavelength : R) (UBmatrix : matrix) :
  YouPosition.chi pos = 0 \/ (YouPosition.eta pos = 0 /\ YouPosition.chi pos = PI / 2) ->
  youAnglesToHkl (_tidy_degenerate_solutions pos constraints) wavelength UBmatrix
  = youAnglesToHkl pos wavelength UBmatrix.
Proof.
  intros Hdeg.
  destruct (tidy_degenerate_solutions_results pos constraints)
    as [-> | [[Hsmall ->] | [Hsmall ->]]]; [reflexivity | |].
  - (* eta + phi is kept *)
    destruct Hdeg as [Hchi | [_ Hchi]].
    + rewrite !youAnglesToHkl_unfold.
      cbn [YouPosition.mu YouPosition.delta YouPosition.nu YouPosition.eta YouPosition.chi
           YouPosition.phi].
      rewrite Hchi, !sample_rotation_inverse_chi_0.
      replace (YouPosition.phi pos - (YouPosition.delta pos / 2 - YouPosition.eta pos)
               + (YouPosition.eta pos + (YouPosition.delta pos / 2 - YouPosition.eta pos)))
        with (YouPosition.phi pos + YouPosition.eta pos) by ring.
      reflexivity.
    + rewrite Hchi, PI2_not_small in Hsmall. discriminate Hsmall.
  - (* phi - mu is kept *)
    destruct Hdeg as [Hchi | [Heta Hchi]].
    + rewrite Hchi in Hsmall.
      replace (0 - PI / 2) with (- (PI / 2)) in Hsmall by ring.
      unfold is_small in Hsmall. rewrite Rabs_Ropp in Hsmall.
      fold (is_small (PI / 2)) in Hsmall. rewrite PI2_not_small in Hsmall.
      discriminate Hsmall.
    + rewrite !youAnglesToHkl_unfold.
      cbn [YouPosition.mu YouPosition.delta YouPosition.nu YouPosition.eta YouPosition.chi
           YouPosition.phi].
      rewrite Heta, Hchi, !sample_rotation_inverse_chi_90.
      replace (YouPosition.phi pos + (YouPosition.nu pos / 2 - YouPosition.mu pos)
               + - (YouPosition.mu pos + (YouPosition.nu pos / 2 - YouPosition.mu pos)))
        with (YouPosition.phi pos + - YouPosition.mu pos) by ring.
      reflexivity.
Qed.

Lemma tidy_degenerate_solutions_keeps_hkl_witness :
  youAnglesToHkl (_tidy_degenerate_solutions phi_30_pos vertical_constraints) 1 UB_cubic
  = youAnglesToHkl phi_30_pos 1 UB_cubic.
Proof.
  apply (tidy_degenerate_solutions_keeps_hkl phi_30_pos vertical_constraints 1 UB_cubic).
  left. reflexivity.
Defined.

(** X7: the horizontal degenerate case.  With delta within tolerance
    of 0 under a detector or naz constraint, eta within tolerance of 0
    with 'eta' among the sample constraints, and chi within tolerance
    of 90 degrees, the cleanup sets mu to nu/2 and adds the same
    difference to phi, so phi - mu is preserved and delta, nu, eta and
    chi are unchanged; but only when the vertical test (nu and mu
    constrained to 0) has not been met first: where it has, the
    position is returned unchanged. *)
Theorem tidy_degenerate_solutions_horizontal
        (pos : YouPosition.t) (constraints : YouConstraintManager.t) :
  horizontal_degenerate pos constraints ->
  let vertical_test :=
    approx0 (YouPosition.nu pos) /\ approx0 (YouPosition.mu pos)
    /\ dict_in "mu" (YouConstraintManager.sample constraints) = true in
  let pos' := _tidy_degenerate_solutions pos constraints in
  (~ vertical_test ->
   YouPosition.mu pos' = YouPosition.nu pos / 2
   /\ YouPosition.phi pos'
      = YouPosition.phi pos + (YouPosition.nu pos / 2 - YouPosition.mu pos)
   /\ YouPosition.phi pos' - YouPosition.mu pos'
      = YouPosition.phi pos - YouPosition.mu pos
   /\ YouPosition.delta pos' = YouPosition.delta pos
   /\ YouPosition.nu pos' = YouPosition.nu pos
   /\ YouPosition.eta pos' = YouPosition.eta pos
   /\ YouPosition.chi pos' = YouPosition.chi pos)
  /\ (vertical_test -> pos' = pos).
Proof.
  intros (Hdelta & Hdl & Heta & Hde & Hchi) vertical_test pos'.
  assert (Edl : dict_truth (YouConstraintManager.detector constraints)
                || dict_truth (YouConstraintManager.naz constraints) = true).
  { destruct Hdl as [H | H]; apply dict_truth_true in H; rewrite H;
      [reflexivity | apply orb_true_r]. }
  assert (Echi : is_small (YouPosition.chi pos) = false).
  { apply is_small_false. unfold approx0, SMALL in *. pose proof PI_gt_3.
    intros Hs. apply Rabs_def2 in Hs. apply Rabs_def2 in Hchi. lra. }
  apply is_small_lt in Hdelta. apply is_small_lt in Heta. apply is_small_lt in Hchi.
  unfold pos', _tidy_degenerate_solutions. cbn zeta.
  rewrite Edl, Hdelta, Heta, Hde, Hchi, Echi. cbn [andb].
  rewrite !andb_true_r.
  split.
  - intros Hnv.
    assert (E : is_small (YouPosition.nu pos)
                && (is_small (YouPosition.mu pos)
                    && dict_in "mu" (YouConstraintManager.sample constraints)) = false).
    { destruct (is_small (YouPosition.nu pos)) eqn:E1; [| reflexivity].
      destruct (is_small (YouPosition.mu pos)) eqn:E2; [| reflexivity].
      destruct (dict_in "mu" (YouConstraintManager.sample constraints)) eqn:E3; [| reflexivity].
      exfalso. apply Hnv. unfold vertical_test.
      apply is_small_lt in E1. apply is_small_lt in E2. auto. }
    rewrite E. cbn [YouPosition.mu YouPosition.delta YouPosition.nu YouPosition.eta
                     YouPosition.chi YouPosition.phi].
    repeat split; ring.
  - intros (Hnu & Hmu & Hdm).
    apply is_small_lt in Hnu. apply is_small_lt in Hmu.
    rewrite Hnu, Hmu, Hdm. reflexivity.
Qed.

Lemma tidy_degenerate_solutions_horizontal_witness :
  (YouPosition.mu (_tidy_degenerate_solutions horizontal_pos horizontal_constraints)
   = YouPosition.nu horizontal_pos / 2
   /\ YouPosition.phi (_tidy_degenerate_solutions horizontal_pos horizontal_constraints)
      = YouPosition.phi horizontal_pos
        + (YouPosition.nu horizontal_pos / 2 - YouPosition.mu horizontal_pos))
  /\ _tidy_degenerate_solutions upright_pos mu_eta_constraints = upright_pos.
Proof.
  pose proof PI_gt_3 as HPI.
  assert (H0 : approx0 0) by (unfold approx0; rewrite Rabs_R0; exact SMALL_pos).
  assert (H90 : approx0 (PI / 2 - PI / 2)).
  { replace (PI / 2 - PI / 2) with 0 by ring. exact H0. }
  split.
  - assert (Hh : horizontal_degenerate horizontal_pos horizontal_constraints).
    { unfold horizontal_degenerate, detector_like, horizontal_pos, horizontal_constraints. cbn.
      repeat split; try assumption. left. discriminate. }
    destruct (tidy_degenerate_solutions_horizontal horizontal_pos horizontal_constraints Hh)
      as [Hmove _].
    destruct Hmove as (Hmu & Hphi & _).
    + intros (Hnu & _). unfold approx0, SMALL, horizontal_pos in Hnu. cbn in Hnu.
      rewrite Rabs_pos_eq in Hnu; lra.
    + split; assumption.
  - assert (Hh : horizontal_degenerate upright_pos mu_eta_constraints).
    { unfold horizontal_degenerate, detector_like, upright_pos, mu_eta_constraints. cbn.
      repeat split; try assumption. left. discriminate. }
    apply (tidy_degenerate_solutions_horizontal upright_pos mu_eta_constraints Hh).
    unfold upright_pos, mu_eta_constraints. cbn. repeat split; assumption.
Defined.

(** ** Full turns *)

Lemma sin_minus_2PI (x : R) : sin (x - 2 * PI) = sin x.
Proof. rewrite <- (sin_plus_2PI (x - 2 * PI)). f_equal. ring. Qed.

Lemma cos_minus_2PI (x : R) : cos (x - 2 * PI) = cos x.
Proof. rewrite <- (cos_plus_2PI (x - 2 * PI)). f_equal. ring. Qed.

Lemma cut_at_minus_pi_turn (value : R) :
  cut_at_minus_pi value = value
  \/ cut_at_minus_pi value = value + 2 * PI
  \/ cut_at_minus_pi value = value - 2 * PI.
Proof.
  unfold cut_at_minus_pi.
  destruct (Rltb value (- PI - SMALL)); [auto |].
  destruct (Rleb (PI + SMALL) value); auto.
Qed.

Lemma sin_cut_at_minus_pi (value : R) : sin (cut_at_minus_pi value) = sin value.
Proof.
  destruct (cut_at_minus_pi_turn value) as [-> | [-> | ->]];
    [reflexivity | apply sin_plus_2PI | apply sin_minus_2PI].
Qed.

Lemma cos_cut_at_minus_pi (value : R) : cos (cut_at_minus_pi value) = cos value.
Proof.
  destruct (cut_at_minus_pi_turn value) as [-> | [-> | ->]];
    [reflexivity | apply cos_plus_2PI | apply cos_minus_2PI].
Qed.

Lemma tan_cut_at_minus_pi (value : R) : tan (cut_at_minus_pi value) = tan value.
Proof. unfold tan. rewrite sin_cut_at_minus_pi, cos_cut_at_minus_pi. reflexivity. Qed.

Lemma x_rotation_cut (value : R) : x_rotation (cut_at_minus_pi value) = x_rotation value.
Proof. unfold x_rotation. rewrite sin_cut_at_minus_pi, cos_cut_at_minus_pi. reflexivity. Qed.

Lemma y_rotation_cut (value : R) : y_rotation (cut_at_minus_pi value) = y_rotation value.
Proof. unfold y_rotation. rewrite sin_cut_at_minus_pi, cos_cut_at_minus_pi. reflexivity. Qed.

Lemma z_rotation_neg_cut (value : R) :
  z_rotation (- cut_at_minus_pi value) = z_rotation (- value).
Proof.
  unfold z_rotation.
  rewrite !sin_neg, !cos_neg, sin_cut_at_minus_pi, cos_cut_at_minus_pi. reflexivity.
Qed.

(** X8: cutting the six angles of a position at -pi, as
    [_generate_possible_solutions] does with every candidate, changes
    neither the Miller indices nor the virtual angles of the position:
    both depend on each angle through its sine, cosine and tangent
    only. *)
Theorem cut_at_minus_pi_keeps_hkl_and_virtual_angles
        (self : YouHklCalculator.t) (mu delta nu eta chi phi wavelength : R) :
  let pos := YouPosition.make mu delta nu eta chi phi in
  let cut :=
    YouPosition.make (cut_at_minus_pi mu) (cut_at_minus_pi delta) (cut_at_minus_pi nu)
      (cut_at_minus_pi eta) (cut_at_minus_pi chi) (cut_at_minus_pi phi) in
  _anglesToHkl self cut wavelength = _anglesToHkl self pos wavelength
  /\ _anglesToVirtualAngles self cut wavelength = _anglesToVirtualAngles self pos wavelength.
Proof.
  cbn zeta. split.
  - unfold _anglesToHkl, youAnglesToHkl, YouPosition.totuple, createYouMatrices,
      calcMU, calcDELTA, calcNU, calcETA, calcCHI, calcPHI.
    cbn [YouPosition.mu YouPosition.delta YouPosition.nu YouPosition.eta YouPosition.chi
         YouPosition.phi].
    rewrite !x_rotation_cut, !y_rotation_cut, !z_rotation_neg_cut. reflexivity.
  - unfold _anglesToVirtualAngles, _theta_and_qaz_from_detector_angles,
      YouPosition.totuple, createYouMatrices,
      calcMU, calcDELTA, calcNU, calcETA, calcCHI, calcPHI.
    cbn [YouPosition.mu YouPosition.delta YouPosition.nu YouPosition.eta YouPosition.chi
         YouPosition.phi].
    rewrite !x_rotation_cut, !y_rotation_cut, !z_rotation_neg_cut,
      !sin_cut_at_minus_pi, !cos_cut_at_minus_pi, !tan_cut_at_minus_pi.
    reflexivity.
Qed.

(** ** The solver: [_hklToAngles] *)

(** X9: Miller indices that UB maps to a scattering vector of length
    zero, h = k = l = 0 among them, are refused by [_hklToAngles] with
    the DiffcalcException 'Reflection is unreachable as |Q| is 0',
    before any constraint or the wavelength is looked at. *)
Theorem hklToAngles_zero_scattering_vector
        (self : YouHklCalculator.t) (h k l wavelength : R) :
  norm (mvec (YouHklCalculator._getUBMatrix self) (Vector h k l)) = 0 ->
  _hklToAngles self h k l wavelength
  = Raise (DiffcalcException "Reflection is unreachable as |Q| is 0").
Proof.
  intros H0. unfold _hklToAngles. cbn zeta.
  rewrite (calc_theta_zero _ _ _ H0). reflexivity.
Qed.

Lemma norm_origin : norm (Vector 0 0 0) = 0.
Proof.
  unfold norm. cbn. replace (0 * 0 + 0 * 0 + 0 * 0) with 0 by ring. exact sqrt_0.
Qed.

Lemma mvec_origin (a : matrix) : mvec a (Vector 0 0 0) = Vector 0 0 0.
Proof. unfold mvec. cbn. f_equal; ring. Qed.

Lemma hklToAngles_zero_scattering_vector_witness :
  _hklToAngles self_100 0 0 0 1
  = Raise (DiffcalcException "Reflection is unreachable as |Q| is 0").
Proof.
  apply (hklToAngles_zero_scattering_vector self_100 0 0 0 1).
  rewrite mvec_origin. exact norm_origin.
Defined.

(** X10: what a returning call of [_hklToAngles] implies.  There is a
    reference constraint; detector and naz constraints are not both
    given; there are one or two sample constraints, and with one
    sample constraint a detector or a naz constraint as well; and the
    virtual angles returned are those [_anglesToVirtualAngles] gives
    for the position returned. *)
Theorem hklToAngles_returns_only_if
        (self : YouHklCalculator.t) (h k l wavelength : R)
        (pos : YouPosition.t) (va : VirtualAngles.t) :
  _hklToAngles self h k l wavelength = Return (pos, va) ->
  let constraints := YouHklCalculator.constraints self in
  YouConstraintManager.reference constraints <> []
  /\ (YouConstraintManager.detector constraints = []
      \/ YouConstraintManager.naz constraints = [])
  /\ ((List.length (YouConstraintManager.sample constraints) = 1%nat
       /\ (YouConstraintManager.detector constraints <> []
           \/ YouConstraintManager.naz constraints <> []))
      \/ List.length (YouConstraintManager.sample constraints) = 2%nat)
  /\ _anglesToVirtualAngles self pos wavelength = Return va.
Proof.
  unfold _hklToAngles. cbn zeta. intros H.
  apply bind_Return_inv in H. destruct H as (theta & _ & H).
  apply bind_Return_inv in H. destruct H as (tau & _ & H).
  destruct (YouConstraintManager.reference (YouHklCalculator.constraints self))
    as [| [rn rv] ?]; [discriminate |].
  apply bind_Return_inv in H. destruct H as ([[psi alpha] beta] & _ & H).
  destruct (YouConstraintManager.detector (YouHklCalculator.constraints self))
    as [| [dn dv] drest] eqn:Edet;
    destruct (YouConstraintManager.naz (YouHklCalculator.constraints self))
      as [| [nn nv] nrest] eqn:Enaz;
    cbn [dict_truth andb] in H; try discriminate H.
  - (* neither a detector nor a naz constraint *)
    cbn [bind] in H.
    apply bind_Return_inv in H.
    destruct H as ([[[[[mu delta] nu] eta] chi] phi] & Hs & H).
    apply bind_Return_inv in H. destruct H as (va' & Hva & H).
    injection H as <- <-.
    split; [discriminate |]. split; [left; reflexivity |]. split; [| exact Hva].
    destruct (YouConstraintManager.sample (YouHklCalculator.constraints self))
      as [| [sn sv] [| c2 [| c3 [| c4 rest]]]]; try discriminate.
    right. reflexivity.
  - (* a naz constraint *)
    apply bind_Return_inv in H. destruct H as (stage1 & _ & H).
    apply bind_Return_inv in H. destruct H as (stage2 & _ & H).
    apply bind_Return_inv in H.
    destruct H as ([[[[[mu delta] nu] eta] chi] phi] & Hs & H).
    apply bind_Return_inv in H. destruct H as (va' & Hva & H).
    injection H as <- <-.
    split; [discriminate |]. split; [left; reflexivity |]. split; [| exact Hva].
    destruct (YouConstraintManager.sample (YouHklCalculator.constraints self))
      as [| [sn sv] [| c2 [| c3 [| c4 rest]]]]; try discriminate.
    + left. split; [reflexivity | right; discriminate].
    + right. reflexivity.
  - (* a detector constraint *)
    apply bind_Return_inv in H. destruct H as (stage1 & _ & H).
    apply bind_Return_inv in H. destruct H as (stage2 & _ & H).
    apply bind_Return_inv in H.
    destruct H as ([[[[[mu delta] nu] eta] chi] phi] & Hs & H).
    apply bind_Return_inv in H. destruct H as (va' & Hva & H).
    injection H as <- <-.
    split; [discriminate |]. split; [right; reflexivity |]. split; [| exact Hva].
    destruct (YouConstraintManager.sample (YouHklCalculator.constraints self))
      as [| [sn sv] [| c2 [| c3 [| c4 rest]]]]; try discriminate.
    + left. split; [reflexivity | left; discriminate].
    + right. reflexivity.
Qed.

Lemma hklToAngles_returns_only_if_witness :
  YouConstraintManager.reference (YouHklCalculator.constraints self_100) <> []
  /\ (YouConstraintManager.detector (YouHklCalculator.constraints self_100) = []
      \/ YouConstraintManager.naz (YouHklCalculator.constraints self_100) = [])
  /\ ((List.length (YouConstraintManager.sample (YouHklCalculator.constraints self_100))
       = 1%nat
       /\ (YouConstraintManager.detector (YouHklCalculator.constraints self_100) <> []
           \/ YouConstraintManager.naz (YouHklCalculator.constraints self_100) <> []))
      \/ List.length (YouConstraintManager.sample (YouHklCalculator.constraints self_100))
         = 2%nat)
  /\ _anglesToVirtualAngles self_100 pos_100 1 = Return va_100.
Proof.
  exact (hklToAngles_returns_only_if self_100 1 0 0 1 pos_100 va_100 hklToAngles_100).
Defined.

(** ** The orthonormal frame of equation 31: [_calc_N] *)

Lemma py_div_Return_inv (a b c : R) : py_div a b = Return c -> b <> 0 /\ c = a / b.
Proof.
  unfold py_div. destruct (Req_bool b 0) eqn:E; [discriminate |].
  intros H. injection H as <-. split; [| reflexivity].
  intros Hb. apply (Req_bool_true b 0) in Hb. congruence.
Qed.

Lemma dot3_self (v : vector) : dot3 v v = norm v * norm v.
Proof. rewrite norm_sqr. reflexivity. Qed.

Lemma dot3_vscale (u v : vector) (s t : R) :
  dot3 (vscale u s) (vscale v t) = s * t * dot3 u v.
Proof. unfold dot3, vscale. cbn. ring. Qed.

Lemma dot3_vscale_r (u v : vector) (t : R) : dot3 u (vscale v t) = t * dot3 u v.
Proof. unfold dot3, vscale. cbn. ring. Qed.

Lemma dot3_vscale_l (u v : vector) (s : R) : dot3 (vscale u s) v = s * dot3 u v.
Proof. unfold dot3, vscale. cbn. ring. Qed.

Lemma dot3_cross3_l (u v : vector) : dot3 u (cross3 u v) = 0.
Proof. unfold dot3, cross3. cbn. ring. Qed.

Lemma dot3_cross3_r (u v : vector) : dot3 v (cross3 u v) = 0.
Proof. unfold dot3, cross3. cbn. ring. Qed.

Lemma dot3_comm (u v : vector) : dot3 u v = dot3 v u.
Proof. unfold dot3. ring. Qed.

(** Lagrange's identity. *)
Lemma dot3_cross3_cross3 (u v : vector) :
  dot3 (cross3 u v) (cross3 u v) = dot3 u u * dot3 v v - dot3 u v * dot3 u v.
Proof. unfold dot3, cross3. cbn. ring. Qed.

Lemma triple_product_cross3 (a q : vector) :
  dot3 q (cross3 (cross3 a q) a) = dot3 a a * dot3 q q - dot3 a q * dot3 a q.
Proof. unfold dot3, cross3. cbn. ring. Qed.

Lemma cross3_vscale (u v : vector) (s t : R) :
  cross3 (vscale u s) (vscale v t) = vscale (cross3 u v) (s * t).
Proof. unfold cross3, vscale. cbn. f_equal; ring. Qed.

Lemma norm_vscale (v : vector) (s : R) : 0 <= s -> norm (vscale v s) = s * norm v.
Proof.
  intros Hs. unfold norm, vscale. cbn.
  replace (v0 v * s * (v0 v * s) + v1 v * s * (v1 v * s) + v2 v * s * (v2 v * s))
    with (s * s * (v0 v * v0 v + v1 v * v1 v + v2 v * v2 v)) by ring.
  rewrite sqrt_mult_alt by nra. rewrite sqrt_square by exact Hs. reflexivity.
Qed.

Lemma norm_normalised (v : vector) : norm v <> 0 -> norm (vscale v (1 / norm v)) = 1.
Proof.
  intros Hv. pose proof (norm_nonneg v).
  rewrite norm_vscale.
  - field. exact Hv.
  - apply Rlt_le, Rdiv_lt_0_compat; lra.
Qed.

Lemma vscale_1 (v : vector) : vscale v 1 = v.
Proof. destruct v. unfold vscale. cbn. f_equal; ring. Qed.

Lemma gram_of_columns (a b c : vector) :
  mmul (transpose (Matrix (v0 a) (v0 b) (v0 c) (v1 a) (v1 b) (v1 c) (v2 a) (v2 b) (v2 c)))
       (Matrix (v0 a) (v0 b) (v0 c) (v1 a) (v1 b) (v1 c) (v2 a) (v2 b) (v2 c))
  = Matrix (dot3 a a) (dot3 a b) (dot3 a c)
           (dot3 b a) (dot3 b b) (dot3 b c)
           (dot3 c a) (dot3 c b) (dot3 c c).
Proof. unfold mmul, transpose, dot3. cbn. f_equal; ring. Qed.

Lemma det_of_columns (a b c : vector) :
  det (Matrix (v0 a) (v0 b) (v0 c) (v1 a) (v1 b) (v1 c) (v2 a) (v2 b) (v2 c))
  = dot3 a (cross3 b c).
Proof. unfold det, dot3, cross3. cbn. ring. Qed.

(** X11: the matrix [_calc_N] returns for a Q other than zero and an
    n that is not along Q is a proper rotation whose first column is
    the unit vector along Q: its transpose times itself is the
    identity and its determinant is 1 (dividing n by the norm of the
    already normalised Q, as the second line does, leaves n as it
    is). *)
Theorem calc_N_orthonormal (Q n : vector) (N : matrix) :
  norm Q <> 0 -> norm (cross3 Q n) <> 0 ->
  _calc_N Q n = Return N ->
  mmul (transpose N) N = I
  /\ det N = 1
  /\ Vector (m00 N) (m10 N) (m20 N) = vscale Q (1 / norm Q).
Proof.
  intros _ _. unfold _calc_N. intros H.
  apply bind_Return_inv in H. destruct H as (iQ & HiQ & H).
  apply py_div_Return_inv in HiQ. destruct HiQ as [HQ ->].
  set (q := vscale Q (1 / norm Q)) in *.
  assert (Hq1 : norm q = 1) by (apply norm_normalised; exact HQ).
  apply bind_Return_inv in H. destruct H as (iQ' & HiQ' & H).
  apply py_div_Return_inv in HiQ'. destruct HiQ' as [_ ->].
  rewrite Hq1 in H. replace (1 / 1) with 1 in H by field. rewrite vscale_1 in H.
  apply bind_Return_inv in H. destruct H as (angle & _ & H).
  destruct (is_small angle); [discriminate |].
  set (a := cross3 q n) in *. set (b := cross3 a q) in *.
  apply bind_Return_inv in H. destruct H as (i1 & Hi1 & H).
  apply py_div_Return_inv in Hi1. destruct Hi1 as [Hb ->].
  apply bind_Return_inv in H. destruct H as (i2 & Hi2 & H).
  apply py_div_Return_inv in Hi2. destruct Hi2 as [Ha ->].
  apply Return_inj in H. rewrite <- H. clear H N.
  (* the columns and their products *)
  assert (Hqq : dot3 q q = 1) by (rewrite dot3_self, Hq1; ring).
  assert (Haq : dot3 a q = 0) by (unfold a; rewrite dot3_comm; apply dot3_cross3_l).
  assert (Hbq : dot3 b q = 0) by (unfold b; rewrite dot3_comm; apply dot3_cross3_r).
  assert (Hba : dot3 b a = 0) by (unfold b; rewrite dot3_comm; apply dot3_cross3_l).
  assert (Hbb : dot3 b b = dot3 a a).
  { unfold b. rewrite dot3_cross3_cross3, Hqq, Haq. ring. }
  assert (Hnb : norm b = norm a).
  { unfold norm. f_equal. fold (dot3 b b). fold (dot3 a a). exact Hbb. }
  rewrite Hnb in *.
  set (bh := vscale b (1 / norm a)). set (ah := vscale a (1 / norm a)).
  split; [| split].
  - rewrite (gram_of_columns q bh ah). unfold bh, ah.
    rewrite !dot3_vscale, !dot3_vscale_r, !dot3_vscale_l,
      (dot3_comm q b), (dot3_comm q a), (dot3_comm a b).
    rewrite Hqq, Hbq, Haq, Hba, Hbb, (dot3_self a).
    unfold I. f_equal; field; exact Ha.
  - rewrite (det_of_columns q bh ah). unfold bh, ah.
    rewrite cross3_vscale, dot3_vscale_r. unfold b.
    rewrite triple_product_cross3, Hqq, Haq, (dot3_self a).
    field. exact Ha.
  - destruct q; reflexivity.
Qed.

Lemma calc_N_orthonormal_witness :
  mmul (transpose (Matrix 1 0 0 0 0 (- (1)) 0 1 0)) (Matrix 1 0 0 0 0 (- (1)) 0 1 0) = I
  /\ det (Matrix 1 0 0 0 0 (- (1)) 0 1 0) = 1
  /\ Vector 1 0 0 = vscale (Vector (2 * 1) (2 * 0) 0) (1 / norm (Vector (2 * 1) (2 * 0) 0)).
Proof.
  apply (calc_N_orthonormal (Vector (2 * 1) (2 * 0) 0) (Vector 0 0 1)).
  - intros E. pose proof (norm_sqr (Vector (2 * 1) (2 * 0) 0)) as H.
    rewrite E in H. cbn in H. lra.
  - intros E. pose proof (norm_sqr (cross3 (Vector (2 * 1) (2 * 0) 0) (Vector 0 0 1))) as H.
    rewrite E in H. cbn in H. lra.
  - apply (calc_N_equatorial 2 1 0); lra.
Defined.

(** X12: the parallel check of [_calc_N] catches a reference vector
    along Q (a positive multiple: [ValueError]), but not one opposite
    to it: for a negative multiple the angle between the two is pi,
    which is not small, and the [ValueError] of the check is not
    raised, although the cross product of the two is the zero
    vector. *)
Theorem calc_N_collinear (Q : vector) (c : R) :
  norm Q <> 0 ->
  (0 < c ->
   _calc_N Q (vscale Q c)
   = Raise (ValueError
              "Q and n are parallel and cannot be used to create an orthonormal matrix"))
  /\ (c < 0 ->
      cross3 Q (vscale Q c) = Vector 0 0 0
      /\ forall msg, _calc_N Q (vscale Q c) <> Raise (ValueError msg)).
Proof.
  intros HQ.
  assert (Hzero : cross3 Q (vscale Q c) = Vector 0 0 0)
    by (unfold cross3, vscale; cbn; f_equal; ring).
  cut ((0 < c ->
        _calc_N Q (vscale Q c)
        = Raise (ValueError
                   "Q and n are parallel and cannot be used to create an orthonormal matrix"))
       /\ (c < 0 -> _calc_N Q (vscale Q c) = Raise ZeroDivisionError)).
  { intros [H1 H2]. split; [exact H1 |]. intros Hc. split; [exact Hzero |].
    intros msg E. rewrite (H2 Hc) in E. discriminate E. }
  clear Hzero. pose proof (norm_nonneg Q) as HQ0. pose proof PI_gt_3 as HPI.
  unfold _calc_N.
  rewrite (py_div_nonzero _ _ HQ). cbn [bind].
  set (q := vscale Q (1 / norm Q)).
  assert (Hq1 : norm q = 1) by (apply norm_normalised; exact HQ).
  rewrite Hq1. rewrite py_div_nonzero by lra. cbn [bind].
  replace (1 / 1) with 1 by field. rewrite vscale_1.
  assert (Hn : vscale Q c = vscale q (c * norm Q)).
  { unfold q, vscale. cbn. f_equal; field; exact HQ. }
  rewrite Hn. set (s := c * norm Q).
  assert (Hqq : dot3 q q = 1) by (rewrite dot3_self, Hq1; ring).
  assert (Hcross : cross3 q (vscale q s) = Vector 0 0 0).
  { unfold cross3, vscale. cbn. f_equal; ring. }
  clearbody q.
  unfold angle_between_vectors. rewrite Hq1.
  rewrite (py_div_nonzero 1 1) by lra. cbn [bind].
  split.
  - intros Hc.
    assert (Hs : 0 < s) by (unfold s; apply Rmult_lt_0_compat; lra).
    rewrite norm_vscale, Hq1 by lra.
    rewrite py_div_nonzero by lra. cbn [bind].
    rewrite dot3_vscale, dot3_vscale_r, Hqq.
    replace (1 / 1 * (1 / (s * 1)) * (s * 1)) with 1 by (field; lra).
    rewrite bound_id by lra. rewrite py_acos_in by lra. cbn [bind].
    rewrite acos_1, is_small_0. reflexivity.
  - intros Hc.
    assert (Hs : s < 0) by (unfold s; nra).
    replace (vscale q s) with (vscale (vscale q (- (1))) (- s))
      by (unfold vscale; cbn; f_equal; ring).
    rewrite (norm_vscale _ (- s)) by lra.
    rewrite (norm_eq (vscale q (- (1))) 1).
    2: lra.
    2: { pose proof (norm_sqr q) as Hsq. rewrite Hq1 in Hsq.
         unfold vscale. cbn. nra. }
    rewrite py_div_nonzero by lra. cbn [bind].
    rewrite dot3_vscale, !dot3_vscale_r, Hqq.
    replace (1 / 1 * (1 / (- s * 1)) * (- s * (- (1) * 1))) with (- (1)) by (field; lra).
    rewrite bound_id by lra. rewrite py_acos_in by lra. cbn [bind].
    replace (acos (- (1))) with PI
      by (rewrite acos_opp, acos_1; ring).
    rewrite is_small_false by (unfold SMALL; rewrite Rabs_pos_eq; lra).
    replace (cross3 q (vscale (vscale q (- (1))) (- s))) with (Vector 0 0 0)
      by (unfold cross3, vscale; cbn; f_equal; ring).
    replace (cross3 (Vector 0 0 0) q) with (Vector 0 0 0)
      by (unfold cross3; cbn; f_equal; ring).
    rewrite norm_origin, py_div_zero. reflexivity.
Qed.

Lemma calc_N_collinear_witness :
  _calc_N (Vector 0 0 1) (vscale (Vector 0 0 1) 2)
  = Raise (ValueError
             "Q and n are parallel and cannot be used to create an orthonormal matrix")
  /\ cross3 (Vector 0 0 1) (vscale (Vector 0 0 1) (- (1))) = Vector 0 0 0
  /\ forall msg, _calc_N (Vector 0 0 1) (vscale (Vector 0 0 1) (- (1)))
                 <> Raise (ValueError msg).
Proof.
  assert (H1 : norm (Vector 0 0 1) <> 0) by (rewrite norm_z_axis; lra).
  split.
  - apply (calc_N_collinear (Vector 0 0 1) 2 H1). lra.
  - apply (calc_N_collinear (Vector 0 0 1) (- (1)) H1). lra.
Defined.

(** ** [atan2] and the detector angles *)

Lemma Rltb_false_inv (x y : R) : Rltb x y = false -> ~ x < y.
Proof. intros E H. apply Rltb_lt in H. congruence. Qed.

Lemma Rleb_false_inv (x y : R) : Rleb x y = false -> ~ x <= y.
Proof. intros E H. apply Rleb_le in H. congruence. Qed.

(** The six cases of [atan2]. *)
Lemma atan2_cases (y x : R) :
  (0 < x /\ atan2 y x = atan (y / x))
  \/ (x < 0 /\ 0 <= y /\ atan2 y x = atan (y / x) + PI)
  \/ (x < 0 /\ y < 0 /\ atan2 y x = atan (y / x) - PI)
  \/ (x = 0 /\ 0 < y /\ atan2 y x = PI / 2)
  \/ (x = 0 /\ y < 0 /\ atan2 y x = - (PI / 2))
  \/ (x = 0 /\ y = 0 /\ atan2 y x = 0).
Proof.
  unfold atan2.
  destruct (Rltb 0 x) eqn:E1; [apply Rltb_lt in E1; left; split; [exact E1 | reflexivity] |].
  apply Rltb_false_inv in E1. right.
  destruct (Rltb x 0) eqn:E2.
  - apply Rltb_lt in E2. destruct (Rleb 0 y) eqn:E3.
    + apply Rleb_le in E3. left. repeat split; assumption.
    + apply Rleb_false_inv in E3. right. left. repeat split; lra.
  - apply Rltb_false_inv in E2. assert (Hx : x = 0) by lra. right. right.
    destruct (Rltb 0 y) eqn:E3; [apply Rltb_lt in E3; left; repeat split; assumption |].
    apply Rltb_false_inv in E3. right.
    destruct (Rltb y 0) eqn:E4; [apply Rltb_lt in E4; left; repeat split; assumption |].
    apply Rltb_false_inv in E4. right. repeat split; lra.
Qed.

Lemma hypot_factor (y x : R) :
  x <> 0 -> sqrt (x * x + y * y) = Rabs x * sqrt (1 + (y / x)²).
Proof.
  intros Hx.
  replace (x * x + y * y) with (x² * (1 + (y / x)²)) by (unfold Rsqr; field; exact Hx).
  rewrite sqrt_mult_alt by apply Rle_0_sqr.
  rewrite sqrt_Rsqr_abs. reflexivity.
Qed.

Lemma sqrt_1_plus_sqr_pos (t : R) : 0 < sqrt (1 + t²).
Proof. apply sqrt_lt_R0. pose proof (Rle_0_sqr t). lra. Qed.

Lemma hypot_axis (y : R) : sqrt (0 * 0 + y * y) = Rabs y.
Proof.
  replace (0 * 0 + y * y) with (y²) by (unfold Rsqr; ring). apply sqrt_Rsqr_abs.
Qed.

(** The cosine and the sine of the angle of a point other than the
    origin. *)
Lemma cos_atan2 (y x : R) :
  x <> 0 \/ y <> 0 -> cos (atan2 y x) = x / sqrt (x * x + y * y).
Proof.
  intros Hxy. pose proof (sqrt_1_plus_sqr_pos (y / x)) as Hs.
  destruct (atan2_cases y x)
    as [[Hx ->] | [(Hx & Hy & ->) | [(Hx & Hy & ->) | [(-> & Hy & ->) | [(-> & Hy & ->)
       | (-> & -> & _)]]]]].
  - rewrite cos_atan, hypot_factor by lra. rewrite Rabs_pos_eq by lra. field. lra.
  - rewrite neg_cos, cos_atan, hypot_factor by lra. rewrite Rabs_left by lra. field. lra.
  - unfold Rminus. rewrite cos_plus, cos_neg, sin_neg, cos_PI, sin_PI.
    rewrite cos_atan, hypot_factor by lra. rewrite Rabs_left by lra. field. lra.
  - rewrite cos_PI2. unfold Rdiv. ring.
  - rewrite cos_neg, cos_PI2. unfold Rdiv. ring.
  - destruct Hxy as [H | H]; contradiction H; reflexivity.
Qed.

Lemma sin_atan2 (y x : R) :
  x <> 0 \/ y <> 0 -> sin (atan2 y x) = y / sqrt (x * x + y * y).
Proof.
  intros Hxy. pose proof (sqrt_1_plus_sqr_pos (y / x)) as Hs.
  destruct (atan2_cases y x)
    as [[Hx ->] | [(Hx & Hy & ->) | [(Hx & Hy & ->) | [(-> & Hy & ->) | [(-> & Hy & ->)
       | (-> & -> & _)]]]]].
  - rewrite sin_atan, hypot_factor by lra. rewrite Rabs_pos_eq by lra. field. lra.
  - rewrite neg_sin, sin_atan, hypot_factor by lra. rewrite Rabs_left by lra. field. lra.
  - unfold Rminus. rewrite sin_plus, cos_neg, sin_neg, cos_PI, sin_PI.
    rewrite sin_atan, hypot_factor by lra. rewrite Rabs_left by lra. field. lra.
  - rewrite sin_PI2, hypot_axis, Rabs_pos_eq by lra. field. lra.
  - rewrite sin_neg, sin_PI2, hypot_axis, Rabs_left by lra. field. lra.
  - destruct Hxy as [H | H]; contradiction H; reflexivity.
Qed.

(** [atan2] answers in (-pi, pi]. *)
Lemma atan2_range (y x : R) : - PI < atan2 y x <= PI.
Proof.
  pose proof PI_gt_3 as HPI. pose proof (atan_bound (y / x)) as [Hlo Hhi].
  destruct (atan2_cases y x)
    as [[Hx ->] | [(Hx & Hy & ->) | [(Hx & Hy & ->) | [(-> & Hy & ->) | [(-> & Hy & ->)
       | (-> & -> & ->)]]]]]; try lra.
  - (* x < 0 <= y: the quotient is not positive *)
    assert (Hq : y / x <= 0).
    { unfold Rdiv. assert (/ x < 0) by (apply Rinv_lt_0_compat; exact Hx). nra. }
    assert (Ha : atan (y / x) <= 0).
    { destruct Hq as [Hq | Hq].
      - rewrite <- atan_0. apply Rlt_le, atan_increasing. exact Hq.
      - rewrite Hq, atan_0. lra. }
    lra.
  - (* x < 0, y < 0: the quotient is positive *)
    assert (Hq : 0 < y / x).
    { unfold Rdiv. assert (/ x < 0) by (apply Rinv_lt_0_compat; exact Hx). nra. }
    assert (Ha : 0 < atan (y / x)) by (rewrite <- atan_0; apply atan_increasing; exact Hq).
    lra.
Qed.

(** X13: the detector angles found for a qaz constraint reproduce
    theta and qaz.  For 0 < theta < 90 degrees and a qaz between -90
    and 90 degrees whose cosine is not within the tolerance of zero,
    [_calc_remaining_detector_angles] returns delta and nu from which
    [_theta_and_qaz_from_detector_angles] computes that theta and that
    qaz again. *)
Theorem detector_angles_for_qaz_round_trip
        (self : YouHklCalculator.t) (qaz theta : R) :
  0 < theta < PI / 2 -> - (PI / 2) < qaz < PI / 2 -> SMALL <= cos qaz ->
  exists delta nu,
    _calc_remaining_detector_angles self "qaz" qaz theta = Return (delta, nu, qaz)
    /\ _theta_and_qaz_from_detector_angles delta nu = Return (theta, qaz).
Proof.
  intros Hth Hqaz Hcq. pose proof SMALL_pos as HS. pose proof PI_gt_3 as HPI.
  set (nu := atan2 (sin (2 * theta) * cos qaz) (cos (2 * theta))).
  set (delta := atan2 (sin qaz * sin nu) (cos qaz)).
  exists delta, nu. split.
  - unfold _calc_remaining_detector_angles.
    cbn [String.eqb Ascii.eqb Bool.eqb bind]. cbn zeta.
    rewrite is_small_false by (rewrite Rabs_pos_eq; lra).
    reflexivity.
  - (* nu *)
    assert (Hs2 : 0 < sin (2 * theta)) by (apply sin_gt_0; lra).
    set (a := sin (2 * theta) * cos qaz) in *.
    set (b := cos (2 * theta)) in *.
    assert (Ha : 0 < a) by (unfold a; apply Rmult_lt_0_compat; lra).
    set (r := sqrt (b * b + a * a)).
    assert (Hr : 0 < r) by (apply sqrt_lt_R0; nra).
    assert (Hrr : r * r = b * b + a * a) by (apply sqrt_sqrt; nra).
    assert (Hcn : cos nu = b / r) by (apply cos_atan2; right; lra).
    assert (Hsn : sin nu = a / r) by (apply sin_atan2; right; lra).
    assert (Hsn0 : 0 < sin nu) by (rewrite Hsn; apply Rdiv_lt_0_compat; assumption).
    (* delta *)
    set (x := cos qaz) in *. set (y := sin qaz * sin nu) in *.
    set (rho := sqrt (x * x + y * y)).
    assert (Hrho : 0 < rho) by (apply sqrt_lt_R0; nra).
    assert (Hrhorho : rho * rho = x * x + y * y) by (apply sqrt_sqrt; nra).
    assert (Hcd : cos delta = x / rho) by (apply cos_atan2; left; lra).
    assert (Hdelta : delta = atan (y / x)) by (apply atan2_x_pos; lra).
    (* rho r = cos qaz *)
    assert (Hprod : rho * r = x).
    { assert (Hsq : (rho * r) * (rho * r) = x * x).
      { replace (rho * r * (rho * r)) with ((rho * rho) * (r * r)) by ring.
        rewrite Hrhorho. unfold y. rewrite Hsn.
        replace ((x * x + sin qaz * (a / r) * (sin qaz * (a / r))) * (r * r))
          with (x * x * (r * r) + sin qaz * sin qaz * (a * a)) by (field; lra).
        rewrite Hrr. unfold a, b, x.
        pose proof (cos2_sin2 qaz) as Hq. pose proof (cos2_sin2 (2 * theta)) as Ht.
        set (cq := cos qaz) in *. set (sq := sin qaz) in *.
        set (c2 := cos (2 * theta)) in *. set (s2 := sin (2 * theta)) in *.
        replace (sq * sq) with (1 - cq * cq) by lra.
        replace (c2 * c2) with (1 - s2 * s2) by lra. ring. }
      assert (Hpos : 0 < rho * r) by (apply Rmult_lt_0_compat; assumption).
      nra. }
    assert (Hcc : cos delta * cos nu = cos (2 * theta)).
    { rewrite Hcd, Hcn. fold b.
      replace (x / rho * (b / r)) with (x * b / (rho * r)) by (field; lra).
      rewrite Hprod. field. lra. }
    unfold _theta_and_qaz_from_detector_angles. cbn zeta.
    rewrite Hcc, py_acos_bound. cbn [bind].
    rewrite bound_id by (pose proof (COS_bound (2 * theta)); lra).
    rewrite acos_cos by lra.
    replace (2 * theta / 2) with theta by field.
    do 2 f_equal.
    (* qaz *)
    rewrite (atan2_x_pos _ _ Hsn0).
    rewrite Hdelta, tan_atan. unfold y.
    replace (sin qaz * sin nu / x / sin nu) with (tan qaz)
      by (unfold tan; fold x; field; split; lra).
    apply atan_tan. exact Hqaz.
Qed.

Lemma detector_angles_for_qaz_round_trip_witness :
  exists delta nu,
    _calc_remaining_detector_angles self_100 "qaz" 0 (PI / 6) = Return (delta, nu, 0)
    /\ _theta_and_qaz_from_detector_angles delta nu = Return (PI / 6, 0).
Proof.
  pose proof PI_gt_3 as HPI.
  apply (detector_angles_for_qaz_round_trip self_100 0 (PI / 6)).
  - lra.
  - lra.
  - rewrite cos_0. unfold SMALL. lra.
Defined.

(** X14: the same round trip in the vertical scattering plane, qaz =
    90 degrees, where the cosine of qaz is zero and delta comes from
    the arc cosine instead: for 0 < theta < 90 degrees other than 45
    degrees, delta is 2 theta with nu = 0 below 45 degrees and
    180 degrees - 2 theta with nu = 180 degrees above, and
    [_theta_and_qaz_from_detector_angles] computes theta and qaz again
    from them. *)
Theorem detector_angles_for_vertical_qaz_round_trip
        (self : YouHklCalculator.t) (theta : R) :
  0 < theta < PI / 2 -> theta <> PI / 4 ->
  exists delta nu,
    _calc_remaining_detector_angles self "qaz" (PI / 2) theta = Return (delta, nu, PI / 2)
    /\ (theta < PI / 4 -> delta = 2 * theta /\ nu = 0)
    /\ (PI / 4 < theta -> delta = PI - 2 * theta /\ nu = PI)
    /\ _theta_and_qaz_from_detector_angles delta nu = Return (theta, PI / 2).
Proof.
  intros Hth Hne. pose proof PI_gt_3 as HPI. pose proof SMALL_pos as HS.
  assert (Hsign : sign (PI / 2) = 1) by (unfold sign; rewrite Rltb_true by lra; reflexivity).
  assert (Hcalc : forall nu,
             nu = atan2 (sin (2 * theta) * cos (PI / 2)) (cos (2 * theta)) ->
             cos nu <> 0 ->
             _calc_remaining_detector_angles self "qaz" (PI / 2) theta
             = Return (acos (bound (cos (2 * theta) / cos nu)), nu, PI / 2)).
  { intros nu Hnu Hcn. unfold _calc_remaining_detector_angles.
    cbn [String.eqb Ascii.eqb Bool.eqb bind]. cbn zeta.
    rewrite <- Hnu. rewrite cos_PI2, is_small_0. cbn [negb].
    rewrite (py_div_nonzero _ _ Hcn). cbn [bind].
    rewrite py_acos_bound. cbn [bind]. rewrite Hsign, Rmult_1_l. reflexivity. }
  assert (Hnu0 : sin (2 * theta) * cos (PI / 2) = 0) by (rewrite cos_PI2; ring).
  destruct (Rlt_dec theta (PI / 4)) as [Hlt | Hge].
  - (* below 45 degrees *)
    assert (Hc2 : 0 < cos (2 * theta)) by (apply cos_gt_0; lra).
    assert (Enu : atan2 (sin (2 * theta) * cos (PI / 2)) (cos (2 * theta)) = 0).
    { rewrite Hnu0. apply atan2_0_x_pos. exact Hc2. }
    exists (2 * theta), 0. split; [| split; [| split]].
    + rewrite (Hcalc 0) by (rewrite ?Enu, ?cos_0; lra || reflexivity).
      rewrite cos_0. replace (cos (2 * theta) / 1) with (cos (2 * theta)) by field.
      rewrite bound_id by (pose proof (COS_bound (2 * theta)); lra).
      rewrite acos_cos by lra. reflexivity.
    + intros _. split; reflexivity.
    + intros H. lra.
    + unfold _theta_and_qaz_from_detector_angles. cbn zeta.
      rewrite cos_0, Rmult_1_r, py_acos_bound. cbn [bind].
      rewrite bound_id by (pose proof (COS_bound (2 * theta)); lra).
      rewrite acos_cos by lra. rewrite sin_0.
      rewrite atan2_y_pos_0 by (apply tan_gt_0; lra).
      do 2 f_equal. field.
  - (* above 45 degrees *)
    assert (Hgt : PI / 4 < theta) by lra.
    assert (Hc2 : cos (2 * theta) < 0).
    { apply cos_lt_0; lra. }
    assert (Enu : atan2 (sin (2 * theta) * cos (PI / 2)) (cos (2 * theta)) = PI).
    { rewrite Hnu0. unfold atan2.
      rewrite Rltb_false by lra. rewrite Rltb_true by lra. rewrite Rleb_true by lra.
      unfold Rdiv. rewrite Rmult_0_l, atan_0. ring. }
    assert (Ecos : - cos (2 * theta) = cos (PI - 2 * theta)).
    { unfold Rminus. rewrite cos_plus, cos_neg, sin_neg, cos_PI, sin_PI. ring. }
    exists (PI - 2 * theta), PI. split; [| split; [| split]].
    + rewrite (Hcalc PI) by (rewrite ?Enu, ?cos_PI; lra || reflexivity).
      rewrite cos_PI.
      replace (cos (2 * theta) / -1) with (- cos (2 * theta)) by field.
      rewrite Ecos.
      rewrite bound_id by (pose proof (COS_bound (PI - 2 * theta)); lra).
      rewrite acos_cos by lra. reflexivity.
    + intros H. lra.
    + intros _. split; reflexivity.
    + unfold _theta_and_qaz_from_detector_angles. cbn zeta.
      rewrite cos_PI, <- Ecos.
      replace (- cos (2 * theta) * -1) with (cos (2 * theta)) by ring.
      rewrite py_acos_bound. cbn [bind].
      rewrite bound_id by (pose proof (COS_bound (2 * theta)); lra).
      rewrite acos_cos by lra. rewrite sin_PI.
      rewrite atan2_y_pos_0 by (apply tan_gt_0; lra).
      do 2 f_equal. field.
Qed.

Lemma detector_angles_for_vertical_qaz_round_trip_witness :
  exists delta nu,
    _calc_remaining_detector_angles self_100 "qaz" (PI / 2) (PI / 6)
    = Return (delta, nu, PI / 2)
    /\ (PI / 6 < PI / 4 -> delta = 2 * (PI / 6) /\ nu = 0)
    /\ (PI / 4 < PI / 6 -> delta = PI - 2 * (PI / 6) /\ nu = PI)
    /\ _theta_and_qaz_from_detector_angles delta nu = Return (PI / 6, PI / 2).
Proof.
  pose proof PI_gt_3 as HPI.
  apply (detector_angles_for_vertical_qaz_round_trip self_100 (PI / 6)); lra.
Defined.

(** ** The candidate tuples: [_generate_possible_solutions] *)

Lemma In_expand (tuples : list (list R)) (b : list R) (t : list R) :
  In t (expand tuples b) <-> exists t0 bb, t = (t0 ++ [bb])%list /\ In t0 tuples /\ In bb b.
Proof.
  unfold expand. rewrite in_flat_map. split.
  - intros (t0 & Ht0 & Ht). apply in_map_iff in Ht. destruct Ht as (bb & <- & Hbb).
    exists t0, bb. auto.
  - intros (t0 & bb & -> & Ht0 & Hbb). exists t0. split; [exact Ht0 |].
    apply in_map_iff. exists bb. auto.
Qed.

Lemma In_fold_expand (rest : list (list R)) (init : list (list R)) (t : list R) :
  In t (fold_left expand rest init)
  <-> exists t0 t1,
      t = (t0 ++ t1)%list /\ In t0 init /\ Forall2 (fun c b => In c b) t1 rest.
Proof.
  revert init. induction rest as [| b rest IH]; intros init; cbn [fold_left].
  - split.
    + intros H. exists t, []. rewrite app_nil_r. auto.
    + intros (t0 & t1 & -> & H0 & H1). inversion H1. rewrite app_nil_r. exact H0.
  - rewrite IH. split.
    + intros (t0' & t1' & -> & H0 & H1). apply In_expand in H0.
      destruct H0 as (t0 & bb & -> & Ht0 & Hbb).
      exists t0, (bb :: t1'). rewrite <- app_assoc. cbn. auto.
    + intros (t0 & t1 & -> & H0 & H1). inversion H1 as [| bb b' t1' rest' Hbb Hrest]; subst.
      exists (t0 ++ [bb])%list, t1'. rewrite <- app_assoc. cbn.
      split; [reflexivity |]. split; [| exact Hrest].
      apply In_expand. exists t0, bb. auto.
Qed.

Lemma Forall2_map_r {A B C : Type} (P : A -> C -> Prop) (f : B -> C)
      (l : list A) (l' : list B) :
  Forall2 P l (map f l') <-> Forall2 (fun a b => P a (f b)) l l'.
Proof.
  revert l. induction l' as [| b l' IH]; intros l; cbn [map].
  - split; intros H; inversion H; constructor.
  - split; intros H; inversion H; subst; constructor; try assumption; apply IH; assumption.
Qed.

Lemma Forall2_weaken {A B : Type} (P Q : A -> B -> Prop) (l : list A) (l' : list B) :
  (forall a b, P a b -> Q a b) -> Forall2 P l l' -> Forall2 Q l l'.
Proof.
  intros HPQ H. induction H; constructor; try assumption. apply HPQ. assumption.
Qed.

(** The tuples [_generate_possible_solutions] returns. *)
Lemma generate_possible_solutions_In
      (self : YouHklCalculator.t) (values : list R) (names constrained_names : list string)
      (possible : list (list R)) (t : list R) :
  _generate_possible_solutions self values names constrained_names = Return possible ->
  In t possible
  <-> Forall2 (axis_candidate (YouHklCalculator._hardware self) constrained_names)
        t (combine values names).
Proof.
  unfold _generate_possible_solutions. cbn zeta.
  destruct (combine values names) as [| vn0 rest]; [discriminate |].
  cbn [map reduce_expand]. intros E. apply Return_inj in E. subst possible.
  rewrite In_fold_expand. split.
  - intros (t0 & t1 & -> & H0 & H1).
    apply in_map_iff in H0. destruct H0 as (c0 & <- & Hc0).
    cbn [app]. constructor.
    + destruct vn0 as [value name]. apply In_axis_candidates in Hc0. exact Hc0.
    + apply (proj1 (Forall2_map_r _ _ _ _)) in H1. revert H1. apply Forall2_weaken.
      intros c [value name]. apply In_axis_candidates.
  - intros H. inversion H as [| c0 vn0' t1 rest' Hc0 Hrest]; subst.
    exists [c0], t1. split; [reflexivity |]. split.
    + apply in_map_iff. exists c0. split; [reflexivity |].
      destruct vn0 as [value name]. apply In_axis_candidates. exact Hc0.
    + apply (proj2 (Forall2_map_r _ _ _ _)). revert Hrest. apply Forall2_weaken.
      intros c [value name]. apply In_axis_candidates.
Qed.

(** X15: the tuples [_generate_possible_solutions] returns for two or
    more axes are exactly the tuples, one component per (value, name)
    pair that [zip] makes, whose every component is a transformed
    value of its axis that the hardware accepts, cut at -pi; with no
    axis at all, [reduce] on the empty list raises [TypeError]. *)
Theorem generate_possible_solutions_tuples
        (self : YouHklCalculator.t) (values : list R) (names constrained_names : list string) :
  (combine values names = [] ->
   _generate_possible_solutions self values names constrained_names = Raise TypeError)
  /\ ((2 <= List.length (combine values names))%nat ->
      exists possible,
        _generate_possible_solutions self values names constrained_names = Return possible
        /\ forall t,
            In t possible
            <-> Forall2 (axis_candidate (YouHklCalculator._hardware self) constrained_names)
                  t (combine values names)).
Proof.
  split.
  - unfold _generate_possible_solutions. cbn zeta. intros ->. reflexivity.
  - intros Hlen.
    destruct (_generate_possible_solutions self values names constrained_names)
      as [possible | e] eqn:E.
    + exists possible. split; [reflexivity |].
      intros t. exact (generate_possible_solutions_In _ _ _ _ _ t E).
    + exfalso. unfold _generate_possible_solutions in E. cbn zeta in E.
      destruct (combine values names); [cbn in Hlen; lia | discriminate E].
Qed.

Lemma generate_possible_solutions_tuples_witness :
  _generate_possible_solutions self_100 [] [] [] = Raise TypeError
  /\ exists possible,
      _generate_possible_solutions self_100 [PI / 3; 0] ["delta"; "nu"] ["qaz"]
      = Return possible
      /\ forall t,
          In t possible
          <-> Forall2 (axis_candidate (YouHklCalculator._hardware self_100) ["qaz"])
                t (combine [PI / 3; 0] ["delta"; "nu"]).
Proof.
  split.
  - apply (generate_possible_solutions_tuples self_100 [] [] []). reflexivity.
  - apply (generate_possible_solutions_tuples self_100 [PI / 3; 0] ["delta"; "nu"] ["qaz"]).
    cbn. lia.
Defined.

(** ** Two sample constraints and a reference constraint *)

(** X16: [_calc_angles_given_two_sample_and_reference] handles the
    pairs chi and phi, mu and eta, chi and mu, tried in that order,
    and raises [DiffcalcException] for every other pair.  What it
    returns has psi as it was given and the two constrained angles of
    the pair at their constrained values; a chi and mu pair is refused
    only when mu is away from 0 and chi is away from 90 degrees, both
    at once. *)
Theorem calc_angles_given_two_sample_and_reference_modes
        (self : YouHklCalculator.t) (samp_constraints : dict)
        (psi theta : R) (q_phi n_phi : vector) (N_phi : matrix) :
  _calc_N q_phi n_phi = Return N_phi ->
  let has := fun name => dict_in name samp_constraints = true in
  let result :=
    _calc_angles_given_two_sample_and_reference self samp_constraints psi theta q_phi n_phi in
  (~ (has "chi" /\ has "phi") -> ~ (has "mu" /\ has "eta") -> ~ (has "chi" /\ has "mu") ->
   result
   = Raise (DiffcalcException
              "No code yet to handle this combination of 2 sample constraints and one reference!:"))
  /\ (forall xi psi' mu eta chi phi,
         result = Return (xi, psi', mu, eta, chi, phi) ->
         psi' = psi
         /\ ((has "chi" /\ has "phi"
              /\ dict_get samp_constraints "chi" = Return chi
              /\ dict_get samp_constraints "phi" = Return phi)
             \/ (has "mu" /\ has "eta"
                 /\ dict_get samp_constraints "mu" = Return mu
                 /\ dict_get samp_constraints "eta" = Return eta)
             \/ (has "chi" /\ has "mu"
                 /\ dict_get samp_constraints "chi" = Return chi
                 /\ dict_get samp_constraints "mu" = Return mu
                 /\ (approx0 mu \/ approx0 (chi - PI / 2))))).
Proof.
  intros HN has result. unfold result, _calc_angles_given_two_sample_and_reference.
  rewrite HN. cbn [bind]. cbn zeta. unfold has.
  destruct (dict_in "chi" samp_constraints) eqn:Echi;
    destruct (dict_in "phi" samp_constraints) eqn:Ephi;
    destruct (dict_in "mu" samp_constraints) eqn:Emu;
    destruct (dict_in "eta" samp_constraints) eqn:Eeta; cbn [andb];
    (split; [intros H1 H2 H3; try reflexivity;
             try (exfalso; apply H1; split; reflexivity);
             try (exfalso; apply H2; split; reflexivity);
             try (exfalso; apply H3; split; reflexivity) |]);
    intros xi psi' mu eta chi phi H; try discriminate H.
  all: try (apply bind_Return_inv in H; destruct H as (a1 & Ha1 & H);
            apply bind_Return_inv in H; destruct H as (a2 & Ha2 & H)).
  (* chi and phi *)
  1-4: apply Return_inj in H; injection H as _ <- _ _ <- <-;
       split; [reflexivity |]; left; auto.
  (* mu and eta *)
  1: apply bind_Return_inv in H; destruct H as (q & _ & H);
       apply bind_Return_inv in H; destruct H as (a & _ & H);
       apply Return_inj in H; injection H as _ <- <- <- _ _;
       split; [reflexivity |]; right; left; auto.
  (* chi and mu *)
  1: destruct (is_small a2) eqn:Es1;
       [| destruct (is_small (a1 - PI / 2)) eqn:Es2; [| discriminate H]];
       cbn [negb andb] in H;
       apply bind_Return_inv in H; destruct H as (e & _ & H);
       apply Return_inj in H; injection H as _ <- <- _ <- _;
       (split; [reflexivity |]); right; right;
       repeat split; try assumption;
       [left; apply is_small_lt; exact Es1 | right; apply is_small_lt; exact Es2].
  (* mu and eta, without chi *)
  all: apply bind_Return_inv in H; destruct H as (q & _ & H);
       apply bind_Return_inv in H; destruct H as (a & _ & H);
       apply Return_inj in H; injection H as _ <- <- <- _ _;
       split; [reflexivity |]; right; left; auto.
Qed.

Lemma calc_angles_given_two_sample_and_reference_modes_witness :
  _calc_angles_given_two_sample_and_reference self_100 [("mu", 0); ("phi", 0)]
    (PI / 2) (PI / 6) (Vector (2 * 1) (2 * 0) 0) (Vector 0 0 1)
  = Raise (DiffcalcException
             "No code yet to handle this combination of 2 sample constraints and one reference!:").
Proof.
  assert (HN : _calc_N (Vector (2 * 1) (2 * 0) 0) (Vector 0 0 1)
               = Return (Matrix 1 0 0 0 0 (- (1)) 0 1 0))
    by (apply (calc_N_equatorial 2 1 0); lra).
  apply (calc_angles_given_two_sample_and_reference_modes self_100 [("mu", 0); ("phi", 0)]
           (PI / 2) (PI / 6) _ _ _ HN).
  - cbn. intros [H _]. discriminate H.
  - cbn. intros [_ H]. discriminate H.
  - cbn. intros [H _]. discriminate H.
Defined.

(** ** The ranges of the virtual angles *)

(** X17: the virtual angles [_anglesToVirtualAngles] returns for a
    position have theta in [0, pi/2] with cos(2 theta) = cos(delta)
    cos(nu), qaz and naz in (-pi, pi], alpha and beta in [-pi/2, pi/2],
    tau in [0, pi], and psi, when it is a number, in [0, pi]. *)
Theorem anglesToVirtualAngles_ranges
        (self : YouHklCalculator.t) (pos : YouPosition.t) (wavelength : R)
        (va : VirtualAngles.t) :
  _anglesToVirtualAngles self pos wavelength = Return va ->
  0 <= VirtualAngles.theta va <= PI / 2
  /\ cos (2 * VirtualAngles.theta va)
     = cos (YouPosition.delta pos) * cos (YouPosition.nu pos)
  /\ - PI < VirtualAngles.qaz va <= PI
  /\ - (PI / 2) <= VirtualAngles.alpha va <= PI / 2
  /\ - PI < VirtualAngles.naz va <= PI
  /\ 0 <= VirtualAngles.tau va <= PI
  /\ - (PI / 2) <= VirtualAngles.beta va <= PI / 2
  /\ (forall psi, VirtualAngles.psi va = Some psi -> 0 <= psi <= PI).
Proof.
  intros Hret.
  pose proof (anglesToVirtualAngles_unfold self pos wavelength) as H. cbn zeta in H.
  rewrite H in Hret. apply Return_inj in Hret. subst va. clear H.
  cbn [VirtualAngles.theta VirtualAngles.qaz VirtualAngles.alpha VirtualAngles.naz
       VirtualAngles.tau VirtualAngles.beta VirtualAngles.psi].
  set (c := cos (YouPosition.delta pos) * cos (YouPosition.nu pos)).
  assert (Hc : -1 <= c <= 1).
  { unfold c. pose proof (COS_bound (YouPosition.delta pos)) as [? ?].
    pose proof (COS_bound (YouPosition.nu pos)) as [? ?]. nra. }
  split; [pose proof (acos_bound (bound c)); lra |].
  split.
  { replace (2 * (acos (bound c) / 2)) with (acos (bound c)) by field.
    rewrite (bound_id _ Hc). apply cos_acos. exact Hc. }
  split; [apply atan2_range |].
  split; [apply asin_bound |].
  split; [apply atan2_range |].
  split; [apply acos_bound |].
  split; [apply asin_bound |].
  intros psi Hpsi.
  destruct (Req_bool _ 0); [discriminate |].
  destruct (Req_bool _ 0); [discriminate |].
  injection Hpsi as <-. apply acos_bound.
Qed.

Lemma anglesToVirtualAngles_ranges_witness :
  0 <= VirtualAngles.theta va_100 <= PI / 2
  /\ cos (2 * VirtualAngles.theta va_100)
     = cos (YouPosition.delta pos_100) * cos (YouPosition.nu pos_100)
  /\ - PI < VirtualAngles.qaz va_100 <= PI
  /\ - (PI / 2) <= VirtualAngles.alpha va_100 <= PI / 2
  /\ - PI < VirtualAngles.naz va_100 <= PI
  /\ 0 <= VirtualAngles.tau va_100 <= PI
  /\ - (PI / 2) <= VirtualAngles.beta va_100 <= PI / 2
  /\ (forall psi, VirtualAngles.psi va_100 = Some psi -> 0 <= psi <= PI).
Proof.
  exact (anglesToVirtualAngles_ranges self_100 pos_100 1 va_100 virtual_angles_100).
Defined.

(** ** The reference constraint of a solution *)

Lemma generate_final_sample_angles_reproduces
      self mu_ eta_ chi_ phi_ names delta nu wavelength hkl rn rv mu eta chi phi :
  _generate_final_sample_angles self mu_ eta_ chi_ phi_ names delta nu wavelength hkl rn rv
  = Return (mu, eta, chi, phi) ->
  reproduces_reference self delta nu wavelength rn rv (mu, eta, chi, phi).
Proof.
  unfold _generate_final_sample_angles. intros H.
  apply bind_Return_inv in H. destruct H as (possible & _ & H).
  apply bind_Return_inv in H. destruct H as (survivors & Hf & H).
  apply choose_sample_angles_In in H.
  apply (filter_valid_sample_solutions_In _ _ _ _ _ _ _ _ _ Hf) in H. tauto.
Qed.

Lemma try_each_xi_reproduces
      self xis theta mu_ eta_ chi_ phi_ names wavelength hkl rn rv delta nu mu eta chi phi :
  try_each_xi self xis theta mu_ eta_ chi_ phi_ names wavelength hkl rn rv
  = Return (delta, nu, (mu, eta, chi, phi)) ->
  reproduces_reference self delta nu wavelength rn rv (mu, eta, chi, phi).
Proof.
  induction xis as [| xi rest IH]; [discriminate |].
  cbn [try_each_xi]. intros H.
  apply bind_Return_inv in H. destruct H as ([[d n] q] & _ & H).
  destruct (_generate_final_detector_angles self d n q theta "qaz") as [[d' n'] | e].
  - destruct (_generate_final_sample_angles self mu_ eta_ chi_ phi_ names d' n' wavelength
                hkl rn rv) as [[[[m e'] c] p] | e] eqn:Es.
    + injection H as <- <- <- <- <- <-.
      eapply generate_final_sample_angles_reproduces. exact Es.
    + destruct e; try discriminate. apply IH. exact H.
  - destruct e; try discriminate. apply IH. exact H.
Qed.

Lemma anglesToVirtualAngles_phi_period self mu delta nu eta chi phi wavelength :
  _anglesToVirtualAngles self (YouPosition.make mu delta nu eta chi (phi + 2 * PI)) wavelength
  = _anglesToVirtualAngles self (YouPosition.make mu delta nu eta chi phi) wavelength.
Proof.
  unfold _anglesToVirtualAngles, YouPosition.totuple, createYouMatrices.
  cbn [YouPosition.mu YouPosition.delta YouPosition.nu YouPosition.eta YouPosition.chi
       YouPosition.phi].
  rewrite calcPHI_period. reflexivity.
Qed.

(** The sample angles of a returned solution reproduce the reference
    constraint with its detector angles, before the tidy-up. *)
Lemma hklToAngles_inv_reference self h k l wavelength pos va :
  _hklToAngles self h k l wavelength = Return (pos, va) ->
  exists rn rv rest mu delta nu eta chi phi,
    YouConstraintManager.reference (YouHklCalculator.constraints self) = (rn, rv) :: rest
    /\ reproduces_reference self delta nu wavelength rn rv (mu, eta, chi, phi)
    /\ _anglesToVirtualAngles self pos wavelength = Return va
    /\ let tidied :=
         _tidy_degenerate_solutions (YouPosition.make mu delta nu eta chi phi)
           (YouHklCalculator.constraints self) in
       pos = if Rleb (YouPosition.phi tidied) (- PI + SMALL)
             then YouPosition.make (YouPosition.mu tidied) (YouPosition.delta tidied)
                    (YouPosition.nu tidied) (YouPosition.eta tidied)
                    (YouPosition.chi tidied) (YouPosition.phi tidied + 2 * PI)
             else tidied.
Proof.
  unfold _hklToAngles. cbn zeta. intros H.
  apply bind_Return_inv in H. destruct H as (theta & _ & H).
  apply bind_Return_inv in H. destruct H as (tau & _ & H).
  destruct (YouConstraintManager.reference (YouHklCalculator.constraints self))
    as [| [rn rv] rest]; [discriminate |].
  apply bind_Return_inv in H. destruct H as ([[psi alpha] beta] & _ & H).
  destruct (dict_truth _ && dict_truth _); [discriminate |].
  apply bind_Return_inv in H. destruct H as (stage1 & _ & H).
  apply bind_Return_inv in H. destruct H as (stage2 & _ & H).
  apply bind_Return_inv in H.
  destruct H as ([[[[[mu delta] nu] eta] chi] phi] & Hs & H).
  apply bind_Return_inv in H. destruct H as (va' & Hva & H).
  injection H as <- <-.
  exists rn, rv, rest, mu, delta, nu, eta, chi, phi.
  split; [reflexivity |]. split; [| split; [exact Hva | reflexivity]].
  destruct (YouConstraintManager.sample (YouHklCalculator.constraints self))
    as [| [sn sv] [| c2 [| c3 [| c4 rest']]]]; try discriminate.
  - destruct stage2 as [[[[sd sn'] sq] snz] |]; [| discriminate].
    apply bind_Return_inv in Hs. destruct Hs as ([[[p0 c0] e0] m0] & _ & Hs).
    apply bind_Return_inv in Hs. destruct Hs as ([[[m1 e1] c1] p1] & Hfin & Hs).
    injection Hs as <- <- <- <- <- <-.
    eapply generate_final_sample_angles_reproduces. exact Hfin.
  - apply bind_Return_inv in Hs.
    destruct Hs as ([[[[[xi psi'] m0] e0] c0] p0] & _ & Hs).
    apply bind_Return_inv in Hs. destruct Hs as ([[d1 n1] [[[m1 e1] c1] p1]] & Hxi & Hs).
    injection Hs as <- <- <- <- <- <-.
    eapply try_each_xi_reproduces. exact Hxi.
Qed.

(** X18: the solution [_hklToAngles] returns keeps its reference
    constraint.  When the position returned is in neither degenerate
    case of the tidy-up, the virtual angles returned with it have
    alpha within the tolerance of beta under an a_eq_b constraint, and
    the constrained virtual angle within the tolerance of its
    constrained value under a psi, alpha or beta constraint. *)
Theorem hklToAngles_keeps_reference_constraint
        (self : YouHklCalculator.t) (h k l wavelength : R)
        (pos : YouPosition.t) (va : VirtualAngles.t) :
  _hklToAngles self h k l wavelength = Return (pos, va) ->
  ~ vertical_degenerate pos (YouHklCalculator.constraints self) ->
  ~ horizontal_degenerate pos (YouHklCalculator.constraints self) ->
  exists ref_constraint_name ref_constraint_value rest,
    YouConstraintManager.reference (YouHklCalculator.constraints self)
    = (ref_constraint_name, ref_constraint_value) :: rest
    /\ if String.eqb ref_constraint_name "a_eq_b"
       then Rabs (VirtualAngles.alpha va - VirtualAngles.beta va) < SMALL
       else exists v,
           VirtualAngles.get va ref_constraint_name = Return (Some v)
           /\ Rabs (ref_constraint_value - v) < SMALL.
Proof.
  intros H Hv Hh. apply hklToAngles_inv_reference in H.
  destruct H as (rn & rv & rest & mu & delta & nu & eta & chi & phi & Eref & Hrep & Hva & Hpos).
  cbn zeta in Hpos.
  set (tidied := _tidy_degenerate_solutions (YouPosition.make mu delta nu eta chi phi)
                   (YouHklCalculator.constraints self)) in *.
  assert (Hv' : ~ vertical_degenerate tidied (YouHklCalculator.constraints self)).
  { intros Hd. apply Hv. rewrite Hpos. destruct (Rleb _ _); exact Hd. }
  assert (Hh' : ~ horizontal_degenerate tidied (YouHklCalculator.constraints self)).
  { intros Hd. apply Hh. rewrite Hpos. destruct (Rleb _ _); exact Hd. }
  assert (Et : tidied = YouPosition.make mu delta nu eta chi phi)
    by (apply tidy_non_degenerate; assumption).
  rewrite Et in Hpos. cbn in Hpos.
  assert (Hva' : _anglesToVirtualAngles self (YouPosition.make mu delta nu eta chi phi)
                   wavelength = Return va).
  { rewrite Hpos in Hva. destruct (Rleb phi (- PI + SMALL)); [| exact Hva].
    rewrite anglesToVirtualAngles_phi_period in Hva. exact Hva. }
  exists rn, rv, rest. split; [exact Eref |].
  unfold reproduces_reference in Hrep. destruct Hrep as (va0 & Hva0 & Hrep).
  rewrite Hva' in Hva0. injection Hva0 as <-. exact Hrep.
Qed.

Lemma hklToAngles_keeps_reference_constraint_witness :
  exists ref_constraint_name ref_constraint_value rest,
    YouConstraintManager.reference (YouHklCalculator.constraints self_100)
    = (ref_constraint_name, ref_constraint_value) :: rest
    /\ if String.eqb ref_constraint_name "a_eq_b"
       then Rabs (VirtualAngles.alpha va_100 - VirtualAngles.beta va_100) < SMALL
       else exists v,
           VirtualAngles.get va_100 ref_constraint_name = Return (Some v)
           /\ Rabs (ref_constraint_value - v) < SMALL.
Proof.
  apply (hklToAngles_keeps_reference_constraint self_100 1 0 0 1 pos_100 va_100
           hklToAngles_100).
  - intros (_ & _ & _ & H & _). discriminate H.
  - intros (H & _). unfold approx0, SMALL in H. cbn in H.
    pose proof PI_gt_3. rewrite Rabs_pos_eq in H; lra.
Defined.

(** ** The reference angles: equation (24) *)

Lemma py_asin_Return_inv (x a : R) :
  py_asin x = Return a -> -1 <= x <= 1 /\ a = asin x.
Proof.
  unfold py_asin. destruct (Rleb (Rabs x) 1) eqn:E; [| discriminate].
  intros H. apply Return_inj in H. apply Rleb_le in E.
  split; [| symmetry; exact H].
  unfold Rabs in E. destruct (Rcase_abs x); lra.
Qed.

Lemma py_asin_out (x : R) :
  1 < Rabs x -> py_asin x = Raise (ValueError "math domain error").
Proof.
  intros H. unfold py_asin. rewrite Rleb_false by lra. reflexivity.
Qed.

Lemma py_acos_Return_inv (x a : R) :
  py_acos x = Return a -> -1 <= x <= 1 /\ a = acos x.
Proof.
  unfold py_acos. destruct (Rleb (Rabs x) 1) eqn:E; [| discriminate].
  intros H. apply Return_inj in H. apply Rleb_le in E.
  split; [| symmetry; exact H].
  unfold Rabs in E. destruct (Rcase_abs x); lra.
Qed.

(** The a_eq_b constraint, with both guards passed. *)
Lemma reference_angles_a_eq_b (self : YouHklCalculator.t) (value theta tau : R) :
  sin tau <> 0 -> cos theta <> 0 ->
  _calc_remaining_reference_angles self "a_eq_b" value theta tau
  = Return (psi_of_alpha theta tau (asin (bound (cos tau * sin theta))),
            asin (bound (cos tau * sin theta)),
            asin (bound (cos tau * sin theta))).
Proof.
  intros Ht Hc. rewrite (reference_angles_guards _ _ _ _ _ Ht Hc).
  cbn [String.eqb Ascii.eqb Bool.eqb]. rewrite py_asin_bound. reflexivity.
Qed.

(** X19: whatever the constraint, the alpha and beta that
    [_calc_remaining_reference_angles] returns satisfy equation (24),
    sin(alpha) + sin(beta) = 2 sin(theta) cos(tau).  The constrained
    angle is returned as it was given (alpha equal to beta under
    a_eq_b), and a psi the function computes itself lies in [0, pi]. *)
Theorem calc_remaining_reference_angles_equation_24
        (self : YouHklCalculator.t) (name : string) (value theta tau psi alpha beta : R) :
  _calc_remaining_reference_angles self name value theta tau = Return (psi, alpha, beta) ->
  sin alpha + sin beta = 2 * sin theta * cos tau
  /\ ((name = "psi" /\ psi = value)
      \/ (name = "a_eq_b" /\ alpha = beta /\ 0 <= psi <= PI)
      \/ (name = "alpha" /\ alpha = value /\ 0 <= psi <= PI)
      \/ (name = "beta" /\ beta = value /\ 0 <= psi <= PI)).
Proof.
  intros H.
  destruct (Req_dec (sin tau) 0) as [Ht | Ht].
  { destruct (reference_angles_parallel self name value theta tau (or_introl Ht)) as [msg E].
    rewrite E in H. discriminate H. }
  destruct (Req_dec (cos theta) 0) as [Hc | Hc].
  { destruct (reference_angles_parallel self name value theta tau (or_intror Hc)) as [msg E].
    rewrite E in H. discriminate H. }
  rewrite (reference_angles_guards _ _ _ _ _ Ht Hc) in H.
  apply bind_Return_inv in H. destruct H as ([[psi_given a] b] & Hab & H).
  assert (Hpsi : forall a' b' : R,
                 Return (psi_of_alpha theta tau a', a', b') = Return (psi, alpha, beta) ->
                 0 <= psi <= PI /\ alpha = a' /\ beta = b').
  { intros a' b' Hp. apply Return_inj in Hp. injection Hp as <- <- <-.
    split; [apply acos_bound | split; reflexivity]. }
  destruct (String.eqb name "psi") eqn:E1.
  { apply String.eqb_eq in E1.
    pose proof (sin_alpha_of_psi_range theta tau value) as Ha.
    pose proof (sin_beta_of_psi_range theta tau value) as Hb.
    destruct (Rltb _ _) in Hab; [discriminate |].
    rewrite py_asin_bound in Hab. cbn [bind] in Hab.
    destruct (Rltb _ _) in Hab; [discriminate |].
    rewrite py_asin_bound in Hab. cbn [bind] in Hab.
    apply Return_inj in Hab. injection Hab as <- <- <-.
    apply Return_inj in H. injection H as <- <- <-.
    rewrite (bound_id _ Ha), (bound_id _ Hb), (sin_asin _ Ha), (sin_asin _ Hb).
    split; [unfold sin_alpha_of_psi, sin_beta_of_psi; ring | left; auto]. }
  destruct (String.eqb name "a_eq_b") eqn:E2.
  { apply String.eqb_eq in E2.
    rewrite py_asin_bound in Hab. cbn [bind] in Hab.
    apply Return_inj in Hab. injection Hab as <- <- <-.
    destruct (Hpsi _ _ H) as (Hr & -> & ->).
    assert (Hb : -1 <= cos tau * sin theta <= 1).
    { pose proof (COS_bound tau) as [? ?]. pose proof (SIN_bound theta) as [? ?]. nra. }
    rewrite (bound_id _ Hb), (sin_asin _ Hb).
    split; [ring | right; left; auto]. }
  destruct (String.eqb name "alpha") eqn:E3.
  { apply String.eqb_eq in E3.
    apply bind_Return_inv in Hab. destruct Hab as (b' & Hb' & Hab).
    apply py_asin_Return_inv in Hb'. destruct Hb' as [Hr ->].
    apply Return_inj in Hab. injection Hab as <- <- <-.
    destruct (Hpsi _ _ H) as (Hp & -> & ->).
    rewrite (sin_asin _ Hr).
    split; [unfold sin_of_other; ring | right; right; left; auto]. }
  destruct (String.eqb name "beta") eqn:E4; [| discriminate Hab].
  apply String.eqb_eq in E4.
  destruct (Rltb _ _) in Hab; [discriminate |].
  apply bind_Return_inv in Hab. destruct Hab as (a' & Ha' & Hab).
  apply py_asin_Return_inv in Ha'. destruct Ha' as [Hr ->].
  apply Return_inj in Hab. injection Hab as <- <- <-.
  destruct (Hpsi _ _ H) as (Hp & -> & ->).
  rewrite (sin_asin _ Hr).
  split; [unfold sin_of_other; ring | right; right; right; auto].
Qed.

Lemma sin_PI2_neq_0 : sin (PI / 2) <> 0.
Proof. rewrite sin_PI2. lra. Qed.

Lemma cos_PI6_neq_0 : cos (PI / 6) <> 0.
Proof.
  pose proof PI_gt_3. assert (0 < cos (PI / 6)) by (apply cos_gt_0; lra). lra.
Qed.

Lemma sin_PI3_neq_0 : sin (PI / 3) <> 0.
Proof.
  pose proof PI_gt_3. assert (0 < sin (PI / 3)) by (apply sin_gt_0; lra). lra.
Qed.

Lemma calc_remaining_reference_angles_equation_24_witness :
  let alpha := asin (bound (cos (PI / 2) * sin (PI / 6))) in
  sin alpha + sin alpha = 2 * sin (PI / 6) * cos (PI / 2)
  /\ (("a_eq_b"%string = "psi"%string /\ psi_of_alpha (PI / 6) (PI / 2) alpha = 0)
      \/ ("a_eq_b"%string = "a_eq_b"%string /\ alpha = alpha
          /\ 0 <= psi_of_alpha (PI / 6) (PI / 2) alpha <= PI)
      \/ ("a_eq_b"%string = "alpha"%string /\ alpha = 0
          /\ 0 <= psi_of_alpha (PI / 6) (PI / 2) alpha <= PI)
      \/ ("a_eq_b"%string = "beta"%string /\ alpha = 0
          /\ 0 <= psi_of_alpha (PI / 6) (PI / 2) alpha <= PI)).
Proof.
  exact (calc_remaining_reference_angles_equation_24 self_100 "a_eq_b" 0 (PI / 6) (PI / 2)
           _ _ _
           (reference_angles_a_eq_b self_100 0 (PI / 6) (PI / 2) sin_PI2_neq_0 cos_PI6_neq_0)).
Defined.

(** X20: what the function raises beyond its DiffcalcExceptions, with
    both guards passed.  An alpha constraint whose derived sin(beta)
    has a magnitude above 1 raises the [ValueError] of [math.asin], as
    does a beta constraint whose derived sin(alpha) has a magnitude
    above 1 but not above 1 + 1e-8; and a constraint name other than
    psi, a_eq_b, alpha and beta raises [UnboundLocalError]. *)
Theorem calc_remaining_reference_angles_domain_errors
        (self : YouHklCalculator.t) (name : string) (value theta tau : R) :
  sin tau <> 0 -> cos theta <> 0 ->
  (1 < Rabs (sin_of_other theta tau value) ->
   _calc_remaining_reference_angles self "alpha" value theta tau
   = Raise (ValueError "math domain error"))
  /\ (1 < Rabs (sin_of_other theta tau value) <= 1 + SMALL ->
      _calc_remaining_reference_angles self "beta" value theta tau
      = Raise (ValueError "math domain error"))
  /\ (~ In name ["psi"; "a_eq_b"; "alpha"; "beta"] ->
      _calc_remaining_reference_angles self name value theta tau = Raise UnboundLocalError).
Proof.
  intros Ht Hc. rewrite !(reference_angles_guards _ _ _ _ _ Ht Hc).
  split; [| split].
  - intros Hout. cbn [String.eqb Ascii.eqb Bool.eqb].
    rewrite (py_asin_out _ Hout). reflexivity.
  - intros [Hout Hin]. cbn [String.eqb Ascii.eqb Bool.eqb].
    rewrite Rltb_false by lra. rewrite (py_asin_out _ Hout). reflexivity.
  - intros Hname.
    destruct (String.eqb name "psi") eqn:E1;
      [apply String.eqb_eq in E1; exfalso; apply Hname; cbn; auto |].
    destruct (String.eqb name "a_eq_b") eqn:E2;
      [apply String.eqb_eq in E2; exfalso; apply Hname; cbn; auto |].
    destruct (String.eqb name "alpha") eqn:E3;
      [apply String.eqb_eq in E3; exfalso; apply Hname; cbn; auto |].
    destruct (String.eqb name "beta") eqn:E4;
      [apply String.eqb_eq in E4; exfalso; apply Hname; cbn; auto |].
    reflexivity.
Qed.

Lemma sin_of_other_above_1 : sin_of_other (PI / 6) (PI / 3) (asin (- / 2 - SMALL)) = 1 + SMALL.
Proof.
  unfold sin_of_other. pose proof SMALL_pos. 
  assert (HS : SMALL < / 2) by (unfold SMALL; lra).
  rewrite sin_asin by lra. rewrite sin_PI6, cos_PI3. lra.
Qed.

Lemma calc_remaining_reference_angles_domain_errors_witness :
  _calc_remaining_reference_angles self_100 "alpha" (asin (- / 2 - SMALL)) (PI / 6) (PI / 3)
  = Raise (ValueError "math domain error")
  /\ _calc_remaining_reference_angles self_100 "beta" (asin (- / 2 - SMALL)) (PI / 6) (PI / 3)
     = Raise (ValueError "math domain error")
  /\ _calc_remaining_reference_angles self_100 "qaz" (asin (- / 2 - SMALL)) (PI / 6) (PI / 3)
     = Raise UnboundLocalError.
Proof.
  pose proof SMALL_pos as HS.
  assert (Habs : Rabs (sin_of_other (PI / 6) (PI / 3) (asin (- / 2 - SMALL))) = 1 + SMALL)
    by (rewrite sin_of_other_above_1; apply Rabs_pos_eq; lra).
  destruct (calc_remaining_reference_angles_domain_errors self_100 "qaz"
              (asin (- / 2 - SMALL)) (PI / 6) (PI / 3) sin_PI3_neq_0 cos_PI6_neq_0)
    as (H1 & H2 & H3).
  split; [apply H1; rewrite Habs; lra |].
  split; [apply H2; rewrite Habs; lra |].
  apply H3. cbn. intros [E | [E | [E | [E | []]]]]; discriminate E.
Defined.

(** ** The forward kinematics: scale and direct beam *)

Lemma youAnglesToHkl_regular (pos : YouPosition.t) (wavelength : R) (UBmatrix : matrix) :
  wavelength <> 0 -> det UBmatrix <> 0 ->
  youAnglesToHkl pos wavelength UBmatrix
  = let hkl :=
      mvec (mmul (mscale (adjugate UBmatrix) (/ det UBmatrix))
                 (sample_rotation_inverse (YouPosition.mu pos) (YouPosition.eta pos)
                    (YouPosition.chi pos) (YouPosition.phi pos)))
           (mvec (msub (mmul (calcNU (YouPosition.nu pos))
                             (calcDELTA (YouPosition.delta pos))) I)
                 (Vector 0 (2 * PI / wavelength) 0)) in
    Return (v0 hkl, v1 hkl, v2 hkl).
Proof.
  intros Hw Hd. rewrite youAnglesToHkl_unfold.
  rewrite (py_div_nonzero _ _ Hw). cbn [bind].
  unfold inverse. rewrite (Req_bool_false _ _ Hd). reflexivity.
Qed.

Lemma mvec_vscale (a : matrix) (v : vector) (s : R) :
  mvec a (vscale v s) = vscale (mvec a v) s.
Proof. unfold mvec, vscale. cbn. f_equal; ring. Qed.

(** X21: the Miller indices of a position scale with the inverse of
    the wavelength: at a wavelength other than zero [youAnglesToHkl]
    returns the indices it returns at wavelength 1, each divided by
    the wavelength. *)
Theorem youAnglesToHkl_wavelength_scaling
        (pos : YouPosition.t) (wavelength : R) (UBmatrix : matrix) (h k l : R) :
  wavelength <> 0 ->
  youAnglesToHkl pos 1 UBmatrix = Return (h, k, l) ->
  youAnglesToHkl pos wavelength UBmatrix
  = Return (h / wavelength, k / wavelength, l / wavelength).
Proof.
  intros Hw H1.
  apply youAnglesToHkl_Return_inv in H1; [| lra]. destruct H1 as [Hd H1].
  rewrite (youAnglesToHkl_regular _ _ _ Hw Hd). cbn zeta.
  replace (Vector 0 (2 * PI / wavelength) 0)
    with (vscale (Vector 0 (2 * PI / 1) 0) (/ wavelength))
    by (unfold vscale; cbn; f_equal; field; exact Hw).
  rewrite !mvec_vscale, <- H1. reflexivity.
Qed.

Lemma youAnglesToHkl_wavelength_scaling_witness :
  youAnglesToHkl pos_100 2 UB_cubic = Return (1 / 2, 0 / 2, 0 / 2).
Proof.
  apply (youAnglesToHkl_wavelength_scaling pos_100 2 UB_cubic 1 0 0); [lra |].
  exact anglesToHkl_100.
Defined.

Lemma norm_zero_inv (v : vector) : norm v = 0 -> v = Vector 0 0 0.
Proof.
  intros H. pose proof (norm_sqr v) as Hs. rewrite H in Hs.
  destruct v as [x y z]. cbn in Hs.
  assert (x = 0) by nra. assert (y = 0) by nra. assert (z = 0) by nra.
  subst. reflexivity.
Qed.

Lemma mvec_inverse_cancel_l (a : matrix) (v : vector) :
  det a <> 0 -> mvec (mscale (adjugate a) (/ det a)) (mvec a v) = v.
Proof.
  intros Hd. destruct a as [a00 a01 a02 a10 a11 a12 a20 a21 a22], v as [x y z].
  unfold mvec, mscale, adjugate, det in *. cbn in *.
  f_equal; field; exact Hd.
Qed.

(** X22: the direct beam.  The Miller indices [_anglesToHkl] returns
    for a position are all zero exactly when the detector looks into
    the direct beam, cos(delta) cos(nu) = 1; the sample angles play no
    part. *)
Theorem anglesToHkl_zero_iff_direct_beam
        (self : YouHklCalculator.t) (pos : YouPosition.t) (wavelength h k l : R) :
  0 < wavelength ->
  _anglesToHkl self pos wavelength = Return (h, k, l) ->
  (h = 0 /\ k = 0 /\ l = 0) <-> cos (YouPosition.delta pos) * cos (YouPosition.nu pos) = 1.
Proof.
  intros Hw Hret. pose proof PI_gt_3 as HPI.
  pose proof (anglesToHkl_norm self pos wavelength h k l Hw Hret) as Hnorm.
  unfold _anglesToHkl in Hret.
  apply youAnglesToHkl_Return_inv in Hret; [| lra]. destruct Hret as [Hd _].
  set (c := cos (YouPosition.delta pos) * cos (YouPosition.nu pos)) in *.
  assert (Hc : -1 <= c <= 1).
  { unfold c. pose proof (COS_bound (YouPosition.delta pos)) as [? ?].
    pose proof (COS_bound (YouPosition.nu pos)) as [? ?]. nra. }
  rewrite (bound_id _ Hc) in Hnorm.
  assert (Hk : 0 < 2 * (2 * PI / wavelength)).
  { assert (0 < 2 * PI / wavelength) by (apply Rdiv_lt_0_compat; lra). lra. }
  pose proof (acos_bound c) as Hac.
  split.
  - intros (-> & -> & ->). rewrite mvec_origin, norm_origin in Hnorm.
    assert (Hs : sin (acos c / 2) = 0) by nra.
    destruct (Req_dec (acos c) 0) as [E0 | E0].
    + rewrite <- (cos_acos c Hc), E0. apply cos_0.
    + assert (0 < sin (acos c / 2)) by (apply sin_gt_0; lra). lra.
  - intros E1. rewrite E1, acos_1 in Hnorm.
    replace (0 / 2) with 0 in Hnorm by field. rewrite sin_0, Rmult_0_r in Hnorm.
    apply norm_zero_inv in Hnorm.
    pose proof (mvec_inverse_cancel_l (YouHklCalculator._getUBMatrix self) (Vector h k l) Hd)
      as Hinv.
    rewrite Hnorm, mvec_origin in Hinv. injection Hinv as <- <- <-. auto.
Qed.

Lemma anglesToHkl_zero_iff_direct_beam_witness :
  (1 = 0 /\ 0 = 0 /\ 0 = 0)
  <-> cos (YouPosition.delta pos_100) * cos (YouPosition.nu pos_100) = 1.
Proof.
  apply (anglesToHkl_zero_iff_direct_beam self_100 pos_100 1 1 0 0); [lra |].
  exact anglesToHkl_100.
Defined.

(** ** The tidy-up is idempotent *)

(** X23: [_tidy_degenerate_solutions] is idempotent: tidying a tidied
    position, under the same constraints, changes nothing more. *)
Theorem tidy_degenerate_solutions_idempotent
        (pos : YouPosition.t) (constraints : YouConstraintManager.t) :
  _tidy_degenerate_solutions (_tidy_degenerate_solutions pos constraints) constraints
  = _tidy_degenerate_solutions pos constraints.
Proof.
  destruct pos as [mu delta nu eta chi phi].
  unfold _tidy_degenerate_solutions at 2. cbn zeta.
  cbn [YouPosition.mu YouPosition.delta YouPosition.nu YouPosition.eta YouPosition.chi
       YouPosition.phi].
  set (dl := dict_truth (YouConstraintManager.detector constraints)
             || dict_truth (YouConstraintManager.naz constraints)).
  destruct ((is_small nu && dl) && (is_small mu && dict_in "mu" (YouConstraintManager.sample constraints)))
    eqn:E1.
  - destruct (is_small chi) eqn:Ec.
    + unfold _tidy_degenerate_solutions. cbn zeta.
      cbn [YouPosition.mu YouPosition.delta YouPosition.nu YouPosition.eta YouPosition.chi
           YouPosition.phi].
      fold dl. rewrite E1, Ec. f_equal; field.
    + unfold _tidy_degenerate_solutions. cbn zeta.
      cbn [YouPosition.mu YouPosition.delta YouPosition.nu YouPosition.eta YouPosition.chi
           YouPosition.phi].
      fold dl. rewrite E1, Ec. reflexivity.
  - destruct ((is_small delta && dl)
              && (is_small eta && dict_in "eta" (YouConstraintManager.sample constraints)))
      eqn:E2.
    + destruct (is_small (chi - PI / 2)) eqn:Ec.
      * unfold _tidy_degenerate_solutions. cbn zeta.
        cbn [YouPosition.mu YouPosition.delta YouPosition.nu YouPosition.eta YouPosition.chi
             YouPosition.phi].
        fold dl. rewrite E1, E2, Ec.
        assert (Hchi : is_small chi = false).
        { apply is_small_lt in Ec. apply is_small_false.
          pose proof PI_gt_3. pose proof SMALL_pos. unfold SMALL in *.
          unfold Rabs in *. destruct (Rcase_abs (chi - PI / 2)); destruct (Rcase_abs chi); lra. }
        rewrite Hchi.
        destruct (is_small nu && dl
                  && (is_small (mu + (nu / 2 - mu))
                      && dict_in "mu" (YouConstraintManager.sample constraints)));
          [reflexivity |].
        f_equal; field.
      * unfold _tidy_degenerate_solutions. cbn zeta.
        cbn [YouPosition.mu YouPosition.delta YouPosition.nu YouPosition.eta YouPosition.chi
             YouPosition.phi].
        fold dl. rewrite E1, E2, Ec. reflexivity.
    + unfold _tidy_degenerate_solutions. cbn zeta.
      cbn [YouPosition.mu YouPosition.delta YouPosition.nu YouPosition.eta YouPosition.chi
           YouPosition.phi].
      fold dl. rewrite E1, E2. reflexivity.
Qed.

(** ** The detector pair that is chosen *)

(** X24: outside its delta = 90 degrees shortcut, a pair that
    [_generate_final_detector_angles] returns reproduces the theta and
    the qaz it was asked for: [_theta_and_qaz_from_detector_angles]
    gives both back to within the tolerance. *)
Theorem generate_final_detector_angles_reproduces
        (self : YouHklCalculator.t) (initial_delta initial_nu qaz theta : R)
        (det_constraint_name : string) (delta nu : R) :
  ~ delta_90_shortcut self initial_delta ->
  _generate_final_detector_angles self initial_delta initial_nu qaz theta det_constraint_name
  = Return (delta, nu) ->
  reproduces_theta_qaz theta qaz delta nu.
Proof.
  intros Hno. unfold _generate_final_detector_angles.
  rewrite <- delta_90_shortcut_true in Hno. apply not_true_is_false in Hno. rewrite Hno.
  intros H.
  apply bind_Return_inv in H. destruct H as (possible & _ & H).
  apply bind_Return_inv in H. destruct H as (survivors & Hf & H).
  apply bind_Return_inv in H. destruct H as (chosen & Hc & H).
  apply (filter_detector_solutions_In _ _ _ _ Hf).
  assert (Hch : In (delta, nu) chosen).
  { unfold _choose_detector_angles in H. destruct (Nat.ltb 1 (List.length chosen));
      [discriminate |]. destruct chosen as [| p l]; [discriminate |].
    apply Return_inj in H. subst p. left. reflexivity. }
  destruct (Nat.ltb 1 (List.length survivors));
    [| apply Return_inj in Hc; subst chosen; exact Hch].
  destruct (partition close_to_90 survivors) as [close other] eqn:Ep.
  destruct close as [| c0 close']; [apply Return_inj in Hc; subst chosen; exact Hch |].
  apply bind_Return_inv in Hc. destruct Hc as (thetas_ & _ & Hc).
  apply bind_Return_inv in Hc. destruct Hc as (closest_index & _ & Hc).
  apply bind_Return_inv in Hc. destruct Hc as (closest & Hget & Hc).
  apply Return_inj in Hc. subst chosen. apply py_getitem_In in Hget.
  apply in_app_or in Hch. apply (partition_In _ _ _ _ _ Ep).
  destruct Hch as [Ho | [<- | []]]; [right; exact Ho | left; exact Hget].
Qed.

Lemma generate_final_detector_angles_reproduces_witness :
  reproduces_theta_qaz (PI / 6) (PI / 2) (PI / 3) 0.
Proof.
  apply (generate_final_detector_angles_reproduces self_100 (PI / 3) 0 (PI / 2) (PI / 6)
           "qaz" (PI / 3) 0).
  - intros [H _]. unfold approx0, SMALL in H. pose proof PI_gt_3.
    unfold Rabs in H. destruct (Rcase_abs (PI / 3 - PI / 2)); lra.
  - exact final_detector_100.
Defined.

(** ** The remaining sample angles *)

Lemma is_small_false_inv (x : R) : is_small x = false -> SMALL <= Rabs x.
Proof. intros E. apply Rltb_false_inv in E. lra. Qed.

Lemma atan2_y_nonneg (y x : R) : 0 <= y -> 0 <= atan2 y x <= PI.
Proof.
  intros Hy0. pose proof PI_gt_3 as HPI. pose proof (atan_bound (y / x)) as [Hlo Hhi].
  destruct (atan2_cases y x)
    as [[Hx ->] | [(Hx & Hy & ->) | [(Hx & Hy & ->) | [(-> & Hy & ->) | [(-> & Hy & ->)
       | (-> & -> & ->)]]]]]; try lra.
  - destruct (Req_dec y 0) as [-> | Hne].
    + replace (0 / x) with 0 by (field; lra). rewrite atan_0. lra.
    + assert (Hq : 0 < y / x) by (apply Rdiv_lt_0_compat; lra).
      assert (Ha : 0 < atan (y / x)) by (rewrite <- atan_0; apply atan_increasing; exact Hq).
      lra.
  - destruct (Req_dec y 0) as [-> | Hne].
    + replace (0 / x) with 0 by (field; lra). rewrite atan_0. lra.
    + assert (Hq : y / x < 0).
      { unfold Rdiv. assert (/ x < 0) by (apply Rinv_lt_0_compat; exact Hx). nra. }
      assert (Ha : atan (y / x) < 0) by (rewrite <- atan_0; apply atan_increasing; exact Hq).
      lra.
Qed.

Lemma atan2_x_nonneg (y x : R) : 0 <= x -> - (PI / 2) <= atan2 y x <= PI / 2.
Proof.
  intros Hx0. pose proof PI_gt_3 as HPI. pose proof (atan_bound (y / x)) as [Hlo Hhi].
  destruct (atan2_cases y x)
    as [[Hx ->] | [(Hx & Hy & ->) | [(Hx & Hy & ->) | [(-> & Hy & ->) | [(-> & Hy & ->)
       | (-> & -> & ->)]]]]]; lra.
Qed.

(** X25: what [_calc_remaining_sample_angles] returns.  The
    constraint is one of mu, phi, eta and chi, and the constrained
    angle comes back as it was given.  With mu constrained, chi lies
    in [0, pi] and eta is 0 when sin(chi) is within the tolerance of
    zero; with phi constrained, eta lies in [-pi/2, pi/2] and its
    cosine is not within the tolerance of zero; with eta constrained,
    chi lies in [-pi/2, pi/2]; with chi constrained, eta lies in
    [0, pi]. *)
Theorem calc_remaining_sample_angles_returns_only_if
        (self : YouHklCalculator.t) (constraint_name : string) (constraint_value : R)
        (q_lab n_lab q_phi n_phi : vector) (phi chi eta mu : R) :
  _calc_remaining_sample_angles self constraint_name constraint_value q_lab n_lab q_phi n_phi
  = Return (phi, chi, eta, mu) ->
  (constraint_name = "mu" /\ mu = constraint_value /\ 0 <= chi <= PI
   /\ (approx0 (sin chi) -> eta = 0))
  \/ (constraint_name = "phi" /\ phi = constraint_value
      /\ - (PI / 2) <= eta <= PI / 2 /\ SMALL <= Rabs (cos eta))
  \/ (constraint_name = "eta" /\ eta = constraint_value
      /\ - (PI / 2) <= chi <= PI / 2 /\ SMALL <= Rabs (cos eta))
  \/ (constraint_name = "chi" /\ chi = constraint_value
      /\ 0 <= eta <= PI /\ SMALL <= Rabs (sin chi)).
Proof.
  unfold _calc_remaining_sample_angles. intros H.
  apply bind_Return_inv in H. destruct H as (N_lab & _ & H).
  apply bind_Return_inv in H. destruct H as (N_phi & _ & H).
  destruct (String.eqb constraint_name "mu") eqn:E1.
  { apply String.eqb_eq in E1. left.
    apply bind_Return_inv in H. destruct H as (MUi & _ & H). cbn zeta in H.
    set (V := mmul (mmul MUi N_lab) (transpose N_phi)) in *. clearbody V.
    set (chi0 := atan2 (sqrt (m20 V ^ 2 + m21 V ^ 2)) (m22 V)) in *.
    assert (Hchi : 0 <= chi0 <= PI) by (apply atan2_y_nonneg, sqrt_pos).
    clearbody chi0.
    destruct (is_small (sin chi0)) eqn:Es;
      apply Return_inj in H; injection H as <- <- <- <-;
      (split; [exact E1 |]); (split; [reflexivity |]); (split; [exact Hchi |]).
    - reflexivity.
    - intros Hs. apply is_small_lt in Hs. congruence. }
  destruct (String.eqb constraint_name "phi") eqn:E2.
  { apply String.eqb_eq in E2. right. left.
    apply bind_Return_inv in H. destruct H as (N_phi_I & _ & H). cbn zeta in H.
    set (V := mmul (mmul N_lab N_phi_I) (transpose (calcPHI constraint_value))) in *.
    clearbody V.
    set (eta0 := atan2 (m01 V) (sqrt (m11 V ^ 2 + m21 V ^ 2))) in *.
    assert (Heta : - (PI / 2) <= eta0 <= PI / 2) by (apply atan2_x_nonneg, sqrt_pos).
    clearbody eta0.
    destruct (is_small (cos eta0)) eqn:Es; [discriminate H |].
    apply Return_inj in H. injection H as <- <- <- <-.
    split; [exact E2 |]. split; [reflexivity |].
    split; [exact Heta | apply is_small_false_inv; exact Es]. }
  destruct (name_in constraint_name ["eta"; "chi"]) eqn:E3; [| discriminate H].
  cbn zeta in H. set (V := mmul N_lab (transpose N_phi)) in *. clearbody V.
  apply bind_Return_inv in H. destruct H as ([eta' chi'] & Hec & H).
  apply Return_inj in H. injection H as <- <- <- <-.
  destruct (String.eqb constraint_name "eta") eqn:E4.
  - apply String.eqb_eq in E4. right. right. left.
    destruct (is_small (cos constraint_value)) eqn:Es; [discriminate Hec |].
    apply bind_Return_inv in Hec. destruct Hec as (q & _ & Hec).
    apply bind_Return_inv in Hec. destruct Hec as (c & Hc & Hec).
    apply py_asin_Return_inv in Hc. destruct Hc as [_ ->].
    apply Return_inj in Hec. injection Hec as <- <-.
    split; [exact E4 |]. split; [reflexivity |].
    split; [apply asin_bound | apply is_small_false_inv; exact Es].
  - right. right. right.
    assert (En : constraint_name = "chi").
    { unfold name_in in E3. cbn in E3. rewrite E4 in E3. cbn in E3.
      destruct (String.eqb constraint_name "chi") eqn:E5; [| discriminate E3].
      apply String.eqb_eq in E5. exact E5. }
    destruct (is_small (sin constraint_value)) eqn:Es; [discriminate Hec |].
    apply bind_Return_inv in Hec. destruct Hec as (q & _ & Hec).
    apply bind_Return_inv in Hec. destruct Hec as (e & He & Hec).
    apply py_acos_Return_inv in He. destruct He as [_ ->].
    apply Return_inj in Hec. injection Hec as <- <-.
    split; [exact En |]. split; [reflexivity |].
    split; [apply acos_bound | apply is_small_false_inv; exact Es].
Qed.

Lemma calc_remaining_sample_angles_returns_only_if_witness :
  ("phi"%string = "mu"%string /\ 0 = 0 /\ 0 <= 0 <= PI
   /\ (approx0 (sin 0) -> PI / 6 = 0))
  \/ ("phi"%string = "phi"%string /\ 0 = 0
      /\ - (PI / 2) <= PI / 6 <= PI / 2 /\ SMALL <= Rabs (cos (PI / 6)))
  \/ ("phi"%string = "eta"%string /\ PI / 6 = 0
      /\ - (PI / 2) <= 0 <= PI / 2 /\ SMALL <= Rabs (cos (PI / 6)))
  \/ ("phi"%string = "chi"%string /\ 0 = 0
      /\ 0 <= PI / 6 <= PI /\ SMALL <= Rabs (sin 0)).
Proof.
  exact (calc_remaining_sample_angles_returns_only_if self_100 "phi" 0 _ _ _ _ _ _ _ _
           sample_angles_100).
Defined.

(** ** The remaining detector angles: constraints and errors *)

(** X26: [_calc_remaining_detector_angles] accepts the constraint
    names delta, nu and qaz only: any other name raises [ValueError].
    With delta or nu constrained and sin(2 theta) within the tolerance
    of zero it raises [TypeError]: the message of the exception meant
    for this case is multiplied by a float while it is built.  What it
    returns has the constrained angle as it was given; a qaz it
    computes lies in [-pi/2, pi/2] under a delta constraint and in
    [0, pi] under a nu constraint. *)
Theorem calc_remaining_detector_angles_cases
        (self : YouHklCalculator.t) (constraint_name : string)
        (constraint_value theta : R) :
  let result :=
    _calc_remaining_detector_angles self constraint_name constraint_value theta in
  (~ In constraint_name ["delta"; "nu"; "qaz"] -> exists msg, result = Raise (ValueError msg))
  /\ (In constraint_name ["delta"; "nu"] -> approx0 (sin (2 * theta)) ->
      result = Raise TypeError)
  /\ (forall delta nu qaz,
         result = Return (delta, nu, qaz) ->
         (constraint_name = "delta" /\ delta = constraint_value
          /\ - (PI / 2) <= qaz <= PI / 2)
         \/ (constraint_name = "nu" /\ nu = constraint_value /\ 0 <= qaz <= PI)
         \/ (constraint_name = "qaz" /\ qaz = constraint_value)).
Proof.
  cbn zeta. unfold _calc_remaining_detector_angles.
  split; [| split].
  - intros Hname.
    destruct (String.eqb constraint_name "delta") eqn:E1;
      [apply String.eqb_eq in E1; exfalso; apply Hname; cbn; auto |].
    destruct (String.eqb constraint_name "nu") eqn:E2;
      [apply String.eqb_eq in E2; exfalso; apply Hname; cbn; auto |].
    destruct (String.eqb constraint_name "qaz") eqn:E3;
      [apply String.eqb_eq in E3; exfalso; apply Hname; cbn; auto |].
    eexists. reflexivity.
  - intros Hname Hs. apply is_small_lt in Hs.
    destruct Hname as [<- | [<- | []]]; cbn [String.eqb Ascii.eqb Bool.eqb];
      rewrite Hs; reflexivity.
  - intros delta nu qaz H.
    apply bind_Return_inv in H. destruct H as ([[delta_given nu_given] qaz'] & Hq & H).
    destruct (String.eqb constraint_name "delta") eqn:E1.
    { apply String.eqb_eq in E1. left.
      destruct (is_small (sin (2 * theta))); [discriminate Hq |].
      apply bind_Return_inv in Hq. destruct Hq as (q & _ & Hq).
      rewrite py_asin_bound in Hq. cbn [bind] in Hq.
      apply Return_inj in Hq. injection Hq as <- <- <-.
      cbn [bind] in H. cbn zeta in H.
      apply Return_inj in H. injection H as <- _ <-.
      split; [exact E1 |]. split; [reflexivity | apply asin_bound]. }
    destruct (String.eqb constraint_name "nu") eqn:E2.
    { apply String.eqb_eq in E2. right. left.
      destruct (is_small (sin (2 * theta))); [discriminate Hq |].
      apply bind_Return_inv in Hq. destruct Hq as (q & _ & Hq).
      destruct (Rltb (1 + SMALL) (Rabs q)); [discriminate Hq |].
      rewrite py_acos_bound in Hq. cbn [bind] in Hq.
      apply Return_inj in Hq. injection Hq as <- <- <-.
      set (qz := acos (bound q)) in *.
      assert (Hr : 0 <= qz <= PI) by apply acos_bound.
      clearbody qz.
      apply bind_Return_inv in H. destruct H as (d & _ & H).
      apply Return_inj in H. injection H as _ <- <-.
      split; [exact E2 |]. split; [reflexivity | exact Hr]. }
    destruct (String.eqb constraint_name "qaz") eqn:E3; [| discriminate Hq].
    apply String.eqb_eq in E3. right. right.
    apply Return_inj in Hq. injection Hq as <- <- <-.
    apply bind_Return_inv in H. destruct H as (d & _ & H).
    apply Return_inj in H. injection H as _ _ <-.
    split; [exact E3 | reflexivity].
Qed.

Lemma calc_remaining_detector_angles_cases_witness :
  (exists msg, _calc_remaining_detector_angles self_100 "naz" 0 0 = Raise (ValueError msg))
  /\ _calc_remaining_detector_angles self_100 "delta" 0 0 = Raise TypeError
  /\ (("qaz"%string = "delta"%string /\ PI / 3 = PI / 2 /\ - (PI / 2) <= PI / 2 <= PI / 2)
      \/ ("qaz"%string = "nu"%string /\ 0 = PI / 2 /\ 0 <= PI / 2 <= PI)
      \/ ("qaz"%string = "qaz"%string /\ PI / 2 = PI / 2)).
Proof.
  split; [| split].
  - apply (calc_remaining_detector_angles_cases self_100 "naz" 0 0).
    cbn. intros [E | [E | [E | []]]]; discriminate E.
  - apply (calc_remaining_detector_angles_cases self_100 "delta" 0 0).
    + cbn. auto.
    + unfold approx0. rewrite Rmult_0_r, sin_0, Rabs_R0. exact SMALL_pos.
  - apply (calc_remaining_detector_angles_cases self_100 "qaz" (PI / 2) (PI / 6)).
    exact detector_100.
Defined.

(** X27: the detector angles found for a delta constraint reproduce
    theta.  For 0 < theta < 90 degrees with sin(2 theta) not within
    the tolerance of zero, and a delta between -90 and 90 degrees
    whose sine is smaller in magnitude than sin(2 theta),
    [_calc_remaining_detector_angles] returns that delta with a nu and
    a qaz from which [_theta_and_qaz_from_detector_angles] computes
    theta and the same qaz again. *)
Theorem detector_angles_for_delta_round_trip
        (self : YouHklCalculator.t) (delta theta : R) :
  0 < theta < PI / 2 -> SMALL <= sin (2 * theta) ->
  - (PI / 2) < delta < PI / 2 -> Rabs (sin delta) < sin (2 * theta) ->
  exists nu qaz,
    _calc_remaining_detector_angles self "delta" delta theta = Return (delta, nu, qaz)
    /\ _theta_and_qaz_from_detector_angles delta nu = Return (theta, qaz).
Proof.
  intros Hth Hsmall Hdelta Hsd. pose proof SMALL_pos as HS. pose proof PI_gt_3 as HPI.
  set (s := sin (2 * theta)) in *.
  assert (Hs : 0 < s) by lra.
  set (q := sin delta / s).
  assert (Hq : -1 < q < 1).
  { unfold q. unfold Rabs in Hsd. 
    split.
    - apply (Rmult_lt_reg_r s); [exact Hs |].
      replace (sin delta / s * s) with (sin delta) by (field; lra).
      destruct (Rcase_abs (sin delta)); lra.
    - apply (Rmult_lt_reg_r s); [exact Hs |].
      replace (sin delta / s * s) with (sin delta) by (field; lra).
      destruct (Rcase_abs (sin delta)); lra. }
  set (qaz := asin q).
  assert (Hqaz : - (PI / 2) < qaz < PI / 2) by (apply asin_bound_lt; exact Hq).
  assert (Hsq : sin qaz = q) by (apply sin_asin; lra).
  assert (Hcq : 0 < cos qaz) by (apply cos_gt_0; lra).
  assert (Hcd : 0 < cos delta) by (apply cos_gt_0; lra).
  set (nu := atan2 (s * cos qaz) (cos (2 * theta))).
  exists nu, qaz. split.
  - unfold _calc_remaining_detector_angles.
    cbn [String.eqb Ascii.eqb Bool.eqb]. cbn zeta. fold s.
    rewrite is_small_false by (rewrite Rabs_pos_eq; lra).
    rewrite py_div_nonzero by lra. cbn [bind]. fold q.
    rewrite py_asin_bound. cbn [bind].
    rewrite bound_id by lra. reflexivity.
  - set (a := s * cos qaz) in *.
    set (b := cos (2 * theta)) in *.
    assert (Ha : 0 < a) by (unfold a; apply Rmult_lt_0_compat; lra).
    set (r := sqrt (b * b + a * a)).
    assert (Hr : 0 < r) by (apply sqrt_lt_R0; nra).
    assert (Hrr : r * r = b * b + a * a) by (apply sqrt_sqrt; nra).
    assert (Hcn : cos nu = b / r) by (apply cos_atan2; right; lra).
    assert (Hsn : sin nu = a / r) by (apply sin_atan2; right; lra).
    assert (Hsn0 : 0 < sin nu) by (rewrite Hsn; apply Rdiv_lt_0_compat; assumption).
    (* r = cos delta *)
    assert (Hsds : sin delta = s * sin qaz) by (rewrite Hsq; unfold q; field; lra).
    assert (Hrd : r = cos delta).
    { assert (Hsqr : r * r = cos delta * cos delta).
      { rewrite Hrr. unfold a, b.
        pose proof (cos2_sin2 qaz) as H1. pose proof (cos2_sin2 (2 * theta)) as H2.
        pose proof (cos2_sin2 delta) as H3. fold s in H2. rewrite Hsds in H3.
        set (cq := cos qaz) in *. set (sq := sin qaz) in *.
        set (c2 := cos (2 * theta)) in *. set (cdl := cos delta) in *.
        nra. }
      nra. }
    assert (Hcc : cos delta * cos nu = cos (2 * theta)).
    { rewrite Hcn, <- Hrd. fold b. field. lra. }
    unfold _theta_and_qaz_from_detector_angles. cbn zeta.
    rewrite Hcc, py_acos_bound. cbn [bind].
    rewrite bound_id by (pose proof (COS_bound (2 * theta)); lra).
    rewrite acos_cos by lra.
    replace (2 * theta / 2) with theta by field.
    do 2 f_equal.
    rewrite (atan2_x_pos _ _ Hsn0).
    replace (tan delta / sin nu) with (tan qaz).
    + apply atan_tan. exact Hqaz.
    + unfold tan. rewrite Hsn, Hsds, <- Hrd. unfold a. field. repeat split; lra.
Qed.

Lemma detector_angles_for_delta_round_trip_witness :
  exists nu qaz,
    _calc_remaining_detector_angles self_100 "delta" 0 (PI / 6) = Return (0, nu, qaz)
    /\ _theta_and_qaz_from_detector_angles 0 nu = Return (PI / 6, qaz).
Proof.
  pose proof PI_gt_3 as HPI.
  assert (Hs : 0 < sin (2 * (PI / 6))) by (apply sin_gt_0; lra).
  assert (Hs3 : sin (2 * (PI / 6)) = sqrt 3 / 2) by (rewrite two_PI6; apply sin_PI3).
  pose proof sqrt3_gt_1 as H3.
  apply (detector_angles_for_delta_round_trip self_100 0 (PI / 6)).
  - lra.
  - rewrite Hs3. unfold SMALL. lra.
  - lra.
  - rewrite sin_0, Rabs_R0. exact Hs.
Defined.

(** ** The range of the angles of a solution *)

Lemma cut_at_minus_pi_bounds (value : R) :
  - 3 * PI - SMALL <= value < 3 * PI + SMALL ->
  - PI - SMALL <= cut_at_minus_pi value < PI + SMALL.
Proof.
  intros [Hlo Hhi]. pose proof SMALL_pos. pose proof PI_gt_3. unfold cut_at_minus_pi.
  destruct (Rltb value (- PI - SMALL)) eqn:E1.
  - apply Rltb_lt in E1. lra.
  - apply Rltb_false_inv in E1.
    destruct (Rleb (PI + SMALL) value) eqn:E2.
    + apply Rleb_le in E2. lra.
    + apply Rleb_false_inv in E2. lra.
Qed.

Lemma transformed_values_bounds (value : R) (constrained : bool) (tv : R) :
  - 2 * PI <= value <= 2 * PI ->
  In tv (_generate_transformed_values value constrained) ->
  - 3 * PI <= tv <= 3 * PI.
Proof.
  intros Hv. pose proof PI_gt_3. unfold _generate_transformed_values.
  destruct constrained; [intros [<- | []]; lra |].
  destruct (is_small value); [intros [<- | [<- | []]]; lra |].
  destruct (is_small (value - PI / 2) || is_small (value + PI / 2));
    [intros [<- | [<- | []]]; lra |].
  intros [<- | [<- | [<- | [<- | []]]]]; lra.
Qed.

Lemma axis_candidate_bounds (hardware : Hardware.t) (constrained_names : list string)
      (c value : R) (name : string) :
  - 2 * PI <= value <= 2 * PI ->
  axis_candidate hardware constrained_names c (value, name) ->
  - PI - SMALL <= c < PI + SMALL.
Proof.
  intros Hv (tv & Hin & _ & ->). cbn [fst snd] in Hin.
  apply transformed_values_bounds in Hin; [| exact Hv].
  apply cut_at_minus_pi_bounds. pose proof SMALL_pos. lra.
Qed.

Lemma axis_candidates_bounds (hardware : Hardware.t) (constrained_names : list string)
      (values : list R) (names : list string) (t : list R) :
  Forall (fun v => - 2 * PI <= v <= 2 * PI) values ->
  Forall2 (axis_candidate hardware constrained_names) t (combine values names) ->
  Forall (fun c => - PI - SMALL <= c < PI + SMALL) t.
Proof.
  intros Hv. revert names t.
  induction Hv as [| v values Hv0 Hvs IH]; intros names t H.
  - cbn in H. inversion H. constructor.
  - destruct names as [| name names]; cbn [combine] in H.
    + inversion H. constructor.
    + inversion H as [| c vn t' rest Hc Hrest]; subst. constructor.
      * eapply axis_candidate_bounds; eassumption.
      * eapply IH. exact Hrest.
Qed.

(** X28: the sample angles [_generate_final_sample_angles] returns
    lie in [-pi - SMALL, pi + SMALL), all four, when the initial
    angles it starts from lie within two turns, in [-2 pi, 2 pi]. *)
Theorem generate_final_sample_angles_range
        (self : YouHklCalculator.t) (mu_ eta_ chi_ phi_ : R)
        (sample_constraint_names : list string) (delta nu wavelength : R) (hkl : R * R * R)
        (ref_constraint_name : string) (ref_constraint_value : R) (mu eta chi phi : R) :
  Forall (fun v => - 2 * PI <= v <= 2 * PI) [mu_; eta_; chi_; phi_] ->
  _generate_final_sample_angles self mu_ eta_ chi_ phi_ sample_constraint_names
    delta nu wavelength hkl ref_constraint_name ref_constraint_value
  = Return (mu, eta, chi, phi) ->
  Forall (fun c => - PI - SMALL <= c < PI + SMALL) [mu; eta; chi; phi].
Proof.
  intros Hinit. unfold _generate_final_sample_angles. intros H.
  apply bind_Return_inv in H. destruct H as (possible & Hp & H).
  apply bind_Return_inv in H. destruct H as (survivors & Hf & H).
  apply choose_sample_angles_In in H.
  apply (filter_valid_sample_solutions_In _ _ _ _ _ _ _ _ _ Hf) in H.
  destruct H as (Hin & _ & _).
  apply (generate_possible_solutions_In _ _ _ _ _ _ Hp) in Hin.
  eapply axis_candidates_bounds; eassumption.
Qed.

Lemma generate_final_sample_angles_range_witness :
  Forall (fun c => - PI - SMALL <= c < PI + SMALL) [0; PI / 6; 0; 0].
Proof.
  pose proof PI_gt_3 as HPI.
  apply (generate_final_sample_angles_range self_100 0 (PI / 6) 0 0 ["phi"] (PI / 3) 0 1
           (1, 0, 0) "a_eq_b" 0 0 (PI / 6) 0 0).
  - constructor; [lra |]. constructor; [lra |]. constructor; [lra |].
    constructor; [lra | constructor].
  - exact final_sample_100.
Defined.

(** X29: the detector angles [_generate_final_detector_angles]
    returns lie in [-pi - SMALL, pi + SMALL), both, when the initial
    delta and nu lie within two turns; in the delta = 90 degrees
    shortcut they are the initial delta and a nu of zero. *)
Theorem generate_final_detector_angles_range
        (self : YouHklCalculator.t) (initial_delta initial_nu qaz theta : R)
        (det_constraint_name : string) (delta nu : R) :
  Forall (fun v => - 2 * PI <= v <= 2 * PI) [initial_delta; initial_nu] ->
  _generate_final_detector_angles self initial_delta initial_nu qaz theta det_constraint_name
  = Return (delta, nu) ->
  Forall (fun c => - PI - SMALL <= c < PI + SMALL) [delta; nu]
  /\ (delta_90_shortcut self initial_delta -> delta = initial_delta /\ nu = 0).
Proof.
  intros Hinit. pose proof SMALL_pos as HS. pose proof PI_gt_3 as HPI.
  unfold _generate_final_detector_angles.
  destruct (ne initial_delta (PI / 2)
            && negb (dict_in "nu" (YouConstraintManager.detector
                                     (YouHklCalculator.constraints self)))) eqn:Eshort.
  - intros H. apply Return_inj in H. injection H as <- <-.
    apply delta_90_shortcut_true in Eshort. destruct Eshort as [Hd _].
    unfold approx0 in Hd. split; [| auto].
    assert (Hr : - PI - SMALL <= initial_delta < PI + SMALL).
    { unfold Rabs in Hd. destruct (Rcase_abs (initial_delta - PI / 2));
        unfold SMALL in *; lra. }
    constructor; [exact Hr |]. constructor; [lra | constructor].
  - intros H. split.
    2:{ intros Hs. apply delta_90_shortcut_true in Hs. congruence. }
    apply bind_Return_inv in H. destruct H as (possible & Hp & H).
    apply bind_Return_inv in H. destruct H as (survivors & Hf & H).
    apply bind_Return_inv in H. destruct H as (chosen & Hc & H).
    assert (Hch : In (delta, nu) chosen).
    { unfold _choose_detector_angles in H. destruct (Nat.ltb 1 (List.length chosen));
        [discriminate |]. destruct chosen as [| p l]; [discriminate |].
      apply Return_inj in H. subst p. left. reflexivity. }
    assert (Hs : In (delta, nu) survivors).
    { destruct (Nat.ltb 1 (List.length survivors));
        [| apply Return_inj in Hc; subst chosen; exact Hch].
      destruct (partition close_to_90 survivors) as [close other] eqn:Ep.
      destruct close as [| c0 close']; [apply Return_inj in Hc; subst chosen; exact Hch |].
      apply bind_Return_inv in Hc. destruct Hc as (thetas_ & _ & Hc).
      apply bind_Return_inv in Hc. destruct Hc as (closest_index & _ & Hc).
      apply bind_Return_inv in Hc. destruct Hc as (closest & Hget & Hc).
      apply Return_inj in Hc. subst chosen. apply py_getitem_In in Hget.
      apply in_app_or in Hch. apply (partition_In _ _ _ _ _ Ep).
      destruct Hch as [Ho | [<- | []]]; [right; exact Ho | left; exact Hget]. }
    apply (filter_detector_solutions_In _ _ _ _ Hf) in Hs. destruct Hs as [Hin _].
    apply (generate_possible_solutions_In _ _ _ _ _ _ Hp) in Hin.
    eapply axis_candidates_bounds; eassumption.
Qed.

Lemma generate_final_detector_angles_range_witness :
  Forall (fun c => - PI - SMALL <= c < PI + SMALL) [PI / 3; 0]
  /\ (delta_90_shortcut self_100 (PI / 3) -> PI / 3 = PI / 3 /\ 0 = 0).
Proof.
  pose proof PI_gt_3 as HPI.
  apply (generate_final_detector_angles_range self_100 (PI / 3) 0 (PI / 2) (PI / 6) "qaz").
  - constructor; [lra |]. constructor; [lra | constructor].
  - exact final_detector_100.
Defined.

(** ** The angle between naz and qaz *)

(** X30: equation (30).  When the quotient that
    [_calc_angle_between_naz_and_qaz] takes the arc cosine of lies in
    [-1, 1], the angle it returns lies in [0, pi], and the lab-frame
    scattering vector (18) and reference vector (20) that
    [_hklToAngles] builds with it, naz being qaz minus that angle or
    qaz being naz minus that angle, enclose the angle tau: their dot
    product is cos(tau). *)
Theorem naz_qaz_angle_encloses_tau (theta alpha tau angle : R) :
  _calc_angle_between_naz_and_qaz theta alpha tau = Return angle ->
  Rabs (cos tau - sin alpha * sin theta) <= Rabs (cos alpha * cos theta) ->
  0 <= angle <= PI
  /\ forall qaz naz,
      naz = qaz - angle \/ qaz = naz - angle ->
      dot3 (Vector (cos theta * sin qaz) (- sin theta) (cos theta * cos qaz))
           (Vector (cos alpha * sin naz) (- sin alpha) (cos alpha * cos naz))
      = cos tau.
Proof.
  unfold _calc_angle_between_naz_and_qaz. cbn zeta.
  set (top := cos tau - sin alpha * sin theta).
  set (bottom := cos alpha * cos theta).
  intros H Hle. pose proof SMALL_pos as HS.
  destruct (is_small bottom) eqn:Es; [discriminate H |].
  apply is_small_false_inv in Es.
  assert (Hb : bottom <> 0).
  { intros E. rewrite E, Rabs_R0 in Es. lra. }
  rewrite (py_div_nonzero _ _ Hb) in H. cbn [bind] in H.
  assert (Hq : -1 <= top / bottom <= 1).
  { assert (Habs : Rabs (top / bottom) <= 1).
    { unfold Rdiv. rewrite Rabs_mult, Rabs_inv.
      apply (Rmult_le_reg_r (Rabs bottom)); [lra |].
      rewrite Rmult_assoc, Rinv_l by lra. lra. }
    unfold Rabs in Habs. destruct (Rcase_abs (top / bottom)); lra. }
  rewrite (bound_id _ Hq), (py_acos_in _ Hq) in H.
  apply Return_inj in H. subst angle.
  split; [apply acos_bound |].
  intros qaz naz Hn.
  assert (Hcos : cos (qaz - naz) = top / bottom).
  { destruct Hn as [-> | ->].
    - replace (qaz - (qaz - acos (top / bottom))) with (acos (top / bottom)) by ring.
      apply cos_acos. exact Hq.
    - replace (naz - acos (top / bottom) - naz) with (- acos (top / bottom)) by ring.
      rewrite cos_neg. apply cos_acos. exact Hq. }
  rewrite cos_minus in Hcos.
  unfold dot3. cbn [v0 v1 v2].
  replace (cos theta * sin qaz * (cos alpha * sin naz) + - sin theta * - sin alpha
           + cos theta * cos qaz * (cos alpha * cos naz))
    with (bottom * (cos qaz * cos naz + sin qaz * sin naz) + sin alpha * sin theta)
    by (unfold bottom; ring).
  rewrite Hcos. unfold top. field. exact Hb.
Qed.

Lemma naz_qaz_angle_encloses_tau_witness :
  0 <= PI / 2 <= PI
  /\ forall qaz naz,
      naz = qaz - PI / 2 \/ qaz = naz - PI / 2 ->
      dot3 (Vector (cos (PI / 6) * sin qaz) (- sin (PI / 6)) (cos (PI / 6) * cos qaz))
           (Vector (cos 0 * sin naz) (- sin 0) (cos 0 * cos naz))
      = cos (PI / 2).
Proof.
  apply (naz_qaz_angle_encloses_tau (PI / 6) 0 (PI / 2) (PI / 2) naz_qaz_100).
  rewrite cos_PI2, sin_0, cos_0, Rmult_0_l, Rminus_0_r, Rabs_R0. apply Rabs_pos.
Defined.
